(** * EzGz: a shallow embedding of the DEFLATE / GZIP decompressor of [ezgz.hpp]

    The development follows the classes of the header one module each:
    [ByteInput], [BitReader], [ByteOutput], [EncodedTable], [DeflateReader],
    [IDeflateArchive] and [IGzFile].  Machine integers are [Z] with the
    wrap-around of narrow types written out, byte arrays are [list Z] of the
    declared size, C++ exceptions are the [Throw] results of an error monad and
    an access outside an array is the distinct outcome [Undefined_behaviour]. *)

From Stdlib Require Import ZArith Lia.
From stdpp Require Import base list.

Local Open Scope Z_scope.

(** ** Exceptions and results *)

(** What the three input adapters of [IDeflateArchive] (and a user supplied
    pull function) may throw. *)
Inductive callback_error :=
  | Cant_read_file          (* "Can't read file" *)
  | Truncated_file          (* "Truncated file" *)
  | Truncated_input         (* "Truncated input" *)
  | User_callback_error.

(** One constructor per [throw] of the header, named after its message. *)
Inductive exception :=
  | Unexpected_end_of_stream              (* runtime_error, ByteInput::ensureSize *)
  | Writing_more_bytes_than_available     (* logic_error, ByteOutput::checkSize *)
  | Consume_cannot_keep_more_bytes        (* logic_error, ByteOutput::consume *)
  | Looking_back_too_many_bytes           (* runtime_error, ByteOutput::repeatSequence *)
  | Invalid_lookback_position             (* runtime_error, EncodedTable *)
  | Run_out_of_Huffman_codes              (* runtime_error, EncodedTable *)
  | Unknown_Huffman_code_first_8_bits     (* runtime_error, readWord *)
  | Unknown_Huffman_code_ending_bits      (* runtime_error, readWord *)
  | Unknown_Huffman_code_bad_prefix       (* runtime_error, readWord *)
  | Inverted_length_mismatching           (* runtime_error, LiteralState *)
  | Impossible_number_of_extra_codes      (* runtime_error, parseSome *)
  | Impossible_number_of_distance_codes   (* runtime_error, parseSome *)
  | Invalid_distance_code_count           (* runtime_error, parseSome *)
  | Unknown_type_of_block_compression     (* runtime_error, parseSome *)
  | Crc32_checksum_does_not_match         (* runtime_error, IGzFile::onFinish *)
  | Callback_exception (e : callback_error)
  | Undefined_behaviour                   (* out of bounds access, bad shift count, null reader *)
  | Does_not_terminate.                   (* a loop of the source that never exits *)

Inductive result (A : Type) :=
  | OK (a : A)
  | Throw (e : exception).
Arguments OK {A} a.
Arguments Throw {A} e.

Definition bind {A B} (m : result A) (k : A → result B) : result B :=
  match m with
  | OK a => k a
  | Throw e => Throw e
  end.

Notation "'do' x <- m 'in' k" := (bind m (λ x, k))
  (at level 10, x name, m at level 100, k at level 200, only parsing).
Notation "'do' ' p <- m 'in' k" := (bind m (λ x, match x with p => k end))
  (at level 10, p pattern, m at level 100, k at level 200, only parsing).

(** The error kinds of the specification (section 7), and the kind each
    exception of the header falls under. *)
Inductive ErrorKind :=
  | UnexpectedEndOfStream
  | MalformedHeader
  | InvalidHuffmanCode
  | CorruptedLiteralBlock
  | BackReferenceOutOfRange
  | ChecksumMismatch
  | Internal.

Definition kind_of (e : exception) : option ErrorKind :=
  match e with
  | Unexpected_end_of_stream => Some UnexpectedEndOfStream
  | Writing_more_bytes_than_available => Some Internal
  | Consume_cannot_keep_more_bytes => Some Internal
  | Looking_back_too_many_bytes => Some BackReferenceOutOfRange
  | Invalid_lookback_position => Some MalformedHeader
  | Run_out_of_Huffman_codes => Some InvalidHuffmanCode
  | Unknown_Huffman_code_first_8_bits => Some InvalidHuffmanCode
  | Unknown_Huffman_code_ending_bits => Some InvalidHuffmanCode
  | Unknown_Huffman_code_bad_prefix => Some InvalidHuffmanCode
  | Inverted_length_mismatching => Some CorruptedLiteralBlock
  | Impossible_number_of_extra_codes => Some MalformedHeader
  | Impossible_number_of_distance_codes => Some MalformedHeader
  | Invalid_distance_code_count => Some MalformedHeader
  | Unknown_type_of_block_compression => Some MalformedHeader
  | Crc32_checksum_does_not_match => Some ChecksumMismatch
  | Callback_exception _ => None
  | Undefined_behaviour => None
  | Does_not_terminate => None
  end.

(** ** Arrays *)

Definition len {A} (l : list A) : Z := Z.of_nat (length l).

(** [a[i]] *)
Definition index {A} (a : list A) (i : Z) : result A :=
  if i <? 0 then Throw Undefined_behaviour
  else match a !! Z.to_nat i with
       | Some x => OK x
       | None => Throw Undefined_behaviour
       end.

(** [a[i] = x] *)
Definition store {A} (a : list A) (i : Z) (x : A) : result (list A) :=
  if (0 <=? i) && (i <? len a) then OK (<[Z.to_nat i := x]> a)
  else Throw Undefined_behaviour.

(** The bytes of [a] at positions [from .. to - 1]. *)
Definition seg {A} (from to : Z) (a : list A) : list A :=
  take (Z.to_nat (to - from)) (drop (Z.to_nat from) a).

(** [memcpy(a + at, bytes, bytes.size())] *)
Definition blit {A} (a : list A) (at_ : Z) (bytes : list A) : result (list A) :=
  if (0 <=? at_) && (at_ + len bytes <=? len a)
  then OK (take (Z.to_nat at_) a ++ bytes ++ drop (Z.to_nat (at_ + len bytes)) a)
  else Throw Undefined_behaviour.

(** [memmove(a + dst, a + src, n)] *)
Definition memmove {A} (a : list A) (dst src n : Z) : result (list A) :=
  if (0 <=? n) && (0 <=? src) && (src + n <=? len a)
  then blit a dst (seg src (src + n) a)
  else Throw Undefined_behaviour.

(** Little-endian value of a byte sequence ([memcpy] into a zeroed integer on
    a little-endian host). *)
Definition le_value (bytes : list Z) : Z :=
  foldr (λ b acc, b + 256 * acc) 0 bytes.

(** ** Settings *)

(** [ChecksumTrait]: a callable that folds a byte range into its state and
    reports the digest. *)
Record ChecksumTrait := {
  cs_state : Type;
  cs_init : cs_state;
  cs_fold : cs_state → list Z → cs_state;
  cs_digest : cs_state → Z
}.

Record DecompressionSettings := {
  maxOutputBufferSize : Z;
  minOutputBufferSize : Z;
  inputBufferSize : Z;
  Checksum : ChecksumTrait;
  verifyChecksum : bool
}.

Definition NoChecksum : ChecksumTrait :=
  {| cs_state := unit; cs_init := tt; cs_fold := λ s _, s; cs_digest := λ _, 0 |}.

Definition generateBasicCrc32LookupTable : list Z :=
  let reversedPolynomial := 0xedb88320 in
  map (λ i : nat,
         Nat.iter 8 (λ r, Z.lxor (Z.shiftr r 1) (Z.land r 1 * reversedPolynomial))
                  (Z.of_nat i))
      (seq 0 256).

Definition basicCrc32LookupTable : list Z :=
  Eval vm_compute in generateBasicCrc32LookupTable.

Definition LightCrc32_fold (state : Z) (input : list Z) : Z :=
  foldl (λ state it,
           let tableIndex := Z.lxor state it mod 256 in
           Z.lxor (Z.shiftr state 8) (nth (Z.to_nat tableIndex) basicCrc32LookupTable 0))
        state input.

Definition LightCrc32 : ChecksumTrait :=
  {| cs_state := Z; cs_init := 0xffffffff; cs_fold := LightCrc32_fold;
     cs_digest := λ state, Z.lxor state 0xffffffff |}.

Definition MinDecompressionSettings : DecompressionSettings :=
  {| maxOutputBufferSize := 32768 * 2 + 258;
     minOutputBufferSize := Z.min 32768 ((32768 * 2 + 258) / 2);
     inputBufferSize := 33000;
     Checksum := NoChecksum;
     verifyChecksum := false |}.

Definition generateNextCrc32LookupTableSlice (previous : list Z) : list Z :=
  map (λ p, Z.lxor (Z.shiftr p 8)
              (nth (Z.to_nat (Z.land p 0xff)) basicCrc32LookupTable 0))
      previous.

Fixpoint CrcLookupTable (Slice : nat) : list Z :=
  match Slice with
  | O => basicCrc32LookupTable
  | S Slice => generateNextCrc32LookupTableSlice (CrcLookupTable Slice)
  end.

Definition lookupTables : list (list Z) :=
  Eval vm_compute in map CrcLookupTable (seq 0 16).

(** The loop of [FastCrc32] over whole chunks of 16 bytes, then the bytes
    that are left one at a time; [chunks] bounds the turns. *)
Fixpoint FastCrc32_chunks (chunks : nat) (state : Z) (input : list Z) : Z :=
  match chunks with
  | O => LightCrc32_fold state input
  | S chunks =>
      let chunkSize := 16 in
      if chunkSize <? len input then
        let number := Z.lxor state (le_value (take 4 input)) in
        let bytes := [number mod 256; Z.shiftr number 8 mod 256;
                      Z.shiftr number 16 mod 256; Z.shiftr number 24 mod 256] in
        let state :=
          foldl (λ state '(i, byte),
                   Z.lxor state (nth (Z.to_nat byte) (nth (15 - i) lookupTables []) 0))
                0 (zip (seq 0 16) (bytes ++ drop 4 (take 16 input))) in
        FastCrc32_chunks chunks state (drop 16 input)
      else LightCrc32_fold state input
  end.

Definition FastCrc32_fold (state : Z) (input : list Z) : Z :=
  FastCrc32_chunks (length input) state input.

Definition FastCrc32 : ChecksumTrait :=
  {| cs_state := Z; cs_init := 0xffffffff; cs_fold := FastCrc32_fold;
     cs_digest := λ state, Z.lxor state 0xffffffff |}.

Definition DefaultDecompressionSettings : DecompressionSettings :=
  {| maxOutputBufferSize := 100000;
     minOutputBufferSize := minOutputBufferSize MinDecompressionSettings;
     inputBufferSize := 100000;
     Checksum := FastCrc32;
     verifyChecksum := true |}.

Definition codeCodingReorder : list Z :=
  [16; 17; 18; 0; 8; 7; 9; 6; 10; 5; 11; 4; 12; 3; 13; 2; 14; 1; 15].

(** ** The pull source *)

(** What [readMore(batch)] did: it wrote [bytes] at the start of the batch and
    returned their number, or it threw. *)
Inductive pulled (Src : Type) :=
  | Pulled (bytes : list Z) (next : Src)
  | Thrown (e : callback_error).
Arguments Pulled {Src} bytes next.
Arguments Thrown {Src} e.

(** [std::function<int(std::span<uint8_t> batch)>]: the state captured by the
    callable and what a call with a batch of [capacity] bytes does. *)
Class PullSource (Src : Type) := readMore : Src → Z → pulled Src.

(** ** ByteInput *)

Module ByteInput.

Record t (Src : Type) := mk {
  buffer : list Z;
  source : Src;
  position : Z;
  filled : Z
}.
Arguments mk {Src}.
Arguments buffer {Src}.
Arguments source {Src}.
Arguments position {Src}.
Arguments filled {Src}.

Section WithSource.
Context {Src : Type} `{!PullSource Src}.

Definition make (S : DecompressionSettings) (src : Src) : t Src :=
  mk (replicate (Z.to_nat (inputBufferSize S + 4)) 0) src 0 0.

Definition refillSome (bi : t Src) : result (Z * t Src) :=
  do bi <- (if position bi >? len (buffer bi) / 2 then
              let filled' := filled bi - position bi in
              do buffer' <- memmove (buffer bi) 0 (position bi) filled' in
              OK (mk buffer' (source bi) 0 filled')
            else OK bi) in
  match readMore (source bi) (len (buffer bi) - filled bi) with
  | Thrown e => Throw (Callback_exception e)
  | Pulled bytes next =>
      do buffer' <- blit (buffer bi) (filled bi) bytes in
      let added := len bytes in
      OK (added, mk buffer' next (position bi) (filled bi + added))
  end.

(** The [while] of [ensureSize]; every turn either throws or shrinks
    [position + bytes - filled], so that many turns are enough. *)
Fixpoint ensureSize_loop (fuel : nat) (bytes : Z) (bi : t Src) : result (t Src) :=
  if position bi + bytes >? filled bi then
    match fuel with
    | O => Throw Does_not_terminate
    | S fuel =>
        do '(added, bi) <- refillSome bi in
        if added =? 0 then Throw Unexpected_end_of_stream
        else ensureSize_loop fuel bytes bi
    end
  else OK bi.

Definition ensureSize (bytes : Z) (bi : t Src) : result (t Src) :=
  ensureSize_loop (Z.to_nat (position bi + bytes - filled bi)) bytes bi.

Definition getRange (size : Z) (bi : t Src) : result (list Z * t Src) :=
  do bi <- (if position bi + size >=? filled bi
            then do '(_, bi) <- refillSome bi in OK bi
            else OK bi) in
  let start := position bi in
  let available := Z.min size (filled bi - start) in
  if (0 <=? start) && (0 <=? available) && (start + available <=? len (buffer bi))
  then OK (seg start (start + available) (buffer bi),
           mk (buffer bi) (source bi) (position bi + available) (filled bi))
  else Throw Undefined_behaviour.

(** [getInteger<IntType>(bytes)], for [bytes] no more than the width of
    [IntType]. *)
Definition getInteger (bytes : Z) (bi : t Src) : result (Z * t Src) :=
  do bi <- ensureSize bytes bi in
  if (0 <=? position bi) && (0 <=? bytes)
  then OK (le_value (seg (position bi) (position bi + bytes) (buffer bi)),
           mk (buffer bi) (source bi) (position bi + bytes) (filled bi))
  else Throw Undefined_behaviour.

Definition getBytes (amount : Z) (bi : t Src) : result (Z * t Src) :=
  getInteger amount bi.

Definition returnBytes (amount : Z) (bi : t Src) : t Src :=
  mk (buffer bi) (source bi) (position bi - amount) (filled bi).

End WithSource.
End ByteInput.

(** ** BitReader *)

Module BitReader.

(** [input] is either null or the one [ByteInput] of the session, which the
    operations below take and give back next to the reader. *)
Record t := mk {
  attached : bool;
  bitsLeft : Z;
  data : Z
}.

Definition minimumBits : Z := 16.

Definition upperRemovals : list Z :=
  [0x0000; 0x0001; 0x0003; 0x0007; 0x000f; 0x001f; 0x003f; 0x007f; 0x00ff;
   0x01ff; 0x03ff; 0x07ff; 0x0fff; 0x1fff; 0x3fff; 0x7fff; 0xffff].

Definition reversedBytes : list Z :=
  [0x0; 0x80; 0x40; 0xc0; 0x20; 0xa0; 0x60; 0xe0; 0x10;
   0x90; 0x50; 0xd0; 0x30; 0xb0; 0x70; 0xf0; 0x08; 0x88; 0x48; 0xc8; 0x28; 0xa8; 0x68; 0xe8; 0x18; 0x98; 0x58;
   0xd8; 0x38; 0xb8; 0x78; 0xf8; 0x04; 0x84; 0x44; 0xc4; 0x24; 0xa4; 0x64; 0xe4; 0x14; 0x94; 0x54; 0xd4; 0x34;
   0xb4; 0x74; 0xf4; 0x0c; 0x8c; 0x4c; 0xcc; 0x2c; 0xac; 0x6c; 0xec; 0x1c; 0x9c; 0x5c; 0xdc; 0x3c; 0xbc; 0x7c;
   0xfc; 0x02; 0x82; 0x42; 0xc2; 0x22; 0xa2; 0x62; 0xe2; 0x12; 0x92; 0x52; 0xd2; 0x32; 0xb2; 0x72; 0xf2; 0x0a;
   0x8a; 0x4a; 0xca; 0x2a; 0xaa; 0x6a; 0xea; 0x1a; 0x9a; 0x5a; 0xda; 0x3a; 0xba; 0x7a; 0xfa; 0x6; 0x86; 0x46;
   0xc6; 0x26; 0xa6; 0x66; 0xe6; 0x16; 0x96; 0x56; 0xd6; 0x36; 0xb6; 0x76; 0xf6; 0x0e; 0x8e; 0x4e; 0xce; 0x2e;
   0xae; 0x6e; 0xee; 0x1e; 0x9e; 0x5e; 0xde; 0x3e; 0xbe; 0x7e; 0xfe; 0x01; 0x81; 0x41; 0xc1; 0x21; 0xa1; 0x61;
   0xe1; 0x11; 0x91; 0x51; 0xd1; 0x31; 0xb1; 0x71; 0xf1; 0x09; 0x89; 0x49; 0xc9; 0x29; 0xa9; 0x69; 0xe9; 0x19;
   0x99; 0x59; 0xd9; 0x39; 0xb9; 0x79; 0xf9; 0x05; 0x85; 0x45; 0xc5; 0x25; 0xa5; 0x65; 0xe5; 0x15; 0x95; 0x55;
   0xd5; 0x35; 0xb5; 0x75; 0xf5; 0x0d; 0x8d; 0x4d; 0xcd; 0x2d; 0xad; 0x6d; 0xed; 0x1d; 0x9d; 0x5d; 0xdd; 0x3d;
   0xbd; 0x7d; 0xfd; 0x03; 0x83; 0x43; 0xc3; 0x23; 0xa3; 0x63; 0xe3; 0x13; 0x93; 0x53; 0xd3; 0x33; 0xb3; 0x73;
   0xf3; 0x0b; 0x8b; 0x4b; 0xcb; 0x2b; 0xab; 0x6b; 0xeb; 0x1b; 0x9b; 0x5b; 0xdb; 0x3b; 0xbb; 0x7b; 0xfb; 0x07;
   0x87; 0x47; 0xc7; 0x27; 0xa7; 0x67; 0xe7; 0x17; 0x97; 0x57; 0xd7; 0x37; 0xb7; 0x77; 0xf7; 0x0f; 0x8f; 0x4f;
   0xcf; 0x2f; 0xaf; 0x6f; 0xef; 0x1f; 0x9f; 0x5f; 0xdf; 0x3f; 0xbf; 0x7f; 0xff].

(** [BitGroup]: the bits read so far, first bit in the most significant
    place; its parent is the reader it is used with. *)
Record BitGroup := mkGroup {
  value : Z;
  getBitCount : Z
}.

Section WithSource.
Context {Src : Type} `{!PullSource Src}.

Local Abbreviation ByteInput := (ByteInput.t Src).

(** [BitReader(ByteInputType* byteInput)] *)
Definition make : t := mk true 0 0.
Definition null : t := mk false 0 0.

(** [~BitReader()] *)
Definition destroy (r : t) (bi : ByteInput) : ByteInput :=
  if attached r then ByteInput.returnBytes (Z.shiftr (bitsLeft r) 3) bi else bi.

(** The host is little-endian: the bytes added are loaded with [memcpy]. *)
Definition refillIfNeeded (r : t) (bi : ByteInput) : result (t * ByteInput) :=
  if bitsLeft r <? minimumBits then
    if negb (attached r) then Throw Undefined_behaviour else
    do '(added, bi) <- ByteInput.getRange (8 - minimumBits / 8) bi in
    if bitsLeft r <? 0 then Throw Undefined_behaviour else
    let number := Z.shiftl (le_value added) (bitsLeft r) mod 2 ^ 64 in
    OK (mk true (bitsLeft r + Z.shiftl (len added) 3) ((data r + number) mod 2 ^ 64), bi)
  else OK (r, bi).

(** Up to 8 bits, unwanted bits blanked *)
Definition getBits (amount : Z) (r : t) (bi : ByteInput)
  : result (BitGroup * t * ByteInput) :=
  do '(r, bi) <- refillIfNeeded r bi in
  do result_ <- index reversedBytes (data r mod 256) in
  if (amount <? 0) || (8 <? amount) then Throw Undefined_behaviour else
  OK (mkGroup (Z.shiftr result_ (8 - amount)) amount,
      mk (attached r) (bitsLeft r - amount) (Z.shiftr (data r) amount), bi).

(** [BitGroup::getMore] *)
Definition getMore (amount : Z) (g : BitGroup) (r : t) (bi : ByteInput)
  : result (BitGroup * t * ByteInput) :=
  do '(added, r, bi) <- getBits amount r bi in
  OK (mkGroup (Z.lor (Z.shiftl (value g) amount mod 2 ^ 64) (value added))
              (getBitCount g + amount), r, bi).

(** Up to 16 bits, unwanted bits blanked *)
Definition getBitsForwardOrder (amount : Z) (r : t) (bi : ByteInput)
  : result (Z * t * ByteInput) :=
  do '(r, bi) <- refillIfNeeded r bi in
  let result_ := data r mod 2 ^ 16 in
  do mask <- index upperRemovals amount in
  OK (Z.land result_ mask,
      mk (attached r) (bitsLeft r - amount) (Z.shiftr (data r) amount), bi).

(** Provides 8 bits, the functor must return how many of them were actually
    wanted; what the functor stores in the variables it captures is the [A]
    it returns here. *)
Definition peekAByteAndConsumeSome {A} (readAndTellHowMuchToConsume : Z → result (A * Z))
    (r : t) (bi : ByteInput) : result (A * t * ByteInput) :=
  do '(r, bi) <- refillIfNeeded r bi in
  let pulled := data r mod 256 in
  do reversed <- index reversedBytes pulled in
  do '(a, consumed) <- readAndTellHowMuchToConsume reversed in
  if consumed <? 0 then Throw Undefined_behaviour else
  OK (a, mk (attached r) (bitsLeft r - consumed) (Z.shiftr (data r) consumed), bi).

(** Uses the table in the specification to determine how many bytes are copied *)
Definition parseLongerSize (partOfSize : Z) (r : t) (bi : ByteInput)
  : result (Z * t * ByteInput) :=
  if negb (partOfSize =? 31) then
    let size := partOfSize in
    let nextBits := Z.shiftr (size - 7) 2 in
    do '(additionalBits, r, bi) <- getBitsForwardOrder nextBits r bi in
    let size := size + 1 in
    let size := Z.lor (Z.shiftl (Z.land size 0x3) nextBits) additionalBits
                + (Z.shiftl 1 (Z.shiftr size 2) + 3) in
    OK (size, r, bi)
  else OK (258, r, bi).

Definition distanceOffsets : list Z :=
  [1; 2; 3; 4; 5; 7; 9; 13; 17; 25; 33;
   49; 65; 97; 129; 193; 257; 385; 513; 769; 1025; 1537; 2049; 3073; 4097; 6145; 8193; 12289; 16385; 24577].

(** Uses the table in the specification to determine distance from where bytes are copied *)
Definition parseLongerDistance (partOfDistance : Z) (r : t) (bi : ByteInput)
  : result (Z * t * ByteInput) :=
  let readMore_ := Z.shiftr (partOfDistance - 3) 1 in
  do '(moreBits, r, bi) <- getBitsForwardOrder readMore_ r bi in
  do offset <- index distanceOffsets (partOfDistance - 1) in
  OK (offset + moreBits, r, bi).

End WithSource.
End BitReader.

(** ** Loops *)

(** [for (int i = from; i < from + count; i++) body] for a body that leaves
    [i] and the bound alone. *)
Fixpoint for_count {St} (count : nat) (from : Z) (body : Z → St → result St) (st : St)
  : result St :=
  match count with
  | O => OK st
  | S count => do st <- body from st in for_count count (from + 1) body st
  end.

Definition for_range {St} (from to : Z) (body : Z → St → result St) (st : St)
  : result St :=
  for_count (Z.to_nat (to - from)) from body st.

(** ** ByteOutput *)

Module ByteOutput.

Record t (S : DecompressionSettings) := mk {
  buffer : list Z;
  used : Z;
  consumed : Z;
  expectsMore : bool;
  checksum : cs_state (Checksum S)
}.
Arguments mk {S}.
Arguments buffer {S}.
Arguments used {S}.
Arguments consumed {S}.
Arguments expectsMore {S}.
Arguments checksum {S}.

Section WithSettings.
Context {S : DecompressionSettings}.

Definition make : t S :=
  mk (replicate (Z.to_nat (maxOutputBufferSize S)) 0) 0 0 true (cs_init (Checksum S)).

Definition checkSize (added : Z) (bo : t S) : result unit :=
  if used bo + added >? len (buffer bo)
  then Throw Writing_more_bytes_than_available
  else OK tt.

Definition available (bo : t S) : Z := len (buffer bo) - used bo.

(** A span [buffer.data() + from] of [count] bytes. *)
Definition span (from count : Z) (bo : t S) : result (list Z) :=
  if (0 <=? from) && (0 <=? count) && (from + count <=? len (buffer bo))
  then OK (seg from (from + count) (buffer bo))
  else Throw Undefined_behaviour.

Definition consume (bytesToKeep : Z) (bo : t S) : result (list Z * t S) :=
  if negb (expectsMore bo) then
    (* Last batch has to be handled differently *)
    do returning <- span (consumed bo) (used bo - consumed bo) bo in
    OK (returning,
        mk (buffer bo) (used bo) (used bo) (expectsMore bo)
           (cs_fold (Checksum S) (checksum bo) returning))
  else
    (* Clean the space from the previous consume() call *)
    let bytesKept := Z.min bytesToKeep (consumed bo) in
    let removing := consumed bo - bytesKept in
    let minimum := minOutputBufferSize S - used bo + consumed bo in
    let '(bytesKept, removing) :=
      if bytesKept <? minimum then (minimum, consumed bo - minimum)
      else (bytesKept, removing) in
    if removing <? 0 then Throw Consume_cannot_keep_more_bytes else
    do buffer' <- memmove (buffer bo) 0 removing (used bo - removing) in
    let used' := used bo - removing in
    let consumed' := used' in
    let bo' := mk buffer' used' consumed' (expectsMore bo) (checksum bo) in
    (* Return a next batch *)
    do returning <- span bytesKept (consumed' - bytesKept) bo' in
    OK (returning,
        mk buffer' used' consumed' (expectsMore bo)
           (cs_fold (Checksum S) (checksum bo) returning)).

Definition addByte (byte : Z) (bo : t S) : result (t S) :=
  do _ <- checkSize 1 bo in
  do buffer' <- store (buffer bo) (used bo) byte in
  OK (mk buffer' (used bo + 1) (consumed bo) (expectsMore bo) (checksum bo)).

Definition addBytes (bytes : list Z) (bo : t S) : result (t S) :=
  do _ <- checkSize (len bytes) bo in
  do buffer' <- blit (buffer bo) (used bo) bytes in
  OK (mk buffer' (used bo + len bytes) (consumed bo) (expectsMore bo) (checksum bo)).

(** The [while (written < length)] of [repeatSequence]: a turn with a positive
    [distance] writes at least one byte, so [length] turns are enough; with
    [distance = 0] no turn writes anything and the loop never exits. *)
Fixpoint repeatSequence_loop (fuel : nat) (length distance written : Z) (bo : t S)
  : result (t S) :=
  if written <? length then
    match fuel with
    | O => Throw Does_not_terminate
    | Datatypes.S fuel =>
        if distance >? used bo then Throw Looking_back_too_many_bytes else
        let toWrite := Z.min distance (length - written) in
        do buffer' <- memmove (buffer bo) (used bo) (used bo - distance) toWrite in
        repeatSequence_loop fuel length distance (written + toWrite)
          (mk buffer' (used bo + toWrite) (consumed bo) (expectsMore bo) (checksum bo))
    end
  else OK bo.

Definition repeatSequence (length distance : Z) (bo : t S) : result (t S) :=
  do _ <- checkSize length bo in
  repeatSequence_loop (Z.to_nat length) length distance 0 bo.

Definition getChecksum (bo : t S) : cs_state (Checksum S) := checksum bo.

Definition done (bo : t S) : t S :=
  mk (buffer bo) (used bo) (consumed bo) false (checksum bo).

End WithSettings.
End ByteOutput.

(** ** EncodedTable *)

Module CodeEntry.
Record t := mk {
  code : Z;
  length : Z     (* 0 if unused *)
}.
End CodeEntry.

Module CodeRemainder.
Record t := mk {
  remainder : Z;
  bitsLeft : Z;
  index : Z      (* bit or with 0x8000 if it's the last one in sequence *)
}.
End CodeRemainder.

Module UnindexedEntry.
Record t := mk {
  quantity : Z;
  startIndex : Z;
  filled : Z
}.
End UnindexedEntry.

Module EncodedTable.

(** The [reader] reference of the class is the [BitReader] of the state that
    owns the table; the operations take it and give it back. *)
Record t := mk {
  MaxSize : Z;
  codes : list CodeEntry.t;
  remainders : list CodeRemainder.t;
  codesIndex : list Z  (* If value is greater than MaxSize, it's a remainder at index value minus MaxSize *)
}.

Definition UNINDEXED : Z := -1.
Definition UNUSED : Z := -2.

Definition startMasks : list Z :=
  [0x00; 0x80; 0xc0; 0xe0; 0xf0; 0xf8; 0xfc; 0xfe; 0xff].

(** [codes[i].length = length] *)
Definition setLength (codes : list CodeEntry.t) (i length : Z) : result (list CodeEntry.t) :=
  do entry <- index codes i in
  store codes i (CodeEntry.mk (CodeEntry.code entry) (length mod 256)).

(** [for (int j = from; j < from + count; j++) codes[j].length = length] *)
Definition fillLengths (codes : list CodeEntry.t) (from count length : Z)
  : result (list CodeEntry.t) :=
  for_range from (from + count) (λ j codes, setLength codes j length) codes.

(** [quantities[length] += amount] *)
Definition addQuantity (quantities : list Z) (length amount : Z) : result (list Z) :=
  do quantity <- index quantities length in
  store quantities length (quantity + amount).

Section WithSource.
Context {Src : Type} `{!PullSource Src}.

Local Abbreviation ByteInput := (ByteInput.t Src).

(** The state of the loop that reads the Huffman-encoded Huffman codes. *)
Record Lengths := mkLengths {
  l_codes : list CodeEntry.t;
  l_quantities : list Z;
  l_reader : BitReader.t;
  l_input : ByteInput
}.

(** The functor that decodes one symbol of the code-length alphabet: the
    symbol it stores in [length], and the number of bits it returns. *)
Definition peekLength (codeCodingLookup codeCodingLengths : list Z) (peeked : Z)
  : result (Z * Z) :=
  do length <- index codeCodingLookup peeked in
  do consumed <- index codeCodingLengths length in
  OK (length, consumed).

(** One turn of [for (int i = 0; i < realSize; )], giving the next [i]. *)
Definition readLength (codeCodingLookup codeCodingLengths : list Z) (i : Z) (st : Lengths)
  : result (Z * Lengths) :=
  let '(mkLengths codes quantities r bi) := st in
  do '(length, r, bi) <-
    BitReader.peekAByteAndConsumeSome (peekLength codeCodingLookup codeCodingLengths) r bi in
  if length <? 16 then
    do codes <- setLength codes i length in
    do quantities <- addQuantity quantities length 1 in
    OK (i + 1, mkLengths codes quantities r bi)
  else if length =? 16 then
    if i =? 0 then Throw Invalid_lookback_position else
    do '(bits, r, bi) <- BitReader.getBitsForwardOrder 2 r bi in
    let copy := bits + 3 in
    do previous <- index codes (i - 1) in
    do codes <- fillLengths codes i copy (CodeEntry.length previous) in
    do quantities <- addQuantity quantities (CodeEntry.length previous) copy in
    OK (i + copy, mkLengths codes quantities r bi)
  else
    do '(zeroCount, r, bi) <-
      (if length =? 17 then
         do '(bits, r, bi) <- BitReader.getBitsForwardOrder 3 r bi in OK (bits + 3, r, bi)
       else
         do '(sevenBitsValue, r, bi) <- BitReader.getBitsForwardOrder 7 r bi in
         OK (sevenBitsValue + 11, r, bi)) in
    do codes <- fillLengths codes i zeroCount 0 in
    OK (i + zeroCount, mkLengths codes quantities r bi).

(** Every turn moves [i] forward by one at least, so [realSize] turns are
    enough. *)
Fixpoint readLengths (fuel : nat) (realSize : Z) (codeCodingLookup codeCodingLengths : list Z)
    (i : Z) (st : Lengths) : result Lengths :=
  if i <? realSize then
    match fuel with
    | O => Throw Does_not_terminate
    | S fuel =>
        do '(i, st) <- readLength codeCodingLookup codeCodingLengths i st in
        readLengths fuel realSize codeCodingLookup codeCodingLengths i st
    end
  else OK st.

(** The state of the loops that generate the codes. *)
Record Generated := mkGenerated {
  g_codes : list CodeEntry.t;
  g_codesIndex : list Z;
  g_unindexedEntries : list UnindexedEntry.t;
  g_nextCode : Z
}.

Definition generateCode (size i : Z) (st : Generated) : result Generated :=
  let '(mkGenerated codes codesIndex unindexedEntries nextCode) := st in
  do entry <- index codes i in
  if CodeEntry.length entry =? size then
    if nextCode >=? Z.shiftl 1 size then Throw Run_out_of_Huffman_codes else
    let code := nextCode mod 2 ^ 16 in
    do codes <- store codes i (CodeEntry.mk code (CodeEntry.length entry)) in
    if size <=? 8 then
      do codesIndex <-
        for_range (Z.shiftl code (8 - size)) (Z.shiftl (code + 1) (8 - size))
          (λ code codesIndex, store codesIndex code i) codesIndex in
      OK (mkGenerated codes codesIndex unindexedEntries (nextCode + 1))
    else
      let startPart := Z.shiftr nextCode (size - 8) in
      do codesIndex <- store codesIndex startPart UNINDEXED in
      do unindexed <- index unindexedEntries startPart in
      do unindexedEntries <-
        store unindexedEntries startPart
          (UnindexedEntry.mk (UnindexedEntry.quantity unindexed + 1)
             (UnindexedEntry.startIndex unindexed) (UnindexedEntry.filled unindexed)) in
      OK (mkGenerated codes codesIndex unindexedEntries (nextCode + 1))
  else OK st.

Definition generateCodes (realSize : Z) (quantities : list Z) (st : Generated)
  : result Generated :=
  for_range 1 17
    (λ size st,
       do quantity <- index quantities size in
       do st <- (if quantity >? 0
                 then for_range 0 (realSize + 1) (generateCode size) st
                 else OK st) in
       OK (mkGenerated (g_codes st) (g_codesIndex st) (g_unindexedEntries st)
             (Z.shiftl (g_nextCode st) 1)))
    st.

(** Calculate ranges of the longer parts *)
Definition calculateRanges (unindexedEntries : list UnindexedEntry.t) : list UnindexedEntry.t :=
  (foldl (λ '(currentStartIndex, done) entry,
            (currentStartIndex + UnindexedEntry.quantity entry,
             done ++ [UnindexedEntry.mk (UnindexedEntry.quantity entry) currentStartIndex
                        (UnindexedEntry.filled entry)]))
         (0, []) unindexedEntries).2.

(** Index the longer parts *)
Definition indexLonger (MaxSize : Z) (i : Z)
    (st : list CodeRemainder.t * list Z * list UnindexedEntry.t) (codes : list CodeEntry.t)
  : result (list CodeRemainder.t * list Z * list UnindexedEntry.t) :=
  let '(remainders, codesIndex, unindexedEntries) := st in
  do code <- index codes i in
  if CodeEntry.length code >? 8 then
    let index_ := Z.shiftr (CodeEntry.code code) (CodeEntry.length code - 8) in
    do unindexedEntry <- index unindexedEntries index_ in
    let at_ := UnindexedEntry.startIndex unindexedEntry + UnindexedEntry.filled unindexedEntry in
    do _ <- index remainders at_ in
    do codesIndex <- store codesIndex index_ (MaxSize + UnindexedEntry.startIndex unindexedEntry) in
    let filled := UnindexedEntry.filled unindexedEntry + 1 in
    do unindexedEntries <-
      store unindexedEntries index_
        (UnindexedEntry.mk (UnindexedEntry.quantity unindexedEntry)
           (UnindexedEntry.startIndex unindexedEntry) filled) in
    let remainder := Z.shiftl (CodeEntry.code code) (16 - CodeEntry.length code) mod 256 in
    let bitsLeft := (CodeEntry.length code - 8) mod 256 in
    let index_i := i mod 2 ^ 16 in
    let index_i := if filled =? UnindexedEntry.quantity unindexedEntry
                   then Z.lor index_i 0x8000 else index_i in
    do remainders <- store remainders at_ (CodeRemainder.mk remainder bitsLeft index_i) in
    OK (remainders, codesIndex, unindexedEntries)
  else OK st.

(** [EncodedTable(reader, realSize, codeCodingLookup, codeCodingLengths)] *)
Definition make (MaxSize : Z) (realSize : Z) (codeCodingLookup codeCodingLengths : list Z)
    (r : BitReader.t) (bi : ByteInput) : result (t * BitReader.t * ByteInput) :=
  let codes := replicate (Z.to_nat MaxSize) (CodeEntry.mk 0 0) in
  let remainders := replicate (Z.to_nat MaxSize) (CodeRemainder.mk 0 0 0) in
  let quantities := replicate 17 0 in
  (* Read the Huffman-encoded Huffman codes *)
  do '(mkLengths codes quantities r bi) <-
    readLengths (Z.to_nat realSize) realSize codeCodingLookup codeCodingLengths 0
      (mkLengths codes quantities r bi) in
  let codesIndex := replicate 256 UNUSED in
  let unindexedEntries := replicate 256 (UnindexedEntry.mk 0 0 0) in
  (* Generate the codes *)
  do '(mkGenerated codes codesIndex unindexedEntries _) <-
    generateCodes realSize quantities (mkGenerated codes codesIndex unindexedEntries 0) in
  let unindexedEntries := calculateRanges unindexedEntries in
  do '(remainders, codesIndex, _) <-
    for_range 0 MaxSize (λ i st, indexLonger MaxSize i st codes)
      (remainders, codesIndex, unindexedEntries) in
  OK (mk MaxSize codes remainders codesIndex, r, bi).

(** The search of [readWord] through the remainders of one bucket. *)
Fixpoint searchRemainders (count : nat) (i : Z) (peeked : Z) (remainders : list CodeRemainder.t)
  : result (Z * Z) :=
  match count with
  | O => Throw Unknown_Huffman_code_bad_prefix
  | S count =>
      do entry <- index remainders i in
      do mask <- index startMasks (CodeRemainder.bitsLeft entry) in
      if Z.land peeked mask =? CodeRemainder.remainder entry then
        OK (Z.land (CodeRemainder.index entry) 0x7fff, CodeRemainder.bitsLeft entry)
      else if negb (Z.land (CodeRemainder.index entry) 0x8000 =? 0) then
        Throw Unknown_Huffman_code_ending_bits
      else searchRemainders count (i + 1) peeked remainders
  end.

Definition readWord (table : t) (r : BitReader.t) (bi : ByteInput)
  : result (Z * BitReader.t * ByteInput) :=
  do '(word, r, bi) <-
    BitReader.peekAByteAndConsumeSome
      (λ peeked,
         do word <- index (codesIndex table) peeked in
         if word >=? MaxSize table then OK (word, 8)
         else if word =? UNUSED then Throw Unknown_Huffman_code_first_8_bits
         else do entry <- index (codes table) word in
              OK (word, CodeEntry.length entry)) r bi in
  (* Longer codes than a byte are indexed specially *)
  if word >=? MaxSize table then
    BitReader.peekAByteAndConsumeSome
      (λ peeked,
         searchRemainders (Z.to_nat (MaxSize table * 2 - (word - MaxSize table)))
           (word - MaxSize table) peeked (remainders table)) r bi
  else OK (word, r, bi).

End WithSource.
End EncodedTable.

(** ** DeflateReader *)

Module CopyState.
Record t := mk {
  copyDistance : Z;
  copyLength : Z
}.

Section WithSettings.
Context {S : DecompressionSettings}.

Definition restart (c : t) (output : ByteOutput.t S) : result (bool * t * ByteOutput.t S) :=
  let copying := Z.min (ByteOutput.available output) (copyLength c) in
  do output <- ByteOutput.repeatSequence copying (copyDistance c) output in
  let c := mk (copyDistance c) (copyLength c - copying) in
  OK (copyLength c =? 0, c, output).

Definition copy (length distance : Z) (output : ByteOutput.t S)
  : result (bool * t * ByteOutput.t S) :=
  restart (mk distance length) output.

End WithSettings.
End CopyState.

Module DeflateReader.

Inductive DecodingState :=
  | Monostate
  | LiteralState (bytesLeft : Z)
  | FixedCodeState (copy : CopyState.t) (input : BitReader.t)
  | DynamicCodeState (copy : CopyState.t) (input : BitReader.t)
      (codes distanceCode : EncodedTable.t).

(** What one turn of the [while] of a [parseSome] did. *)
Inductive Turn (St : Type) :=
  | Returned (more : bool) (st : St)     (* [return] from inside the loop *)
  | Broke (st : St)                      (* [break] *)
  | Continues (st : St).
Arguments Returned {St}.
Arguments Broke {St}.
Arguments Continues {St}.

(** [input] and [output] are the objects of the archive the reader refers
    to; they are kept here and the archive reaches them through the reader. *)
Record t (Src : Type) (S : DecompressionSettings) := mk {
  input : ByteInput.t Src;
  output : ByteOutput.t S;
  decodingState : DecodingState;
  wasLast : bool
}.
Arguments mk {Src S}.
Arguments input {Src S}.
Arguments output {Src S}.
Arguments decodingState {Src S}.
Arguments wasLast {Src S}.

Section WithSource.
Context {Src : Type} `{!PullSource Src} {S : DecompressionSettings}.

Local Abbreviation ByteInput := (ByteInput.t Src).
Local Abbreviation ByteOutput := (ByteOutput.t S).

Definition make (input : ByteInput) (output : ByteOutput) : t Src S :=
  mk input output Monostate false.

(** *** LiteralState *)

Definition LiteralState_make (input : ByteInput) : result (Z * ByteInput) :=
  do '(length, input) <- ByteInput.getBytes 2 input in
  do '(antiLength, input) <- ByteInput.getBytes 2 input in
  if negb (Z.land (Z.lnot length) 0xffff =? antiLength)
  then Throw Inverted_length_mismatching
  else OK (length, input).

Definition LiteralState_parseSome (bytesLeft : Z) (input : ByteInput) (output : ByteOutput)
  : result (bool * Z * ByteInput * ByteOutput) :=
  if ByteOutput.available output >? bytesLeft then
    do '(chunk, input) <- ByteInput.getRange bytesLeft input in
    do output <- ByteOutput.addBytes chunk output in
    let bytesLeft := bytesLeft - len chunk in
    OK (bytesLeft >? 0, bytesLeft, input, output)
  else
    do '(chunk, input) <- ByteInput.getRange (ByteOutput.available output) input in
    let bytesLeft := bytesLeft - len chunk in
    do output <- ByteOutput.addBytes chunk output in
    OK (true, bytesLeft, input, output).

(** *** FixedCodeState *)

(** The size of a lookback in a fixed block.  The bound [0010111] of the
    first comparison is written with a leading zero and is the octal
    literal 4169. *)
Definition Fixed_size (part : BitReader.BitGroup) (r : BitReader.t) (bi : ByteInput)
  : result (Z * BitReader.t * ByteInput) :=
  do '(size, r, bi) <-
    (if BitReader.value part <=? 4169 (* 0010111 *) then
       (* 7 bit lookback *)
       OK (BitReader.value part + 2, r, bi)
     else
       (* 8 bit lookback, would be range 1100000 - 1100011 *)
       do '(part, r, bi) <- BitReader.getMore 1 part r bi in
       OK (BitReader.value part + (25 - 192 (* 0b11000000 *)), r, bi)) in
  if size >? 10 then BitReader.parseLongerSize size r bi
  else OK (size, r, bi).

(** Now, the distance. Short distances are simply written, longer distances
    are written on several more bits *)
Definition Fixed_distance (r : BitReader.t) (bi : ByteInput)
  : result (Z * BitReader.t * ByteInput) :=
  do '(readingDistance, r, bi) <- BitReader.getBits 5 r bi in
  let distance := BitReader.value readingDistance + 1 in
  if distance >? 4 then BitReader.parseLongerDistance distance r bi
  else OK (distance, r, bi).

Definition Fixed_turn (st : CopyState.t * BitReader.t * ByteInput * ByteOutput)
  : result (Turn (CopyState.t * BitReader.t * ByteInput * ByteOutput)) :=
  let '(c, r, bi, output) := st in
  do '(part, r, bi) <- BitReader.getBits 7 r bi in
  if BitReader.value part =? 0 then OK (Returned false (c, r, bi, output))
  else if (BitReader.value part >=? 24 (* 0b0011000 *))
          && (BitReader.value part <=? 95 (* 0b1011111 *)) then
    do '(part, r, bi) <- BitReader.getMore 1 part r bi in
    do output <- ByteOutput.addByte ((BitReader.value part - 48 (* 0b00110000 *)) mod 256) output in
    OK (Continues (c, r, bi, output))                  (* Bits 0-143 *)
  else if BitReader.value part >=? 100 (* 0b1100100 *) then
    do '(part, r, bi) <- BitReader.getMore 2 part r bi in
    do output <- ByteOutput.addByte ((BitReader.value part - (400 (* 0b110010000 *) - 144)) mod 256) output in
    OK (Continues (c, r, bi, output))                  (* Bits 144-255 *)
  else
    do '(size, r, bi) <- Fixed_size part r bi in
    do '(distance, r, bi) <- Fixed_distance r bi in
    do '(_, c, output) <- CopyState.copy size distance output in
    OK (Continues (c, r, bi, output)).

(** [while (parent->output.available()) turn], followed by
    [return (parent->output.available() == 0)].  A turn that continues has
    added a byte at least to the output, so [available()] turns are enough. *)
Fixpoint while_available {St} (fuel : nat) (out : St → ByteOutput)
    (turn : St → result (Turn St)) (st : St) : result (bool * St) :=
  if negb (ByteOutput.available (out st) =? 0) then
    match fuel with
    | O => Throw Does_not_terminate
    | Datatypes.S fuel =>
        do t <- turn st in
        match t with
        | Returned more st => OK (more, st)
        | Broke st => OK (ByteOutput.available (out st) =? 0, st)
        | Continues st => while_available fuel out turn st
        end
    end
  else OK (ByteOutput.available (out st) =? 0, st).

Definition FixedCodeState_parseSome (c : CopyState.t) (r : BitReader.t)
    (bi : ByteInput) (output : ByteOutput)
  : result (bool * (CopyState.t * BitReader.t * ByteInput * ByteOutput)) :=
  do '(finished, c, output) <-
    (if CopyState.copyLength c >? 0    (* Resume copying if necessary *)
     then CopyState.restart c output
     else OK (false, c, output)) in
  if finished then OK (true, (c, r, bi, output))   (* Out of space *)
  else
    while_available (Z.to_nat (ByteOutput.available output)) (λ st, st.2)
      Fixed_turn (c, r, bi, output).

(** *** DynamicCodeState *)

Definition DynamicCodeState_make (r : BitReader.t) (codeCount distanceCodeCount : Z)
    (codeCodingLookup codeCodingLengths : list Z) (bi : ByteInput)
  : result (DecodingState * ByteInput) :=
  do '(codes, r, bi) <-
    EncodedTable.make 288 codeCount codeCodingLookup codeCodingLengths r bi in
  do '(distanceCode, r, bi) <-
    EncodedTable.make 31 distanceCodeCount codeCodingLookup codeCodingLengths r bi in
  OK (DynamicCodeState (CopyState.mk 0 0) r codes distanceCode, bi).

Definition Dynamic_length (word : Z) (r : BitReader.t) (bi : ByteInput)
  : result (Z * BitReader.t * ByteInput) :=
  let length := word - 254 in
  if length >? 10 then BitReader.parseLongerSize length r bi
  else OK (length, r, bi).

Definition Dynamic_distance (distanceCode : EncodedTable.t) (r : BitReader.t) (bi : ByteInput)
  : result (Z * BitReader.t * ByteInput) :=
  do '(word, r, bi) <- EncodedTable.readWord distanceCode r bi in
  let distance := word + 1 in
  if distance >? 4 then BitReader.parseLongerDistance distance r bi
  else OK (distance, r, bi).

Definition Dynamic_turn (codes distanceCode : EncodedTable.t)
    (st : CopyState.t * BitReader.t * ByteInput * ByteOutput)
  : result (Turn (CopyState.t * BitReader.t * ByteInput * ByteOutput)) :=
  let '(c, r, bi, output) := st in
  do '(word, r, bi) <- EncodedTable.readWord codes r bi in
  if word <? 256 then
    do output <- ByteOutput.addByte (word mod 256) output in
    OK (Continues (c, r, bi, output))
  else if word =? 256 then OK (Broke (c, r, bi, output))
  else
    do '(length, r, bi) <- Dynamic_length word r bi in
    do '(distance, r, bi) <- Dynamic_distance distanceCode r bi in
    do '(_, c, output) <- CopyState.copy length distance output in
    OK (Continues (c, r, bi, output)).

Definition DynamicCodeState_parseSome (codes distanceCode : EncodedTable.t)
    (c : CopyState.t) (r : BitReader.t) (bi : ByteInput) (output : ByteOutput)
  : result (bool * (CopyState.t * BitReader.t * ByteInput * ByteOutput)) :=
  do '(finished, c, output) <-
    (if CopyState.copyLength c >? 0    (* Resume copying if necessary *)
     then CopyState.restart c output
     else OK (false, c, output)) in
  if finished then OK (true, (c, r, bi, output))   (* Out of space *)
  else
    while_available (Z.to_nat (ByteOutput.available output)) (λ st, st.2)
      (Dynamic_turn codes distanceCode) (c, r, bi, output).

(** *** The block header *)

(** Read lengths: the three counts of a dynamic block and their checks. *)
Definition readCounts (bitInput : BitReader.t) (bi : ByteInput)
  : result (Z * Z * Z * BitReader.t * ByteInput) :=
  do '(extraCodes, bitInput, bi) <- BitReader.getBitsForwardOrder 5 bitInput bi in
  let maximumExtraCodes := 29 in
  if extraCodes >? maximumExtraCodes then Throw Impossible_number_of_extra_codes else
  do '(bits, bitInput, bi) <- BitReader.getBitsForwardOrder 5 bitInput bi in
  let distanceCodes := bits + 1 in
  if distanceCodes >? 31 then Throw Impossible_number_of_distance_codes else
  do '(bits, bitInput, bi) <- BitReader.getBitsForwardOrder 4 bitInput bi in
  let codeLengthCount := bits + 4 in
  if codeLengthCount >? 19 then Throw Invalid_distance_code_count else
  OK (extraCodes, distanceCodes, codeLengthCount, bitInput, bi).

(** Read Huffman code lengths *)
Definition readCodeCodingLengths (codeLengthCount : Z) (bitInput : BitReader.t) (bi : ByteInput)
  : result (list Z * BitReader.t * ByteInput) :=
  for_range 0 codeLengthCount
    (λ i '(codeCodingLengths, bitInput, bi),
       do '(bits, bitInput, bi) <- BitReader.getBitsForwardOrder 3 bitInput bi in
       do to <- index codeCodingReorder i in
       do codeCodingLengths <- store codeCodingLengths to bits in
       OK (codeCodingLengths, bitInput, bi))
    (replicate (length codeCodingReorder) 0, bitInput, bi).

(** Generate Huffman codes for lengths *)
Definition generateCodeCoding (codeCodingLengths : list Z) : result (list Z) :=
  do '(_, codeCodingLookup, _) <-
    for_range 1 9
      (λ size '(codeCoding, codeCodingLookup, nextCodeCoding),
         do '(codeCoding, codeCodingLookup, nextCodeCoding) <-
           for_range 0 (len codeCodingReorder)
             (λ i '(codeCoding, codeCodingLookup, nextCodeCoding),
                do length <- index codeCodingLengths i in
                if length =? size then
                  do codeCoding <- store codeCoding i nextCodeCoding in
                  do codeCodingLookup <-
                    for_range (Z.shiftl nextCodeCoding (8 - size))
                      (Z.shiftl (nextCodeCoding + 1) (8 - size))
                      (λ code codeCodingLookup, store codeCodingLookup code i)
                      codeCodingLookup in
                  OK (codeCoding, codeCodingLookup, nextCodeCoding + 1)
                else OK (codeCoding, codeCodingLookup, nextCodeCoding))
             (codeCoding, codeCodingLookup, nextCodeCoding) in
         OK (codeCoding, codeCodingLookup, Z.shiftl nextCodeCoding 1))
      (replicate (length codeCodingReorder) 0, replicate 256 0, 0) in
  OK codeCodingLookup.

(** The three [emplace] of [parseSome]. *)
Definition emplace_LiteralState (bitInput : BitReader.t) (bi : ByteInput)
  : result (DecodingState * ByteInput) :=
  (* Move it to a temporary and destroy it *)
  let bi := BitReader.destroy bitInput bi in
  do '(bytesLeft, bi) <- LiteralState_make bi in
  OK (LiteralState bytesLeft, bi).

Definition emplace_FixedCodeState (bitInput : BitReader.t) (bi : ByteInput)
  : result (DecodingState * ByteInput) :=
  OK (FixedCodeState (CopyState.mk 0 0) bitInput, bi).

Definition emplace_DynamicCodeState (bitInput : BitReader.t) (bi : ByteInput)
  : result (DecodingState * ByteInput) :=
  do '(extraCodes, distanceCodes, codeLengthCount, bitInput, bi) <- readCounts bitInput bi in
  do '(codeCodingLengths, bitInput, bi) <-
    readCodeCodingLengths codeLengthCount bitInput bi in
  do codeCodingLookup <- generateCodeCoding codeCodingLengths in
  DynamicCodeState_make bitInput (257 + extraCodes) distanceCodes
    codeCodingLookup codeCodingLengths bi.

(** The end of a turn of [parseSome]: no decoding state, the stream goes on. *)
Definition startBlock (bitInput : BitReader.t) (bi : ByteInput)
  : result (bool * DecodingState * ByteInput) :=
  do '(last, bitInput, bi) <- BitReader.getBits 1 bitInput bi in
  let wasLast := negb (BitReader.value last =? 0) in
  do '(compressionType, bitInput, bi) <- BitReader.getBits 2 bitInput bi in
  do '(state, bi) <-
    (if BitReader.value compressionType =? 0 (* 0b00 *) then
       emplace_LiteralState bitInput bi
     else if BitReader.value compressionType =? 2 (* 0b10 *) then
       emplace_FixedCodeState bitInput bi
     else if BitReader.value compressionType =? 1 (* 0b01 *) then
       emplace_DynamicCodeState bitInput bi
     else Throw Unknown_type_of_block_compression) in
  OK (wasLast, state, bi).

(** Drives the substate.  [inl] is [return true]; [inr] is the [bitInput] the
    turn goes on with. *)
Definition driveState (d : t Src S) : result (t Src S + (BitReader.t * ByteInput * ByteOutput)) :=
  match decodingState d with
  | LiteralState bytesLeft =>
      do '(more, bytesLeft, bi, output) <-
        LiteralState_parseSome bytesLeft (input d) (output d) in
      if more then OK (inl (mk bi output (LiteralState bytesLeft) (wasLast d)))
      else OK (inr (BitReader.make, bi, output))
  | FixedCodeState c r =>
      do '(more, (c, r, bi, output)) <- FixedCodeState_parseSome c r (input d) (output d) in
      if more then OK (inl (mk bi output (FixedCodeState c r) (wasLast d)))
      else OK (inr (r, bi, output))
  | DynamicCodeState c r codes distanceCode =>
      do '(more, (c, r, bi, output)) <-
        DynamicCodeState_parseSome codes distanceCode c r (input d) (output d) in
      if more then OK (inl (mk bi output (DynamicCodeState c r codes distanceCode) (wasLast d)))
      else OK (inr (r, bi, output))
  | Monostate => OK (inr (BitReader.make, input d, output d))
  end.

(** Returns whether there is more work to do.  [blocks] bounds the turns of
    [while (true)]: each turn but the last starts a block. *)
Fixpoint parseSome (blocks : nat) (d : t Src S) : result (bool * t Src S) :=
  match blocks with
  | O => Throw Does_not_terminate
  | Datatypes.S blocks =>
      do driven <- driveState d in
      match driven with
      | inl d => OK (true, d)
      | inr (bitInput, bi, output) =>
          (* No decoding state *)
          if wasLast d then
            OK (false, mk (BitReader.destroy bitInput bi) (ByteOutput.done output)
                          Monostate (wasLast d))
          else
            do '(wasLast, state, bi) <- startBlock bitInput bi in
            parseSome blocks (mk bi output state wasLast)
      end
  end.

End WithSource.
End DeflateReader.

(** ** IDeflateArchive and IGzFile *)

Module IDeflateArchive.

Record t (Src : Type) (S : DecompressionSettings) := mk {
  deflateReader : DeflateReader.t Src S;
  done : bool
}.
Arguments mk {Src S}.
Arguments deflateReader {Src S}.
Arguments done {Src S}.

(** The payloads [readByLines] hands to its callback, as they are when it is
    called. *)
Record Lines := mkLines {
  start : Z;              (* the position of [start] in the batch *)
  wasSeparator : bool;
  calls : list (list Z)
}.

Section WithSource.
Context {Src : Type} `{!PullSource Src} {S : DecompressionSettings}.

(** The virtual [onFinish]: what it does to the input, given the output. *)
Variable onFinish : ByteInput.t Src → ByteOutput.t S → result (ByteInput.t Src).

Definition input (a : t Src S) := DeflateReader.input (deflateReader a).
Definition output (a : t Src S) := DeflateReader.output (deflateReader a).

Definition make (src : Src) : t Src S :=
  mk (DeflateReader.make (ByteInput.make S src) ByteOutput.make) false.

(** Returns whether there are more bytes to read *)
Definition readSome (blocks : nat) (bytesToKeep : Z) (a : t Src S)
  : result (option (list Z) * t Src S) :=
  if done a then OK (None, a) else
  do '(moreStuffToDo, d) <- DeflateReader.parseSome blocks (deflateReader a) in
  do '(batch, output) <- ByteOutput.consume bytesToKeep (DeflateReader.output d) in
  let d := DeflateReader.mk (DeflateReader.input d) output
             (DeflateReader.decodingState d) (DeflateReader.wasLast d) in
  if negb moreStuffToDo then
    do input <- onFinish (DeflateReader.input d) output in
    OK (Some batch,
        mk (DeflateReader.mk input output (DeflateReader.decodingState d)
              (DeflateReader.wasLast d)) true)
  else OK (Some batch, mk d (done a)).

(** The [for] of [readByLines] over one batch; [it] is the position of the
    iterator and [rest] what is left of the batch from there. *)
Fixpoint scanBatch (separator : Z) (batch : list Z) (it : Z) (rest : list Z) (st : Lines)
  : Lines :=
  match rest with
  | [] => st
  | c :: rest =>
      let st := if wasSeparator st then mkLines it false (calls st) else st in
      let st := if c =? separator
                then mkLines (start st) true (calls st ++ [seg (start st) it batch])
                else st in
      scanBatch separator batch (it + 1) rest st
  end.

(** The [while] of [readByLines]; [batches] bounds the calls of [readSome]. *)
Fixpoint readByLines_loop (blocks batches : nat) (separator : Z)
    (keeping : Z) (batch : list Z) (wasSeparator : bool) (calls : list (list Z)) (a : t Src S)
  : result (Z * list Z * bool * list (list Z) * t Src S) :=
  match batches with
  | O => Throw Does_not_terminate
  | Datatypes.S batches =>
      do '(batchOrNot, a) <- readSome blocks keeping a in
      match batchOrNot with
      | None => OK (keeping, batch, wasSeparator, calls, a)
      | Some batch =>
          let st := scanBatch separator batch 0 batch (mkLines 0 wasSeparator calls) in
          let keeping := len batch - start st in
          readByLines_loop blocks batches separator keeping batch
            (IDeflateArchive.wasSeparator st) (IDeflateArchive.calls st) a
      end
  end.

(** [readByLines(reader, separator)]: the payloads of the calls of [reader],
    in the order of the calls. *)
Definition readByLines (blocks batches : nat) (separator : Z) (a : t Src S)
  : result (list (list Z) * t Src S) :=
  do '(keeping, batch, wasSeparator, calls, a) <-
    readByLines_loop blocks batches separator 0 [] false [] a in
  if keeping >? 0 then
    if wasSeparator then OK (calls ++ [[]], a)
    else OK (calls ++ [seg (len batch - keeping) (len batch) batch], a)
  else OK (calls, a).

(** [readAll()] *)
Fixpoint readAll (blocks batches : nat) (returned : list Z) (a : t Src S)
  : result (list Z * t Src S) :=
  match batches with
  | O => Throw Does_not_terminate
  | Datatypes.S batches =>
      do '(batch, a) <- readSome blocks 0 a in
      match batch with
      | None => OK (returned, a)
      | Some batch => readAll blocks batches (returned ++ batch) a
      end
  end.

End WithSource.

(** [IDeflateArchive::onFinish] does nothing. *)
Definition onFinish {Src : Type} {S : DecompressionSettings}
    (input : ByteInput.t Src) (output : ByteOutput.t S) : result (ByteInput.t Src) :=
  OK input.

End IDeflateArchive.

Module IGzFile.
Section WithSource.
Context {Src : Type} `{!PullSource Src} {S : DecompressionSettings}.

Definition onFinish (input : ByteInput.t Src) (output : ByteOutput.t S)
  : result (ByteInput.t Src) :=
  do '(expectedCrc, input) <- ByteInput.getInteger 4 input in
  if verifyChecksum S then
    let realCrc := cs_digest (Checksum S) (ByteOutput.getChecksum output) in
    if negb (expectedCrc =? realCrc) then Throw Crc32_checksum_does_not_match
    else OK input
  else OK input.

End WithSource.
End IGzFile.

(** ** The input adapters of the header *)

(** [IDeflateArchive(std::span<const uint8_t> data)]: hands out what is left
    of the data and throws on an empty read. *)
Record SpanData := mkSpanData { span_data : list Z }.

#[export] Instance SpanData_source : PullSource SpanData := λ src capacity,
  let copying := Z.min capacity (len (span_data src)) in
  if copying =? 0 then Thrown Truncated_input
  else Pulled (take (Z.to_nat copying) (span_data src))
              (mkSpanData (drop (Z.to_nat copying) (span_data src))).

(** The lambda of [readDeflateIntoVector(std::span<const uint8_t> allData)]:
    an empty read returns 0. *)
Record VectorData := mkVectorData { allData : list Z }.

#[export] Instance VectorData_source : PullSource VectorData := λ src capacity,
  let filling := Z.min (len (allData src)) capacity in
  Pulled (take (Z.to_nat filling) (allData src))
         (mkVectorData (drop (Z.to_nat filling) (allData src))).

(** A pull function of the user that hands out at most [chunk] bytes a call
    and returns 0 at the end. *)
Record ChunkedData := mkChunkedData { chunk : Z; chunked_data : list Z }.

#[export] Instance ChunkedData_source : PullSource ChunkedData := λ src capacity,
  let filling := Z.min (Z.min (chunk src) (len (chunked_data src))) capacity in
  Pulled (take (Z.to_nat filling) (chunked_data src))
         (mkChunkedData (chunk src) (drop (Z.to_nat filling) (chunked_data src))).

(** [readDeflateIntoVector]: the [do ... while (workToDo)] over [parseSome]
    and [consume]; [batches] bounds its turns. *)
Fixpoint readDeflateIntoVector_loop {Src} `{!PullSource Src} {S : DecompressionSettings}
    (blocks batches : nat) (result_ : list Z) (reader : DeflateReader.t Src S)
  : result (list Z * DeflateReader.t Src S) :=
  match batches with
  | O => Throw Does_not_terminate
  | Datatypes.S batches =>
      do '(workToDo, reader) <- DeflateReader.parseSome blocks reader in
      do '(batch, output) <- ByteOutput.consume 0 (DeflateReader.output reader) in
      let reader := DeflateReader.mk (DeflateReader.input reader) output
                      (DeflateReader.decodingState reader) (DeflateReader.wasLast reader) in
      if workToDo then readDeflateIntoVector_loop blocks batches (result_ ++ batch) reader
      else OK (result_ ++ batch, reader)
  end.

Definition readDeflateIntoVector {Src} `{!PullSource Src} (S : DecompressionSettings)
    (blocks batches : nat) (src : Src) : result (list Z) :=
  do '(result_, _) <-
    readDeflateIntoVector_loop blocks batches []
      (DeflateReader.make (ByteInput.make S src) (@ByteOutput.make S)) in
  OK result_.

(** ** The tables of RFC 1951, section 3.2.5 *)

(** Base length and number of extra bits of the length symbols 257..285. *)
Definition rfc1951_length_base : list Z :=
  [3; 4; 5; 6; 7; 8; 9; 10; 11; 13; 15; 17; 19; 23; 27; 31; 35; 43; 51; 59;
   67; 83; 99; 115; 131; 163; 195; 227; 258].

Definition rfc1951_length_extra_bits : list Z :=
  [0; 0; 0; 0; 0; 0; 0; 0; 1; 1; 1; 1; 2; 2; 2; 2; 3; 3; 3; 3;
   4; 4; 4; 4; 5; 5; 5; 5; 0].

(** Base distance and number of extra bits of the distance symbols 0..29. *)
Definition rfc1951_distance_base : list Z :=
  [1; 2; 3; 4; 5; 7; 9; 13; 17; 25; 33; 49; 65; 97; 129; 193; 257; 385; 513; 769;
   1025; 1537; 2049; 3073; 4097; 6145; 8193; 12289; 16385; 24577].

Definition rfc1951_distance_extra_bits : list Z :=
  [0; 0; 0; 0; 1; 1; 2; 2; 3; 3; 4; 4; 5; 5; 6; 6; 7; 7; 8; 8;
   9; 9; 10; 10; 11; 11; 12; 12; 13; 13].

(** The entry of a table for a symbol, the table starting at symbol [first]. *)
Definition table_entry (table : list Z) (first symbol : Z) : Z :=
  nth (Z.to_nat (symbol - first)) table 0.

(** ** Invariants of the states *)

(** A copy that is left to be resumed looks back one byte at least. *)
Definition copy_pending_ok (c : CopyState.t) : Prop :=
  0 < CopyState.copyLength c → 1 ≤ CopyState.copyDistance c.

(** The computation throws no exception that is [bad]. *)
Definition never (bad : exception → Prop) {A} (m : result A) : Prop :=
  ∀ e, m = Throw e → ¬ bad e.

(** The computation does not throw an exception of kind MalformedHeader. *)
Definition malformed (e : exception) : Prop := kind_of e = Some MalformedHeader.

(** The computation does not run into a loop that never exits: the turns
    its loops are given are enough. *)
Definition hangs (e : exception) : Prop := e = Does_not_terminate.

(** ** Streams used below *)

(** A final fixed block: the literal 'a', then the length symbol 280 (code
    11000000, four extra bits 0000: length 115) with the distance symbol 0
    (distance 1), then the end of the block: 116 times 'a'. *)
Definition fixed_symbol_280_stream : list Z := [0x4b; 0x1c; 0x00; 0x00; 0x00].

(** A final dynamic block with HLIT = 0, HDIST = 0 and HCLEN = 14; the code
    lengths 2, 1 and 2 for the symbols 17, 18 and 1 of the code-length
    alphabet; 138 and 118 zeros and one length 1 for the 257 literal/length
    symbols; a run of 3 zeros (symbol 17) for the one distance symbol; the end
    of the block. *)
Definition overrun_stream : list Z :=
  [5; 192; 161; 0; 0; 0; 0; 0; 32; 127; 235; 6].

(** ** Sessions of the output window *)

Module Session.

(** What the decoder and its caller do to the output during a session. *)
Inductive Op :=
  | AddByte (byte : Z)
  | AddBytes (bytes : list Z)
  | RepeatSequence (length distance : Z)
  | Done
  | Consume (bytesToKeep : Z).

(** The output, the stream of the bytes written to it so far, and the slices
    [consume] returned so far. *)
Record t (S : DecompressionSettings) := mk {
  state : ByteOutput.t S;
  emitted : list Z;
  returned : list (list Z)
}.
Arguments mk {S}.
Arguments state {S}.
Arguments emitted {S}.
Arguments returned {S}.

Section WithSettings.
Context {S : DecompressionSettings}.

(** The bytes not yet returned by [consume]. *)
Definition pending (bo : ByteOutput.t S) : list Z :=
  seg (ByteOutput.consumed bo) (ByteOutput.used bo) (ByteOutput.buffer bo).

(** The bytes an operation added to the window. *)
Definition written (before after : ByteOutput.t S) : list Z :=
  seg (ByteOutput.used before) (ByteOutput.used after) (ByteOutput.buffer after).

Definition start : t S := mk ByteOutput.make [] [].

Definition step (session : t S) (op : Op) : result (t S) :=
  let bo := state session in
  match op with
  | AddByte byte =>
      do bo' <- ByteOutput.addByte byte bo in
      OK (mk bo' (emitted session ++ [byte]) (returned session))
  | AddBytes bytes =>
      do bo' <- ByteOutput.addBytes bytes bo in
      OK (mk bo' (emitted session ++ bytes) (returned session))
  | RepeatSequence length distance =>
      do bo' <- ByteOutput.repeatSequence length distance bo in
      OK (mk bo' (emitted session ++ written bo bo') (returned session))
  | Done => OK (mk (ByteOutput.done bo) (emitted session) (returned session))
  | Consume bytesToKeep =>
      do '(slice, bo') <- ByteOutput.consume bytesToKeep bo in
      OK (mk bo' (emitted session) (returned session ++ [slice]))
  end.

Fixpoint run (ops : list Op) (session : t S) : result (t S) :=
  match ops with
  | [] => OK session
  | op :: ops => do session <- step session op in run ops session
  end.

(** The cursors of the window are in order. *)
Definition wf (bo : ByteOutput.t S) : Prop :=
  0 ≤ ByteOutput.consumed bo ∧ ByteOutput.consumed bo ≤ ByteOutput.used bo
  ∧ ByteOutput.used bo ≤ len (ByteOutput.buffer bo).

(** What an operation that adds bytes leaves as it was. *)
Definition extends (bo bo' : ByteOutput.t S) : Prop :=
  wf bo' ∧
  ByteOutput.consumed bo' = ByteOutput.consumed bo ∧
  ByteOutput.used bo ≤ ByteOutput.used bo' ∧
  take (Z.to_nat (ByteOutput.used bo)) (ByteOutput.buffer bo')
  = take (Z.to_nat (ByteOutput.used bo)) (ByteOutput.buffer bo) ∧
  len (ByteOutput.buffer bo') = len (ByteOutput.buffer bo) ∧
  ByteOutput.checksum bo' = ByteOutput.checksum bo ∧
  ByteOutput.expectsMore bo' = ByteOutput.expectsMore bo.

End WithSettings.
End Session.

(** ** The input as a stream *)

(** The bytes a source has not handed out yet. *)
Class StreamOf (Src : Type) := src_pending : Src → list Z.

#[export] Instance SpanData_stream : StreamOf SpanData := span_data.
#[export] Instance VectorData_stream : StreamOf VectorData := allData.
#[export] Instance ChunkedData_stream : StreamOf ChunkedData := chunked_data.

(** A call of the pull function hands out the next bytes of the stream. *)
Definition delivers_stream (Src : Type) `{!PullSource Src} `{!StreamOf Src} : Prop :=
  ∀ (src : Src) capacity bytes next,
    readMore src capacity = Pulled bytes next → src_pending src = bytes ++ src_pending next.

Module Stream.
Section WithSource.
Context {Src : Type} `{!PullSource Src} `{!StreamOf Src} {S : DecompressionSettings}.

(** The cursors of the input buffer are in order. *)
Definition wf (bi : ByteInput.t Src) : Prop :=
  0 ≤ ByteInput.position bi ∧ ByteInput.position bi ≤ ByteInput.filled bi
  ∧ ByteInput.filled bi ≤ len (ByteInput.buffer bi).

(** The bytes of the input that have not been read: what is buffered past
    the cursor, then what the source is still to hand out. *)
Definition unread (bi : ByteInput.t Src) : list Z :=
  seg (ByteInput.position bi) (ByteInput.filled bi) (ByteInput.buffer bi)
  ++ src_pending (ByteInput.source bi).

(** A stored block over several calls of [parseSome]: every call but the
    last returns [true], the decoder yields, and its caller may do to the
    output what it wants (it consumes) before it calls again.  [chunks] are the
    bytes each call added to the output. *)
Inductive stored_run :
  Z → ByteInput.t Src → ByteOutput.t S → list (list Z) → ByteInput.t Src → ByteOutput.t S → Prop :=
  | stored_last bytesLeft bi output bytesLeft' bi' output' :
      DeflateReader.LiteralState_parseSome bytesLeft bi output
      = OK (false, bytesLeft', bi', output') →
      stored_run bytesLeft bi output [Session.written output output'] bi' output'
  | stored_yield bytesLeft bi output bytesLeft' bi' output' resumed chunks bi'' output'' :
      DeflateReader.LiteralState_parseSome bytesLeft bi output
      = OK (true, bytesLeft', bi', output') →
      Session.wf resumed →
      stored_run bytesLeft' bi' resumed chunks bi'' output'' →
      stored_run bytesLeft bi output (Session.written output output' :: chunks) bi'' output''.

End WithSource.
End Stream.

(** ** Lines *)

(** The payloads put together again, the separator between them. *)
Fixpoint join (separator : Z) (payloads : list (list Z)) : list Z :=
  match payloads with
  | [] => []
  | payload :: payloads =>
      match payloads with
      | [] => payload
      | _ :: _ => payload ++ separator :: join separator payloads
      end
  end.

(** How many times the separator is in the text. *)
Fixpoint occurrences (separator : Z) (text : list Z) : nat :=
  match text with
  | [] => 0
  | c :: text => (if c =? separator then 1 else 0) + occurrences separator text
  end.

(** The line that is being read when the iterator is past [pre]. *)
Definition current_line (pre : list Z) (st : IDeflateArchive.Lines) : list Z :=
  if IDeflateArchive.wasSeparator st then []
  else drop (Z.to_nat (IDeflateArchive.start st)) pre.

(** A final stored block that holds a line: the character a, then a line feed. *)
Definition stored_line_stream : list Z := [0x01; 0x02; 0x00; 0xfd; 0xff; 0x61; 0x0a].

(** ** The checksums, a turn at a time *)

(** One turn of the bit-wise loop that generates the basic table. *)
Definition Crc32_bit_turn (r : Z) : Z :=
  Z.lxor (Z.shiftr r 1) (Z.land r 1 * 0xedb88320).

(** One turn of the byte-wise loop of [LightCrc32], the byte already mixed
    into the state. *)
Definition Crc32_turn (x : Z) : Z :=
  Z.lxor (Z.shiftr x 8) (nth (Z.to_nat (x mod 256)) basicCrc32LookupTable 0).

(** One turn of the two inner loops of [FastCrc32] over a chunk. *)
Definition Crc32_table_turn (state : Z) (at_ : nat * Z) : Z :=
  let '(i, byte) := at_ in
  Z.lxor state (nth (Z.to_nat byte) (nth (15 - i) lookupTables []) 0).

(** The values of a byte. *)
Definition is_byte (b : Z) : Prop := 0 ≤ b < 256.

(** ** Pull functions that keep to the batch *)

(** The pull function writes no more than the batch holds; into a batch that
    has room it writes a byte at least while the stream goes on, and it throws
    only when it has nothing to write. *)
Definition fills_batches (Src : Type) `{!PullSource Src} `{!StreamOf Src} : Prop :=
  ∀ (src : Src) capacity, 0 ≤ capacity →
    match readMore src capacity with
    | Pulled bytes next =>
        len bytes ≤ capacity ∧ (0 < capacity → src_pending src ≠ [] → bytes ≠ [])
    | Thrown _ => capacity = 0 ∨ src_pending src = []
    end.

(** The room [refillSome] offers to the pull function. *)
Definition refill_room {Src : Type} (bi : ByteInput.t Src) : Z :=
  if ByteInput.position bi >? len (ByteInput.buffer bi) / 2
  then len (ByteInput.buffer bi) - (ByteInput.filled bi - ByteInput.position bi)
  else len (ByteInput.buffer bi) - ByteInput.filled bi.

(** ** The input as a stream of bits *)

Module BitStream.
Section WithSource.
Context {Src : Type} `{!PullSource Src} `{!StreamOf Src}.

(** The reader holds [bitsLeft] bits, the first one lowest in [data]. *)
Definition wf (r : BitReader.t) : Prop :=
  0 ≤ BitReader.bitsLeft r ∧ 0 ≤ BitReader.data r < 2 ^ BitReader.bitsLeft r.

(** The bits to be read, as one number with the first bit lowest: the bits
    the reader holds, then the bytes of the stream. *)
Definition unread (r : BitReader.t) (bi : ByteInput.t Src) : Z :=
  BitReader.data r + 2 ^ BitReader.bitsLeft r * le_value (Stream.unread bi).

End WithSource.
End BitStream.

(** The exceptions that report the end of the input. *)
Definition end_of_stream (e : exception) : Prop := kind_of e = Some UnexpectedEndOfStream.

(** The bytes [consume] keeps in the window before the slice it returns:
    [bytesToKeep] of those it returned before, and more when the window would
    hold less than [minOutputBufferSize]. *)
Definition consume_keeps {S : DecompressionSettings} (bytesToKeep : Z) (bo : ByteOutput.t S)
  : Z :=
  Z.max (Z.min bytesToKeep (ByteOutput.consumed bo))
        (minOutputBufferSize S - ByteOutput.used bo + ByteOutput.consumed bo).

(** ** The room a code takes in a lookup of 256 entries *)

(** The entries of [codeCodingLookup] that the codes of the lengths from 1
    to [size - 1] take: a code of [length] bits takes [2 ^ (8 - length)]. *)
Definition shares_below (size : Z) (lengths : list Z) : Z :=
  foldr (λ length acc,
           (if (1 <=? length) && (length <? size) then 2 ^ (8 - length) else 0) + acc)
        0 lengths.

(** The entries that the codes of [size] bits take. *)
Definition shares_at (size : Z) (lengths : list Z) : Z :=
  foldr (λ length acc, (if length =? size then 2 ^ (8 - size) else 0) + acc) 0 lengths.

(** The two loops of [generateCodeCoding], the one over the symbols inside the
    one over the sizes: a turn of each. *)
Definition generateCodeCoding_symbol (codeCodingLengths : list Z) (size i : Z)
    (st : list Z * list Z * Z) : result (list Z * list Z * Z) :=
  let '(codeCoding, codeCodingLookup, nextCodeCoding) := st in
  do length <- index codeCodingLengths i in
  if length =? size then
    do codeCoding <- store codeCoding i nextCodeCoding in
    do codeCodingLookup <-
      for_range (Z.shiftl nextCodeCoding (8 - size))
        (Z.shiftl (nextCodeCoding + 1) (8 - size))
        (λ code codeCodingLookup, store codeCodingLookup code i)
        codeCodingLookup in
    OK (codeCoding, codeCodingLookup, nextCodeCoding + 1)
  else OK (codeCoding, codeCodingLookup, nextCodeCoding).

Definition generateCodeCoding_size (codeCodingLengths : list Z) (size : Z)
    (st : list Z * list Z * Z) : result (list Z * list Z * Z) :=
  let '(codeCoding, codeCodingLookup, nextCodeCoding) := st in
  do '(codeCoding, codeCodingLookup, nextCodeCoding) <-
    for_range 0 (len codeCodingReorder) (generateCodeCoding_symbol codeCodingLengths size)
      (codeCoding, codeCodingLookup, nextCodeCoding) in
  OK (codeCoding, codeCodingLookup, Z.shiftl nextCodeCoding 1).

(** What the loops of [generateCodeCoding] keep: the sizes of the two arrays,
    symbols in the lookup, and the next code at the end of the [taken] entries,
    which are inside of the lookup. *)
Definition coding_state (taken : Z) (size : Z) (st : list Z * list Z * Z) : Prop :=
  len st.1.1 = 19 ∧ len st.1.2 = 256 ∧ Forall (λ symbol, 0 ≤ symbol < 19) st.1.2 ∧
  taken ≤ 256 ∧ (size ≤ 8 → st.2 * 2 ^ (8 - size) = taken).

(** What the loop of [readCodeCodingLengths] has done after [i] turns: [i]
    groups of three bits of the stream [bits] are in their places. *)
Definition lengths_read {Src : Type} `{!PullSource Src} `{!StreamOf Src}
    (bits i : Z) (st : list Z * BitReader.t * ByteInput.t Src) : Prop :=
  len st.1.1 = 19 ∧
  (0 ≤ BitReader.bitsLeft st.1.2 →
   Stream.wf st.2 ∧ BitStream.wf st.1.2 ∧ Forall is_byte (Stream.unread st.2) ∧
   BitStream.unread st.1.2 st.2 = bits / 2 ^ (3 * i) ∧
   ∀ j to, 0 ≤ j < 19 → codeCodingReorder !! Z.to_nat j = Some to →
           st.1.1 !! Z.to_nat to
           = Some (if j <? i then (bits / 2 ^ (3 * j)) mod 8 else 0)).

(** A code entry whose length is counted in [quantities], or is 0. *)
Definition length_in_use (quantities : list Z) (entry : CodeEntry.t) : Prop :=
  CodeEntry.length entry = 0 ∨
  ∃ quantity, index quantities (CodeEntry.length entry) = OK quantity ∧ 0 < quantity.

(** What the loop that reads the lengths keeps: every length it has written
    in [codes] is counted in [quantities]. *)
Definition lengths_counted {Src : Type} `{!PullSource Src} (size : Z)
    (st : EncodedTable.Lengths (Src := Src)) : Prop :=
  len (EncodedTable.l_codes st) = size ∧
  len (EncodedTable.l_quantities st) = 17 ∧
  Forall (λ quantity, 0 ≤ quantity) (EncodedTable.l_quantities st) ∧
  Forall (length_in_use (EncodedTable.l_quantities st)) (EncodedTable.l_codes st).

(** ** IGzFileInfo *)

Inductive CreatingOperatingSystem :=
  | UNIX_BASED
  | WINDOWS
  | OTHER.

(** What the parser of the header of a .gz file throws: its own two
    exceptions, and those of the input it reads from. *)
Inductive header_exception :=
  | Not_a_Gzip_archive            (* "Trying to parse something that isn't a Gzip archive" *)
  | Headers_crc32_does_not_match  (* "Gzip archive's headers crc32 checksum doesn't match the
                                     actual header's checksum" *)
  | From_input (e : exception).

Inductive parsed (A : Type) :=
  | Parsed (a : A)
  | Rejected (e : header_exception).
Arguments Parsed {A} a.
Arguments Rejected {A} e.

Definition reading {A B} (m : result A) (k : A → parsed B) : parsed B :=
  match m with
  | OK a => k a
  | Throw e => Rejected (From_input e)
  end.

Notation "'get' ' p <- m 'in' k" := (reading m (λ x, match x with p => k end))
  (at level 10, p pattern, m at level 100, k at level 200, only parsing).

Module IGzFileInfo.

(** File information in the .gz file; the letters of [name] and [comment]
    are kept as the bytes they were read from. *)
Record t := mk {
  modificationTime : Z;
  operatingSystem : CreatingOperatingSystem;
  fastestCompression : bool;
  densestCompression : bool;
  extraData : option (list Z);
  name : list Z;
  comment : list Z;
  probablyText : bool
}.

(** [memcpy(asBytes.data(), &num, asBytes.size())] for a [num] of [size]
    bytes, on a little-endian host. *)
Definition asBytes (size : nat) (num : Z) : list Z :=
  map (λ i, Z.shiftr num (8 * Z.of_nat i) mod 256) (seq 0 size).

(** [int32_t x = value] *)
Definition to_int32 (value : Z) : Z :=
  let low := value mod 2 ^ 32 in
  if low <? 2 ^ 31 then low else low - 2 ^ 32.

Section WithSource.
Context {Src : Type} `{!PullSource Src} {S : DecompressionSettings}.

Local Abbreviation ByteInput := (ByteInput.t Src).
Local Abbreviation Sum := (cs_state (Checksum S)).

(** The lambda [check]: the [sizeof(num)] bytes of [num] go through the
    checksum. *)
Definition check (size : nat) (num : Z) (checksum : Sum) : Sum :=
  cs_fold (Checksum S) checksum (asBytes size num).

(** [while (readSoFar < extraHeaderSize)]: a turn may come back with no
    byte, [turns] bounds them. *)
Fixpoint readExtraData (turns : nat) (extraHeaderSize readSoFar : Z) (extraData : list Z)
    (input : ByteInput) (checksum : Sum) : result (list Z * ByteInput * Sum) :=
  if readSoFar <? extraHeaderSize then
    match turns with
    | O => Throw Does_not_terminate
    | Datatypes.S turns =>
        do '(taken, input) <- ByteInput.getRange (extraHeaderSize - readSoFar) input in
        let checksum := cs_fold (Checksum S) checksum taken in
        readExtraData turns extraHeaderSize (readSoFar + len taken) (extraData ++ taken)
          input checksum
    end
  else OK (extraData, input, checksum).

(** [while (letter != '\0')], which adds the letters to [name]; [turns]
    bounds the letters. *)
Fixpoint readLetters (turns : nat) (letter : Z) (name : list Z)
    (input : ByteInput) (checksum : Sum) : result (list Z * ByteInput * Sum) :=
  if letter =? 0 then OK (name, input, checksum) else
  match turns with
  | O => Throw Does_not_terminate
  | Datatypes.S turns =>
      let name := name ++ [letter] in
      do '(letter, input) <- ByteInput.getInteger 1 input in
      let checksum := check 1 letter checksum in
      readLetters turns letter name input checksum
  end.

(** [IGzFileInfo(input)].  The literals [0x1f], [0x8b] and [0x08] given to
    [check] are [int]s, of four bytes. *)
Definition make (turns : nat) (input : ByteInput) : parsed (t * ByteInput) :=
  let checksum := cs_init (Checksum S) in
  get '(isGzip, input) <-
    (do '(magic, input) <- ByteInput.getInteger 1 input in
     if negb (magic =? 0x1f) then OK (false, input) else
     do '(magic, input) <- ByteInput.getInteger 1 input in
     if negb (magic =? 0x8b) then OK (false, input) else
     do '(magic, input) <- ByteInput.getInteger 1 input in
     OK (magic =? 0x08, input)) in
  if negb isGzip then Rejected Not_a_Gzip_archive else
  let checksum := check 4 0x1f checksum in
  let checksum := check 4 0x8b checksum in
  let checksum := check 4 0x08 checksum in
  get '(flags, input) <- ByteInput.getInteger 1 input in
  let checksum := check 1 flags checksum in
  get '(time, input) <- ByteInput.getInteger 4 input in
  let modificationTime := to_int32 time in
  let checksum := check 4 modificationTime checksum in
  get '(extraFlags, input) <- ByteInput.getInteger 1 input in
  let checksum := check 1 extraFlags checksum in
  let densestCompression := extraFlags =? 4 in
  let fastestCompression := negb (extraFlags =? 4) && (extraFlags =? 8) in
  get '(creatingOperatingSystem, input) <- ByteInput.getInteger 1 input in (* Was at input[9] *)
  let checksum := check 1 creatingOperatingSystem checksum in
  let operatingSystem :=
    if creatingOperatingSystem =? 0 then WINDOWS
    else if creatingOperatingSystem =? 3 then UNIX_BASED
    else OTHER in
  get '(extraData, input, checksum) <-
    (if negb (Z.land flags 0x04 =? 0) then
       do '(extraHeaderSize, input) <- ByteInput.getInteger 2 input in
       let checksum := check 2 extraHeaderSize checksum in
       do '(extraData, input, checksum) <-
         readExtraData turns extraHeaderSize 0 [] input checksum in
       OK (Some extraData, input, checksum)
     else OK (None, input, checksum)) in
  get '(name, input, checksum) <-
    (if negb (Z.land flags 0x08 =? 0) then
       do '(letter, input) <- ByteInput.getInteger 1 input in
       let checksum := check 1 letter checksum in
       readLetters turns letter [] input checksum
     else OK ([], input, checksum)) in
  get '(name, input, checksum) <-
    (if negb (Z.land flags 0x10 =? 0) then
       do '(letter, input) <- ByteInput.getInteger 1 input in
       let checksum := check 1 letter checksum in
       readLetters turns letter name input checksum
     else OK (name, input, checksum)) in
  let probablyText := negb (Z.land flags 0x01 =? 0) in
  let info := mk modificationTime operatingSystem fastestCompression densestCompression
                extraData name [] probablyText in
  if negb (Z.land flags 0x02 =? 0) then
    get '(expectedHeaderCrc, input) <- ByteInput.getInteger 2 input in
    let checksum := check 2 expectedHeaderCrc checksum in
    let realHeaderCrc := cs_digest (Checksum S) checksum mod 2 ^ 16 in
    if negb (expectedHeaderCrc =? realHeaderCrc) then Rejected Headers_crc32_does_not_match
    else Parsed (info, input)
  else Parsed (info, input).

End WithSource.

Arguments make {Src _} S turns input.

End IGzFileInfo.

(** ** The header of a .gz file, as bytes *)

Module GzHeader.

(** The fields of a header, as they are in the file: one byte each for the
    flags, the extra flags and the operating system, and the bytes of the
    other fields. *)
Record t := mk {
  flags : Z;
  modificationTime : list Z;
  extraFlags : Z;
  creatingOperatingSystem : Z;
  extraSize : list Z;
  extraData : list Z;
  name : list Z;
  comment : list Z;
  headerCrc : list Z
}.

Definition has (h : t) (mask : Z) : bool := negb (Z.land (flags h) mask =? 0).

Definition optional {A} (present : bool) (field : list A) : list A :=
  if present then field else [].

(** The bytes of the header, in the order of the file. *)
Definition bytes (h : t) : list Z :=
  [0x1f; 0x8b; 0x08; flags h] ++ modificationTime h
  ++ [extraFlags h; creatingOperatingSystem h]
  ++ optional (has h 0x04) (extraSize h ++ extraData h)
  ++ optional (has h 0x08) (name h ++ [0])
  ++ optional (has h 0x10) (comment h ++ [0])
  ++ optional (has h 0x02) (headerCrc h).

Definition wf (h : t) : Prop :=
  len (modificationTime h) = 4 ∧
  len (extraSize h) = 2 ∧ le_value (extraSize h) = len (extraData h) ∧
  Forall (λ letter, letter ≠ 0) (name h) ∧ Forall (λ letter, letter ≠ 0) (comment h) ∧
  len (headerCrc h) = 2.

(** What [IGzFileInfo] keeps of the fields. *)
Definition info (h : t) : IGzFileInfo.t :=
  IGzFileInfo.mk
    (IGzFileInfo.to_int32 (le_value (modificationTime h)))
    (if creatingOperatingSystem h =? 0 then WINDOWS
     else if creatingOperatingSystem h =? 3 then UNIX_BASED else OTHER)
    (extraFlags h =? 8)
    (extraFlags h =? 4)
    (if has h 0x04 then Some (extraData h) else None)
    (optional (has h 0x08) (name h) ++ optional (has h 0x10) (comment h))
    []
    (has h 0x01).

(** The bytes that have gone through the checksum of the header when it is
    compared. *)
Definition checked (h : t) : list Z :=
  [0x1f; 0; 0; 0; 0x8b; 0; 0; 0; 0x08; 0; 0; 0] ++ drop 3 (bytes h).

End GzHeader.

(** A checksum of which the state after the bytes [fed] is [checksum]. *)
Definition sums (S : DecompressionSettings) (fed : list Z) (checksum : cs_state (Checksum S))
  : Prop :=
  Forall is_byte fed ∧ fed ≠ [] ∧
  checksum = cs_fold (Checksum S) (cs_init (Checksum S)) fed.

(** A checksum that can be given its input in pieces. *)
Definition folds_in_pieces (Sum : ChecksumTrait) : Prop :=
  ∀ a b, Forall is_byte a → Forall is_byte b →
         cs_fold Sum (cs_fold Sum (cs_init Sum) a) b = cs_fold Sum (cs_init Sum) (a ++ b).

(** A pull function that reports the end of its stream by writing nothing,
    as the one of [readDeflateIntoVector] over a span and the one of
    [BasicIGzStream] over a [std::istream]. *)
Definition never_throws (Src : Type) `{!PullSource Src} : Prop :=
  ∀ (src : Src) capacity, ∃ bytes next, readMore src capacity = Pulled bytes next.



(** ** The window and the stream *)

(** The bytes of the window: what is in the output buffer up to [used]. *)
Definition window {S : DecompressionSettings} (bo : ByteOutput.t S) : list Z :=
  seg 0 (ByteOutput.used bo) (ByteOutput.buffer bo).

(** The window holds the end of the stream of the bytes written, all of it
    or [minOutputBufferSize] bytes at least. *)
Definition window_follows {S : DecompressionSettings} (session : Session.t S) : Prop :=
  Session.wf (Session.state session) ∧
  (∃ older, Session.emitted session = older ++ window (Session.state session)) ∧
  (ByteOutput.used (Session.state session) = len (Session.emitted session) ∨
   minOutputBufferSize S ≤ ByteOutput.used (Session.state session)).

(** ** Runs in the code-length sequence *)

(** The bits that follow a run symbol (16, 17 or 18), and the length of the
    run they give. *)
Definition run_bits (symbol : Z) : Z :=
  if symbol =? 16 then 2 else if symbol =? 17 then 3 else 7.

Definition run_count (symbol bits : Z) : Z :=
  if symbol =? 18 then bits + 11 else bits + 3.


(** ** Concrete runs *)

(** The value of a computation that succeeds. *)
Definition unwrap {A} (default : A) (m : result A) : A :=
  match m with
  | OK a => a
  | Throw _ => default
  end.

Module Run.

(** A profile with small buffers, so that the states of the runs stay small;
    the checksum and its verification are those of the default profile. *)
Definition Settings : DecompressionSettings :=
  {| maxOutputBufferSize := 64;
     minOutputBufferSize := 32;
     inputBufferSize := 12;
     Checksum := FastCrc32;
     verifyChecksum := true |}.

Definition input (bytes : list Z) : ByteInput.t VectorData :=
  ByteInput.make Settings (mkVectorData bytes).

Definition noBits : BitReader.BitGroup * BitReader.t * ByteInput.t VectorData :=
  (BitReader.mkGroup 0 0, BitReader.null, input []).

Definition noValue : Z * BitReader.t * ByteInput.t VectorData :=
  (0, BitReader.null, input []).

(** The fixed block of the letter a: [4B 04 00]. *)
Definition fixed_a : ByteInput.t VectorData := input [0x4b; 0x04; 0x00].
Definition fixed_a_last := unwrap noBits (BitReader.getBits 1 BitReader.make fixed_a).
Definition fixed_a_type :=
  unwrap noValue (BitReader.getBitsForwardOrder 2 fixed_a_last.1.2 fixed_a_last.2).

(** The counts HLIT = 0, HDIST = 0, HCLEN = 14 of a dynamic block. *)
Definition counts : ByteInput.t VectorData := input [0x00; 0x38].
Definition counts_hlit := unwrap noValue (BitReader.getBitsForwardOrder 5 BitReader.make counts).
Definition counts_hdist :=
  unwrap noValue (BitReader.getBitsForwardOrder 5 counts_hlit.1.2 counts_hlit.2).
Definition counts_hclen :=
  unwrap noValue (BitReader.getBitsForwardOrder 4 counts_hdist.1.2 counts_hdist.2).

(** The seven bits 1100000 first. *)
Definition prefix_1100000 : ByteInput.t VectorData := input [0x03; 0x00; 0x00].
Definition prefix_1100000_part :=
  unwrap noBits (BitReader.getBits 7 BitReader.make prefix_1100000).

(** A code-length alphabet in which the symbols 0 and 16 have the codes 0
    and 1, and an input that starts with the bit 1, or with zeros. *)
Definition lengths_0_16 : list Z := [1; 0; 0; 0; 0; 0; 0; 0; 0; 0; 0; 0; 0; 0; 0; 0; 1; 0; 0].
Definition lookup_0_16 : list Z :=
  unwrap [] (DeflateReader.generateCodeCoding lengths_0_16).
Definition starts_with_16 : ByteInput.t VectorData := input [0x01].
Definition starts_with_16_peek :=
  unwrap noValue
    (BitReader.peekAByteAndConsumeSome (EncodedTable.peekLength lookup_0_16 lengths_0_16)
       BitReader.make starts_with_16).
Definition zeros : ByteInput.t VectorData := input [0x00].

(** One extra bit 1 for the length symbol 265. *)
Definition one_bit : ByteInput.t VectorData := input [0x01].
Definition one_bit_extra :=
  unwrap noValue (BitReader.getBitsForwardOrder 1 BitReader.make one_bit).
Definition noTable : EncodedTable.t := EncodedTable.mk 288 [] [] [].

(** The distance code 00000 of a fixed block. *)
Definition fixed_distance_1 :=
  unwrap noValue (DeflateReader.Fixed_distance BitReader.make zeros).

(** The stored block of "hello" past its three header bits, handed out two
    bytes a call. *)
Definition hello : ByteInput.t ChunkedData :=
  ByteInput.make Settings
    (mkChunkedData 2 [0x05; 0x00; 0xfa; 0xff; 0x68; 0x65; 0x6c; 0x6c; 0x6f; 0x01]).
Definition noInteger : Z * ByteInput.t ChunkedData := (0, hello).
Definition hello_len := unwrap noInteger (ByteInput.getBytes 2 hello).
Definition hello_nlen := unwrap noInteger (ByteInput.getBytes 2 hello_len.2).
Definition window : ByteOutput.t Settings := ByteOutput.make.
Definition noCall := (false, 0, hello, window).
Definition hello_call1 :=
  unwrap noCall (DeflateReader.LiteralState_parseSome 5 hello_nlen.2 window).
Definition hello_call2 :=
  unwrap noCall
    (DeflateReader.LiteralState_parseSome hello_call1.1.1.2 hello_call1.1.2 hello_call1.2).
Definition hello_call3 :=
  unwrap noCall
    (DeflateReader.LiteralState_parseSome hello_call2.1.1.2 hello_call2.1.2 hello_call2.2).
Definition hello_chunks : list (list Z) :=
  [Session.written window hello_call1.2;
   Session.written hello_call1.2 hello_call2.2;
   Session.written hello_call2.2 hello_call3.2].

(** A session of the window: a byte, three copies of it, the end. *)
Definition session_ops : list Session.Op :=
  [Session.AddByte 0x78; Session.RepeatSequence 3 1; Session.Done; Session.Consume 0].
Definition session_end : Session.t Settings :=
  unwrap Session.start (Session.run session_ops Session.start).

(** The archive of the stored line, read through a pull function. *)
Definition line_archive : IDeflateArchive.t ChunkedData Settings :=
  IDeflateArchive.make (mkChunkedData 4096 stored_line_stream).
Definition line_read :=
  unwrap (None, line_archive)
    (IDeflateArchive.readSome IDeflateArchive.onFinish 2 0 line_archive).

(** The trailer of the GZIP file of the letter a, and the window once the
    letter has been consumed. *)
Definition trailer : ByteInput.t VectorData :=
  input [0x43; 0xbe; 0xb7; 0xe8; 0x01; 0x00; 0x00; 0x00].
Definition trailer_crc := unwrap (0, trailer) (ByteInput.getInteger 4 trailer).
Definition letter_a_consumed : ByteOutput.t Settings :=
  Session.state
    (unwrap Session.start
       (Session.run [Session.AddByte 0x61; Session.Done; Session.Consume 0] Session.start)).

(** A profile with a narrow window and room for the whole input, and the
    archive of a final stored block of 70 characters: 30 times a, a line
    feed, 38 times b, a line feed. *)
Definition NarrowWindow : DecompressionSettings :=
  {| maxOutputBufferSize := 64;
     minOutputBufferSize := 32;
     inputBufferSize := 200;
     Checksum := NoChecksum;
     verifyChecksum := false |}.
Definition two_lines : list Z := replicate 30 0x61 ++ [0x0a] ++ replicate 38 0x62 ++ [0x0a].
Definition two_lines_archive : IDeflateArchive.t ChunkedData NarrowWindow :=
  IDeflateArchive.make
    (mkChunkedData 4096 ([0x01; 0x46; 0x00; 0xb9; 0xff] ++ two_lines ++ replicate 8 0)).

(** The archive of the stored block of "hello", handed out two bytes a
    call, under the minimal profile. *)
Definition hello_archive : IDeflateArchive.t ChunkedData MinDecompressionSettings :=
  IDeflateArchive.make
    (mkChunkedData 2 [0x01; 0x05; 0x00; 0xfa; 0xff; 0x68; 0x65; 0x6c; 0x6c; 0x6f]).

(** Twenty digits, more than a chunk of [FastCrc32], whole and in two slices. *)
Definition digits_1 : list Z := [0x31; 0x32; 0x33; 0x34; 0x35; 0x36; 0x37; 0x38; 0x39].
Definition digits_2 : list Z :=
  [0x30; 0x31; 0x32; 0x33; 0x34; 0x35; 0x36; 0x37; 0x38; 0x39; 0x30].
Definition digits : list Z := digits_1 ++ digits_2.

(** The first six bytes of the trailer, taken as a range. *)
Definition trailer_range := unwrap ([], trailer) (ByteInput.getRange 6 trailer).

(** The window after a byte, and after three copies of it. *)
Definition one_byte : ByteOutput.t Settings := unwrap window (ByteOutput.addByte 0x78 window).
Definition copied : ByteOutput.t Settings :=
  unwrap window (ByteOutput.repeatSequence 3 1 one_byte).

(** A table of one symbol whose code has one bit, and the quantities of its
    lengths. *)
Definition one_code : EncodedTable.Generated :=
  EncodedTable.mkGenerated [CodeEntry.mk 0 1] (replicate 256 EncodedTable.UNUSED)
    (replicate 256 (UnindexedEntry.mk 0 0 0)) 0.
Definition one_code_quantities : list Z := [0; 1; 0; 0; 0; 0; 0; 0; 0; 0; 0; 0; 0; 0; 0; 0; 0].

(** Four lengths of the code-length code: 3, 1, 1 and 2 for the symbols 16,
    17, 18 and 0. *)
Definition four_lengths : ByteInput.t VectorData := input [0x4b; 0x04; 0x00].
Definition four_lengths_read :=
  unwrap ([], BitReader.null, four_lengths)
    (DeflateReader.readCodeCodingLengths 4 BitReader.make four_lengths).

(** A table of 31 distances, all of length 0. *)
Definition no_distances : ByteInput.t VectorData := input [0; 0; 0; 0; 0; 0; 0; 0].
Definition no_distances_table := Eval vm_compute in
  unwrap (noTable, BitReader.null, no_distances)
    (EncodedTable.make 31 31 lookup_0_16 lengths_0_16 BitReader.make no_distances).

(** The header of a .gz file with a name, a comment and the checksum of the
    header, then two bytes of what follows. *)
Definition named : ByteInput.t VectorData :=
  input [0x1f; 0x8b; 0x08; 0x1a; 0x01; 0x02; 0x03; 0x80; 0x04; 0x03;
         0x61; 0x62; 0x00; 0x63; 0x00; 0x1c; 0x26; 0x09; 0x09].
Definition noInfo : IGzFileInfo.t := IGzFileInfo.mk 0 OTHER false false None [] [] false.
Definition named_parsed : IGzFileInfo.t * ByteInput.t VectorData :=
  match IGzFileInfo.make Settings 8 named with
  | Parsed a => a
  | Rejected _ => (noInfo, named)
  end.

(** A header that announces five bytes of extra data, and two of them. *)
Definition short_extra : ByteInput.t VectorData :=
  input [0x1f; 0x8b; 0x08; 0x04; 0x00; 0x00; 0x00; 0x00; 0x00; 0x03; 0x05; 0x00; 0x01; 0x02].

(** A fixed block with nine letters a, then a stored block with xyz. *)
Definition two_blocks : list Z :=
  [0x4a; 0x4c; 0x4c; 0x4c; 0x4c; 0x4c; 0x4c; 0x4c; 0x4c; 0x04; 0x04;
   0x03; 0x00; 0xfc; 0xff; 0x78; 0x79; 0x7a].

(** The bit reader and the input when the fixed block is over. *)
Definition two_blocks_between : BitReader.t * ByteInput.t VectorData := Eval vm_compute in
  unwrap (BitReader.null, input [])
    (do '(wasLast, state, bi) <- DeflateReader.startBlock BitReader.make (input two_blocks) in
     do driven <- DeflateReader.driveState (DeflateReader.mk bi window state wasLast) in
     match driven with
     | inr (r, bi, _) => OK (r, bi)
     | inl _ => Throw Does_not_terminate
     end).

(** The same profile with a longer input buffer. *)
Definition LongerInput : DecompressionSettings :=
  {| maxOutputBufferSize := 64;
     minOutputBufferSize := 32;
     inputBufferSize := 28;
     Checksum := FastCrc32;
     verifyChecksum := true |}.

(** A stored block with xyz, the last one, after the input has been filled. *)
Definition stored_xyz : ByteInput.t VectorData := Eval vm_compute in
  (unwrap ([], input [])
     (ByteInput.getRange 0 (input [0x01; 0x03; 0x00; 0xfc; 0xff; 0x78; 0x79; 0x7a]))).2.

(** A session that consumes twice, the second time with a window that has to
    move, and copies afterwards. *)
Definition window_ops : list Session.Op :=
  [Session.AddBytes (replicate 40 0x61); Session.Consume 0;
   Session.AddBytes (replicate 20 0x62); Session.Consume 0;
   Session.RepeatSequence 4 25].
Definition window_session : Session.t Settings := Eval vm_compute in
  unwrap Session.start (Session.run window_ops Session.start).

(** The two bits after the symbol 16 at the start of [starts_with_16]. *)
Definition starts_with_16_run := Eval vm_compute in
  unwrap noValue
    (BitReader.getBitsForwardOrder 2 starts_with_16_peek.1.2 starts_with_16_peek.2).

End Run.

(** * Properties *)

(** ** The error monad and the arrays *)

Lemma bind_OK {A B} (m : result A) (k : A → result B) b :
  bind m k = OK b → ∃ a, m = OK a ∧ k a = OK b.
Proof. destruct m as [a|e]; simpl; [eauto | discriminate]. Qed.

Lemma bind_Throw {A B} (m : result A) (k : A → result B) e :
  bind m k = Throw e → m = Throw e ∨ ∃ a, m = OK a ∧ k a = Throw e.
Proof. destruct m as [a|e']; simpl; [eauto | intros [= ->]; auto]. Qed.

(** Splits the first [bind] of a hypothesis [H : bind m k = OK _]. *)
Ltac bind_ok H :=
  let a := fresh "a" in
  let E := fresh "E" in
  apply bind_OK in H; destruct H as (a & E & H); simpl in H.

Lemma len_nonneg {A} (l : list A) : 0 ≤ len l.
Proof. unfold len. lia. Qed.

Lemma len_app {A} (l k : list A) : len (l ++ k) = len l + len k.
Proof. unfold len. rewrite length_app. lia. Qed.

Lemma len_nil {A} : len (@nil A) = 0.
Proof. reflexivity. Qed.

Lemma index_inv {A} (a : list A) i x :
  index a i = OK x → 0 ≤ i < len a ∧ a !! Z.to_nat i = Some x.
Proof.
  unfold index, len. destruct (i <? 0) eqn:Hi; [discriminate|].
  destruct (a !! Z.to_nat i) as [y|] eqn:Hy; [|discriminate].
  intros [= ->]. apply lookup_lt_Some in Hy as Hlt. split; [lia | reflexivity].
Qed.

Lemma forall_byte (f : Z → bool) :
  forallb f (map Z.of_nat (seq 0 256)) = true → ∀ d, 0 ≤ d < 256 → f d = true.
Proof.
  intros Hall d Hd. rewrite forallb_forall in Hall. apply Hall.
  apply in_map_iff. exists (Z.to_nat d). split; [lia|].
  apply in_seq. lia.
Qed.

(** ** BitReader *)

Lemma upperRemovals_ones amount mask :
  index BitReader.upperRemovals amount = OK mask →
  0 ≤ amount ≤ 16 ∧ mask = Z.ones amount.
Proof.
  intros H. apply index_inv in H as [Hrange Hlookup].
  change (len BitReader.upperRemovals) with 17 in Hrange.
  split; [lia|].
  rewrite <- (Z2Nat.id amount) by lia.
  assert (Hlt : (Z.to_nat amount < 17)%nat) by lia.
  revert Hlookup Hlt. generalize (Z.to_nat amount). intros k.
  do 17 (destruct k as [|k]; [intros [= <-] _; reflexivity|]).
  intros _ ?. lia.
Qed.

Section BitReaderFacts.
Context {Src : Type} `{!PullSource Src}.

Lemma getBitsForwardOrder_inv amount r (bi : ByteInput.t Src) v r' bi' :
  BitReader.getBitsForwardOrder amount r bi = OK (v, r', bi') →
  ∃ r0, BitReader.refillIfNeeded r bi = OK (r0, bi') ∧
        0 ≤ amount ≤ 16 ∧
        v = Z.land (BitReader.data r0 mod 2 ^ 16) (Z.ones amount) ∧
        r' = BitReader.mk (BitReader.attached r0) (BitReader.bitsLeft r0 - amount)
                          (Z.shiftr (BitReader.data r0) amount).
Proof.
  unfold BitReader.getBitsForwardOrder. intros H.
  bind_ok H. destruct a as [r0 bi0]. bind_ok H.
  apply upperRemovals_ones in E0 as [Hamount ->].
  injection H as <- <- <-. exists r0. auto.
Qed.

Lemma getBitsForwardOrder_range amount r (bi : ByteInput.t Src) v r' bi' :
  BitReader.getBitsForwardOrder amount r bi = OK (v, r', bi') →
  0 ≤ amount ≤ 16 ∧ 0 ≤ v < 2 ^ amount.
Proof.
  intros H. apply getBitsForwardOrder_inv in H as (r0 & _ & Hamount & -> & _).
  split; [assumption|].
  rewrite Z.land_ones by lia. apply Z.mod_pos_bound. apply Z.pow_pos_nonneg; lia.
Qed.

Lemma getBits_inv amount r (bi : ByteInput.t Src) g r' bi' :
  BitReader.getBits amount r bi = OK (g, r', bi') →
  ∃ r0 reversed,
    BitReader.refillIfNeeded r bi = OK (r0, bi') ∧
    0 ≤ amount ≤ 8 ∧
    BitReader.reversedBytes !! Z.to_nat (BitReader.data r0 mod 256) = Some reversed ∧
    g = BitReader.mkGroup (Z.shiftr reversed (8 - amount)) amount ∧
    r' = BitReader.mk (BitReader.attached r0) (BitReader.bitsLeft r0 - amount)
                      (Z.shiftr (BitReader.data r0) amount).
Proof.
  unfold BitReader.getBits. intros H.
  bind_ok H. destruct a as [r0 bi0]. bind_ok H.
  destruct ((amount <? 0) || (8 <? amount)) eqn:Hamount; [discriminate|].
  injection H as <- <- <-. apply index_inv in E0 as [_ E0].
  exists r0, a. repeat split; auto; lia.
Qed.

(** The table of reversed bytes does reverse the bits of a byte. *)
Lemma reversedBytes_bits d reversed :
  0 ≤ d < 256 →
  BitReader.reversedBytes !! Z.to_nat d = Some reversed →
  0 ≤ reversed < 256 ∧ ∀ i, 0 ≤ i < 8 → Z.testbit reversed i = Z.testbit d (7 - i).
Proof.
  intros Hd Hr.
  pose (f := λ d : Z,
    match BitReader.reversedBytes !! Z.to_nat d with
    | Some r => (0 <=? r) && (r <? 256) &&
                forallb (λ i : nat, Bool.eqb (Z.testbit r (Z.of_nat i))
                                             (Z.testbit d (7 - Z.of_nat i))) (seq 0 8)
    | None => false
    end).
  assert (Hf : f d = true) by (apply forall_byte; [vm_compute; reflexivity | lia]).
  unfold f in Hf. rewrite Hr in Hf.
  apply andb_prop in Hf as [Hrange Hbits]. split; [lia|].
  intros i Hi. rewrite forallb_forall in Hbits.
  specialize (Hbits (Z.to_nat i)). rewrite Z2Nat.id in Hbits by lia.
  apply Bool.eqb_prop, Hbits, in_seq. lia.
Qed.

End BitReaderFacts.

(** ** The block header *)

Section BlockHeader.
Context {Src : Type} `{!PullSource Src}.

Lemma reversedBytes_total d :
  ∃ reversed, index BitReader.reversedBytes (d mod 256) = OK reversed ∧
              BitReader.reversedBytes !! Z.to_nat (d mod 256) = Some reversed.
Proof.
  assert (Hd : 0 ≤ d mod 256 < 256) by (apply Z.mod_pos_bound; lia).
  unfold index. destruct (d mod 256 <? 0) eqn:Hneg; [lia|].
  destruct (BitReader.reversedBytes !! Z.to_nat (d mod 256)) as [x|] eqn:Hx; [eauto|].
  apply lookup_ge_None in Hx. change (length BitReader.reversedBytes) with 256%nat in Hx. lia.
Qed.

(** Two bits read in Huffman order are the two bits of the field read in
    forward order, swapped. *)
Lemma getBits_2_swaps r (bi : ByteInput.t Src) field r' bi' :
  BitReader.getBitsForwardOrder 2 r bi = OK (field, r', bi') →
  0 ≤ field < 4 ∧
  BitReader.getBits 2 r bi
  = OK (BitReader.mkGroup (2 * (field mod 2) + field / 2) 2, r', bi').
Proof.
  intros H. pose proof (getBitsForwardOrder_range _ _ _ _ _ _ H) as [_ Hrange].
  change (2 ^ 2) with 4 in Hrange. split; [assumption|].
  apply getBitsForwardOrder_inv in H as (r0 & Hrefill & _ & -> & ->).
  unfold BitReader.getBits. rewrite Hrefill. simpl.
  destruct (reversedBytes_total (BitReader.data r0)) as (reversed & -> & Hlookup). simpl.
  do 3 f_equal.
  rewrite Z.land_ones by lia.
  rewrite (Z.mod_mod_divide (BitReader.data r0) (2 ^ 16) (2 ^ 2))
    by (exists (2 ^ 14); reflexivity).
  rewrite <- (Z.mod_mod_divide (BitReader.data r0) 256 (2 ^ 2)) by (exists 64; reflexivity).
  assert (Hd : 0 ≤ BitReader.data r0 mod 256 < 256) by (apply Z.mod_pos_bound; lia).
  revert Hlookup Hd. generalize (BitReader.data r0 mod 256). intros d Hlookup Hd.
  pose (f := λ d : Z,
    match BitReader.reversedBytes !! Z.to_nat d with
    | Some r => Z.shiftr r (8 - 2) =? 2 * ((d mod 2 ^ 2) mod 2) + (d mod 2 ^ 2) / 2
    | None => false
    end).
  assert (Hf : f d = true) by (apply forall_byte; [vm_compute; reflexivity | lia]).
  unfold f in Hf. rewrite Hlookup in Hf. f_equal. lia.
Qed.

(** C4 (amended): a new block reads one bit into [wasLast] and then two bits
    in Huffman order; what is stored is the BTYPE field, as it would be read
    in forward order, with its two bits swapped, and the comparisons are made
    against the swapped constants: BTYPE=00 constructs the stored substate,
    BTYPE=01 the fixed one, BTYPE=10 the dynamic one and BTYPE=11 throws an
    exception of kind MalformedHeader. *)
Theorem C4_block_type_dispatch (bitInput : BitReader.t) (bi : ByteInput.t Src)
    last r1 bi1 btype r2 bi2 :
  BitReader.getBits 1 bitInput bi = OK (last, r1, bi1) →
  BitReader.getBitsForwardOrder 2 r1 bi1 = OK (btype, r2, bi2) →
  let wasLast := negb (BitReader.value last =? 0) in
  (∃ stored, BitReader.getBits 2 r1 bi1 = OK (stored, r2, bi2) ∧
             BitReader.value stored = 2 * (btype mod 2) + btype / 2 ∧
             (BitReader.value stored = btype ↔ btype = 0 ∨ btype = 3)) ∧
  (btype = 0 →
     DeflateReader.startBlock bitInput bi
     = do '(bytesLeft, bi') <- DeflateReader.LiteralState_make (BitReader.destroy r2 bi2) in
       OK (wasLast, DeflateReader.LiteralState bytesLeft, bi')) ∧
  (btype = 1 →
     DeflateReader.startBlock bitInput bi
     = OK (wasLast, DeflateReader.FixedCodeState (CopyState.mk 0 0) r2, bi2)) ∧
  (btype = 2 →
     DeflateReader.startBlock bitInput bi
     = do '(extraCodes, distanceCodes, codeLengthCount, r3, bi3) <-
          DeflateReader.readCounts r2 bi2 in
       do '(codeCodingLengths, r4, bi4) <-
          DeflateReader.readCodeCodingLengths codeLengthCount r3 bi3 in
       do codeCodingLookup <- DeflateReader.generateCodeCoding codeCodingLengths in
       do '(codes, r5, bi5) <-
          EncodedTable.make 288 (257 + extraCodes) codeCodingLookup codeCodingLengths r4 bi4 in
       do '(distanceCode, r6, bi6) <-
          EncodedTable.make 31 distanceCodes codeCodingLookup codeCodingLengths r5 bi5 in
       OK (wasLast, DeflateReader.DynamicCodeState (CopyState.mk 0 0) r6 codes distanceCode, bi6)) ∧
  (btype = 3 →
     DeflateReader.startBlock bitInput bi = Throw Unknown_type_of_block_compression ∧
     kind_of Unknown_type_of_block_compression = Some MalformedHeader) ∧
  0 ≤ btype ≤ 3.
Proof.
  intros Hlast Hfield wasLast.
  apply getBits_2_swaps in Hfield as [Hrange Hstored].
  assert (Hcases : btype = 0 ∨ btype = 1 ∨ btype = 2 ∨ btype = 3) by lia.
  split; [|split; [|split; [|split; [|split]]]].
  - eexists. split; [exact Hstored|]. simpl. split; [reflexivity|].
    destruct Hcases as [ -> | [ -> | [ -> | -> ] ] ]; vm_compute; intuition congruence.
  - intros ->. unfold DeflateReader.startBlock. rewrite Hlast. simpl. rewrite Hstored. simpl.
    unfold DeflateReader.emplace_LiteralState.
    destruct (DeflateReader.LiteralState_make (BitReader.destroy r2 bi2)) as [[n bi']|e];
      reflexivity.
  - intros ->. unfold DeflateReader.startBlock. rewrite Hlast. simpl. rewrite Hstored.
    reflexivity.
  - intros ->. unfold DeflateReader.startBlock. rewrite Hlast. simpl. rewrite Hstored. simpl.
    unfold DeflateReader.emplace_DynamicCodeState, DeflateReader.DynamicCodeState_make.
    destruct (DeflateReader.readCounts r2 bi2) as [[[[[extraCodes distanceCodes] n] r3] bi3]|e];
      [simpl|reflexivity].
    destruct (DeflateReader.readCodeCodingLengths n r3 bi3) as [[[lengths r4] bi4]|e];
      [simpl|reflexivity].
    destruct (DeflateReader.generateCodeCoding lengths) as [lookup|e]; [simpl|reflexivity].
    destruct (EncodedTable.make 288 (257 + extraCodes) lookup lengths r4 bi4)
      as [[[codes r5] bi5]|e]; [simpl|reflexivity].
    destruct (EncodedTable.make 31 distanceCodes lookup lengths r5 bi5)
      as [[[distanceCode r6] bi6]|e]; reflexivity.
  - intros ->. unfold DeflateReader.startBlock. rewrite Hlast. simpl. rewrite Hstored.
    split; reflexivity.
  - lia.
Qed.

(** C5 (amended): with the three counts of a dynamic block as they are
    transmitted, HLIT, HDIST and HCLEN, the range checks pass exactly when
    HLIT is in [0,29] and HDIST is in [0,30]; every value of HCLEN passes; a
    header that does not pass throws an exception of kind MalformedHeader. *)
Theorem C5_dynamic_header_ranges (bitInput : BitReader.t) (bi : ByteInput.t Src)
    hlit r1 bi1 hdist r2 bi2 hclen r3 bi3 :
  BitReader.getBitsForwardOrder 5 bitInput bi = OK (hlit, r1, bi1) →
  BitReader.getBitsForwardOrder 5 r1 bi1 = OK (hdist, r2, bi2) →
  BitReader.getBitsForwardOrder 4 r2 bi2 = OK (hclen, r3, bi3) →
  (0 ≤ hlit ≤ 31 ∧ 0 ≤ hdist ≤ 31 ∧ 0 ≤ hclen ≤ 15) ∧
  (hlit ≤ 29 ∧ hdist ≤ 30 →
     DeflateReader.readCounts bitInput bi = OK (hlit, hdist + 1, hclen + 4, r3, bi3)) ∧
  (¬ (hlit ≤ 29 ∧ hdist ≤ 30) →
     ∃ e, DeflateReader.readCounts bitInput bi = Throw e ∧
          kind_of e = Some MalformedHeader).
Proof.
  intros Hlit Hdist Hclen.
  pose proof (getBitsForwardOrder_range _ _ _ _ _ _ Hlit) as [_ Rlit].
  pose proof (getBitsForwardOrder_range _ _ _ _ _ _ Hdist) as [_ Rdist].
  pose proof (getBitsForwardOrder_range _ _ _ _ _ _ Hclen) as [_ Rclen].
  change (2 ^ 5) with 32 in *. change (2 ^ 4) with 16 in *.
  split; [lia|]. unfold DeflateReader.readCounts. rewrite Hlit. simpl.
  split.
  - intros [Hl Hd].
    destruct (hlit >? 29) eqn:E1; [lia|]. rewrite Hdist. simpl.
    destruct (hdist + 1 >? 31) eqn:E2; [lia|]. rewrite Hclen. simpl.
    destruct (hclen + 4 >? 19) eqn:E3; [lia|]. reflexivity.
  - intros Hout.
    destruct (hlit >? 29) eqn:E1; [eexists; split; reflexivity|].
    rewrite Hdist. simpl.
    destruct (hdist + 1 >? 31) eqn:E2; [eexists; split; reflexivity|]. lia.
Qed.

End BlockHeader.

(** ** Lengths and distances *)

Lemma forall_range (f : Z → bool) (lo : Z) (n : nat) :
  forallb f (map (λ k, lo + Z.of_nat k) (seq 0 n)) = true →
  ∀ x, lo ≤ x < lo + Z.of_nat n → f x = true.
Proof.
  intros Hall x Hx. rewrite forallb_forall in Hall. apply Hall.
  apply in_map_iff. exists (Z.to_nat (x - lo)). split; [lia|].
  apply in_seq. lia.
Qed.

Lemma lor_shiftl_small a e x :
  0 ≤ e → 0 ≤ x < 2 ^ e → Z.lor (Z.shiftl a e) x = a * 2 ^ e + x.
Proof.
  intros He Hx. rewrite Z.shiftl_mul_pow2 by lia.
  assert (Hdisjoint : Z.land (a * 2 ^ e) x = 0).
  { apply Z.bits_inj'. intros n Hn. rewrite Z.land_spec, Z.bits_0.
    destruct (Z.lt_ge_cases n e) as [Hlt|Hge].
    - rewrite Z.mul_pow2_bits_low by lia. reflexivity.
    - assert (Hxn : Z.testbit x n = false).
      { destruct (Z.eq_dec x 0) as [->|Hne]; [apply Z.bits_0|].
        apply Z.bits_above_log2; [lia|].
        apply Z.log2_lt_pow2; [lia|].
        eapply Z.lt_le_trans; [apply Hx|]. apply Z.pow_le_mono_r; lia. }
      rewrite Hxn. apply andb_false_r. }
  rewrite (Z.add_nocarry_lxor _ _ Hdisjoint). symmetry. apply Z.lxor_lor. exact Hdisjoint.
Qed.

Section LengthsAndDistances.
Context {Src : Type} `{!PullSource Src} {S : DecompressionSettings}.

Lemma while_available_turn {St} fuel (out : St → ByteOutput.t S) turn st t :
  ByteOutput.available (out st) ≠ 0 →
  turn st = OK t →
  DeflateReader.while_available (Datatypes.S fuel) out turn st
  = match t with
    | DeflateReader.Returned more st => OK (more, st)
    | DeflateReader.Broke st => OK (ByteOutput.available (out st) =? 0, st)
    | DeflateReader.Continues st => DeflateReader.while_available fuel out turn st
    end.
Proof.
  intros Havailable Hturn. simpl.
  destruct (ByteOutput.available (out st) =? 0) eqn:E; [lia|]. simpl.
  rewrite Hturn. reflexivity.
Qed.

(** What [parseLongerSize] computes for the symbols that take extra bits. *)
Lemma parseLongerSize_extra partOfSize r (bi : ByteInput.t Src) extra r' bi' :
  11 ≤ partOfSize ≤ 30 →
  BitReader.getBitsForwardOrder (Z.shiftr (partOfSize - 7) 2) r bi = OK (extra, r', bi') →
  BitReader.parseLongerSize partOfSize r bi
  = OK (table_entry rfc1951_length_base 3 partOfSize + extra, r', bi') ∧
  table_entry rfc1951_length_extra_bits 3 partOfSize = Z.shiftr (partOfSize - 7) 2 ∧
  0 ≤ extra < 2 ^ Z.shiftr (partOfSize - 7) 2.
Proof.
  intros Hsize Hextra.
  pose proof (getBitsForwardOrder_range _ _ _ _ _ _ Hextra) as [He Hx].
  unfold BitReader.parseLongerSize.
  destruct (partOfSize =? 31) eqn:E; [lia|]. simpl. rewrite Hextra. simpl.
  rewrite lor_shiftl_small by lia.
  pose (f := λ p : Z,
    (Z.land (p + 1) 3 * 2 ^ Z.shiftr (p - 7) 2 + (Z.shiftl 1 (Z.shiftr (p + 1) 2) + 3)
     =? table_entry rfc1951_length_base 3 p)
    && (table_entry rfc1951_length_extra_bits 3 p =? Z.shiftr (p - 7) 2)).
  assert (Hf : f partOfSize = true)
    by (apply (forall_range f 11 20); [vm_compute; reflexivity | lia]).
  unfold f in Hf. apply andb_prop in Hf as [Hbase Hbits].
  split; [|split; [lia | assumption]].
  do 3 f_equal. lia.
Qed.

Lemma parseLongerDistance_extra partOfDistance r (bi : ByteInput.t Src) extra r' bi' :
  5 ≤ partOfDistance ≤ 30 →
  BitReader.getBitsForwardOrder (Z.shiftr (partOfDistance - 3) 1) r bi = OK (extra, r', bi') →
  BitReader.parseLongerDistance partOfDistance r bi
  = OK (table_entry rfc1951_distance_base 0 (partOfDistance - 1) + extra, r', bi') ∧
  table_entry rfc1951_distance_extra_bits 0 (partOfDistance - 1)
  = Z.shiftr (partOfDistance - 3) 1 ∧
  0 ≤ extra < 2 ^ Z.shiftr (partOfDistance - 3) 1.
Proof.
  intros Hsize Hextra.
  pose proof (getBitsForwardOrder_range _ _ _ _ _ _ Hextra) as [He Hx].
  unfold BitReader.parseLongerDistance. rewrite Hextra. simpl.
  pose (f := λ p : Z,
    match index BitReader.distanceOffsets (p - 1) with
    | OK offset => (offset =? table_entry rfc1951_distance_base 0 (p - 1))
                   && (table_entry rfc1951_distance_extra_bits 0 (p - 1) =? Z.shiftr (p - 3) 1)
    | Throw _ => false
    end).
  assert (Hf : f partOfDistance = true)
    by (apply (forall_range f 5 26); [vm_compute; reflexivity | lia]).
  unfold f in Hf.
  destruct (index BitReader.distanceOffsets (partOfDistance - 1)) as [offset|]; [|discriminate].
  apply andb_prop in Hf as [Hbase Hbits]. simpl.
  split; [|split; [lia | assumption]].
  do 3 f_equal. lia.
Qed.


End LengthsAndDistances.

(** ** Back-reference distances *)

Section Distances.
Context {Src : Type} `{!PullSource Src} {S : DecompressionSettings}.

Lemma peekAByteAndConsumeSome_inv {A} (f : Z → result (A * Z)) r (bi : ByteInput.t Src)
    a r' bi' :
  BitReader.peekAByteAndConsumeSome f r bi = OK (a, r', bi') →
  ∃ r0 reversed consumed,
    BitReader.refillIfNeeded r bi = OK (r0, bi') ∧
    BitReader.reversedBytes !! Z.to_nat (BitReader.data r0 mod 256) = Some reversed ∧
    f reversed = OK (a, consumed) ∧ 0 ≤ consumed ∧
    r' = BitReader.mk (BitReader.attached r0) (BitReader.bitsLeft r0 - consumed)
                      (Z.shiftr (BitReader.data r0) consumed).
Proof.
  unfold BitReader.peekAByteAndConsumeSome. intros H.
  bind_ok H. destruct a0 as [r0 bi0]. bind_ok H. bind_ok H. destruct a1 as [a' consumed].
  destruct (consumed <? 0) eqn:Hc; [discriminate|]. injection H as <- <- <-.
  apply index_inv in E0 as [_ E0]. exists r0, a0, consumed. repeat split; auto. lia.
Qed.

Lemma searchRemainders_nonneg count i peeked remainders word consumed :
  EncodedTable.searchRemainders count i peeked remainders = OK (word, consumed) → 0 ≤ word.
Proof.
  revert i. induction count as [|count IH]; intros i H; simpl in H; [discriminate|].
  bind_ok H. bind_ok H.
  destruct (Z.land peeked a0 =? CodeRemainder.remainder a).
  - injection H as <- _. apply Z.land_nonneg. right. lia.
  - destruct (negb (Z.land (CodeRemainder.index a) 32768 =? 0)); [discriminate|]. eauto.
Qed.

Lemma readWord_nonneg table r (bi : ByteInput.t Src) word r' bi' :
  EncodedTable.readWord table r bi = OK (word, r', bi') → 0 ≤ word.
Proof.
  unfold EncodedTable.readWord. intros H. bind_ok H. destruct a as [[first r1] bi1].
  apply peekAByteAndConsumeSome_inv in E as (r0 & reversed & consumed & _ & _ & Hf & _).
  destruct (first >=? EncodedTable.MaxSize table) eqn:Hlong.
  - apply peekAByteAndConsumeSome_inv in H as (r2 & rev2 & c2 & _ & _ & Hsearch & _).
    eapply searchRemainders_nonneg, Hsearch.
  - injection H as <- <- <-.
    bind_ok Hf. destruct (a >=? EncodedTable.MaxSize table) eqn:Ha.
    + injection Hf as <- _. rewrite Ha in Hlong. discriminate.
    + destruct (a =? EncodedTable.UNUSED); [discriminate|].
      bind_ok Hf. injection Hf as <- _. apply index_inv in E0. lia.
Qed.

Lemma distanceOffsets_positive i offset :
  index BitReader.distanceOffsets i = OK offset → 1 ≤ offset.
Proof.
  intros H. apply index_inv in H as [_ H].
  assert (Hall : Forall (λ x, 1 ≤ x) BitReader.distanceOffsets)
    by (unfold BitReader.distanceOffsets; repeat constructor; lia).
  rewrite Forall_lookup in Hall. eapply Hall, H.
Qed.

Lemma parseLongerDistance_positive partOfDistance r (bi : ByteInput.t Src) d r' bi' :
  BitReader.parseLongerDistance partOfDistance r bi = OK (d, r', bi') → 1 ≤ d.
Proof.
  unfold BitReader.parseLongerDistance. intros H.
  bind_ok H. destruct a as [[moreBits r1] bi1]. bind_ok H. injection H as <- _ _.
  apply getBitsForwardOrder_range in E as [_ Hmore].
  apply distanceOffsets_positive in E0. lia.
Qed.

Lemma Fixed_distance_positive r (bi : ByteInput.t Src) d r' bi' :
  DeflateReader.Fixed_distance r bi = OK (d, r', bi') → 1 ≤ d.
Proof.
  unfold DeflateReader.Fixed_distance. intros H.
  bind_ok H. destruct a as [[readingDistance r1] bi1].
  apply getBits_inv in E as (r0 & reversed & _ & _ & Hreversed & -> & _).
  apply reversedBytes_bits in Hreversed as [Hrange _];
    [|apply Z.mod_pos_bound; lia].
  assert (0 ≤ Z.shiftr reversed (8 - 5)) by (apply Z.shiftr_nonneg; lia).
  simpl in H.
  destruct (Z.shiftr reversed (8 - 5) + 1 >? 4).
  - eapply parseLongerDistance_positive, H.
  - injection H as <- _ _. lia.
Qed.

Lemma Dynamic_distance_positive table r (bi : ByteInput.t Src) d r' bi' :
  DeflateReader.Dynamic_distance table r bi = OK (d, r', bi') → 1 ≤ d.
Proof.
  unfold DeflateReader.Dynamic_distance. intros H.
  bind_ok H. destruct a as [[word r1] bi1]. apply readWord_nonneg in E.
  destruct (word + 1 >? 4).
  - eapply parseLongerDistance_positive, H.
  - injection H as <- _ _. lia.
Qed.

Lemma restart_copy_inv c (output : ByteOutput.t S) finished c' output' :
  CopyState.restart c output = OK (finished, c', output') →
  CopyState.copyDistance c' = CopyState.copyDistance c.
Proof.
  unfold CopyState.restart. intros H. bind_ok H. injection H as _ <- _. reflexivity.
Qed.

(** The [while] of a [parseSome] keeps what every turn keeps. *)
Lemma while_available_invariant {St} (P : St → Prop) fuel (out : St → ByteOutput.t S)
    turn st more st' :
  (∀ st t, P st → turn st = OK t →
           match t with
           | DeflateReader.Returned _ st' | DeflateReader.Broke st'
           | DeflateReader.Continues st' => P st'
           end) →
  P st →
  DeflateReader.while_available fuel out turn st = OK (more, st') →
  P st'.
Proof.
  intros Hturn. revert st. induction fuel as [|fuel IH]; intros st HP H; simpl in H.
  - destruct (negb (ByteOutput.available (out st) =? 0)); [discriminate|].
    inversion H; subst; assumption.
  - destruct (negb (ByteOutput.available (out st) =? 0)).
    + bind_ok H. specialize (Hturn _ _ HP E).
      destruct a as [more' st1|st1|st1].
      * inversion H; subst; assumption.
      * inversion H; subst; assumption.
      * eapply IH; [exact Hturn | exact H].
    + inversion H; subst; assumption.
Qed.

Lemma Fixed_turn_copy_ok c r (bi : ByteInput.t Src) (output : ByteOutput.t S) t :
  copy_pending_ok c →
  DeflateReader.Fixed_turn (c, r, bi, output) = OK t →
  match t with
  | DeflateReader.Returned _ st | DeflateReader.Broke st | DeflateReader.Continues st =>
      copy_pending_ok st.1.1.1
  end.
Proof.
  intros Hc H. unfold DeflateReader.Fixed_turn in H.
  bind_ok H. destruct a as [[part r1] bi1].
  destruct (BitReader.value part =? 0); [injection H as <-; exact Hc|].
  destruct ((BitReader.value part >=? 24) && (BitReader.value part <=? 95)).
  { bind_ok H. destruct a as [[part' r2] bi2]. bind_ok H. injection H as <-. exact Hc. }
  destruct (BitReader.value part >=? 100).
  { bind_ok H. destruct a as [[part' r2] bi2]. bind_ok H. injection H as <-. exact Hc. }
  bind_ok H. destruct a as [[size r2] bi2].
  bind_ok H. destruct a as [[distance r3] bi3].
  bind_ok H. destruct a as [[finished c'] output'].
  injection H as <-. simpl.
  apply Fixed_distance_positive in E1. apply restart_copy_inv in E2. simpl in E2.
  intros _. lia.
Qed.

Lemma Dynamic_turn_copy_ok codes distanceCode c r (bi : ByteInput.t Src)
    (output : ByteOutput.t S) t :
  copy_pending_ok c →
  DeflateReader.Dynamic_turn codes distanceCode (c, r, bi, output) = OK t →
  match t with
  | DeflateReader.Returned _ st | DeflateReader.Broke st | DeflateReader.Continues st =>
      copy_pending_ok st.1.1.1
  end.
Proof.
  intros Hc H. unfold DeflateReader.Dynamic_turn in H.
  bind_ok H. destruct a as [[word r1] bi1].
  destruct (word <? 256).
  { bind_ok H. injection H as <-. exact Hc. }
  destruct (word =? 256); [injection H as <-; exact Hc|].
  bind_ok H. destruct a as [[length r2] bi2].
  bind_ok H. destruct a as [[distance r3] bi3].
  bind_ok H. destruct a as [[finished c'] output'].
  injection H as <-. simpl.
  apply Dynamic_distance_positive in E1. apply restart_copy_inv in E2. simpl in E2.
  intros _. lia.
Qed.

Lemma repeatSequence_loop_terminates fuel length distance written (bo : ByteOutput.t S) :
  1 ≤ distance → length - written ≤ Z.of_nat fuel →
  ByteOutput.repeatSequence_loop fuel length distance written bo ≠ Throw Does_not_terminate.
Proof.
  intros Hd. revert written bo. induction fuel as [|fuel IH]; intros written bo Hfuel; simpl.
  - destruct (written <? length) eqn:E; [lia | discriminate].
  - destruct (written <? length) eqn:E; [|discriminate].
    destruct (distance >? ByteOutput.used bo); [discriminate|].
    unfold memmove, blit.
    repeat match goal with
           | |- context [if ?b then _ else _] => destruct b; simpl; try discriminate
           end.
    apply IH. lia.
Qed.


End Distances.

(** ** The fixed code *)

Section FixedCode.
Context {Src : Type} `{!PullSource Src} {S : DecompressionSettings}.

Lemma getBitsForwardOrder_too_many amount r (bi : ByteInput.t Src) :
  16 < amount → ∃ e, BitReader.getBitsForwardOrder amount r bi = Throw e.
Proof.
  intros Hamount.
  destruct (BitReader.getBitsForwardOrder amount r bi) as [[[v r'] bi']|e] eqn:E; [|eauto].
  apply getBitsForwardOrder_range in E. lia.
Qed.

(** A prefix 1100000..1100011 is taken for a 7 bit lookback: no eighth bit
    is read, the size is the prefix plus 2 and [parseLongerSize] is asked for
    22 or 23 more bits, which [getBitsForwardOrder] cannot give. *)
Lemma Fixed_size_of_8_bit_prefix part r (bi : ByteInput.t Src) :
  96 ≤ BitReader.value part ≤ 99 →
  DeflateReader.Fixed_size part r bi
  = BitReader.parseLongerSize (BitReader.value part + 2) r bi ∧
  ∃ e, DeflateReader.Fixed_size part r bi = Throw e.
Proof.
  intros Hpart. unfold DeflateReader.Fixed_size.
  destruct (BitReader.value part <=? 4169) eqn:E; [|lia]. simpl.
  destruct (BitReader.value part + 2 >? 10) eqn:E1; [|lia].
  split; [reflexivity|].
  unfold BitReader.parseLongerSize.
  destruct (BitReader.value part + 2 =? 31) eqn:E2; [lia|]. simpl.
  destruct (getBitsForwardOrder_too_many (Z.shiftr (BitReader.value part + 2 - 7) 2) r bi)
    as [e He].
  - rewrite Z.shiftr_div_pow2 by lia. change (2 ^ 2) with 4.
    assert (22 ≤ (BitReader.value part + 2 - 7) / 4) by (apply Z.div_le_lower_bound; lia).
    lia.
  - rewrite He. eauto.
Qed.

(** C1 (what the code does instead): when the seven bits peeked are
    1100000..1100011, the start of the 8-bit codes 11000000..11000111 of the
    length symbols 280..287, the turn of the fixed decoder ends in an error:
    none of these symbols is ever decoded. *)
Theorem C1_length_symbols_280_287_never_decoded
    c r (bi : ByteInput.t Src) (output : ByteOutput.t S) part r1 bi1 :
  BitReader.getBits 7 r bi = OK (part, r1, bi1) →
  96 ≤ BitReader.value part ≤ 99 →
  BitReader.getBitCount part = 7 ∧
  ∃ e, DeflateReader.Fixed_turn (c, r, bi, output) = Throw e.
Proof.
  intros Hpart Hrange. split.
  - apply getBits_inv in Hpart as (r0 & reversed & _ & _ & _ & -> & _). reflexivity.
  - unfold DeflateReader.Fixed_turn. rewrite Hpart. simpl.
    destruct (BitReader.value part =? 0) eqn:E0; [lia|].
    destruct ((BitReader.value part >=? 24) && (BitReader.value part <=? 95)) eqn:E1; [lia|].
    destruct (BitReader.value part >=? 100) eqn:E2; [lia|].
    destruct (Fixed_size_of_8_bit_prefix part r1 bi1 Hrange) as [_ [e He]].
    rewrite He. eauto.
Qed.

Lemma getBits_range amount r (bi : ByteInput.t Src) g r' bi' :
  BitReader.getBits amount r bi = OK (g, r', bi') →
  0 ≤ amount ≤ 8 ∧ BitReader.getBitCount g = amount ∧ 0 ≤ BitReader.value g < 2 ^ amount.
Proof.
  intros H. apply getBits_inv in H as (r0 & reversed & _ & Hamount & Hreversed & -> & _).
  apply reversedBytes_bits in Hreversed as [Hrange _]; [|apply Z.mod_pos_bound; lia].
  split; [assumption|]. split; [reflexivity|]. simpl.
  rewrite Z.shiftr_div_pow2 by lia. split; [apply Z.div_pos; lia|].
  apply Z.div_lt_upper_bound; [lia|].
  rewrite <- Z.pow_add_r by lia. replace (8 - amount + amount) with 8 by lia. lia.
Qed.

(** The other three ranges are decoded as the static code has them. *)
Lemma Fixed_turn_literal_8_bits c r (bi : ByteInput.t Src) (output : ByteOutput.t S)
    part r1 bi1 more r2 bi2 output' :
  BitReader.getBits 7 r bi = OK (part, r1, bi1) →
  24 ≤ BitReader.value part ≤ 95 →
  BitReader.getBits 1 r1 bi1 = OK (more, r2, bi2) →
  let code := 2 * BitReader.value part + BitReader.value more in
  ByteOutput.addByte (code - 48) output = OK output' →
  48 ≤ code ≤ 191 ∧
  DeflateReader.Fixed_turn (c, r, bi, output)
  = OK (DeflateReader.Continues (c, r2, bi2, output')).
Proof.
  intros Hpart Hrange Hmore code Hadd.
  apply getBits_inv in Hmore as Hbit. destruct Hbit as (r0 & reversed & _ & _ & Hrev & Hm & _).
  apply reversedBytes_bits in Hrev as [Hrev _]; [|apply Z.mod_pos_bound; lia].
  assert (Hbit : 0 ≤ BitReader.value more ≤ 1).
  { rewrite Hm. simpl. rewrite Z.shiftr_div_pow2 by lia. change (2 ^ (8 - 1)) with 128.
    split; [apply Z.div_pos; lia | apply Z.lt_succ_r, Z.div_lt_upper_bound; lia]. }
  assert (Hcode : Z.lor (Z.shiftl (BitReader.value part) 1 mod 2 ^ 64) (BitReader.value more)
                  = code).
  { rewrite Z.shiftl_mul_pow2 by lia. change (2 ^ 1) with 2.
    rewrite Z.mod_small by lia.
    rewrite <- (Z.shiftl_mul_pow2 _ 1) by lia.
    rewrite lor_shiftl_small by (change (2 ^ 1) with 2; lia). unfold code. lia. }
  split; [unfold code; lia|].
  unfold DeflateReader.Fixed_turn. rewrite Hpart. simpl.
  destruct (BitReader.value part =? 0) eqn:E0; [lia|].
  destruct ((BitReader.value part >=? 24) && (BitReader.value part <=? 95)) eqn:E1; [|lia].
  unfold BitReader.getMore. rewrite Hmore. simpl. rewrite Hcode.
  rewrite Z.mod_small by (unfold code; lia). rewrite Hadd. reflexivity.
Qed.

Lemma Fixed_turn_literal_9_bits c r (bi : ByteInput.t Src) (output : ByteOutput.t S)
    part r1 bi1 more r2 bi2 output' :
  BitReader.getBits 7 r bi = OK (part, r1, bi1) →
  100 ≤ BitReader.value part →
  BitReader.getBits 2 r1 bi1 = OK (more, r2, bi2) →
  let code := 4 * BitReader.value part + BitReader.value more in
  ByteOutput.addByte (code - 256) output = OK output' →
  400 ≤ code ≤ 511 ∧
  DeflateReader.Fixed_turn (c, r, bi, output)
  = OK (DeflateReader.Continues (c, r2, bi2, output')).
Proof.
  intros Hpart Hrange Hmore code Hadd.
  pose proof (getBits_range _ _ _ _ _ _ Hpart) as (_ & _ & Hp).
  pose proof (getBits_range _ _ _ _ _ _ Hmore) as (_ & _ & Hm).
  change (2 ^ 7) with 128 in Hp. change (2 ^ 2) with 4 in Hm.
  assert (Hcode : Z.lor (Z.shiftl (BitReader.value part) 2 mod 2 ^ 64) (BitReader.value more)
                  = code).
  { rewrite Z.shiftl_mul_pow2 by lia. change (2 ^ 2) with 4.
    rewrite Z.mod_small by lia.
    rewrite <- (Z.shiftl_mul_pow2 _ 2) by lia.
    rewrite lor_shiftl_small by (change (2 ^ 2) with 4; lia). unfold code. lia. }
  split; [unfold code; lia|].
  unfold DeflateReader.Fixed_turn. rewrite Hpart. simpl.
  destruct (BitReader.value part =? 0) eqn:E0; [lia|].
  destruct ((BitReader.value part >=? 24) && (BitReader.value part <=? 95)) eqn:E1; [lia|].
  destruct (BitReader.value part >=? 100) eqn:E2; [|lia].
  unfold BitReader.getMore. rewrite Hmore. simpl. rewrite Hcode.
  change (400 - 144) with 256.
  rewrite (Z.mod_small (code - 256)) by (unfold code; lia).
  rewrite Hadd. reflexivity.
Qed.

(** The 7-bit codes 0000001..0010111 are the symbols 257..279: their size is
    the length the dynamic path gives to the symbol; the code 0000000 ends
    the block. *)
Lemma Fixed_size_7_bits part r (bi : ByteInput.t Src) :
  1 ≤ BitReader.value part ≤ 23 →
  DeflateReader.Fixed_size part r bi
  = DeflateReader.Dynamic_length (256 + BitReader.value part) r bi.
Proof.
  intros Hpart. unfold DeflateReader.Fixed_size, DeflateReader.Dynamic_length.
  destruct (BitReader.value part <=? 4169) eqn:E; [|lia]. simpl.
  replace (256 + BitReader.value part - 254) with (BitReader.value part + 2) by lia.
  reflexivity.
Qed.

Lemma Fixed_turn_end_of_block c r (bi : ByteInput.t Src) (output : ByteOutput.t S)
    part r1 bi1 :
  BitReader.getBits 7 r bi = OK (part, r1, bi1) →
  BitReader.value part = 0 →
  DeflateReader.Fixed_turn (c, r, bi, output)
  = OK (DeflateReader.Returned false (c, r1, bi1, output)).
Proof.
  intros Hpart Hzero. unfold DeflateReader.Fixed_turn. rewrite Hpart. simpl.
  rewrite Hzero. reflexivity.
Qed.

End FixedCode.

(** ** Exceptions that are not thrown *)

Lemma never_OK bad {A} (a : A) : never bad (OK a).
Proof. intros e [=]. Qed.

Lemma never_Throw bad {A} e : ¬ bad e → never bad (@Throw A e).
Proof. intros He e' [= <-]. exact He. Qed.

Lemma never_bind bad {A B} (m : result A) (k : A → result B) :
  never bad m → (∀ a, m = OK a → never bad (k a)) → never bad (bind m k).
Proof.
  intros Hm Hk e H. apply bind_Throw in H as [H|(a & Ha & H)].
  - eapply Hm, H.
  - eapply Hk; eassumption.
Qed.

Lemma never_if bad {A} (b : bool) (m1 m2 : result A) :
  never bad m1 → never bad m2 → never bad (if b then m1 else m2).
Proof. destruct b; auto. Qed.

(** Takes apart a goal [never bad m] along the binds, the conditionals and
    the pattern matchings of [m]; the database [never] holds what is known of
    the operations. *)
Create HintDb never discriminated.

Ltac never_step :=
  match goal with
  | |- never _ (OK _) => apply never_OK
  | |- never _ (Throw _) => apply never_Throw; solve [auto with never]
  | |- never _ (bind _ _) => apply never_bind; [|intros ? ?]
  | |- never _ (if _ then _ else _) => apply never_if
  | |- never _ (match ?x with _ => _ end) => destruct x
  end.

Ltac never_tac := repeat first [never_step | solve [auto with never]].

Section Never.
Context {Src : Type} `{!PullSource Src} {S : DecompressionSettings}.
Variable bad : exception → Prop.
Hypothesis Hundefined : ¬ bad Undefined_behaviour.
Hypothesis Hcallback : ∀ e, ¬ bad (Callback_exception e).

Lemma never_index {A} (a : list A) i : never bad (index a i).
Proof. unfold index. never_tac. Qed.

Lemma never_store {A} (a : list A) i x : never bad (store a i x).
Proof. unfold store. never_tac. Qed.

Lemma never_blit {A} (a : list A) i bytes : never bad (blit a i bytes).
Proof. unfold blit. never_tac. Qed.

Hint Resolve never_index never_store never_blit : never.

Lemma never_memmove {A} (a : list A) dst src n : never bad (memmove a dst src n).
Proof. unfold memmove. never_tac. Qed.

Hint Resolve never_memmove : never.

Lemma never_for_count {St} count from (body : Z → St → result St) st :
  (∀ i st, never bad (body i st)) → never bad (for_count count from body st).
Proof.
  intros Hbody. revert from st. induction count as [|count IH]; intros from st; simpl;
    never_tac.
Qed.

Lemma never_for_range {St} from to (body : Z → St → result St) st :
  (∀ i st, never bad (body i st)) → never bad (for_range from to body st).
Proof. apply never_for_count. Qed.

Lemma never_refillSome (bi : ByteInput.t Src) : never bad (ByteInput.refillSome bi).
Proof. unfold ByteInput.refillSome. never_tac. Qed.

Hint Resolve never_refillSome : never.

Lemma never_getRange size (bi : ByteInput.t Src) : never bad (ByteInput.getRange size bi).
Proof. unfold ByteInput.getRange. never_tac. Qed.

Hint Resolve never_getRange : never.

Lemma never_refillIfNeeded r (bi : ByteInput.t Src) :
  never bad (BitReader.refillIfNeeded r bi).
Proof. unfold BitReader.refillIfNeeded. never_tac. Qed.

Hint Resolve never_refillIfNeeded : never.

Lemma never_getBits amount r (bi : ByteInput.t Src) :
  never bad (BitReader.getBits amount r bi).
Proof. unfold BitReader.getBits. never_tac. Qed.

Lemma never_getBitsForwardOrder amount r (bi : ByteInput.t Src) :
  never bad (BitReader.getBitsForwardOrder amount r bi).
Proof. unfold BitReader.getBitsForwardOrder. never_tac. Qed.

Hint Resolve never_getBits never_getBitsForwardOrder : never.

Lemma never_getMore amount g r (bi : ByteInput.t Src) :
  never bad (BitReader.getMore amount g r bi).
Proof. unfold BitReader.getMore. never_tac. Qed.

Lemma never_parseLongerSize partOfSize r (bi : ByteInput.t Src) :
  never bad (BitReader.parseLongerSize partOfSize r bi).
Proof. unfold BitReader.parseLongerSize. never_tac. Qed.

Lemma never_parseLongerDistance partOfDistance r (bi : ByteInput.t Src) :
  never bad (BitReader.parseLongerDistance partOfDistance r bi).
Proof. unfold BitReader.parseLongerDistance. never_tac. Qed.

Hint Resolve never_getMore never_parseLongerSize never_parseLongerDistance : never.

Lemma never_peek {A} (f : Z → result (A * Z)) r (bi : ByteInput.t Src) :
  (∀ peeked, never bad (f peeked)) →
  never bad (BitReader.peekAByteAndConsumeSome f r bi).
Proof. intros Hf. unfold BitReader.peekAByteAndConsumeSome. never_tac. Qed.

Lemma never_peekLength lookup lengths peeked :
  never bad (EncodedTable.peekLength lookup lengths peeked).
Proof. unfold EncodedTable.peekLength. never_tac. Qed.

Lemma never_setLength codes i length : never bad (EncodedTable.setLength codes i length).
Proof. unfold EncodedTable.setLength. never_tac. Qed.

Lemma never_fillLengths codes from count length :
  never bad (EncodedTable.fillLengths codes from count length).
Proof.
  unfold EncodedTable.fillLengths. apply never_for_range.
  intros. apply never_setLength.
Qed.

Lemma never_addQuantity quantities length amount :
  never bad (EncodedTable.addQuantity quantities length amount).
Proof. unfold EncodedTable.addQuantity. never_tac. Qed.

Hint Resolve never_peekLength never_setLength never_fillLengths never_addQuantity : never.

(** A turn of the loop of the code lengths throws nothing bad, unless it is
    the lookback at position 0. *)
Lemma never_readLength lookup lengths i (st : EncodedTable.Lengths (Src := Src)) :
  0 < i ∨ ¬ bad Invalid_lookback_position →
  never bad (EncodedTable.readLength lookup lengths i st).
Proof.
  intros Hi. unfold EncodedTable.readLength. destruct st as [codes quantities r bi].
  apply never_bind; [apply never_peek; auto with never|].
  intros [[length r1] bi1] _.
  destruct (length <? 16); [never_tac|].
  destruct (length =? 16); [|never_tac].
  destruct (i =? 0) eqn:E; [|never_tac].
  apply never_Throw. destruct Hi as [Hi|Hi]; [lia | exact Hi].
Qed.

(** A turn moves forward. *)
Lemma readLength_forward lookup lengths i (st : EncodedTable.Lengths (Src := Src)) i' st' :
  EncodedTable.readLength lookup lengths i st = OK (i', st') → i < i'.
Proof.
  unfold EncodedTable.readLength. destruct st as [codes quantities r bi].
  intros H. bind_ok H. destruct a as [[length r1] bi1].
  destruct (length <? 16).
  { bind_ok H. bind_ok H. injection H as <- _. lia. }
  destruct (length =? 16).
  { destruct (i =? 0); [discriminate|].
    bind_ok H. destruct a as [[bits r2] bi2]. bind_ok H. bind_ok H. bind_ok H.
    injection H as <- _. apply getBitsForwardOrder_range in E0. lia. }
  bind_ok H. destruct a as [[zeroCount r2] bi2]. bind_ok H. injection H as <- _.
  destruct (length =? 17).
  - bind_ok E0. destruct a0 as [[bits r3] bi3]. injection E0 as <- _ _.
    apply getBitsForwardOrder_range in E2. lia.
  - bind_ok E0. destruct a0 as [[bits r3] bi3]. injection E0 as <- _ _.
    apply getBitsForwardOrder_range in E2. lia.
Qed.

Lemma never_readLengths fuel realSize lookup lengths i
    (st : EncodedTable.Lengths (Src := Src)) :
  0 < i ∨ ¬ bad Invalid_lookback_position →
  ¬ bad Does_not_terminate ∨ realSize - i ≤ Z.of_nat fuel →
  never bad (EncodedTable.readLengths fuel realSize lookup lengths i st).
Proof.
  revert i st. induction fuel as [|fuel IH]; intros i st Hi Hfuel; simpl.
  - destruct (i <? realSize) eqn:E; [|never_tac].
    apply never_Throw. destruct Hfuel as [Hfuel|Hfuel]; [exact Hfuel | lia].
  - destruct (i <? realSize); [|never_tac].
    apply never_bind; [apply never_readLength; assumption|].
    intros [i' st'] Hturn. apply readLength_forward in Hturn. apply IH.
    + destruct Hi as [Hi|Hi]; [left; lia | right; exact Hi].
    + destruct Hfuel as [Hfuel|Hfuel]; [left; exact Hfuel | right; lia].
Qed.

End Never.

(** ** The code-length sequence *)

Section CodeLengths.
Context {Src : Type} `{!PullSource Src}.

(** The loop of the code lengths ends within the turns it is given. *)
Lemma readLengths_terminates realSize lookup lengths
    (st : EncodedTable.Lengths (Src := Src)) :
  never hangs
    (EncodedTable.readLengths (Z.to_nat realSize) realSize lookup lengths 0 st).
Proof.
  apply never_readLengths; unfold hangs; try discriminate.
  - right. discriminate.
  - right. lia.
Qed.

(** C2 (amended): in the code-length sequence of a table, the repeat symbol
    16 at position 0 throws "Invalid lookback position", of kind
    MalformedHeader, and so does the construction of the table; from any
    later position on the loop throws no exception of kind MalformedHeader,
    whatever the runs of the symbols 16, 17 and 18 are: a run that passes the
    declared number of entries is not looked for. *)
Theorem C2_code_length_sequence_errors
    (lookup lengths : list Z) (codes : list CodeEntry.t) (quantities : list Z)
    (r : BitReader.t) (bi : ByteInput.t Src) (realSize : Z) :
  (∀ r' bi' MaxSize,
     0 < realSize →
     BitReader.peekAByteAndConsumeSome (EncodedTable.peekLength lookup lengths) r bi
     = OK (16, r', bi') →
     EncodedTable.readLengths (Z.to_nat realSize) realSize lookup lengths 0
       (EncodedTable.mkLengths codes quantities r bi)
     = Throw Invalid_lookback_position ∧
     EncodedTable.make MaxSize realSize lookup lengths r bi = Throw Invalid_lookback_position ∧
     kind_of Invalid_lookback_position = Some MalformedHeader) ∧
  (∀ fuel i e,
     0 < i →
     EncodedTable.readLengths fuel realSize lookup lengths i
       (EncodedTable.mkLengths codes quantities r bi) = Throw e →
     kind_of e ≠ Some MalformedHeader).
Proof.
  split.
  - intros r' bi' MaxSize Hsize Hpeek.
    assert (Hloop : ∀ codes quantities,
      EncodedTable.readLengths (Z.to_nat realSize) realSize lookup lengths 0
        (EncodedTable.mkLengths codes quantities r bi) = Throw Invalid_lookback_position).
    { intros codes' quantities'.
      destruct (Z.to_nat realSize) as [|fuel] eqn:Hfuel; [lia|]. simpl.
      destruct (0 <? realSize) eqn:E; [|lia].
      rewrite Hpeek. reflexivity. }
    split; [apply Hloop|]. split; [|reflexivity].
    unfold EncodedTable.make. rewrite Hloop. reflexivity.
  - intros fuel i e Hi H.
    eapply (never_readLengths malformed); [..|exact H]; unfold malformed;
      first [ discriminate | intros ?; discriminate | left; exact Hi
            | left; discriminate ].
Qed.

End CodeLengths.

(** ** Segments of arrays *)

Section Segments.
Context {A : Type}.
Implicit Types l k : list A.

Lemma len_take l n : 0 ≤ n ≤ len l → len (take (Z.to_nat n) l) = n.
Proof. unfold len. intros H. rewrite length_take. lia. Qed.

Lemma len_seg a b l : 0 ≤ a → a ≤ b → b ≤ len l → len (seg a b l) = b - a.
Proof. unfold len, seg. intros. rewrite length_take, length_drop. lia. Qed.

Lemma seg_empty a l : seg a a l = [].
Proof. unfold seg. rewrite Z.sub_diag. reflexivity. Qed.

Lemma seg_drop_take a b l :
  0 ≤ a → a ≤ b → seg a b l = drop (Z.to_nat a) (take (Z.to_nat b) l).
Proof.
  intros Ha Hb. unfold seg. rewrite take_drop_commute. do 2 f_equal. lia.
Qed.

Lemma seg_app_l a b l k : 0 ≤ a → b ≤ len l → seg a b (l ++ k) = seg a b l.
Proof.
  unfold seg, len. intros Ha Hb. rewrite drop_app, take_app_le; [reflexivity|].
  rewrite length_drop. lia.
Qed.

Lemma seg_take a b n l : 0 ≤ a → b ≤ n → seg a b (take (Z.to_nat n) l) = seg a b l.
Proof.
  intros Ha Hb. destruct (Z.le_gt_cases a b) as [Hab|Hab].
  - rewrite !seg_drop_take by lia. rewrite take_take. do 2 f_equal. lia.
  - unfold seg. replace (Z.to_nat (b - a)) with 0%nat by lia. reflexivity.
Qed.

Lemma seg_split a b c l : 0 ≤ a → a ≤ b → b ≤ c → seg a c l = seg a b l ++ seg b c l.
Proof.
  intros Ha Hb Hc. unfold seg.
  replace (Z.to_nat (c - a)) with (Z.to_nat (b - a) + Z.to_nat (c - b))%nat by lia.
  rewrite <- take_take_drop, drop_drop. do 3 f_equal. lia.
Qed.

Lemma seg_seg x y c d l :
  0 ≤ c → 0 ≤ x → y ≤ d - c → seg x y (seg c d l) = seg (c + x) (c + y) l.
Proof.
  intros Hc Hx Hy. unfold seg at 2. rewrite seg_take by lia.
  unfold seg. rewrite drop_drop. f_equal; [lia|]. f_equal. lia.
Qed.

Lemma seg_all l : seg 0 (len l) l = l.
Proof. unfold seg, len. rewrite Z.sub_0_r, Nat2Z.id. simpl. apply take_ge. lia. Qed.

Lemma blit_inv l at_ bytes l' :
  blit l at_ bytes = OK l' →
  0 ≤ at_ ∧ at_ + len bytes ≤ len l ∧ len l' = len l ∧
  take (Z.to_nat at_) l' = take (Z.to_nat at_) l ∧
  seg at_ (at_ + len bytes) l' = bytes.
Proof.
  unfold blit. destruct ((0 <=? at_) && (at_ + len bytes <=? len l)) eqn:E; [|discriminate].
  intros [= <-]. apply andb_prop in E as [H0 H1].
  assert (Hat : 0 ≤ at_) by lia. assert (Hend : at_ + len bytes ≤ len l) by lia.
  pose proof (len_nonneg bytes) as Hbytes.
  assert (Hprefix : length (take (Z.to_nat at_) l) = Z.to_nat at_)
    by (rewrite length_take; unfold len in *; lia).
  repeat split; try assumption.
  - unfold len in *. rewrite !length_app, Hprefix, length_drop. lia.
  - rewrite take_app_length' by (symmetry; exact Hprefix). reflexivity.
  - unfold seg. rewrite drop_app_length' by (symmetry; exact Hprefix).
    replace (Z.to_nat (at_ + len bytes - at_)) with (length bytes) by (unfold len; lia).
    apply take_app_length.
Qed.

Lemma memmove_inv l dst src n l' :
  memmove l dst src n = OK l' →
  0 ≤ n ∧ 0 ≤ src ∧ src + n ≤ len l ∧ 0 ≤ dst ∧ dst + n ≤ len l ∧ len l' = len l ∧
  take (Z.to_nat dst) l' = take (Z.to_nat dst) l ∧
  seg dst (dst + n) l' = seg src (src + n) l.
Proof.
  unfold memmove.
  destruct ((0 <=? n) && (0 <=? src) && (src + n <=? len l)) eqn:E; [|discriminate].
  intros H. apply andb_prop in E as [E H2]. apply andb_prop in E as [H0 H1].
  apply blit_inv in H as (Hdst & Hend & Hlen & Hprefix & Hseg).
  rewrite len_seg in Hend, Hseg by lia.
  replace (src + n - src) with n in * by lia.
  repeat split; auto; lia.
Qed.

Lemma store_inv l i x l' :
  store l i x = OK l' →
  0 ≤ i < len l ∧ len l' = len l ∧
  take (Z.to_nat i) l' = take (Z.to_nat i) l ∧ seg i (i + 1) l' = [x].
Proof.
  unfold store. destruct ((0 <=? i) && (i <? len l)) eqn:E; [|discriminate].
  intros [= <-]. apply andb_prop in E as [H0 H1].
  assert (Hi : (Z.to_nat i < length l)%nat) by (unfold len in *; lia).
  repeat split; try lia.
  - unfold len. rewrite length_insert. reflexivity.
  - apply take_insert_ge. lia.
  - rewrite seg_drop_take by lia.
    replace (Z.to_nat (i + 1)) with (Datatypes.S (Z.to_nat i)) by lia.
    rewrite (take_S_r _ _ x) by (apply list_lookup_insert_eq; exact Hi).
    rewrite drop_app_length'; [reflexivity|].
    rewrite length_take, length_insert. lia.
Qed.

(** What lies before an unchanged prefix is unchanged. *)
Lemma seg_prefix a b n l l' :
  take (Z.to_nat n) l' = take (Z.to_nat n) l → 0 ≤ a → b ≤ n → seg a b l' = seg a b l.
Proof.
  intros Hprefix Ha Hb.
  rewrite <- (seg_take a b n l'), <- (seg_take a b n l) by lia. rewrite Hprefix. reflexivity.
Qed.

Lemma take_prefix n m l l' :
  take (Z.to_nat n) l' = take (Z.to_nat n) l → 0 ≤ m → m ≤ n →
  take (Z.to_nat m) l' = take (Z.to_nat m) l.
Proof.
  intros Hprefix Hm Hn.
  replace (Z.to_nat m) with (Z.to_nat m `min` Z.to_nat n)%nat by lia.
  rewrite <- !take_take, Hprefix. reflexivity.
Qed.

End Segments.

(** ** The output window *)

Section OutputWindow.
Context {S : DecompressionSettings}.
Implicit Types bo : ByteOutput.t S.

Lemma extends_refl bo : Session.wf bo → Session.extends bo bo.
Proof. intros H. unfold Session.extends. repeat split; auto; apply H || lia. Qed.

Lemma extends_trans bo1 bo2 bo3 :
  Session.wf bo1 → Session.extends bo1 bo2 → Session.extends bo2 bo3 → Session.extends bo1 bo3.
Proof.
  intros Hwf (W2 & C2 & U2 & P2 & L2 & K2 & E2) (W3 & C3 & U3 & P3 & L3 & K3 & E3).
  destruct Hwf as (? & ? & ?).
  unfold Session.extends. repeat split; try congruence; try lia; try apply W3.
  rewrite <- P2. eapply take_prefix; [exact P3 | lia | lia].
Qed.

Lemma extends_pending bo bo' :
  Session.wf bo → Session.extends bo bo' →
  Session.pending bo' = Session.pending bo ++ Session.written bo bo'.
Proof.
  intros (H0 & H1 & H2) (W & C & U & P & L & K & E).
  unfold Session.pending, Session.written. rewrite C.
  rewrite (seg_split _ (ByteOutput.used bo)) by lia. f_equal.
  eapply seg_prefix; [exact P | lia | lia].
Qed.

Lemma addByte_extends byte bo bo' :
  Session.wf bo → ByteOutput.addByte byte bo = OK bo' →
  Session.extends bo bo' ∧ Session.written bo bo' = [byte].
Proof.
  intros (H0 & H1 & H2) H. unfold ByteOutput.addByte in H.
  bind_ok H. bind_ok H. injection H as <-.
  apply store_inv in E0 as (Hi & Hlen & Hprefix & Hseg).
  unfold Session.extends, Session.wf, Session.written. simpl. repeat split; auto; lia.
Qed.

Lemma addBytes_extends bytes bo bo' :
  Session.wf bo → ByteOutput.addBytes bytes bo = OK bo' →
  Session.extends bo bo' ∧ Session.written bo bo' = bytes.
Proof.
  intros (H0 & H1 & H2) H. unfold ByteOutput.addBytes in H.
  bind_ok H. bind_ok H. injection H as <-.
  apply blit_inv in E0 as (Hat & Hend & Hlen & Hprefix & Hseg).
  pose proof (len_nonneg bytes).
  unfold Session.extends, Session.wf, Session.written. simpl. repeat split; auto; lia.
Qed.

Lemma repeatSequence_loop_extends fuel length distance written bo bo' :
  Session.wf bo →
  ByteOutput.repeatSequence_loop fuel length distance written bo = OK bo' →
  Session.extends bo bo'.
Proof.
  revert written bo. induction fuel as [|fuel IH]; intros written bo Hwf H; simpl in H.
  - destruct (written <? length); [discriminate|]. injection H as <-.
    apply extends_refl, Hwf.
  - destruct (written <? length); [|injection H as <-; apply extends_refl, Hwf].
    destruct (distance >? ByteOutput.used bo) eqn:Hd; [discriminate|].
    bind_ok H.
    apply memmove_inv in E as (Hn & Hsrc & Hsrcend & Hdst & Hend & Hlen & Hprefix & Hseg).
    destruct Hwf as (H0 & H1 & H2).
    eapply extends_trans; [repeat split; eassumption| |eapply IH, H].
    + unfold Session.extends, Session.wf. simpl. repeat split; auto; lia.
    + unfold Session.wf. simpl. lia.
Qed.

Lemma repeatSequence_extends length distance bo bo' :
  Session.wf bo → ByteOutput.repeatSequence length distance bo = OK bo' → Session.extends bo bo'.
Proof.
  intros Hwf H. unfold ByteOutput.repeatSequence in H. bind_ok H.
  eapply repeatSequence_loop_extends; eassumption.
Qed.

Lemma span_inv from count bo slice :
  ByteOutput.span from count bo = OK slice →
  0 ≤ from ∧ 0 ≤ count ∧ from + count ≤ len (ByteOutput.buffer bo) ∧
  slice = seg from (from + count) (ByteOutput.buffer bo).
Proof.
  unfold ByteOutput.span.
  destruct ((0 <=? from) && (0 <=? count) && (from + count <=? len (ByteOutput.buffer bo)))
    eqn:E; [|discriminate].
  intros [= <-]. apply andb_prop in E as [E H2]. apply andb_prop in E as [H0 H1].
  repeat split; lia.
Qed.

(** [consume] returns the bytes written since the last [consume], folds them
    into the checksum, and leaves nothing to be returned twice. *)
Lemma consume_pending bytesToKeep bo slice bo' :
  Session.wf bo →
  ByteOutput.consume bytesToKeep bo = OK (slice, bo') →
  slice = Session.pending bo ∧
  Session.wf bo' ∧
  ByteOutput.consumed bo' = ByteOutput.used bo' ∧
  ByteOutput.checksum bo' = cs_fold (Checksum S) (ByteOutput.checksum bo) slice.
Proof.
  intros (H0 & H1 & H2) H. unfold ByteOutput.consume in H.
  destruct (negb (ByteOutput.expectsMore bo)).
  - bind_ok H. injection H as <- <-.
    apply span_inv in E as (_ & _ & _ & ->).
    unfold Session.pending, Session.wf. simpl.
    replace (ByteOutput.consumed bo + (ByteOutput.used bo - ByteOutput.consumed bo))
      with (ByteOutput.used bo) by lia.
    repeat split; auto; lia.
  - set (kept := Z.min bytesToKeep (ByteOutput.consumed bo)) in H.
    set (minimum := minOutputBufferSize S - ByteOutput.used bo + ByteOutput.consumed bo) in H.
    assert (Hgen : ∀ bytesKept removing,
      bytesKept = ByteOutput.consumed bo - removing →
      (if removing <? 0 then Throw Consume_cannot_keep_more_bytes else
       do buffer' <- memmove (ByteOutput.buffer bo) 0 removing (ByteOutput.used bo - removing) in
       let used' := ByteOutput.used bo - removing in
       do returning <- ByteOutput.span bytesKept (used' - bytesKept)
           (ByteOutput.mk buffer' used' used' (ByteOutput.expectsMore bo)
              (ByteOutput.checksum bo)) in
       OK (returning,
           ByteOutput.mk buffer' used' used' (ByteOutput.expectsMore bo)
             (cs_fold (Checksum S) (ByteOutput.checksum bo) returning)))
      = OK (slice, bo') →
      slice = Session.pending bo ∧ Session.wf bo' ∧
      ByteOutput.consumed bo' = ByteOutput.used bo' ∧
      ByteOutput.checksum bo' = cs_fold (Checksum S) (ByteOutput.checksum bo) slice).
    { intros bytesKept removing Hkept Hrun.
      destruct (removing <? 0) eqn:Hremoving; [discriminate|].
      bind_ok Hrun. bind_ok Hrun. injection Hrun as <- <-.
      apply memmove_inv in E as (Hn & Hsrc & Hsrcend & _ & _ & Hlen & _ & Hseg).
      apply span_inv in E0 as (Hfrom & Hcount & Hend & ->). simpl in *.
      unfold Session.pending, Session.wf. simpl.
      split; [|repeat split; lia].
      replace (bytesKept + (ByteOutput.used bo - removing - bytesKept))
        with (0 + (ByteOutput.used bo - removing)) by lia.
      rewrite (seg_split 0 bytesKept) in Hseg by lia.
      replace (removing + (ByteOutput.used bo - removing)) with (ByteOutput.used bo) in Hseg
        by lia.
      rewrite (seg_split removing (ByteOutput.consumed bo) (ByteOutput.used bo)) in Hseg by lia.
      apply app_inj_1 in Hseg as [_ Hseg]; [exact Hseg|].
      assert (Hl1 : len (seg 0 bytesKept a) = bytesKept - 0) by (apply len_seg; lia).
      assert (Hl2 : len (seg removing (ByteOutput.consumed bo) (ByteOutput.buffer bo))
                    = ByteOutput.consumed bo - removing) by (apply len_seg; lia).
      unfold len in Hl1, Hl2. lia. }
    destruct (kept <? minimum); simpl in H; apply Hgen in H; auto; lia.
Qed.

Lemma step_invariant (session session' : Session.t S) op :
  Session.wf (Session.state session) →
  concat (Session.returned session) ++ Session.pending (Session.state session)
  = Session.emitted session →
  ByteOutput.checksum (Session.state session)
  = foldl (cs_fold (Checksum S)) (cs_init (Checksum S)) (Session.returned session) →
  Session.step session op = OK session' →
  Session.wf (Session.state session') ∧
  concat (Session.returned session') ++ Session.pending (Session.state session')
  = Session.emitted session' ∧
  ByteOutput.checksum (Session.state session')
  = foldl (cs_fold (Checksum S)) (cs_init (Checksum S)) (Session.returned session') ∧
  (∀ bytesToKeep, op = Session.Consume bytesToKeep →
     Session.pending (Session.state session') = [] ∧
     ∃ slice, Session.returned session' = Session.returned session ++ [slice] ∧
              slice = Session.pending (Session.state session)).
Proof.
  intros Hwf Hstream Hsum Hstep.
  assert (Hproducer : ∀ bo' added,
    Session.extends (Session.state session) bo' →
    Session.written (Session.state session) bo' = added →
    Session.wf bo' ∧
    concat (Session.returned session) ++ Session.pending bo' = Session.emitted session ++ added ∧
    ByteOutput.checksum bo'
    = foldl (cs_fold (Checksum S)) (cs_init (Checksum S)) (Session.returned session)).
  { intros bo' added Hext Hadded.
    rewrite (extends_pending _ _ Hwf Hext), Hadded, app_assoc, Hstream.
    destruct Hext as (W & _ & _ & _ & _ & K & _). rewrite K. auto. }
  destruct op as [byte|bytes|length distance| |bytesToKeep]; simpl in Hstep.
  - bind_ok Hstep. injection Hstep as <-. simpl.
    apply addByte_extends in E as [Hext Hadded]; [|exact Hwf].
    destruct (Hproducer _ _ Hext Hadded) as (? & ? & ?).
    split; [assumption|]. split; [assumption|]. split; [assumption|]. intros ? [=].
  - bind_ok Hstep. injection Hstep as <-. simpl.
    apply addBytes_extends in E as [Hext Hadded]; [|exact Hwf].
    destruct (Hproducer _ _ Hext Hadded) as (? & ? & ?).
    split; [assumption|]. split; [assumption|]. split; [assumption|]. intros ? [=].
  - bind_ok Hstep. injection Hstep as <-. simpl.
    apply repeatSequence_extends in E; [|exact Hwf].
    destruct (Hproducer _ _ E eq_refl) as (? & ? & ?).
    split; [assumption|]. split; [assumption|]. split; [assumption|]. intros ? [=].
  - injection Hstep as <-. simpl.
    split; [exact Hwf|]. split; [assumption|]. split; [assumption|]. intros ? [=].
  - bind_ok Hstep. destruct a as [slice bo']. injection Hstep as <-. simpl.
    apply consume_pending in E as (-> & Hwf' & Hall & Hfold); [|exact Hwf].
    assert (Hempty : Session.pending bo' = [])
      by (unfold Session.pending; rewrite Hall; apply seg_empty).
    split; [exact Hwf'|]. split; [|split; [|intros k _; split]].
    + rewrite Hempty, app_nil_r, concat_app. simpl. rewrite app_nil_r. exact Hstream.
    + rewrite Hfold, Hsum, foldl_app. reflexivity.
    + exact Hempty.
    + eexists. split; reflexivity.
Qed.

Lemma run_invariant ops (session session' : Session.t S) :
  Session.wf (Session.state session) →
  concat (Session.returned session) ++ Session.pending (Session.state session)
  = Session.emitted session →
  ByteOutput.checksum (Session.state session)
  = foldl (cs_fold (Checksum S)) (cs_init (Checksum S)) (Session.returned session) →
  Session.run ops session = OK session' →
  Session.wf (Session.state session') ∧
  concat (Session.returned session') ++ Session.pending (Session.state session')
  = Session.emitted session' ∧
  ByteOutput.checksum (Session.state session')
  = foldl (cs_fold (Checksum S)) (cs_init (Checksum S)) (Session.returned session') ∧
  (∀ ops' bytesToKeep, ops = ops' ++ [Session.Consume bytesToKeep] →
     concat (Session.returned session') = Session.emitted session').
Proof.
  revert session. induction ops as [|op ops IH]; intros session Hwf Hstream Hsum Hrun;
    simpl in Hrun.
  - injection Hrun as <-.
    split; [exact Hwf|]. split; [assumption|]. split; [assumption|].
    intros [|? ?] ? [=].
  - bind_ok Hrun.
    destruct (step_invariant _ _ _ Hwf Hstream Hsum E) as (Hwf1 & Hstream1 & Hsum1 & Hlast).
    destruct (IH _ Hwf1 Hstream1 Hsum1 Hrun) as (Hwf' & Hstream' & Hsum' & Hlast').
    split; [exact Hwf'|]. split; [assumption|]. split; [assumption|].
    intros ops' bytesToKeep Hops. destruct ops' as [|op' ops'].
    + simpl in Hops. injection Hops as -> ->. simpl in Hrun. injection Hrun as <-.
      destruct (Hlast _ eq_refl) as [Hempty _].
      rewrite <- Hstream1, Hempty, app_nil_r. reflexivity.
    + simpl in Hops. injection Hops as -> ->. eapply Hlast'. reflexivity.
Qed.

(** C8: over a session of the output window, whatever the decoder writes
    and whenever the caller consumes, the slices returned by the successive
    calls of [consume], followed by the bytes not yet consumed, are the stream
    of the bytes written; right after a [consume] they are the whole stream;
    each call returns the bytes written since the call before, and the
    checksum has been fed with the returned slices, each once, in their
    order, the slice of a call before the call returns. *)
Theorem C8_consume_returns_the_stream_once (ops : list Session.Op) (session : Session.t S) :
  Session.run ops Session.start = OK session →
  concat (Session.returned session) ++ Session.pending (Session.state session)
  = Session.emitted session ∧
  (∀ ops' bytesToKeep, ops = ops' ++ [Session.Consume bytesToKeep] →
     concat (Session.returned session) = Session.emitted session) ∧
  ByteOutput.checksum (Session.state session)
  = foldl (cs_fold (Checksum S)) (cs_init (Checksum S)) (Session.returned session) ∧
  (∀ bytesToKeep slice bo',
     ByteOutput.consume bytesToKeep (Session.state session) = OK (slice, bo') →
     slice = Session.pending (Session.state session) ∧
     Session.pending bo' = [] ∧
     ByteOutput.checksum bo'
     = cs_fold (Checksum S) (ByteOutput.checksum (Session.state session)) slice).
Proof.
  intros Hrun.
  assert (Hstart : Session.wf (Session.state (@Session.start S))).
  { unfold Session.wf, Session.start, ByteOutput.make. simpl.
    pose proof (len_nonneg (replicate (Z.to_nat (maxOutputBufferSize S)) 0)). lia. }
  destruct (run_invariant ops _ _ Hstart eq_refl eq_refl Hrun)
    as (Hwf & Hstream & Hsum & Hlast).
  split; [assumption|]. split; [assumption|]. split; [assumption|].
  intros bytesToKeep slice bo' Hconsume.
  apply consume_pending in Hconsume as (Hslice & _ & Hall & Hfold); [|exact Hwf].
  split; [assumption|]. split; [|assumption].
  unfold Session.pending. rewrite Hall. apply seg_empty.
Qed.

End OutputWindow.

(** ** The loops of the blocks *)

Section BlockLoops.
Context {Src : Type} `{!PullSource Src} {S : DecompressionSettings}.

Lemma never_hangs {A} (m : result A) : never hangs m ↔ m ≠ Throw Does_not_terminate.
Proof.
  unfold never, hangs. split.
  - intros H E. exact (H _ E eq_refl).
  - intros H e E ->. exact (H E).
Qed.

Local Hint Extern 1 (¬ hangs _) => unfold hangs; discriminate : never.
Local Hint Resolve never_index never_getBits never_getMore never_parseLongerSize
  never_parseLongerDistance never_store never_memmove : never.

Lemma searchRemainders_terminates count i peeked remainders :
  never hangs (EncodedTable.searchRemainders count i peeked remainders).
Proof. revert i. induction count as [|count IH]; intros i; simpl; never_tac. Qed.

Lemma readWord_terminates table r (bi : ByteInput.t Src) :
  never hangs (EncodedTable.readWord table r bi).
Proof.
  unfold EncodedTable.readWord. apply never_bind.
  - apply never_peek; auto with never. intros peeked. never_tac.
  - intros [[word r1] bi1] _. destruct (word >=? EncodedTable.MaxSize table); [|never_tac].
    apply never_peek; auto with never. intros peeked. apply searchRemainders_terminates.
Qed.

(** The loop of [repeatSequence] writes what is left of [length]. *)
Lemma repeatSequence_loop_used fuel length distance written (bo bo' : ByteOutput.t S) :
  written ≤ length →
  ByteOutput.repeatSequence_loop fuel length distance written bo = OK bo' →
  ByteOutput.used bo' = ByteOutput.used bo + (length - written) ∧
  len (ByteOutput.buffer bo') = len (ByteOutput.buffer bo).
Proof.
  revert written bo. induction fuel as [|fuel IH]; intros written bo Hwritten H; simpl in H.
  - destruct (written <? length) eqn:E; [discriminate|]. injection H as <-. lia.
  - destruct (written <? length) eqn:E; [|injection H as <-; lia].
    destruct (distance >? ByteOutput.used bo); [discriminate|].
    bind_ok H. apply memmove_inv in E0 as (Hn & _ & _ & _ & _ & Hlen & _).
    apply IH in H; [|lia]. simpl in H. lia.
Qed.

(** A copy takes from the space that is left what it writes. *)
Lemma restart_available c (output : ByteOutput.t S) finished c' output' :
  0 ≤ CopyState.copyLength c → 0 ≤ ByteOutput.available output →
  CopyState.restart c output = OK (finished, c', output') →
  ByteOutput.available output'
  = ByteOutput.available output
    - Z.min (ByteOutput.available output) (CopyState.copyLength c).
Proof.
  intros Hlength Havailable H. unfold CopyState.restart in H. bind_ok H.
  injection H as _ _ <-. unfold ByteOutput.repeatSequence in E. bind_ok E.
  apply repeatSequence_loop_used in E; [|lia].
  unfold ByteOutput.available in *. lia.
Qed.

Lemma restart_terminates c (output : ByteOutput.t S) :
  1 ≤ CopyState.copyDistance c → never hangs (CopyState.restart c output).
Proof.
  intros Hdistance. unfold CopyState.restart, ByteOutput.repeatSequence, ByteOutput.checkSize.
  never_tac. apply never_hangs, repeatSequence_loop_terminates; lia.
Qed.

Lemma addByte_available byte (bo bo' : ByteOutput.t S) :
  ByteOutput.addByte byte bo = OK bo' →
  ByteOutput.available bo' = ByteOutput.available bo - 1 ∧ 0 ≤ ByteOutput.available bo'.
Proof.
  unfold ByteOutput.addByte, ByteOutput.checkSize. intros H.
  destruct (ByteOutput.used bo + 1 >? len (ByteOutput.buffer bo)) eqn:E; [discriminate|].
  simpl in H. bind_ok H. injection H as <-. apply store_inv in E0 as (_ & Hlen & _).
  unfold ByteOutput.available. simpl. lia.
Qed.

Lemma addByte_terminates byte (bo : ByteOutput.t S) : never hangs (ByteOutput.addByte byte bo).
Proof. unfold ByteOutput.addByte, ByteOutput.checkSize. never_tac. Qed.

(** No size of a copy is under 3. *)
Lemma parseLongerSize_at_least_3 partOfSize r (bi : ByteInput.t Src) size r' bi' :
  BitReader.parseLongerSize partOfSize r bi = OK (size, r', bi') → 3 ≤ size.
Proof.
  unfold BitReader.parseLongerSize. destruct (partOfSize =? 31); simpl.
  - intros [= <- _ _]. lia.
  - intros H. bind_ok H. destruct a as [[additionalBits r1] bi1]. injection H as <- _ _.
    apply getBitsForwardOrder_range in E as [_ Hbits].
    assert (0 ≤ Z.lor (Z.shiftl (Z.land (partOfSize + 1) 3) (Z.shiftr (partOfSize - 7) 2))
                      additionalBits).
    { apply Z.lor_nonneg. split; [|lia]. apply Z.shiftl_nonneg, Z.land_nonneg. lia. }
    assert (0 ≤ Z.shiftl 1 (Z.shiftr (partOfSize + 1) 2)) by (apply Z.shiftl_nonneg; lia).
    lia.
Qed.

Lemma Fixed_size_at_least_3 part r (bi : ByteInput.t Src) size r' bi' :
  0 < BitReader.value part < 2 ^ 7 →
  DeflateReader.Fixed_size part r bi = OK (size, r', bi') → 3 ≤ size.
Proof.
  intros Hpart H. unfold DeflateReader.Fixed_size in H.
  destruct (BitReader.value part <=? 4169) eqn:E; [|lia]. simpl in H.
  destruct (BitReader.value part + 2 >? 10).
  - eapply parseLongerSize_at_least_3, H.
  - injection H as <- _ _. lia.
Qed.

Lemma Dynamic_length_at_least_3 word r (bi : ByteInput.t Src) length r' bi' :
  257 ≤ word →
  DeflateReader.Dynamic_length word r bi = OK (length, r', bi') → 3 ≤ length.
Proof.
  intros Hword H. unfold DeflateReader.Dynamic_length in H.
  destruct (word - 254 >? 10).
  - eapply parseLongerSize_at_least_3, H.
  - injection H as <- _ _. lia.
Qed.

(** A turn that goes on has taken from the space that is left. *)
Lemma Fixed_turn_available c r (bi : ByteInput.t Src) (output : ByteOutput.t S) st' :
  0 < ByteOutput.available output →
  DeflateReader.Fixed_turn (c, r, bi, output) = OK (DeflateReader.Continues st') →
  0 ≤ ByteOutput.available st'.2 < ByteOutput.available output.
Proof.
  intros Havailable H. unfold DeflateReader.Fixed_turn in H.
  bind_ok H. destruct a as [[part r1] bi1].
  apply getBits_range in E as (_ & _ & Hpart).
  destruct (BitReader.value part =? 0) eqn:Hzero; [discriminate|].
  destruct ((BitReader.value part >=? 24) && (BitReader.value part <=? 95)).
  { bind_ok H. destruct a as [[part' r2] bi2]. bind_ok H. injection H as <-.
    apply addByte_available in E0. simpl. lia. }
  destruct (BitReader.value part >=? 100).
  { bind_ok H. destruct a as [[part' r2] bi2]. bind_ok H. injection H as <-.
    apply addByte_available in E0. simpl. lia. }
  bind_ok H. destruct a as [[size r2] bi2].
  bind_ok H. destruct a as [[distance r3] bi3].
  bind_ok H. destruct a as [[finished c'] output'].
  injection H as <-. simpl.
  apply Fixed_size_at_least_3 in E; [|lia].
  apply restart_available in E1; simpl in *; lia.
Qed.

Lemma Dynamic_turn_available codes distanceCode c r (bi : ByteInput.t Src)
    (output : ByteOutput.t S) st' :
  0 < ByteOutput.available output →
  DeflateReader.Dynamic_turn codes distanceCode (c, r, bi, output)
  = OK (DeflateReader.Continues st') →
  0 ≤ ByteOutput.available st'.2 < ByteOutput.available output.
Proof.
  intros Havailable H. unfold DeflateReader.Dynamic_turn in H.
  bind_ok H. destruct a as [[word r1] bi1].
  destruct (word <? 256) eqn:Hliteral.
  { bind_ok H. injection H as <-. apply addByte_available in E0. simpl. lia. }
  destruct (word =? 256) eqn:Hend; [discriminate|].
  bind_ok H. destruct a as [[length r2] bi2].
  bind_ok H. destruct a as [[distance r3] bi3].
  bind_ok H. destruct a as [[finished c'] output'].
  injection H as <-. simpl.
  apply Dynamic_length_at_least_3 in E0; [|lia].
  apply restart_available in E2; simpl in *; lia.
Qed.

Lemma Fixed_turn_terminates st : never hangs (DeflateReader.Fixed_turn (Src := Src) (S := S) st).
Proof.
  destruct st as [[[c r] bi] output]. unfold DeflateReader.Fixed_turn.
  apply never_bind; [auto with never|]. intros [[part r1] bi1] _.
  destruct (BitReader.value part =? 0); [never_tac|].
  destruct ((BitReader.value part >=? 24) && (BitReader.value part <=? 95)).
  { apply never_bind; [auto with never|]. intros [[part' r2] bi2] _.
    apply never_bind; [apply addByte_terminates|]. intros. never_tac. }
  destruct (BitReader.value part >=? 100).
  { apply never_bind; [auto with never|]. intros [[part' r2] bi2] _.
    apply never_bind; [apply addByte_terminates|]. intros. never_tac. }
  apply never_bind; [unfold DeflateReader.Fixed_size; never_tac|].
  intros [[size r2] bi2] _.
  apply never_bind; [unfold DeflateReader.Fixed_distance; never_tac|].
  intros [[distance r3] bi3] Hdistance. apply Fixed_distance_positive in Hdistance.
  apply never_bind; [apply restart_terminates; exact Hdistance|].
  intros [[finished c'] output'] _. never_tac.
Qed.

Lemma Dynamic_turn_terminates codes distanceCode st :
  never hangs (DeflateReader.Dynamic_turn (Src := Src) (S := S) codes distanceCode st).
Proof.
  destruct st as [[[c r] bi] output]. unfold DeflateReader.Dynamic_turn.
  apply never_bind; [apply readWord_terminates|]. intros [[word r1] bi1] _.
  destruct (word <? 256).
  { apply never_bind; [apply addByte_terminates|]. intros. never_tac. }
  destruct (word =? 256); [never_tac|].
  apply never_bind; [unfold DeflateReader.Dynamic_length; never_tac|].
  intros [[length r2] bi2] _.
  apply never_bind.
  { unfold DeflateReader.Dynamic_distance.
    apply never_bind; [apply readWord_terminates|]. intros [[word' r3] bi3] _. never_tac. }
  intros [[distance r3] bi3] Hdistance. apply Dynamic_distance_positive in Hdistance.
  apply never_bind; [apply restart_terminates; exact Hdistance|].
  intros [[finished c'] output'] _. never_tac.
Qed.

(** The [while] of a [parseSome] ends within [available()] turns, when every
    turn that goes on takes from the space that is left. *)
Lemma while_available_terminates {St} fuel (out : St → ByteOutput.t S) turn st :
  (∀ st, never hangs (turn st)) →
  (∀ st st', 0 < ByteOutput.available (out st) →
             turn st = OK (DeflateReader.Continues st') →
             0 ≤ ByteOutput.available (out st') < ByteOutput.available (out st)) →
  0 ≤ ByteOutput.available (out st) ≤ Z.of_nat fuel →
  never hangs (DeflateReader.while_available fuel out turn st).
Proof.
  intros Hturn Hprogress. revert st.
  induction fuel as [|fuel IH]; intros st Havailable; simpl;
    destruct (ByteOutput.available (out st) =? 0) eqn:E; simpl;
    try apply never_OK; [lia|].
  apply never_bind; [apply Hturn|]. intros [more st'|st'|st'] Hst'; try apply never_OK.
  apply IH. apply Hprogress in Hst'; lia.
Qed.

(** The [parseSome] of a fixed block and of a dynamic block return or throw:
    their loops end. *)
Theorem FixedCodeState_parseSome_terminates c r (bi : ByteInput.t Src)
    (output : ByteOutput.t S) :
  copy_pending_ok c → 0 ≤ ByteOutput.available output →
  DeflateReader.FixedCodeState_parseSome c r bi output ≠ Throw Does_not_terminate.
Proof.
  intros Hc Havailable. apply never_hangs. unfold DeflateReader.FixedCodeState_parseSome.
  assert (Hloop : ∀ c (output : ByteOutput.t S), 0 ≤ ByteOutput.available output →
    never hangs
      (DeflateReader.while_available (Z.to_nat (ByteOutput.available output)) (λ st, st.2)
         DeflateReader.Fixed_turn (c, r, bi, output))).
  { intros c0 output0 H0. apply while_available_terminates.
    - apply Fixed_turn_terminates.
    - intros [[[c1 r1] bi1] output1] st'. apply Fixed_turn_available.
    - simpl. lia. }
  destruct (CopyState.copyLength c >? 0) eqn:Hpending.
  - apply never_bind; [apply restart_terminates, Hc; lia|].
    intros [[finished c'] output'] Hrestart.
    apply restart_available in Hrestart; [|lia|lia].
    destruct finished; [apply never_OK|]. apply Hloop. lia.
  - simpl. apply Hloop, Havailable.
Qed.

Theorem DynamicCodeState_parseSome_terminates codes distanceCode c r (bi : ByteInput.t Src)
    (output : ByteOutput.t S) :
  copy_pending_ok c → 0 ≤ ByteOutput.available output →
  DeflateReader.DynamicCodeState_parseSome codes distanceCode c r bi output
  ≠ Throw Does_not_terminate.
Proof.
  intros Hc Havailable. apply never_hangs. unfold DeflateReader.DynamicCodeState_parseSome.
  assert (Hloop : ∀ c (output : ByteOutput.t S), 0 ≤ ByteOutput.available output →
    never hangs
      (DeflateReader.while_available (Z.to_nat (ByteOutput.available output)) (λ st, st.2)
         (DeflateReader.Dynamic_turn codes distanceCode) (c, r, bi, output))).
  { intros c0 output0 H0. apply while_available_terminates.
    - apply Dynamic_turn_terminates.
    - intros [[[c1 r1] bi1] output1] st'. apply Dynamic_turn_available.
    - simpl. lia. }
  destruct (CopyState.copyLength c >? 0) eqn:Hpending.
  - apply never_bind; [apply restart_terminates, Hc; lia|].
    intros [[finished c'] output'] Hrestart.
    apply restart_available in Hrestart; [|lia|lia].
    destruct finished; [apply never_OK|]. apply Hloop. lia.
  - simpl. apply Hloop, Havailable.
Qed.

End BlockLoops.

(** ** The input buffer *)

Section InputBuffer.
Context {Src : Type} `{!PullSource Src} `{!StreamOf Src}.
Hypothesis Hstream : delivers_stream Src.
Implicit Types bi : ByteInput.t Src.

Lemma refillSome_unread bi added bi' :
  Stream.wf bi → ByteInput.refillSome bi = OK (added, bi') →
  Stream.wf bi' ∧ Stream.unread bi' = Stream.unread bi ∧ 0 ≤ added ∧
  ByteInput.filled bi' - ByteInput.position bi'
  = ByteInput.filled bi - ByteInput.position bi + added.
Proof.
  intros (H0 & H1 & H2) H. unfold ByteInput.refillSome in H. bind_ok H.
  assert (Hcompact : Stream.wf a ∧ Stream.unread a = Stream.unread bi ∧
                     ByteInput.filled a - ByteInput.position a
                     = ByteInput.filled bi - ByteInput.position bi).
  { destruct (ByteInput.position bi >? len (ByteInput.buffer bi) / 2).
    - bind_ok E. injection E as <-.
      apply memmove_inv in E0 as (Hn & Hsrc & Hsrcend & _ & _ & Hlen & _ & Hseg).
      unfold Stream.wf, Stream.unread. simpl. split; [lia|]. split; [|lia].
      f_equal. rewrite Z.add_0_l in Hseg. rewrite Hseg. f_equal. lia.
    - injection E as <-. unfold Stream.wf. auto. }
  destruct Hcompact as ((W0 & W1 & W2) & Hunread & Hsize).
  destruct (readMore (ByteInput.source a) (len (ByteInput.buffer a) - ByteInput.filled a))
    as [bytes next|e] eqn:Hread; [|discriminate].
  bind_ok H. injection H as <- <-.
  apply blit_inv in E0 as (Hat & Hend & Hlen & Hprefix & Hseg).
  pose proof (len_nonneg bytes) as Hbytes.
  unfold Stream.wf, Stream.unread in *. simpl.
  split; [lia|]. split; [|lia].
  rewrite <- Hunread, (Hstream _ _ _ _ Hread), app_assoc. f_equal.
  rewrite (seg_split (ByteInput.position a) (ByteInput.filled a)) by lia.
  rewrite Hseg. f_equal. eapply seg_prefix; [exact Hprefix | lia | lia].
Qed.

Lemma getRange_unread size bi chunk bi' :
  Stream.wf bi → 0 ≤ size → ByteInput.getRange size bi = OK (chunk, bi') →
  Stream.wf bi' ∧ Stream.unread bi = chunk ++ Stream.unread bi' ∧ len chunk ≤ size.
Proof.
  intros Hwf Hsize H. unfold ByteInput.getRange in H. bind_ok H.
  assert (Hrefill : Stream.wf a ∧ Stream.unread a = Stream.unread bi).
  { destruct (ByteInput.position bi + size >=? ByteInput.filled bi).
    - bind_ok E. destruct a0 as [added bi1]. injection E as <-.
      apply refillSome_unread in E0 as (? & ? & _); auto.
    - injection E as <-. auto. }
  destruct Hrefill as ((W0 & W1 & W2) & Hunread).
  match type of H with (if ?b then _ else _) = _ => destruct b eqn:Hbounds end;
    [|discriminate].
  injection H as <- <-.
  set (available := Z.min size (ByteInput.filled a - ByteInput.position a)) in *.
  assert (Havailable : 0 ≤ available ≤ size ∧
                       ByteInput.position a + available ≤ ByteInput.filled a)
    by (unfold available; lia).
  unfold Stream.wf, Stream.unread in *. simpl.
  split; [lia|]. split.
  - rewrite <- Hunread, app_assoc. f_equal. apply seg_split; lia.
  - rewrite len_seg; lia.
Qed.

(** Nothing is pulled when the range is buffered already. *)
Lemma getRange_buffered size bi :
  Stream.wf bi → 0 ≤ size → ByteInput.position bi + size < ByteInput.filled bi →
  ByteInput.getRange size bi
  = OK (seg (ByteInput.position bi) (ByteInput.position bi + size) (ByteInput.buffer bi),
        ByteInput.mk (ByteInput.buffer bi) (ByteInput.source bi)
          (ByteInput.position bi + size) (ByteInput.filled bi)).
Proof.
  intros (H0 & H1 & H2) Hsize Hbuffered. unfold ByteInput.getRange.
  destruct (ByteInput.position bi + size >=? ByteInput.filled bi) eqn:E; [lia|]. simpl.
  rewrite Z.min_l by lia.
  match goal with |- (if ?b then _ else _) = _ => destruct b eqn:Hbounds end;
    [reflexivity | lia].
Qed.

Lemma ensureSize_loop_unread fuel bytes bi bi' :
  Stream.wf bi → ByteInput.ensureSize_loop fuel bytes bi = OK bi' →
  Stream.wf bi' ∧ Stream.unread bi' = Stream.unread bi ∧
  ByteInput.position bi' + bytes ≤ ByteInput.filled bi'.
Proof.
  revert bi. induction fuel as [|fuel IH]; intros bi Hwf H; simpl in H.
  - destruct (ByteInput.position bi + bytes >? ByteInput.filled bi) eqn:E; [discriminate|].
    injection H as <-. repeat split; auto; try apply Hwf. lia.
  - destruct (ByteInput.position bi + bytes >? ByteInput.filled bi) eqn:E.
    + bind_ok H. destruct a as [added bi1].
      apply refillSome_unread in E0 as (Hwf1 & Hunread1 & _); [|exact Hwf].
      destruct (added =? 0); [discriminate|].
      apply IH in H as (? & ? & ?); [|exact Hwf1]. rewrite <- Hunread1. auto.
    + injection H as <-. repeat split; auto; try apply Hwf. lia.
Qed.

Lemma refillSome_terminates bi : ByteInput.refillSome bi ≠ Throw Does_not_terminate.
Proof.
  unfold ByteInput.refillSome, memmove, blit. intros H.
  apply bind_Throw in H as [H|(a & Ha & H)].
  - repeat match type of H with
           | context [if ?b then _ else _] => destruct b; simpl in H; try discriminate
           end.
  - destruct (readMore (ByteInput.source a) (len (ByteInput.buffer a) - ByteInput.filled a));
      [|discriminate].
    repeat match type of H with
           | context [if ?b then _ else _] => destruct b; simpl in H; try discriminate
           end.
Qed.

(** The loop of [ensureSize] ends within the turns it is given. *)
Lemma ensureSize_loop_terminates fuel bytes bi :
  Stream.wf bi →
  ByteInput.position bi + bytes - ByteInput.filled bi ≤ Z.of_nat fuel →
  ByteInput.ensureSize_loop fuel bytes bi ≠ Throw Does_not_terminate.
Proof.
  revert bi. induction fuel as [|fuel IH]; intros bi Hwf Hfuel; simpl.
  - destruct (ByteInput.position bi + bytes >? ByteInput.filled bi) eqn:E;
      [lia | discriminate].
  - destruct (ByteInput.position bi + bytes >? ByteInput.filled bi) eqn:E; [|discriminate].
    destruct (ByteInput.refillSome bi) as [[added bi1]|e] eqn:Hrefill; simpl.
    + apply refillSome_unread in Hrefill as (Hwf1 & _ & Hadded & Hsize); [|exact Hwf].
      destruct (added =? 0) eqn:E0; [discriminate|].
      apply IH; [exact Hwf1 | lia].
    + intros [= ->]. exact (refillSome_terminates _ Hrefill).
Qed.

End InputBuffer.

(** ** Stored blocks and the trailer *)

Section StoredBlocks.
Context {Src : Type} `{!PullSource Src} `{!StreamOf Src} {S : DecompressionSettings}.
Hypothesis Hstream : delivers_stream Src.
Implicit Types bi : ByteInput.t Src.
Implicit Types output : ByteOutput.t S.

Lemma getInteger_unread bytes bi v bi' :
  Stream.wf bi → 0 ≤ bytes → ByteInput.getInteger bytes bi = OK (v, bi') →
  ∃ read, len read = bytes ∧ v = le_value read ∧
          Stream.unread bi = read ++ Stream.unread bi' ∧ Stream.wf bi'.
Proof.
  intros Hwf Hbytes H. unfold ByteInput.getInteger, ByteInput.ensureSize in H. bind_ok H.
  apply (ensureSize_loop_unread Hstream) in E as ((W0 & W1 & W2) & Hunread & Hsize);
    [|exact Hwf].
  destruct ((0 <=? ByteInput.position a) && (0 <=? bytes)); [|discriminate].
  injection H as <- <-.
  exists (seg (ByteInput.position a) (ByteInput.position a + bytes) (ByteInput.buffer a)).
  split; [rewrite len_seg; lia|]. split; [reflexivity|].
  unfold Stream.wf, Stream.unread in *. simpl. split; [|lia].
  rewrite <- Hunread, app_assoc. f_equal. apply seg_split; lia.
Qed.

Lemma getInteger_buffered bytes bi :
  0 ≤ ByteInput.position bi → 0 ≤ bytes →
  ByteInput.position bi + bytes ≤ ByteInput.filled bi →
  ByteInput.getInteger bytes bi
  = OK (le_value (seg (ByteInput.position bi) (ByteInput.position bi + bytes)
                      (ByteInput.buffer bi)),
        ByteInput.mk (ByteInput.buffer bi) (ByteInput.source bi)
          (ByteInput.position bi + bytes) (ByteInput.filled bi)).
Proof.
  intros Hposition Hbytes Hbuffered. unfold ByteInput.getInteger, ByteInput.ensureSize.
  assert (Hloop : ∀ fuel, ByteInput.ensureSize_loop fuel bytes bi = OK bi).
  { intros [|fuel]; simpl;
      destruct (ByteInput.position bi + bytes >? ByteInput.filled bi) eqn:E; (lia || reflexivity). }
  rewrite Hloop. simpl.
  destruct ((0 <=? ByteInput.position bi) && (0 <=? bytes)) eqn:E; [reflexivity | lia].
Qed.

Lemma len_2_inv {A} (l : list A) : len l = 2 → ∃ x y, l = [x; y].
Proof. destruct l as [|x [|y [|z l]]]; unfold len; simpl; try lia. eauto. Qed.

Lemma len_4_inv {A} (l : list A) : len l = 4 → ∃ x y z w, l = [x; y; z; w].
Proof.
  destruct l as [|x [|y [|z [|w [|v l]]]]]; unfold len; simpl; try lia. eauto 6.
Qed.

(** One call of [parseSome] on a stored block moves the next bytes of the
    input to the output. *)
Lemma LiteralState_parseSome_moves bytesLeft bi output more bytesLeft' bi' output' :
  Stream.wf bi → Session.wf output → 0 ≤ bytesLeft →
  DeflateReader.LiteralState_parseSome bytesLeft bi output
  = OK (more, bytesLeft', bi', output') →
  Stream.wf bi' ∧ Session.extends output output' ∧
  Stream.unread bi = Session.written output output' ++ Stream.unread bi' ∧
  bytesLeft' = bytesLeft - len (Session.written output output') ∧
  0 ≤ bytesLeft' ∧ (more = false → bytesLeft' = 0).
Proof.
  intros Hwf Hout Hleft H. unfold DeflateReader.LiteralState_parseSome in H.
  assert (Havailable : 0 ≤ ByteOutput.available output)
    by (unfold ByteOutput.available; destruct Hout as (? & ? & ?); lia).
  destruct (ByteOutput.available output >? bytesLeft) eqn:Hroom.
  - bind_ok H. destruct a as [chunk bi1]. bind_ok H. injection H as <- <- <- <-.
    apply (getRange_unread Hstream) in E as (Hwf1 & Hunread & Hchunk); [|exact Hwf|lia].
    apply addBytes_extends in E0 as [Hext Hwritten]; [|exact Hout].
    rewrite Hwritten.
    split; [exact Hwf1|]. split; [exact Hext|]. split; [exact Hunread|]. lia.
  - bind_ok H. destruct a as [chunk bi1]. bind_ok H. injection H as <- <- <- <-.
    apply (getRange_unread Hstream) in E as (Hwf1 & Hunread & Hchunk); [|exact Hwf|lia].
    apply addBytes_extends in E0 as [Hext Hwritten]; [|exact Hout].
    rewrite Hwritten.
    split; [exact Hwf1|]. split; [exact Hext|]. split; [exact Hunread|].
    split; [lia|]. split; [lia | discriminate].
Qed.

Lemma stored_run_moves bytesLeft bi output chunks bi' output' :
  Stream.stored_run bytesLeft bi output chunks bi' output' →
  Stream.wf bi → Session.wf output → 0 ≤ bytesLeft →
  Stream.unread bi = concat chunks ++ Stream.unread bi' ∧ len (concat chunks) = bytesLeft.
Proof.
  induction 1 as [bytesLeft bi output bytesLeft' bi' output' Hcall
                 |bytesLeft bi output bytesLeft' bi' output' resumed chunks bi'' output''
                    Hcall Hresumed Hrun IH];
    intros Hwf Hout Hleft.
  - apply LiteralState_parseSome_moves in Hcall as (_ & _ & Hunread & Hcount & _ & Hdone);
      auto.
    simpl. rewrite app_nil_r. split; [exact Hunread|]. specialize (Hdone eq_refl). lia.
  - apply LiteralState_parseSome_moves in Hcall as (Hwf1 & _ & Hunread & Hcount & Hleft' & _);
      auto.
    destruct (IH Hwf1 Hresumed Hleft') as [Hunread' Hcount'].
    simpl. rewrite len_app, <- app_assoc, <- Hunread'. split; [exact Hunread|]. lia.
Qed.

(** With room in the output and the bytes of the block buffered, one call
    moves them all. *)
Lemma LiteralState_parseSome_buffered bytesLeft bi output :
  Stream.wf bi → Session.wf output → 0 ≤ bytesLeft →
  ByteOutput.available output > bytesLeft →
  ByteInput.position bi + bytesLeft < ByteInput.filled bi →
  ∃ bi' output',
    DeflateReader.LiteralState_parseSome bytesLeft bi output = OK (false, 0, bi', output').
Proof.
  intros Hwf Hout Hleft Hroom Hbuffered. unfold DeflateReader.LiteralState_parseSome.
  destruct (ByteOutput.available output >? bytesLeft) eqn:E; [|lia].
  rewrite getRange_buffered by assumption. simpl.
  destruct Hwf as (W0 & W1 & W2). destruct Hout as (O0 & O1 & O2).
  assert (Hchunk : len (seg (ByteInput.position bi) (ByteInput.position bi + bytesLeft)
                            (ByteInput.buffer bi)) = bytesLeft)
    by (rewrite len_seg; lia).
  unfold ByteOutput.addBytes, ByteOutput.checkSize, ByteOutput.available, blit in *.
  rewrite Hchunk.
  destruct (ByteOutput.used output + bytesLeft >? len (ByteOutput.buffer output)) eqn:E1;
    [lia|]. simpl.
  destruct ((0 <=? ByteOutput.used output)
            && (ByteOutput.used output + bytesLeft <=? len (ByteOutput.buffer output))) eqn:E2;
    [|lia]. simpl.
  rewrite Z.sub_diag. simpl. eauto.
Qed.



End StoredBlocks.

(** ** The line reader *)

Lemma join_snoc separator payloads payload :
  payloads ≠ [] →
  join separator (payloads ++ [payload]) = join separator payloads ++ separator :: payload.
Proof.
  induction payloads as [|p ps IH]; intros Hne; [congruence|].
  destruct ps as [|q ps]; [reflexivity|].
  change (join separator ((p :: q :: ps) ++ [payload]))
    with (p ++ separator :: join separator ((q :: ps) ++ [payload])).
  rewrite IH by discriminate.
  change (join separator (p :: q :: ps)) with (p ++ separator :: join separator (q :: ps)).
  rewrite <- app_assoc. reflexivity.
Qed.

Lemma join_snoc_app separator payloads x y :
  join separator (payloads ++ [x ++ y]) = join separator (payloads ++ [x]) ++ y.
Proof.
  destruct payloads as [|p ps]; [reflexivity|].
  rewrite !join_snoc by discriminate. rewrite <- !app_assoc. reflexivity.
Qed.

Lemma occurrences_app separator text1 text2 :
  occurrences separator (text1 ++ text2)
  = (occurrences separator text1 + occurrences separator text2)%nat.
Proof. induction text1 as [|c text1 IH]; simpl; [reflexivity|]. rewrite IH. lia. Qed.

Lemma scanBatch_lines separator batch pre rest st :
  batch = pre ++ rest →
  0 ≤ IDeflateArchive.start st ≤ len pre →
  (pre ≠ [] → IDeflateArchive.start st < len pre) →
  join separator (IDeflateArchive.calls st ++ [current_line pre st]) = pre →
  length (IDeflateArchive.calls st) = occurrences separator pre →
  let st' := IDeflateArchive.scanBatch separator batch (len pre) rest st in
  0 ≤ IDeflateArchive.start st' ≤ len batch ∧
  (batch ≠ [] → IDeflateArchive.start st' < len batch) ∧
  join separator (IDeflateArchive.calls st' ++ [current_line batch st']) = batch ∧
  length (IDeflateArchive.calls st') = occurrences separator batch.
Proof.
  revert pre st. induction rest as [|c rest IH]; intros pre st Hbatch Hstart Hlt Hjoin Hcount.
  - rewrite app_nil_r in Hbatch. subst batch. simpl. auto.
  - simpl.
    set (st1 := if IDeflateArchive.wasSeparator st
                then IDeflateArchive.mkLines (len pre) false (IDeflateArchive.calls st)
                else st).
    assert (Hst1 : IDeflateArchive.wasSeparator st1 = false ∧
                   IDeflateArchive.calls st1 = IDeflateArchive.calls st ∧
                   0 ≤ IDeflateArchive.start st1 ≤ len pre ∧
                   drop (Z.to_nat (IDeflateArchive.start st1)) pre = current_line pre st).
    { unfold st1, current_line.
      destruct (IDeflateArchive.wasSeparator st) eqn:Hsep; simpl.
      - split; [reflexivity|]. split; [reflexivity|].
        split; [pose proof (len_nonneg pre); lia|]. apply drop_ge. unfold len. lia.
      - split; [exact Hsep|]. split; [reflexivity|]. split; [lia | reflexivity]. }
    destruct Hst1 as (Hsep1 & Hcalls1 & Hstart1 & Hline1).
    assert (Hpre' : len (pre ++ [c]) = len pre + 1) by (rewrite len_app; reflexivity).
    assert (Hbatch' : batch = (pre ++ [c]) ++ rest) by (rewrite <- app_assoc; exact Hbatch).
    assert (Hseg : seg (IDeflateArchive.start st1) (len pre) batch = current_line pre st).
    { rewrite Hbatch, seg_app_l by lia. rewrite seg_drop_take by lia.
      rewrite take_ge by (unfold len; lia). exact Hline1. }
    rewrite <- Hpre'. destruct (c =? separator) eqn:Hc.
    + apply IH; simpl; auto.
      * lia.
      * intros _. lia.
      * unfold current_line. simpl. rewrite Hseg, Hcalls1.
        rewrite join_snoc by (destruct (IDeflateArchive.calls st); discriminate).
        rewrite Hjoin. f_equal. f_equal. lia.
      * rewrite Hcalls1, length_app, Hcount, occurrences_app. simpl. rewrite Hc. lia.
    + apply IH; auto.
      * lia.
      * intros _. lia.
      * unfold current_line. rewrite Hsep1, Hcalls1.
        rewrite drop_app_le by (unfold len in *; lia).
        rewrite Hline1, join_snoc_app, Hjoin. reflexivity.
      * rewrite Hcalls1, Hcount, occurrences_app. simpl. rewrite Hc. lia.
Qed.

Section LineReader.
Context {Src : Type} `{!PullSource Src} {S : DecompressionSettings}.
Variable onFinish : ByteInput.t Src → ByteOutput.t S → result (ByteInput.t Src).

(** C3 (amended): when [readSome] hands the whole text over in one batch
    and the archive is done, [readByLines] calls the callback once for every
    separator and once more for what follows the last separator, be it empty:
    [k + 1] times for a text with [k] separators that is not empty, and not at
    all for the empty text; the payloads, put together with the separator
    between them, are the text. *)
Theorem C3_readByLines_one_batch (blocks batches : nat) (separator : Z)
    (a a' : IDeflateArchive.t Src S) (text : list Z) :
  IDeflateArchive.readSome onFinish blocks 0 a = OK (Some text, a') →
  IDeflateArchive.done a' = true →
  (2 ≤ batches)%nat →
  ∃ payloads,
    IDeflateArchive.readByLines onFinish blocks batches separator a = OK (payloads, a') ∧
    (text = [] → payloads = []) ∧
    (text ≠ [] →
       length payloads = Datatypes.S (occurrences separator text) ∧
       join separator payloads = text).
Proof.
  intros Hread Hdone Hbatches.
  destruct batches as [|[|batches]]; [lia|lia|].
  pose proof (scanBatch_lines separator text [] text (IDeflateArchive.mkLines 0 false []))
    as Hscan.
  change (len []) with 0 in Hscan. simpl in Hscan.
  destruct Hscan as (Hstart & Hlt & Hjoin & Hcount); auto; try lia; try congruence.
  set (st := IDeflateArchive.scanBatch separator text 0 text
               (IDeflateArchive.mkLines 0 false [])) in *.
  unfold IDeflateArchive.readByLines. simpl. rewrite Hread. simpl.
  unfold IDeflateArchive.readSome at 1. rewrite Hdone. simpl. fold st.
  destruct text as [|c text].
  - simpl. exists []. split; [reflexivity|]. split; [reflexivity | congruence].
  - specialize (Hlt ltac:(discriminate)).
    destruct (len (c :: text) - IDeflateArchive.start st >? 0) eqn:Hkeeping; [|lia].
    unfold current_line in Hjoin.
    destruct (IDeflateArchive.wasSeparator st) eqn:Hsep.
    + eexists. split; [reflexivity|]. split; [discriminate|]. intros _.
      split; [rewrite length_app, Hcount; simpl; lia | exact Hjoin].
    + eexists. split; [reflexivity|]. split; [discriminate|]. intros _.
      split; [rewrite length_app, Hcount; simpl; lia|].
      replace (len (c :: text) - (len (c :: text) - IDeflateArchive.start st))
        with (IDeflateArchive.start st) by lia.
      rewrite seg_drop_take by lia. rewrite take_ge by (unfold len; lia). exact Hjoin.
Qed.

End LineReader.

(** ** The checksums *)

Section Checksums.

Lemma below_shiftr n a : 0 ≤ n → 0 ≤ a → a < 2 ^ n ↔ Z.shiftr a n = 0.
Proof.
  intros Hn Ha. rewrite Z.shiftr_div_pow2 by lia.
  assert (0 < 2 ^ n) by (apply Z.pow_pos_nonneg; lia).
  rewrite Z.div_small_iff by lia. lia.
Qed.

Lemma lxor_below n a b : 0 ≤ n → 0 ≤ a < 2 ^ n → 0 ≤ b < 2 ^ n → 0 ≤ Z.lxor a b < 2 ^ n.
Proof.
  intros Hn Ha Hb.
  assert (H0 : 0 ≤ Z.lxor a b) by (apply Z.lxor_nonneg; lia).
  split; [exact H0|].
  apply below_shiftr; [lia..|]. rewrite Z.shiftr_lxor.
  replace (Z.shiftr a n) with 0 by (symmetry; apply below_shiftr; lia).
  replace (Z.shiftr b n) with 0 by (symmetry; apply below_shiftr; lia).
  reflexivity.
Qed.

Lemma land_lxor a b c : Z.land (Z.lxor a b) c = Z.lxor (Z.land a c) (Z.land b c).
Proof.
  apply Z.bits_inj'. intros n Hn. rewrite !Z.land_spec, !Z.lxor_spec, !Z.land_spec.
  destruct (Z.testbit a n), (Z.testbit b n), (Z.testbit c n); reflexivity.
Qed.

Lemma lxor_mod a b n :
  0 ≤ n → Z.lxor a b mod 2 ^ n = Z.lxor (a mod 2 ^ n) (b mod 2 ^ n).
Proof. intros Hn. rewrite <- !Z.land_ones by lia. apply land_lxor. Qed.

Lemma basicCrc32LookupTable_generated :
  basicCrc32LookupTable = generateBasicCrc32LookupTable.
Proof. vm_compute. reflexivity. Qed.

Lemma basicCrc32LookupTable_nth b :
  0 ≤ b < 256 → nth (Z.to_nat b) basicCrc32LookupTable 0 = Nat.iter 8 Crc32_bit_turn b.
Proof.
  intros Hb. rewrite basicCrc32LookupTable_generated. unfold generateBasicCrc32LookupTable.
  change 0 with ((λ i : nat, Nat.iter 8 Crc32_bit_turn (Z.of_nat i)) 0%nat) at 1.
  rewrite map_nth, seq_nth by lia. simpl Nat.add. rewrite Z2Nat.id by lia. reflexivity.
Qed.

Lemma bit_turn_lxor x y : Crc32_bit_turn (Z.lxor x y) = Z.lxor (Crc32_bit_turn x) (Crc32_bit_turn y).
Proof.
  unfold Crc32_bit_turn. rewrite Z.shiftr_lxor, land_lxor.
  change 1 with (Z.ones 1). rewrite !Z.land_ones by lia. change (2 ^ 1) with 2.
  pose proof (Z.mod_pos_bound x 2 ltac:(lia)). pose proof (Z.mod_pos_bound y 2 ltac:(lia)).
  assert (Hx : x mod 2 = 0 ∨ x mod 2 = 1) by lia.
  assert (Hy : y mod 2 = 0 ∨ y mod 2 = 1) by lia.
  destruct Hx as [->| ->], Hy as [->| ->]; simpl Z.mul; simpl (Z.lxor 0 0);
    simpl (Z.lxor 1 1); simpl (Z.lxor 0 1); simpl (Z.lxor 1 0); simpl Z.mul;
    rewrite ?Z.lxor_0_r, ?Z.lxor_0_l.
  - reflexivity.
  - rewrite Z.lxor_assoc. reflexivity.
  - rewrite !Z.lxor_assoc. f_equal. apply Z.lxor_comm.
  - rewrite !Z.lxor_assoc. f_equal.
    rewrite (Z.lxor_comm 3988292384), Z.lxor_assoc, Z.lxor_nilpotent, Z.lxor_0_r.
    reflexivity.
Qed.

Lemma iter_bit_turn_lxor n x y :
  Nat.iter n Crc32_bit_turn (Z.lxor x y) = Z.lxor (Nat.iter n Crc32_bit_turn x) (Nat.iter n Crc32_bit_turn y).
Proof. induction n as [|n IH]; simpl; [reflexivity|]. rewrite IH. apply bit_turn_lxor. Qed.

Lemma basicCrc32LookupTable_lxor a b :
  0 ≤ a < 256 → 0 ≤ b < 256 →
  nth (Z.to_nat (Z.lxor a b)) basicCrc32LookupTable 0
  = Z.lxor (nth (Z.to_nat a) basicCrc32LookupTable 0) (nth (Z.to_nat b) basicCrc32LookupTable 0).
Proof.
  intros Ha Hb. rewrite !basicCrc32LookupTable_nth; [apply iter_bit_turn_lxor|lia..|].
  apply (lxor_below 8); lia.
Qed.

Lemma basicCrc32LookupTable_below b :
  0 ≤ nth (Z.to_nat b) basicCrc32LookupTable 0 < 2 ^ 32.
Proof.
  assert (Hall : forallb (λ v, (0 <=? v) && (v <? 2 ^ 32)) basicCrc32LookupTable = true)
    by (vm_compute; reflexivity).
  rewrite forallb_forall in Hall.
  destruct (nth_in_or_default (Z.to_nat b) basicCrc32LookupTable 0) as [Hin| ->]; [|lia].
  apply Hall in Hin. lia.
Qed.

Lemma turn_lxor x y : 0 ≤ x → 0 ≤ y → Crc32_turn (Z.lxor x y) = Z.lxor (Crc32_turn x) (Crc32_turn y).
Proof.
  intros Hx Hy. unfold Crc32_turn. rewrite Z.shiftr_lxor.
  change 256 with (2 ^ 8). rewrite lxor_mod by lia. change (2 ^ 8) with 256.
  rewrite basicCrc32LookupTable_lxor by (apply Z.mod_pos_bound; lia).
  rewrite !Z.lxor_assoc. f_equal. rewrite <- !Z.lxor_assoc. f_equal. apply Z.lxor_comm.
Qed.

Lemma turn_below x : 0 ≤ x < 2 ^ 32 → 0 ≤ Crc32_turn x < 2 ^ 32.
Proof.
  intros Hx. unfold Crc32_turn. apply (lxor_below 32); [lia| |apply basicCrc32LookupTable_below].
  rewrite Z.shiftr_div_pow2 by lia. split; [apply Z.div_pos; lia|].
  apply Z.div_lt_upper_bound; lia.
Qed.

Lemma iter_turn_below n x : 0 ≤ x < 2 ^ 32 → 0 ≤ Nat.iter n Crc32_turn x < 2 ^ 32.
Proof. intros Hx. induction n as [|n IH]; simpl; [exact Hx | apply turn_below, IH]. Qed.

Lemma iter_turn_lxor n x y :
  0 ≤ x < 2 ^ 32 → 0 ≤ y < 2 ^ 32 →
  Nat.iter n Crc32_turn (Z.lxor x y) = Z.lxor (Nat.iter n Crc32_turn x) (Nat.iter n Crc32_turn y).
Proof.
  intros Hx Hy. induction n as [|n IH]; simpl; [reflexivity|]. rewrite IH.
  apply turn_lxor; apply iter_turn_below; assumption.
Qed.

(** A Crc32_turn of [LightCrc32] mixes the byte into the state, then shifts a byte out. *)
Lemma LightCrc32_fold_cons state it input :
  0 ≤ state → 0 ≤ it < 256 →
  LightCrc32_fold state (it :: input) = LightCrc32_fold (Crc32_turn (Z.lxor state it)) input.
Proof.
  intros Hstate Hit. unfold LightCrc32_fold. simpl. f_equal. unfold Crc32_turn. f_equal.
  rewrite Z.shiftr_lxor. replace (Z.shiftr it 8) with 0; [symmetry; apply Z.lxor_0_r|].
  symmetry. apply below_shiftr; lia.
Qed.

Lemma LightCrc32_fold_below state input :
  0 ≤ state < 2 ^ 32 → Forall is_byte input →
  0 ≤ LightCrc32_fold state input < 2 ^ 32.
Proof.
  intros Hstate Hinput. revert state Hstate.
  induction Hinput as [|b input Hb _ IH]; intros state Hstate; [exact Hstate|].
  unfold is_byte in Hb.
  rewrite LightCrc32_fold_cons by lia. apply IH, turn_below, (lxor_below 32); lia.
Qed.

(** The state enters the result through as many turns as there are bytes. *)
Lemma LightCrc32_fold_lxor state other input :
  0 ≤ state < 2 ^ 32 → 0 ≤ other < 2 ^ 32 → Forall is_byte input →
  LightCrc32_fold (Z.lxor state other) input
  = Z.lxor (Nat.iter (length input) Crc32_turn other) (LightCrc32_fold state input).
Proof.
  intros Hstate Hother Hinput. revert state other Hstate Hother.
  induction Hinput as [|b input Hb _ IH]; intros state other Hstate Hother.
  - apply Z.lxor_comm.
  - unfold is_byte in Hb. rewrite !LightCrc32_fold_cons by (try apply Z.lxor_nonneg; lia).
    replace (Z.lxor (Z.lxor state other) b) with (Z.lxor (Z.lxor state b) other)
      by (rewrite !Z.lxor_assoc; f_equal; apply Z.lxor_comm).
    assert (0 ≤ Z.lxor state b < 2 ^ 32) by (apply (lxor_below 32); lia).
    rewrite turn_lxor by lia. rewrite IH by (apply turn_below; lia).
    simpl. rewrite <- Nat.iter_succ_r. reflexivity.
Qed.

Lemma turn_0 : Crc32_turn 0 = 0.
Proof. reflexivity. Qed.

Lemma iter_turn_0 n : Nat.iter n Crc32_turn 0 = 0.
Proof. induction n as [|n IH]; simpl; [reflexivity|]. rewrite IH. apply turn_0. Qed.

Lemma turn_byte b : 0 ≤ b < 256 → Crc32_turn b = nth (Z.to_nat b) basicCrc32LookupTable 0.
Proof.
  intros Hb. unfold Crc32_turn. rewrite Z.mod_small by lia.
  replace (Z.shiftr b 8) with 0; [apply Z.lxor_0_l|].
  symmetry. apply below_shiftr; lia.
Qed.

(** A state whose low byte is 0 loses that byte in a Crc32_turn. *)
Lemma turn_shiftl x : 0 ≤ x → Crc32_turn (Z.shiftl x 8) = x.
Proof.
  intros Hx. unfold Crc32_turn. rewrite Z.shiftr_shiftl_l, Z.sub_diag, Z.shiftl_0_r by lia.
  rewrite Z.shiftl_mul_pow2 by lia. change (2 ^ 8) with 256. rewrite Z.mod_mul by lia.
  apply Z.lxor_0_r.
Qed.

Lemma low_byte_split x : x = Z.lxor (x mod 256) (Z.shiftl (Z.shiftr x 8) 8).
Proof.
  apply Z.bits_inj'. intros n Hn. rewrite Z.lxor_spec. change 256 with (2 ^ 8).
  destruct (Z.lt_ge_cases n 8) as [Hlow|Hhigh].
  - rewrite Z.mod_pow2_bits_low, Z.shiftl_spec_low by lia. symmetry. apply xorb_false_r.
  - rewrite Z.mod_pow2_bits_high, Z.shiftl_spec, Z.shiftr_spec by lia.
    replace (n - 8 + 8) with n by lia. reflexivity.
Qed.

Lemma iter_turn_low_byte n x :
  0 ≤ x < 2 ^ 32 →
  Nat.iter (S n) Crc32_turn x
  = Z.lxor (Nat.iter (S n) Crc32_turn (x mod 256)) (Nat.iter n Crc32_turn (Z.shiftr x 8)).
Proof.
  intros Hx.
  assert (Hhigh : 0 ≤ Z.shiftr x 8 < 2 ^ 24).
  { rewrite Z.shiftr_div_pow2 by lia. split; [apply Z.div_pos; lia|].
    apply Z.div_lt_upper_bound; lia. }
  assert (Hshifted : 0 ≤ Z.shiftl (Z.shiftr x 8) 8 < 2 ^ 32).
  { rewrite Z.shiftl_mul_pow2 by lia. change (2 ^ 8) with 256. lia. }
  rewrite (low_byte_split x) at 1.
  rewrite iter_turn_lxor; [|pose proof (Z.mod_pos_bound x 256); lia|lia].
  f_equal. rewrite Nat.iter_succ_r, turn_shiftl by lia. reflexivity.
Qed.

(** The sixteen turns a state of four bytes goes through in a chunk. *)
Lemma iter_turn_4_bytes x :
  0 ≤ x < 2 ^ 32 →
  Nat.iter 16 Crc32_turn x
  = Z.lxor (Nat.iter 16 Crc32_turn (x mod 256))
      (Z.lxor (Nat.iter 15 Crc32_turn (Z.shiftr x 8 mod 256))
         (Z.lxor (Nat.iter 14 Crc32_turn (Z.shiftr x 16 mod 256))
            (Nat.iter 13 Crc32_turn (Z.shiftr x 24 mod 256)))).
Proof.
  intros Hx.
  assert (Hshift : ∀ k, 0 ≤ k → 0 ≤ Z.shiftr x k < 2 ^ 32).
  { intros k Hk. rewrite Z.shiftr_div_pow2 by lia.
    assert (0 < 2 ^ k) by (apply Z.pow_pos_nonneg; lia).
    split; [apply Z.div_pos; lia|]. apply Z.div_lt_upper_bound; nia. }
  rewrite (iter_turn_low_byte 15 x) by lia. f_equal.
  rewrite (iter_turn_low_byte 14) by (apply Hshift; lia). f_equal.
  rewrite Z.shiftr_shiftr by lia. change (8 + 8) with 16.
  rewrite (iter_turn_low_byte 13) by (apply Hshift; lia). f_equal.
  rewrite Z.shiftr_shiftr by lia. change (16 + 8) with 24.
  rewrite (iter_turn_low_byte 12) by (apply Hshift; lia).
  rewrite Z.shiftr_shiftr by lia. change (24 + 8) with 32.
  replace (Z.shiftr x 32) with 0; [rewrite iter_turn_0; apply Z.lxor_0_r|].
  symmetry. apply below_shiftr; lia.
Qed.

(** The tables of [FastCrc32]: table [k] holds what [k + 1] turns make of a byte. *)
Lemma lookupTables_generated : lookupTables = map CrcLookupTable (seq 0 16).
Proof. vm_compute. reflexivity. Qed.

Lemma CrcLookupTable_length k : length (CrcLookupTable k) = 256%nat.
Proof.
  induction k as [|k IH]; [reflexivity|].
  simpl. unfold generateNextCrc32LookupTableSlice. rewrite length_map. exact IH.
Qed.

Lemma CrcLookupTable_nth k b :
  0 ≤ b < 256 → nth (Z.to_nat b) (CrcLookupTable k) 0 = Nat.iter (S k) Crc32_turn b.
Proof.
  intros Hb. induction k as [|k IH].
  - simpl. symmetry. apply turn_byte, Hb.
  - change (CrcLookupTable (S k)) with (generateNextCrc32LookupTableSlice (CrcLookupTable k)).
    unfold generateNextCrc32LookupTableSlice.
    set (f := λ p, Z.lxor (Z.shiftr p 8)
                     (nth (Z.to_nat (Z.land p 255)) basicCrc32LookupTable 0)).
    rewrite (nth_indep _ 0 (f 0)) by (rewrite length_map, CrcLookupTable_length; lia).
    rewrite map_nth, IH. unfold f. change 255 with (Z.ones 8).
    rewrite Z.land_ones by lia. reflexivity.
Qed.

Lemma lookupTables_nth k b :
  (k < 16)%nat → 0 ≤ b < 256 →
  nth (Z.to_nat b) (nth k lookupTables []) 0 = Nat.iter (S k) Crc32_turn b.
Proof.
  intros Hk Hb. rewrite lookupTables_generated.
  rewrite (nth_indep _ [] (CrcLookupTable 0)) by (rewrite length_map, length_seq; lia).
  rewrite map_nth, seq_nth by lia. apply CrcLookupTable_nth, Hb.
Qed.

Lemma LightCrc32_fold_0_cons b input :
  0 ≤ b < 256 → Forall is_byte input →
  LightCrc32_fold 0 (b :: input)
  = Z.lxor (Nat.iter (S (length input)) Crc32_turn b) (LightCrc32_fold 0 input).
Proof.
  intros Hb Hinput. rewrite LightCrc32_fold_cons, Z.lxor_0_l by lia.
  rewrite <- (Z.lxor_0_l (Crc32_turn b)) at 1.
  rewrite LightCrc32_fold_lxor; [|lia|apply turn_below; lia|exact Hinput].
  rewrite <- Nat.iter_succ_r. reflexivity.
Qed.

#[local] Opaque lookupTables basicCrc32LookupTable.

Lemma table_turns_tail input from acc :
  Forall is_byte input → (from + length input = 16)%nat →
  foldl Crc32_table_turn acc (zip (seq from (length input)) input)
  = Z.lxor acc (LightCrc32_fold 0 input).
Proof.
  intros Hinput. revert from acc.
  induction Hinput as [|b input Hb Hinput IH]; intros from acc Hfrom.
  - simpl. symmetry. apply Z.lxor_0_r.
  - unfold is_byte in Hb. simpl in Hfrom. rewrite LightCrc32_fold_0_cons by assumption.
    change (foldl Crc32_table_turn acc (zip (seq from (length (b :: input))) (b :: input)))
      with (foldl Crc32_table_turn
              (Z.lxor acc (nth (Z.to_nat b) (nth (15 - from) lookupTables []) 0))
              (zip (seq (S from) (length input)) input)).
    rewrite IH by lia. rewrite lookupTables_nth by lia.
    replace (15 - from)%nat with (length input) by lia.
    rewrite Z.lxor_assoc. reflexivity.
Qed.

Lemma le_value_4_bytes b0 b1 b2 b3 :
  0 ≤ b0 < 256 → 0 ≤ b1 < 256 → 0 ≤ b2 < 256 → 0 ≤ b3 < 256 →
  let x := le_value [b0; b1; b2; b3] in
  0 ≤ x < 2 ^ 32 ∧ x mod 256 = b0 ∧ Z.shiftr x 8 mod 256 = b1 ∧
  Z.shiftr x 16 mod 256 = b2 ∧ Z.shiftr x 24 mod 256 = b3.
Proof.
  intros H0 H1 H2 H3. simpl. rewrite !Z.shiftr_div_pow2 by lia.
  change (2 ^ 8) with 256. change (2 ^ 16) with (256 * 256).
  change (2 ^ 24) with (256 * 256 * 256).
  rewrite <- !Z.div_div by lia.
  set (x3 := b3 + 256 * 0). set (x2 := b2 + 256 * x3). set (x1 := b1 + 256 * x2).
  assert (E0 : (b0 + 256 * x1) / 256 = x1) by (symmetry; apply (Z.div_unique _ _ _ b0); lia).
  assert (E1 : x1 / 256 = x2) by (symmetry; apply (Z.div_unique _ _ _ b1); lia).
  assert (E2 : x2 / 256 = x3) by (symmetry; apply (Z.div_unique _ _ _ b2); lia).
  rewrite E0, E1, E2. subst x3 x2 x1.
  split; [lia|]. repeat split; symmetry.
  - apply (Z.mod_unique _ _ (b1 + 256 * (b2 + 256 * (b3 + 256 * 0)))); lia.
  - apply (Z.mod_unique _ _ (b2 + 256 * (b3 + 256 * 0))); lia.
  - apply (Z.mod_unique _ _ (b3 + 256 * 0)); lia.
  - apply (Z.mod_unique _ _ 0); lia.
Qed.

Lemma FastCrc32_chunk state input :
  0 ≤ state < 2 ^ 32 → Forall is_byte input → length input = 16%nat →
  let number := Z.lxor state (le_value (take 4 input)) in
  foldl Crc32_table_turn 0
    (zip (seq 0 16)
       ([number mod 256; Z.shiftr number 8 mod 256; Z.shiftr number 16 mod 256;
         Z.shiftr number 24 mod 256] ++ drop 4 input))
  = LightCrc32_fold state input.
Proof.
  intros Hstate Hinput Hlength.
  destruct input as [|b0 [|b1 [|b2 [|b3 rest]]]]; try discriminate.
  pose proof Hinput as Hbytes.
  apply Forall_cons in Hbytes as [H0 Hbytes]. apply Forall_cons in Hbytes as [H1 Hbytes].
  apply Forall_cons in Hbytes as [H2 Hbytes]. apply Forall_cons in Hbytes as [H3 Hrest].
  unfold is_byte in H0, H1, H2, H3.
  assert (Hrest_length : length rest = 12%nat) by (simpl in Hlength; lia).
  change (take 4 (b0 :: b1 :: b2 :: b3 :: rest)) with [b0; b1; b2; b3].
  change (drop 4 (b0 :: b1 :: b2 :: b3 :: rest)) with rest.
  destruct (le_value_4_bytes b0 b1 b2 b3 H0 H1 H2 H3) as (Hle & E0 & E1 & E2 & E3).
  set (le4 := le_value [b0; b1; b2; b3]) in *. intros number.
  assert (Hnumber : 0 ≤ number < 2 ^ 32) by (apply (lxor_below 32); lia).
  set (n0 := number mod 256). set (n1 := Z.shiftr number 8 mod 256).
  set (n2 := Z.shiftr number 16 mod 256). set (n3 := Z.shiftr number 24 mod 256).
  change (foldl Crc32_table_turn 0 (zip (seq 0 16) ([n0; n1; n2; n3] ++ rest)))
    with (foldl Crc32_table_turn
            (Crc32_table_turn (Crc32_table_turn (Crc32_table_turn (Crc32_table_turn 0 (0%nat, n0)) (1%nat, n1))
                           (2%nat, n2)) (3%nat, n3))
            (zip (seq 4 12) rest)).
  rewrite <- Hrest_length at 1. rewrite table_turns_tail by (assumption || lia).
  unfold Crc32_table_turn.
  change (15 - 0)%nat with 15%nat. change (15 - 1)%nat with 14%nat.
  change (15 - 2)%nat with 13%nat. change (15 - 3)%nat with 12%nat.
  rewrite !lookupTables_nth by (try lia; apply Z.mod_pos_bound; lia).
  rewrite Z.lxor_0_l, !Z.lxor_assoc.
  rewrite <- (Z.lxor_0_l state) at 1.
  rewrite LightCrc32_fold_lxor by (assumption || lia).
  rewrite !LightCrc32_fold_0_cons
    by first [assumption | repeat (apply Forall_cons; split); assumption].
  simpl length. rewrite Hrest_length.
  pose proof (iter_turn_4_bytes number Hnumber) as Hsplit.
  fold n0 n1 n2 n3 in Hsplit.
  transitivity (Z.lxor (Nat.iter 16 Crc32_turn number) (LightCrc32_fold 0 rest)).
  { rewrite Hsplit, !Z.lxor_assoc. reflexivity. }
  unfold number. rewrite iter_turn_lxor by lia.
  rewrite (iter_turn_4_bytes le4 Hle), E0, E1, E2, E3, !Z.lxor_assoc. reflexivity.
Qed.

Lemma FastCrc32_fold_LightCrc32_fold state input :
  0 ≤ state < 2 ^ 32 → Forall is_byte input →
  FastCrc32_fold state input = LightCrc32_fold state input.
Proof.
  unfold FastCrc32_fold. generalize (length input) as chunks.
  intros chunks. revert state input.
  induction chunks as [|chunks IH]; intros state input Hstate Hinput; [reflexivity|].
  simpl. destruct (16 <? len input) eqn:Hlong; [|reflexivity].
  assert (Hlength : length (take 16 input) = 16%nat)
    by (rewrite length_take; unfold len in Hlong; lia).
  assert (Hchunk : Forall is_byte (take 16 input)) by (apply Forall_take, Hinput).
  pose proof (FastCrc32_chunk state (take 16 input) Hstate Hchunk Hlength) as Hturns.
  simpl in Hturns. rewrite take_take in Hturns. change (4 `min` 16)%nat with 4%nat in Hturns.
  fold Crc32_table_turn. rewrite Hturns.
  rewrite IH; [| apply LightCrc32_fold_below; assumption | apply Forall_drop, Hinput].
  rewrite <- (take_drop 16 input) at 3. unfold LightCrc32_fold. rewrite foldl_app.
  reflexivity.
Qed.

(** X1: [FastCrc32], which takes the input sixteen bytes at a time through
    sixteen tables, leaves the state that [LightCrc32] leaves taking it byte by
    byte, and the state stays a 32-bit value: the two report the same digest. *)
Theorem X1_FastCrc32_is_LightCrc32 (state : Z) (input : list Z) :
  0 ≤ state < 2 ^ 32 → Forall is_byte input →
  cs_fold FastCrc32 state input = cs_fold LightCrc32 state input ∧
  cs_digest FastCrc32 (cs_fold FastCrc32 state input)
  = cs_digest LightCrc32 (cs_fold LightCrc32 state input) ∧
  0 ≤ cs_fold FastCrc32 state input < 2 ^ 32.
Proof.
  intros Hstate Hinput.
  assert (E : cs_fold FastCrc32 state input = cs_fold LightCrc32 state input)
    by (apply FastCrc32_fold_LightCrc32_fold; assumption).
  split; [exact E|]. rewrite E. split; [reflexivity|].
  apply LightCrc32_fold_below; assumption.
Qed.

(** X2: the state of [FastCrc32] does not depend on how the bytes are cut into
    the ranges it is called with: folding the slices one after the other is
    folding their concatenation. *)
Theorem X2_FastCrc32_slices (state : Z) (slices : list (list Z)) :
  0 ≤ state < 2 ^ 32 → Forall (Forall is_byte) slices →
  foldl (cs_fold FastCrc32) state slices = cs_fold FastCrc32 state (concat slices).
Proof.
  intros Hstate Hslices. revert state Hstate.
  induction Hslices as [|slice slices Hslice Hslices IH]; intros state Hstate.
  - reflexivity.
  - assert (Hall : Forall is_byte (concat slices)) by (apply Forall_concat, Hslices).
    assert (Hnext : 0 ≤ LightCrc32_fold state slice < 2 ^ 32)
      by (apply LightCrc32_fold_below; assumption).
    simpl. rewrite (FastCrc32_fold_LightCrc32_fold state slice) by assumption.
    rewrite IH by exact Hnext. simpl.
    rewrite !FastCrc32_fold_LightCrc32_fold; [|assumption|apply Forall_app; auto|
                                               assumption|assumption].
    unfold LightCrc32_fold. rewrite foldl_app. reflexivity.
Qed.

End Checksums.

#[local] Transparent lookupTables basicCrc32LookupTable.

(** ** The input as a stream of bytes *)

Section InputStream.
Context {Src : Type} `{!PullSource Src} `{!StreamOf Src}.
Hypothesis Hstream : delivers_stream Src.
Implicit Types bi : ByteInput.t Src.

Lemma drop_seg {A} (l : list A) a b n :
  0 ≤ a → a ≤ b → b ≤ len l → 0 ≤ n ≤ b - a →
  drop (Z.to_nat n) (seg a b l) = seg (a + n) b l.
Proof.
  intros Ha Hab Hb Hn. rewrite !seg_drop_take by lia.
  rewrite drop_drop. f_equal. lia.
Qed.

(** What [getRange] returns lies in the buffer just before the cursor. *)
Lemma getRange_inv size bi chunk bi' :
  Stream.wf bi → 0 ≤ size → ByteInput.getRange size bi = OK (chunk, bi') →
  Stream.wf bi' ∧ Stream.unread bi = chunk ++ Stream.unread bi' ∧ len chunk ≤ size ∧
  len chunk ≤ ByteInput.position bi' ∧
  chunk = seg (ByteInput.position bi' - len chunk) (ByteInput.position bi')
              (ByteInput.buffer bi').
Proof.
  intros Hwf Hsize H. pose proof (getRange_unread Hstream _ _ _ _ Hwf Hsize H) as (W & U & L).
  split; [exact W|]. split; [exact U|]. split; [exact L|].
  unfold ByteInput.getRange in H. bind_ok H.
  assert (Hrefill : Stream.wf a).
  { destruct (ByteInput.position bi + size >=? ByteInput.filled bi).
    - bind_ok E. destruct a0 as [added bi1]. injection E as <-.
      apply refillSome_unread in E0 as (? & ? & _); auto.
    - injection E as <-. auto. }
  destruct Hrefill as (W0 & W1 & W2).
  match type of H with (if ?b then _ else _) = _ => destruct b eqn:Hbounds end;
    [|discriminate].
  injection H as <- <-. simpl.
  set (available := Z.min size (ByteInput.filled a - ByteInput.position a)) in *.
  assert (Havailable : 0 ≤ available) by (unfold available; lia).
  assert (ByteInput.position a + available ≤ ByteInput.filled a) by (unfold available; lia).
  rewrite len_seg by lia.
  split; [lia|]. f_equal. lia.
Qed.

(** X3: [getRange] hands out the next bytes of the stream, [size] of them
    at most, and [returnBytes] gives the last of them back: after
    [returnBytes(k)] the bytes to be read are the last [k] bytes of the range,
    then the stream as it went on; with [k] the size of the range, the stream
    is as it was before the call. *)
Theorem X3_returnBytes_gives_back size k bi chunk bi' :
  Stream.wf bi → 0 ≤ size → 0 ≤ k ≤ len chunk →
  ByteInput.getRange size bi = OK (chunk, bi') →
  Stream.unread bi = chunk ++ Stream.unread bi' ∧ len chunk ≤ size ∧
  Stream.wf (ByteInput.returnBytes k bi') ∧
  Stream.unread (ByteInput.returnBytes k bi')
  = drop (Z.to_nat (len chunk - k)) chunk ++ Stream.unread bi' ∧
  (k = len chunk → Stream.unread (ByteInput.returnBytes k bi') = Stream.unread bi).
Proof.
  intros Hwf Hsize Hk H.
  apply getRange_inv in H as ((W0 & W1 & W2) & U & L & Hposition & Hchunk); auto.
  split; [exact U|]. split; [exact L|].
  assert (Hgiven : Stream.unread (ByteInput.returnBytes k bi')
                   = drop (Z.to_nat (len chunk - k)) chunk ++ Stream.unread bi').
  { unfold Stream.unread, ByteInput.returnBytes. simpl. rewrite app_assoc. f_equal.
    rewrite Hchunk at 2. rewrite drop_seg by lia.
    replace (ByteInput.position bi' - len chunk + (len chunk - k))
      with (ByteInput.position bi' - k) by lia.
    apply seg_split; lia. }
  split; [unfold Stream.wf, ByteInput.returnBytes; simpl; lia|].
  split; [exact Hgiven|].
  intros ->. rewrite Hgiven, Z.sub_diag. simpl. symmetry. exact U.
Qed.


Lemma blit_ok {A} (l : list A) at_ bytes :
  0 ≤ at_ → at_ + len bytes ≤ len l → ∃ l', blit l at_ bytes = OK l'.
Proof.
  intros H0 H1. unfold blit.
  destruct ((0 <=? at_) && (at_ + len bytes <=? len l)) eqn:E; [eauto | lia].
Qed.

Lemma memmove_ok {A} (l : list A) dst src n :
  0 ≤ n → 0 ≤ src → src + n ≤ len l → 0 ≤ dst → dst + n ≤ len l →
  ∃ l', memmove l dst src n = OK l'.
Proof.
  intros Hn Hsrc Hsrcend Hdst Hdstend. unfold memmove.
  destruct ((0 <=? n) && (0 <=? src) && (src + n <=? len l)) eqn:E; [|lia].
  apply blit_ok; [lia|]. rewrite len_seg; lia.
Qed.

Hypothesis Hfills : fills_batches Src.

Lemma refillSome_cases bi :
  Stream.wf bi →
  match ByteInput.refillSome bi with
  | OK (added, bi') =>
      len (ByteInput.buffer bi') = len (ByteInput.buffer bi) ∧
      (0 < refill_room bi → src_pending (ByteInput.source bi) ≠ [] → 0 < added)
  | Throw e =>
      (∃ c, e = Callback_exception c) ∧
      (refill_room bi = 0 ∨ src_pending (ByteInput.source bi) = [])
  end.
Proof.
  intros (H0 & H1 & H2). unfold ByteInput.refillSome, refill_room.
  destruct (ByteInput.position bi >? len (ByteInput.buffer bi) / 2) eqn:Hhalf.
  - destruct (memmove_ok (ByteInput.buffer bi) 0 (ByteInput.position bi)
                (ByteInput.filled bi - ByteInput.position bi)) as [buffer' Hmove]; try lia.
    rewrite Hmove. simpl.
    apply memmove_inv in Hmove as (_ & _ & _ & _ & _ & Hlen & _).
    rewrite Hlen.
    pose proof (Hfills (ByteInput.source bi)
                  (len (ByteInput.buffer bi)
                   - (ByteInput.filled bi - ByteInput.position bi)) ltac:(lia)) as Hpull.
    destruct (readMore _ _) as [bytes next|c]; [|split; [eauto | tauto]].
    destruct Hpull as [Hbytes Hsome].
    destruct (blit_ok buffer' (ByteInput.filled bi - ByteInput.position bi) bytes)
      as [buffer'' Hblit]; try lia.
    rewrite Hblit. simpl. apply blit_inv in Hblit as (_ & _ & Hlen' & _).
    split; [lia|]. intros Hroom Hpending. specialize (Hsome Hroom Hpending).
    destruct bytes; [congruence|]. unfold len. simpl. lia.
  - simpl.
    pose proof (Hfills (ByteInput.source bi)
                  (len (ByteInput.buffer bi) - ByteInput.filled bi) ltac:(lia)) as Hpull.
    destruct (readMore _ _) as [bytes next|c]; [|split; [eauto | tauto]].
    destruct Hpull as [Hbytes Hsome].
    destruct (blit_ok (ByteInput.buffer bi) (ByteInput.filled bi) bytes)
      as [buffer'' Hblit]; try lia.
    rewrite Hblit. simpl. apply blit_inv in Hblit as (_ & _ & Hlen' & _).
    split; [lia|]. intros Hroom Hpending. specialize (Hsome Hroom Hpending).
    destruct bytes; [congruence|]. unfold len. simpl. lia.
Qed.

(** What is buffered and what the source still holds make up the stream. *)
Lemma len_unread bi :
  Stream.wf bi →
  len (Stream.unread bi)
  = ByteInput.filled bi - ByteInput.position bi + len (src_pending (ByteInput.source bi)).
Proof.
  intros (H0 & H1 & H2). unfold Stream.unread. rewrite len_app, len_seg by lia. reflexivity.
Qed.

Lemma room_positive bi bytes :
  Stream.wf bi → 0 ≤ bytes → 2 * bytes ≤ len (ByteInput.buffer bi) →
  ByteInput.position bi + bytes > ByteInput.filled bi → 0 < refill_room bi.
Proof.
  intros (H0 & H1 & H2) Hbytes Hhalf Hshort. unfold refill_room.
  assert (bytes ≤ len (ByteInput.buffer bi) / 2) by (apply Z.div_le_lower_bound; lia).
  assert (2 * (len (ByteInput.buffer bi) / 2) ≤ len (ByteInput.buffer bi))
    by (apply Z.mul_div_le; lia).
  destruct (ByteInput.position bi >? len (ByteInput.buffer bi) / 2) eqn:E; lia.
Qed.

(** The loop of [ensureSize] finds the bytes when the stream holds them. *)
Lemma ensureSize_loop_ok fuel bytes bi :
  Stream.wf bi → 0 ≤ bytes → 2 * bytes ≤ len (ByteInput.buffer bi) →
  bytes ≤ len (Stream.unread bi) →
  ByteInput.position bi + bytes - ByteInput.filled bi ≤ Z.of_nat fuel →
  ∃ bi', ByteInput.ensureSize_loop fuel bytes bi = OK bi'.
Proof.
  revert bi. induction fuel as [|fuel IH]; intros bi Hwf Hbytes Hhalf Henough Hfuel; simpl;
    destruct (ByteInput.position bi + bytes >? ByteInput.filled bi) eqn:E; eauto; [lia|].
  pose proof (refillSome_cases bi Hwf) as Hcases.
  pose proof (room_positive bi bytes Hwf Hbytes Hhalf ltac:(lia)) as Hroom.
  assert (Hpending : src_pending (ByteInput.source bi) ≠ []).
  { intros Hempty. rewrite len_unread, Hempty in Henough by exact Hwf.
    change (len []) with 0 in Henough. lia. }
  destruct (ByteInput.refillSome bi) as [[added bi1]|e] eqn:Hrefill.
  - destruct Hcases as [Hlen Hadded]. specialize (Hadded Hroom Hpending).
    apply refillSome_unread in Hrefill as (Hwf1 & Hunread1 & _ & Hsize); auto.
    simpl. destruct (added =? 0) eqn:E0; [lia|].
    apply IH; auto; try lia. rewrite Hunread1. exact Henough.
  - destruct Hcases as [_ [Hnone|Hnone]]; [lia | contradiction].
Qed.

(** Otherwise the loop throws, "Unexpected end of stream" or what the pull
    function throws. *)
Lemma ensureSize_loop_cases fuel bytes bi :
  Stream.wf bi →
  ByteInput.position bi + bytes - ByteInput.filled bi ≤ Z.of_nat fuel →
  match ByteInput.ensureSize_loop fuel bytes bi with
  | OK _ => True
  | Throw e => e = Unexpected_end_of_stream ∨ ∃ c, e = Callback_exception c
  end.
Proof.
  revert bi. induction fuel as [|fuel IH]; intros bi Hwf Hfuel; simpl;
    destruct (ByteInput.position bi + bytes >? ByteInput.filled bi) eqn:E; auto; [lia|].
  pose proof (refillSome_cases bi Hwf) as Hcases.
  destruct (ByteInput.refillSome bi) as [[added bi1]|e] eqn:Hrefill.
  - apply refillSome_unread in Hrefill as (Hwf1 & _ & Hadded & Hsize); auto.
    simpl. destruct (added =? 0) eqn:E0; [auto|]. apply IH; auto. lia.
  - simpl. right. apply Hcases.
Qed.

(** X4: [getInteger(bytes)] returns when the stream still holds [bytes]
    bytes (buffered or to be pulled), and only then: its value is the
    little-endian value of the next [bytes] bytes and the stream goes on after
    them.  On a shorter stream it throws "Unexpected end of stream", or what the
    pull function throws. *)
Theorem X4_getInteger_needs_the_bytes bytes bi :
  Stream.wf bi → 0 ≤ bytes → 2 * bytes ≤ len (ByteInput.buffer bi) →
  (bytes ≤ len (Stream.unread bi) →
   ∃ bi', ByteInput.getInteger bytes bi
          = OK (le_value (take (Z.to_nat bytes) (Stream.unread bi)), bi') ∧
          Stream.unread bi' = drop (Z.to_nat bytes) (Stream.unread bi) ∧ Stream.wf bi') ∧
  (len (Stream.unread bi) < bytes →
   ByteInput.getInteger bytes bi = Throw Unexpected_end_of_stream ∨
   ∃ c, ByteInput.getInteger bytes bi = Throw (Callback_exception c)).
Proof.
  intros Hwf Hbytes Hhalf.
  assert (Hcontent : ∀ v bi', ByteInput.getInteger bytes bi = OK (v, bi') →
            v = le_value (take (Z.to_nat bytes) (Stream.unread bi)) ∧
            Stream.unread bi' = drop (Z.to_nat bytes) (Stream.unread bi) ∧ Stream.wf bi' ∧
            bytes ≤ len (Stream.unread bi)).
  { intros v bi' H.
    apply (getInteger_unread Hstream) in H as (read & Hlen & -> & Hunread & Hwf'); auto.
    assert (Hlength : length read = Z.to_nat bytes) by (unfold len in Hlen; lia).
    rewrite Hunread, <- Hlength, take_app_length, drop_app_length.
    split; [reflexivity|]. split; [reflexivity|]. split; [exact Hwf'|].
    rewrite len_app. pose proof (len_nonneg (Stream.unread bi')). unfold len in *. lia. }
  split.
  - intros Henough.
    destruct (ensureSize_loop_ok
                (Z.to_nat (ByteInput.position bi + bytes - ByteInput.filled bi)) bytes bi)
      as [bi1 Hensure]; auto; try lia.
    pose proof (ensureSize_loop_unread Hstream _ _ _ _ Hwf Hensure) as ((W0 & W1 & W2) & _ & _).
    assert (Hget : ∃ v bi', ByteInput.getInteger bytes bi = OK (v, bi')).
    { unfold ByteInput.getInteger, ByteInput.ensureSize. rewrite Hensure. simpl.
      destruct ((0 <=? ByteInput.position bi1) && (0 <=? bytes)) eqn:E; [eauto | lia]. }
    destruct Hget as (v & bi' & Hget). exists bi'.
    destruct (Hcontent _ _ Hget) as (-> & ? & ? & _). auto.
  - intros Hshort.
    pose proof (ensureSize_loop_cases
                  (Z.to_nat (ByteInput.position bi + bytes - ByteInput.filled bi)) bytes bi
                  Hwf ltac:(lia)) as Hcases.
    destruct (ByteInput.getInteger bytes bi) as [[v bi']|e] eqn:Hget.
    { destruct (Hcontent _ _ eq_refl) as (_ & _ & _ & ?). lia. }
    unfold ByteInput.getInteger, ByteInput.ensureSize in Hget.
    destruct (ByteInput.ensureSize_loop _ bytes bi) as [bi1|e1] eqn:Hensure.
    + pose proof (ensureSize_loop_unread Hstream _ _ _ _ Hwf Hensure) as ((W0 & W1 & W2) & _ & _).
      simpl in Hget.
      destruct ((0 <=? ByteInput.position bi1) && (0 <=? bytes)) eqn:E; [discriminate | lia].
    + simpl in Hget. injection Hget as <-.
      destruct Hcases as [-> | [c ->]]; eauto.
Qed.

End InputStream.

(** ** The input as a stream of bits *)

Lemma le_value_app (l k : list Z) :
  le_value (l ++ k) = le_value l + 2 ^ (8 * len l) * le_value k.
Proof.
  induction l as [|b l IH]; [simpl; change (len []) with 0; simpl; lia|].
  change (le_value ((b :: l) ++ k)) with (b + 256 * le_value (l ++ k)).
  change (le_value (b :: l)) with (b + 256 * le_value l).
  replace (len (b :: l)) with (len l + 1) by (unfold len; simpl; lia).
  replace (8 * (len l + 1)) with (8 + 8 * len l) by lia.
  rewrite Z.pow_add_r by (pose proof (len_nonneg l); lia).
  rewrite IH. change (2 ^ 8) with 256. ring.
Qed.

Lemma le_value_below (l : list Z) :
  Forall is_byte l → 0 ≤ le_value l < 2 ^ (8 * len l).
Proof.
  induction 1 as [|b l Hb Hl IH]; [simpl; change (len []) with 0; simpl; lia|].
  change (le_value (b :: l)) with (b + 256 * le_value l).
  replace (len (b :: l)) with (len l + 1) by (unfold len; simpl; lia).
  replace (8 * (len l + 1)) with (8 + 8 * len l) by lia.
  rewrite Z.pow_add_r by (pose proof (len_nonneg l); lia).
  change (2 ^ 8) with 256. unfold is_byte in Hb. lia.
Qed.

Section BitStreamFacts.
Context {Src : Type} `{!PullSource Src} `{!StreamOf Src}.
Hypothesis Hstream : delivers_stream Src.

(** A refill moves bytes of the stream into the reader; the bits to be read
    stay what they are. *)
Lemma refillIfNeeded_unread r (bi : ByteInput.t Src) r0 bi0 :
  Stream.wf bi → BitStream.wf r → Forall is_byte (Stream.unread bi) →
  BitReader.refillIfNeeded r bi = OK (r0, bi0) →
  BitStream.unread r0 bi0 = BitStream.unread r bi ∧ BitStream.wf r0 ∧
  Stream.wf bi0 ∧ Forall is_byte (Stream.unread bi0).
Proof.
  intros Hwf [Hleft Hdata] Hbytes H. unfold BitReader.refillIfNeeded in H.
  destruct (BitReader.bitsLeft r <? BitReader.minimumBits) eqn:Hfew;
    [|injection H as <- <-; unfold BitStream.wf; auto].
  unfold BitReader.minimumBits in Hfew.
  destruct (negb (BitReader.attached r)); [discriminate|].
  bind_ok H. destruct a as [added bi1].
  destruct (BitReader.bitsLeft r <? 0) eqn:Hneg; [discriminate|].
  injection H as <- <-.
  apply (getRange_unread Hstream) in E as (Hwf1 & Hunread & Hlen); [|exact Hwf|vm_compute; discriminate].
  change (8 - BitReader.minimumBits / 8) with 6 in Hlen.
  rewrite Hunread in Hbytes. apply Forall_app in Hbytes as [Hadded Hrest].
  pose proof (le_value_below added Hadded) as Hvalue.
  pose proof (len_nonneg added) as Hlen0.
  set (bl := BitReader.bitsLeft r) in *. set (c := len added) in *.
  assert (HX : 0 < 2 ^ bl) by (apply Z.pow_pos_nonneg; lia).
  assert (HY : 0 < 2 ^ (8 * c)) by (apply Z.pow_pos_nonneg; lia).
  assert (Hsum : 2 ^ (bl + 8 * c) = 2 ^ bl * 2 ^ (8 * c)) by (apply Z.pow_add_r; lia).
  assert (Hroom : 2 ^ (bl + 8 * c) ≤ 2 ^ 63) by (apply Z.pow_le_mono_r; lia).
  assert (Hall : 0 ≤ BitReader.data r + le_value added * 2 ^ bl < 2 ^ (bl + 8 * c)) by nia.
  assert (Hshifted : Z.shiftl (le_value added) bl mod 2 ^ 64 = le_value added * 2 ^ bl).
  { rewrite Z.shiftl_mul_pow2 by lia. apply Z.mod_small. nia. }
  assert (Hsmall : (BitReader.data r + le_value added * 2 ^ bl) mod 2 ^ 64
                  = BitReader.data r + le_value added * 2 ^ bl)
    by (apply Z.mod_small; lia).
  unfold BitStream.unread, BitStream.wf. simpl. fold bl.
  rewrite Hshifted, Hsmall, Z.shiftl_mul_pow2 by lia. change (2 ^ 3) with 8.
  replace (c * 8) with (8 * c) by lia. fold c.
  split; [|split; [split; lia | auto]].
  rewrite Hunread, le_value_app, Hsum. fold c. ring.
Qed.

Lemma getBitsForwardOrder_unread amount r (bi : ByteInput.t Src) v r' bi' :
  Stream.wf bi → BitStream.wf r → Forall is_byte (Stream.unread bi) →
  BitReader.getBitsForwardOrder amount r bi = OK (v, r', bi') →
  0 ≤ BitReader.bitsLeft r' →
  v = BitStream.unread r bi mod 2 ^ amount ∧
  BitStream.unread r' bi' = BitStream.unread r bi / 2 ^ amount ∧
  BitStream.wf r' ∧ Stream.wf bi' ∧ Forall is_byte (Stream.unread bi').
Proof.
  intros Hwf Hr Hbytes H Hleft.
  apply getBitsForwardOrder_inv in H as (r0 & Hrefill & Hamount & -> & ->).
  apply refillIfNeeded_unread in Hrefill as (<- & [Hleft0 Hdata0] & Hwf' & Hbytes'); auto.
  simpl in Hleft. unfold BitStream.unread, BitStream.wf. simpl.
  set (bl := BitReader.bitsLeft r0) in *. set (d := BitReader.data r0) in *.
  set (rest := le_value (Stream.unread bi')).
  assert (HA : 0 < 2 ^ amount) by (apply Z.pow_pos_nonneg; lia).
  assert (HB : 0 < 2 ^ (bl - amount)) by (apply Z.pow_pos_nonneg; lia).
  assert (Hsplit : 2 ^ bl = 2 ^ (bl - amount) * 2 ^ amount).
  { rewrite <- Z.pow_add_r by lia. f_equal. lia. }
  split; [|split; [|split; [|auto]]].
  - rewrite Z.land_ones by lia.
    rewrite (Z.mod_mod_divide d (2 ^ 16) (2 ^ amount)).
    + rewrite Hsplit. replace (2 ^ (bl - amount) * 2 ^ amount * rest)
        with (2 ^ (bl - amount) * rest * 2 ^ amount) by ring.
      rewrite Z.mod_add by lia. reflexivity.
    + exists (2 ^ (16 - amount)). rewrite <- Z.pow_add_r by lia. f_equal. lia.
  - rewrite Z.shiftr_div_pow2 by lia. rewrite Hsplit.
    replace (2 ^ (bl - amount) * 2 ^ amount * rest)
      with (2 ^ (bl - amount) * rest * 2 ^ amount) by ring.
    rewrite Z.div_add by lia. reflexivity.
  - split; [lia|]. rewrite Z.shiftr_div_pow2 by lia.
    split; [apply Z.div_pos; lia|]. apply Z.div_lt_upper_bound; [lia|].
    rewrite Z.mul_comm, <- Hsplit. lia.
Qed.

(** X5: [getBitsForwardOrder(amount)] reads the stream of bits in its
    order: while the reader does not run out of bits, the value it returns
    is made of the next [amount] bits, the first one lowest, and the bits to be
    read afterwards are the ones that follow. *)
Theorem X5_getBitsForwardOrder_reads_the_next_bits amount r (bi : ByteInput.t Src) v r' bi' :
  Stream.wf bi → BitStream.wf r → Forall is_byte (Stream.unread bi) →
  BitReader.getBitsForwardOrder amount r bi = OK (v, r', bi') →
  0 ≤ BitReader.bitsLeft r' →
  0 ≤ v < 2 ^ amount ∧
  (∀ i, 0 ≤ i < amount → Z.testbit v i = Z.testbit (BitStream.unread r bi) i) ∧
  (∀ i, 0 ≤ i →
        Z.testbit (BitStream.unread r' bi') i = Z.testbit (BitStream.unread r bi) (i + amount)) ∧
  BitStream.wf r' ∧ Stream.wf bi' ∧ Forall is_byte (Stream.unread bi').
Proof.
  intros Hwf Hr Hbytes H Hleft.
  pose proof (getBitsForwardOrder_range _ _ _ _ _ _ H) as [Hamount Hv].
  destruct (getBitsForwardOrder_unread _ _ _ _ _ _ Hwf Hr Hbytes H Hleft)
    as (Hvalue & Hrest & Hr' & Hwf' & Hbytes').
  split; [exact Hv|]. split; [|split; [|auto]].
  - intros i Hi. rewrite Hvalue. apply Z.mod_pow2_bits_low. lia.
  - intros i Hi. rewrite Hrest. apply Z.div_pow2_bits; lia.
Qed.

End BitStreamFacts.

Section BitOrder.
Context {Src : Type} `{!PullSource Src}.

Lemma index_ok {A} (l : list A) i : 0 ≤ i < len l → ∃ x, index l i = OK x.
Proof.
  intros Hi. unfold index. destruct (i <? 0) eqn:E; [lia|].
  destruct (l !! Z.to_nat i) as [x|] eqn:Hx; [eauto|].
  apply lookup_ge_None in Hx. unfold len in Hi. lia.
Qed.

(** X6: [getBits] and [getBitsForwardOrder] take the same bits and leave
    the reader and the input in the same state; [getBits] returns the bits in
    the opposite order, the first bit read highest. *)
Theorem X6_getBits_mirrors_getBitsForwardOrder amount r (bi : ByteInput.t Src) g r' bi' :
  BitReader.getBits amount r bi = OK (g, r', bi') →
  ∃ v, BitReader.getBitsForwardOrder amount r bi = OK (v, r', bi') ∧
       BitReader.getBitCount g = amount ∧
       0 ≤ BitReader.value g < 2 ^ amount ∧
       ∀ i, 0 ≤ i < amount →
            Z.testbit (BitReader.value g) i = Z.testbit v (amount - 1 - i).
Proof.
  intros H. pose proof (getBits_range _ _ _ _ _ _ H) as (_ & Hcount & Hrange).
  apply getBits_inv in H as (r0 & reversed & Hrefill & Hamount & Hreversed & -> & ->).
  destruct (index_ok BitReader.upperRemovals amount) as [mask Hmask];
    [change (len BitReader.upperRemovals) with 17; lia|].
  pose proof (upperRemovals_ones _ _ Hmask) as [_ ->].
  eexists. split.
  { unfold BitReader.getBitsForwardOrder. rewrite Hrefill. simpl. rewrite Hmask. reflexivity. }
  split; [reflexivity|]. split; [exact Hrange|].
  intros i Hi. simpl.
  apply reversedBytes_bits in Hreversed as [_ Hbits]; [|apply Z.mod_pos_bound; lia].
  rewrite Z.shiftr_spec, Hbits by lia.
  rewrite Z.land_spec, Z.ones_spec_low, andb_true_r by lia.
  change 256 with (2 ^ 8). rewrite !Z.mod_pow2_bits_low by lia.
  f_equal. lia.
Qed.

End BitOrder.

(** ** The end of the input inside a compressed block *)

Section EndOfInput.
Context {Src : Type} `{!PullSource Src} {S : DecompressionSettings}.

Local Hint Extern 1 (¬ end_of_stream _) =>
  unfold end_of_stream; simpl; discriminate : never.
Local Hint Resolve never_index never_store never_getBits never_getMore
  never_getBitsForwardOrder never_parseLongerSize never_parseLongerDistance
  never_memmove never_peek never_readLengths : never.

Ltac no_end :=
  repeat first [ never_step | apply never_for_range; intros ? ? | solve [auto with never] ].

Lemma searchRemainders_no_end count i peeked remainders :
  never end_of_stream (EncodedTable.searchRemainders count i peeked remainders).
Proof. revert i. induction count as [|count IH]; intros i; simpl; never_tac. Qed.

Lemma repeatSequence_loop_no_end fuel length distance written (bo : ByteOutput.t S) :
  never end_of_stream (ByteOutput.repeatSequence_loop fuel length distance written bo).
Proof.
  revert written bo. induction fuel as [|fuel IH]; intros written bo; simpl; never_tac.
Qed.

Lemma readWord_no_end table r (bi : ByteInput.t Src) :
  never end_of_stream (EncodedTable.readWord table r bi).
Proof.
  unfold EncodedTable.readWord. apply never_bind.
  - apply never_peek; auto with never. intros peeked. never_tac.
  - intros [[word r1] bi1] _. destruct (word >=? EncodedTable.MaxSize table); [|never_tac].
    apply never_peek; auto with never. intros peeked. apply searchRemainders_no_end.
Qed.

Lemma restart_no_end c (output : ByteOutput.t S) :
  never end_of_stream (CopyState.restart c output).
Proof.
  unfold CopyState.restart, ByteOutput.repeatSequence, ByteOutput.checkSize.
  pose proof repeatSequence_loop_no_end. never_tac.
Qed.

Lemma addByte_no_end byte (bo : ByteOutput.t S) :
  never end_of_stream (ByteOutput.addByte byte bo).
Proof. unfold ByteOutput.addByte, ByteOutput.checkSize. never_tac. Qed.

Local Hint Resolve readWord_no_end restart_no_end addByte_no_end : never.

Lemma Fixed_turn_no_end st :
  never end_of_stream (DeflateReader.Fixed_turn (Src := Src) (S := S) st).
Proof.
  destruct st as [[[c r] bi] output].
  unfold DeflateReader.Fixed_turn, DeflateReader.Fixed_size, DeflateReader.Fixed_distance,
    CopyState.copy.
  never_tac.
Qed.

Lemma Dynamic_turn_no_end codes distanceCode st :
  never end_of_stream
    (DeflateReader.Dynamic_turn (Src := Src) (S := S) codes distanceCode st).
Proof.
  destruct st as [[[c r] bi] output].
  unfold DeflateReader.Dynamic_turn, DeflateReader.Dynamic_length,
    DeflateReader.Dynamic_distance, CopyState.copy.
  never_tac.
Qed.

Lemma while_available_no_end {St} fuel (out : St → ByteOutput.t S) turn st :
  (∀ st, never end_of_stream (turn st)) →
  never end_of_stream (DeflateReader.while_available fuel out turn st).
Proof.
  intros Hturn. revert st. induction fuel as [|fuel IH]; intros st; simpl; never_tac.
Qed.

Lemma make_no_end MaxSize realSize lookup lengths r (bi : ByteInput.t Src) :
  never end_of_stream (EncodedTable.make MaxSize realSize lookup lengths r bi).
Proof.
  unfold EncodedTable.make, EncodedTable.generateCodes, EncodedTable.generateCode,
    EncodedTable.indexLonger.
  no_end.
Qed.


End EndOfInput.

(** ** What the output window holds *)

Section WindowContents.
Context {S : DecompressionSettings}.
Implicit Types bo : ByteOutput.t S.

Lemma lookup_seg {A} (l : list A) a b j :
  0 ≤ a → 0 ≤ j < b - a → seg a b l !! Z.to_nat j = l !! Z.to_nat (a + j).
Proof.
  intros Ha Hj. unfold seg. rewrite lookup_take_lt by lia. rewrite lookup_drop.
  f_equal. lia.
Qed.

Lemma lookup_prefix {A} (l l' : list A) n i :
  take (Z.to_nat n) l' = take (Z.to_nat n) l → 0 ≤ i < n →
  l' !! Z.to_nat i = l !! Z.to_nat i.
Proof.
  intros Hprefix Hi.
  rewrite <- (lookup_take_lt l' (Z.to_nat n)), <- (lookup_take_lt l (Z.to_nat n)) by lia.
  rewrite Hprefix. reflexivity.
Qed.

(** The loop of [repeatSequence] leaves every byte it writes equal to the byte
    [distance] places before it. *)
Lemma repeatSequence_loop_copies fuel length distance written bo bo' :
  Session.wf bo → written ≤ length →
  ByteOutput.repeatSequence_loop fuel length distance written bo = OK bo' →
  take (Z.to_nat (ByteOutput.used bo)) (ByteOutput.buffer bo')
  = take (Z.to_nat (ByteOutput.used bo)) (ByteOutput.buffer bo) ∧
  (written < length → 1 ≤ distance ≤ ByteOutput.used bo) ∧
  ∀ i, ByteOutput.used bo ≤ i < ByteOutput.used bo' →
       ByteOutput.buffer bo' !! Z.to_nat i = ByteOutput.buffer bo' !! Z.to_nat (i - distance).
Proof.
  revert written bo. induction fuel as [|fuel IH]; intros written bo Hwf Hwritten H;
    simpl in H; destruct (written <? length) eqn:Hmore; try discriminate;
    try (injection H as <-; split; [reflexivity|]; split; intros; lia).
  destruct (distance >? ByteOutput.used bo) eqn:Hfar; [discriminate|].
  bind_ok H. set (toWrite := Z.min distance (length - written)) in *.
  assert (HtoWrite : toWrite ≤ distance ∧ toWrite ≤ length - written ∧
                     (toWrite = distance ∨ toWrite = length - written))
    by (unfold toWrite; lia).
  clearbody toWrite.
  pose proof E as Hmove.
  apply memmove_inv in Hmove as (Hn & Hsrc & Hsrcend & Hdst & Hend & Hlen & Hprefix & Hseg).
  destruct Hwf as (W0 & W1 & W2).
  set (bo1 := ByteOutput.mk a (ByteOutput.used bo + toWrite) (ByteOutput.consumed bo)
                (ByteOutput.expectsMore bo) (ByteOutput.checksum bo)) in *.
  assert (Hwf1 : Session.wf bo1) by (unfold Session.wf; simpl; lia).
  assert (Hle : written + toWrite ≤ length) by lia.
  pose proof (repeatSequence_loop_used _ _ _ _ _ _ Hle H) as [Hused _].
  apply IH in H as (Hprefix1 & Hdistance1 & Hcopies1); [|exact Hwf1|lia].
  simpl in Hprefix1, Hdistance1, Hcopies1, Hused.
  assert (Hdistance : 1 ≤ distance ≤ ByteOutput.used bo).
  { destruct (Z.eq_dec toWrite 0) as [Hnone|Hsome]; [|lia].
    assert (written + toWrite < length) by lia. lia. }
  split; [|split; [intros _; exact Hdistance|]].
  - rewrite <- Hprefix. eapply take_prefix; [exact Hprefix1 | lia | lia].
  - intros i Hi. destruct (Z.lt_ge_cases i (ByteOutput.used bo + toWrite)) as [Hnew|Hlater].
    + rewrite (lookup_prefix _ _ _ _ Hprefix1) by lia.
      rewrite (lookup_prefix _ _ _ (i - distance) Hprefix1) by lia.
      rewrite (lookup_prefix _ _ _ (i - distance) Hprefix) by lia.
      replace i with (ByteOutput.used bo + (i - ByteOutput.used bo)) at 1 by lia.
      rewrite <- (lookup_seg a (ByteOutput.used bo) (ByteOutput.used bo + toWrite)) by lia.
      rewrite Hseg, lookup_seg by lia. f_equal. lia.
    + apply Hcopies1. lia.
Qed.

(** X8: when [repeatSequence(length, distance)] returns after writing
    ([length] positive), the distance was at least 1 and at most the number of
    bytes in the window, [length] bytes have been added after the ones that
    were there, and each of them is the byte [distance] places before it: the
    copy of LZ77, overlapping or not. *)
Theorem X8_repeatSequence_copies length distance bo bo' :
  Session.wf bo → 0 < length →
  ByteOutput.repeatSequence length distance bo = OK bo' →
  1 ≤ distance ≤ ByteOutput.used bo ∧
  ByteOutput.used bo' = ByteOutput.used bo + length ∧
  len (ByteOutput.buffer bo') = len (ByteOutput.buffer bo) ∧
  take (Z.to_nat (ByteOutput.used bo)) (ByteOutput.buffer bo')
  = take (Z.to_nat (ByteOutput.used bo)) (ByteOutput.buffer bo) ∧
  ∀ i, ByteOutput.used bo ≤ i < ByteOutput.used bo + length →
       ByteOutput.buffer bo' !! Z.to_nat i = ByteOutput.buffer bo' !! Z.to_nat (i - distance).
Proof.
  intros Hwf Hlength H. unfold ByteOutput.repeatSequence in H. bind_ok H.
  assert (Hle : 0 ≤ length) by lia.
  pose proof (repeatSequence_loop_used _ _ _ _ _ _ Hle H) as [Hused Hlen].
  apply repeatSequence_loop_copies in H as (Hprefix & Hdistance & Hcopies); [|exact Hwf|lia].
  split; [apply Hdistance; lia|]. split; [lia|]. split; [exact Hlen|].
  split; [exact Hprefix|]. intros i Hi. apply Hcopies. lia.
Qed.

(** The loop of [repeatSequence] goes through when the copy fits. *)
Lemma repeatSequence_loop_ok fuel length distance written bo :
  Session.wf bo → 1 ≤ distance ≤ ByteOutput.used bo →
  ByteOutput.used bo + (length - written) ≤ len (ByteOutput.buffer bo) →
  length - written ≤ Z.of_nat fuel →
  ∃ bo', ByteOutput.repeatSequence_loop fuel length distance written bo = OK bo'.
Proof.
  revert written bo. induction fuel as [|fuel IH]; intros written bo Hwf Hdistance Hfits Hfuel;
    simpl; destruct (written <? length) eqn:Hmore; eauto; [lia|].
  destruct (distance >? ByteOutput.used bo) eqn:Hfar; [lia|].
  destruct Hwf as (W0 & W1 & W2).
  set (toWrite := Z.min distance (length - written)).
  destruct (memmove_ok (ByteOutput.buffer bo) (ByteOutput.used bo)
              (ByteOutput.used bo - distance) toWrite) as [buffer' Hmove];
    try (unfold toWrite; lia).
  rewrite Hmove. simpl.
  apply memmove_inv in Hmove as (_ & _ & _ & _ & _ & Hlen & _).
  apply IH; simpl; unfold Session.wf; simpl; unfold toWrite; lia.
Qed.

(** X9: [repeatSequence(length, distance)] on a window in order: a length
    that is not positive changes nothing; a length over [available()] throws
    "Writing more bytes than available"; otherwise a distance over the bytes in
    the window throws "Looking back too many bytes", and a distance from 1 to
    the bytes in the window makes the copy. *)
Theorem X9_repeatSequence_outcomes length distance bo :
  Session.wf bo →
  (length ≤ 0 → ByteOutput.repeatSequence length distance bo = OK bo) ∧
  (ByteOutput.available bo < length →
   ByteOutput.repeatSequence length distance bo = Throw Writing_more_bytes_than_available) ∧
  (0 < length ≤ ByteOutput.available bo → ByteOutput.used bo < distance →
   ByteOutput.repeatSequence length distance bo = Throw Looking_back_too_many_bytes) ∧
  (0 < length ≤ ByteOutput.available bo → 1 ≤ distance ≤ ByteOutput.used bo →
   ∃ bo', ByteOutput.repeatSequence length distance bo = OK bo').
Proof.
  intros Hwf. pose proof Hwf as (W0 & W1 & W2).
  unfold ByteOutput.repeatSequence, ByteOutput.checkSize, ByteOutput.available.
  split; [|split; [|split]].
  - intros Hlength.
    destruct (ByteOutput.used bo + length >? len (ByteOutput.buffer bo)) eqn:E; [lia|].
    simpl. replace (Z.to_nat length) with 0%nat by lia. simpl.
    destruct (0 <? length) eqn:E1; [lia | reflexivity].
  - intros Hlength.
    destruct (ByteOutput.used bo + length >? len (ByteOutput.buffer bo)) eqn:E;
      [reflexivity | lia].
  - intros Hlength Hfar.
    destruct (ByteOutput.used bo + length >? len (ByteOutput.buffer bo)) eqn:E; [lia|].
    simpl. destruct (Z.to_nat length) as [|fuel] eqn:Hfuel; [lia|]. simpl.
    destruct (0 <? length) eqn:E1; [|lia].
    destruct (distance >? ByteOutput.used bo) eqn:E2; [reflexivity | lia].
  - intros Hlength Hdistance.
    destruct (ByteOutput.used bo + length >? len (ByteOutput.buffer bo)) eqn:E; [lia|].
    simpl. apply repeatSequence_loop_ok; auto; lia.
Qed.

(** X10: [consume] while more output is expected: it throws "consume()
    cannot keep more bytes than it provided before" exactly when the window
    holds fewer than [minOutputBufferSize] bytes, whatever [bytesToKeep] is.
    Otherwise it returns the bytes written since the last call and moves the
    window: the end of what it held, [consume_keeps] bytes before the slice
    and the slice, is at its start, and that is [minOutputBufferSize] bytes at
    least. *)
Theorem X10_consume_moves_the_window bytesToKeep bo :
  Session.wf bo → ByteOutput.expectsMore bo = true → 0 ≤ bytesToKeep →
  (ByteOutput.used bo < minOutputBufferSize S →
   ByteOutput.consume bytesToKeep bo = Throw Consume_cannot_keep_more_bytes) ∧
  (minOutputBufferSize S ≤ ByteOutput.used bo →
   ∃ bo', ByteOutput.consume bytesToKeep bo = OK (Session.pending bo, bo') ∧
          ByteOutput.used bo'
          = consume_keeps bytesToKeep bo + len (Session.pending bo) ∧
          bytesToKeep `min` ByteOutput.consumed bo ≤ consume_keeps bytesToKeep bo ∧
          minOutputBufferSize S ≤ ByteOutput.used bo' ≤ ByteOutput.used bo ∧
          ByteOutput.consumed bo' = ByteOutput.used bo' ∧
          len (ByteOutput.buffer bo') = len (ByteOutput.buffer bo) ∧
          seg 0 (ByteOutput.used bo') (ByteOutput.buffer bo')
          = seg (ByteOutput.used bo - ByteOutput.used bo') (ByteOutput.used bo)
                (ByteOutput.buffer bo)).
Proof.
  intros Hwf Hmore Hkeep. pose proof Hwf as (W0 & W1 & W2).
  assert (Hpending : len (Session.pending bo) = ByteOutput.used bo - ByteOutput.consumed bo)
    by (unfold Session.pending; apply len_seg; lia).
  unfold ByteOutput.consume, consume_keeps.
  replace (negb (ByteOutput.expectsMore bo)) with false by (rewrite Hmore; reflexivity).
  simpl.
  set (kept := Z.min bytesToKeep (ByteOutput.consumed bo)).
  set (minimum := minOutputBufferSize S - ByteOutput.used bo + ByteOutput.consumed bo).
  assert (Hboth : ∀ bytesKept removing,
    bytesKept = Z.max kept minimum → removing = ByteOutput.consumed bo - bytesKept →
    (ByteOutput.used bo < minOutputBufferSize S →
     (if removing <? 0 then Throw Consume_cannot_keep_more_bytes else
      do buffer' <- memmove (ByteOutput.buffer bo) 0 removing (ByteOutput.used bo - removing) in
      let used' := ByteOutput.used bo - removing in
      do returning <- ByteOutput.span bytesKept (used' - bytesKept)
          (ByteOutput.mk buffer' used' used' (ByteOutput.expectsMore bo)
             (ByteOutput.checksum bo)) in
      OK (returning,
          ByteOutput.mk buffer' used' used' (ByteOutput.expectsMore bo)
            (cs_fold (Checksum S) (ByteOutput.checksum bo) returning)))
     = Throw Consume_cannot_keep_more_bytes) ∧
    (minOutputBufferSize S ≤ ByteOutput.used bo →
     ∃ bo',
       (if removing <? 0 then Throw Consume_cannot_keep_more_bytes else
        do buffer' <- memmove (ByteOutput.buffer bo) 0 removing (ByteOutput.used bo - removing) in
        let used' := ByteOutput.used bo - removing in
        do returning <- ByteOutput.span bytesKept (used' - bytesKept)
            (ByteOutput.mk buffer' used' used' (ByteOutput.expectsMore bo)
               (ByteOutput.checksum bo)) in
        OK (returning,
            ByteOutput.mk buffer' used' used' (ByteOutput.expectsMore bo)
              (cs_fold (Checksum S) (ByteOutput.checksum bo) returning)))
       = OK (Session.pending bo, bo') ∧
       ByteOutput.used bo' = Z.max kept minimum + len (Session.pending bo) ∧
       kept ≤ Z.max kept minimum ∧
       minOutputBufferSize S ≤ ByteOutput.used bo' ≤ ByteOutput.used bo ∧
       ByteOutput.consumed bo' = ByteOutput.used bo' ∧
       len (ByteOutput.buffer bo') = len (ByteOutput.buffer bo) ∧
       seg 0 (ByteOutput.used bo') (ByteOutput.buffer bo')
       = seg (ByteOutput.used bo - ByteOutput.used bo') (ByteOutput.used bo)
             (ByteOutput.buffer bo))).
  { intros bytesKept removing -> ->. split.
    - intros Hfew.
      destruct (ByteOutput.consumed bo - Z.max kept minimum <? 0) eqn:E;
        [reflexivity | unfold kept, minimum in *; lia].
    - intros Hfull.
      destruct (ByteOutput.consumed bo - Z.max kept minimum <? 0) eqn:E;
        [unfold kept, minimum in *; lia|].
      set (removing := ByteOutput.consumed bo - Z.max kept minimum) in *.
      assert (Hremoving : 0 ≤ removing ≤ ByteOutput.consumed bo)
        by (unfold removing, kept, minimum in *; lia).
      destruct (memmove_ok (ByteOutput.buffer bo) 0 removing (ByteOutput.used bo - removing))
        as [buffer' Hmove]; try lia.
      rewrite Hmove. simpl.
      apply memmove_inv in Hmove as (_ & _ & _ & _ & _ & Hlen & _ & Hseg).
      rewrite Z.add_0_l in Hseg.
      replace (removing + (ByteOutput.used bo - removing)) with (ByteOutput.used bo) in Hseg
        by lia.
      unfold ByteOutput.span. simpl.
      match goal with |- context [if ?b then _ else _] => destruct b eqn:Hbounds end;
        [|unfold removing, kept, minimum in *; lia].
      simpl. eexists. split; [|simpl; split; [|split; [|split; [|split; [|split]]]]].
      + f_equal. f_equal.
        replace (Z.max kept minimum + (ByteOutput.used bo - removing - Z.max kept minimum))
          with (ByteOutput.used bo - removing) by lia.
        unfold Session.pending.
        rewrite (seg_split 0 (Z.max kept minimum)) in Hseg
          by (unfold removing, kept, minimum in *; lia).
        rewrite (seg_split removing (ByteOutput.consumed bo) (ByteOutput.used bo)) in Hseg
          by lia.
        apply app_inj_1 in Hseg as [_ Hseg]; [exact Hseg|].
        assert (Hl1 : len (seg 0 (Z.max kept minimum) buffer') = Z.max kept minimum - 0)
          by (apply len_seg; unfold removing, kept, minimum in *; lia).
        assert (Hl2 : len (seg removing (ByteOutput.consumed bo) (ByteOutput.buffer bo))
                      = ByteOutput.consumed bo - removing) by (apply len_seg; lia).
        unfold len in Hl1, Hl2. unfold removing in *. lia.
      + simpl. unfold removing. lia.
      + lia.
      + simpl. unfold removing, kept, minimum in *. lia.
      + reflexivity.
      + exact Hlen.
      + simpl. rewrite Hseg. f_equal. lia. }
  destruct (kept <? minimum) eqn:E.
  - apply Hboth; lia.
  - apply Hboth; lia.
Qed.

End WindowContents.

(** ** The tables of a dynamic block *)

Lemma for_count_invariant {St} (P : Z → St → Prop) count from (body : Z → St → result St)
    st st' :
  (∀ i st st', from ≤ i < from + Z.of_nat count → P i st → body i st = OK st' →
               P (i + 1) st') →
  P from st → for_count count from body st = OK st' → P (from + Z.of_nat count) st'.
Proof.
  revert from st. induction count as [|count IH]; intros from st Hbody HP H; simpl in H.
  - injection H as <-. replace (from + Z.of_nat 0) with from by lia. exact HP.
  - bind_ok H. replace (from + Z.of_nat (S count)) with (from + 1 + Z.of_nat count) by lia.
    eapply IH; [| |exact H].
    + intros i st1 st2 Hi. apply Hbody. lia.
    + eapply Hbody; [|exact HP|exact E]. lia.
Qed.

Lemma shares_at_nonneg size lengths : 0 ≤ size ≤ 8 → 0 ≤ shares_at size lengths.
Proof.
  intros Hsize. induction lengths as [|l lengths IH]; simpl; [lia|].
  assert (0 < 2 ^ (8 - size)) by (apply Z.pow_pos_nonneg; lia).
  destruct (l =? size); lia.
Qed.

Lemma shares_at_app size l k : shares_at size (l ++ k) = shares_at size l + shares_at size k.
Proof. induction l as [|x l IH]; simpl; [reflexivity|]. rewrite IH. lia. Qed.

Lemma shares_below_succ size lengths :
  1 ≤ size → shares_below (size + 1) lengths = shares_below size lengths + shares_at size lengths.
Proof.
  intros Hsize. induction lengths as [|l lengths IH]; simpl; [reflexivity|].
  rewrite IH.
  destruct (1 <=? l) eqn:E1, (l <? size + 1) eqn:E2, (l <? size) eqn:E3, (l =? size) eqn:E4;
    simpl; try lia.
  apply Z.eqb_eq in E4. subst l. lia.
Qed.

Lemma shares_below_1 lengths : shares_below 1 lengths = 0.
Proof.
  induction lengths as [|l lengths IH]; simpl; [reflexivity|]. rewrite IH.
  destruct (1 <=? l) eqn:E1, (l <? 1) eqn:E2; simpl; lia.
Qed.

Section CodeCoding.

(** Entry [code] of the lookup is written for every [code] of the range. *)
Lemma fill_lookup_ok count from symbol (lookup : list Z) :
  0 ≤ from → from + Z.of_nat count ≤ len lookup →
  ∃ lookup', for_count count from (λ code lookup, store lookup code symbol) lookup = OK lookup' ∧
             len lookup' = len lookup ∧
             ∀ P : Z → Prop, P symbol → Forall P lookup → Forall P lookup'.
Proof.
  revert from lookup. induction count as [|count IH]; intros from lookup Hfrom Hend; simpl.
  - eauto.
  - unfold store at 1. destruct ((0 <=? from) && (from <? len lookup)) eqn:E; [|lia]. simpl.
    destruct (IH (from + 1) (<[Z.to_nat from:=symbol]> lookup)) as (lookup' & -> & Hlen & Hall);
      [lia|unfold len in *; rewrite length_insert; lia|].
    exists lookup'. split; [reflexivity|]. split.
    + rewrite Hlen. unfold len. rewrite length_insert. reflexivity.
    + intros P Hsymbol Hlookup. apply Hall; [exact Hsymbol|].
      apply Forall_insert; assumption.
Qed.

(** A range that ends past the lookup is written until its end is reached,
    and the next entry is outside of the array. *)
Lemma fill_lookup_overflow count from symbol (lookup : list Z) :
  0 ≤ from → (0 < count)%nat → len lookup < from + Z.of_nat count →
  for_count count from (λ code lookup, store lookup code symbol) lookup
  = Throw Undefined_behaviour.
Proof.
  revert from lookup. induction count as [|count IH]; intros from lookup Hfrom Hcount Hend;
    [lia|]. simpl. unfold store at 1.
  destruct ((0 <=? from) && (from <? len lookup)) eqn:E; [|reflexivity]. simpl.
  apply IH; [lia| |unfold len in *; rewrite length_insert; lia].
  destruct count; [|lia]. lia.
Qed.


Lemma generateCodeCoding_loops codeCodingLengths :
  DeflateReader.generateCodeCoding codeCodingLengths
  = do '(_, codeCodingLookup, _) <-
      for_range 1 9 (generateCodeCoding_size codeCodingLengths)
        (replicate (length codeCodingReorder) 0, replicate 256 0, 0) in
    OK codeCodingLookup.
Proof. reflexivity. Qed.

Lemma generateCodeCoding_symbol_turn lengths size i st :
  len lengths = 19 → 1 ≤ size ≤ 8 → 0 ≤ i < 19 →
  coding_state (shares_below size lengths + shares_at size (take (Z.to_nat i) lengths)) size st →
  let taken := shares_below size lengths + shares_at size (take (Z.to_nat (i + 1)) lengths) in
  (taken ≤ 256 →
   ∃ st', generateCodeCoding_symbol lengths size i st = OK st' ∧ coding_state taken size st') ∧
  (256 < taken → generateCodeCoding_symbol lengths size i st = Throw Undefined_behaviour).
Proof.
  intros Hlengths Hsize Hi (Hcoding & Hlookup & Hsymbols & Hroom & Hnext).
  specialize (Hnext ltac:(lia)).
  destruct st as [[codeCoding lookup] next]. cbn [fst snd] in *.
  destruct (index_ok lengths i) as [l Hl]; [rewrite Hlengths; exact Hi|].
  pose proof Hl as Hl'. apply index_inv in Hl' as [_ Hl'].
  replace (Z.to_nat (i + 1)) with (Datatypes.S (Z.to_nat i)) by lia.
  rewrite (take_S_r _ _ _ Hl'), shares_at_app. simpl shares_at.
  unfold generateCodeCoding_symbol. rewrite Hl. simpl.
  assert (Hshare : 0 < 2 ^ (8 - size)) by (apply Z.pow_pos_nonneg; lia).
  destruct (l =? size) eqn:E.
  - unfold store at 1 3.
    destruct ((0 <=? i) && (i <? len codeCoding)) eqn:Ei; [|lia]. simpl.
    unfold for_range. rewrite !Z.shiftl_mul_pow2 by lia.
    assert (Hfrom : 0 ≤ next * 2 ^ (8 - size)).
    { rewrite Hnext. pose proof (shares_at_nonneg size (take (Z.to_nat i) lengths) ltac:(lia)).
      assert (0 ≤ shares_below size lengths); [|lia].
      clear - Hsize. induction lengths as [|x lengths IH]; simpl; [lia|].
      destruct ((1 <=? x) && (x <? size)) eqn:E; [|lia].
      assert (0 < 2 ^ (8 - x)) by (apply Z.pow_pos_nonneg; lia). lia. }
    replace ((next + 1) * 2 ^ (8 - size) - next * 2 ^ (8 - size)) with (2 ^ (8 - size))
      by lia.
    split.
    + intros Htaken.
      destruct (fill_lookup_ok (Z.to_nat (2 ^ (8 - size))) (next * 2 ^ (8 - size)) i lookup)
        as (lookup' & -> & Hlen' & Hall); [lia|lia|].
      simpl. eexists. split; [reflexivity|]. unfold coding_state. simpl.
      split; [unfold len in *; rewrite length_insert; lia|].
      split; [lia|]. split; [apply Hall; [lia | exact Hsymbols]|]. lia.
    + intros Htaken. rewrite fill_lookup_overflow; [reflexivity|lia|lia|lia].
  - split; [|lia]. intros _. eexists. split; [reflexivity|].
    unfold coding_state. simpl.
    split; [exact Hcoding|]. split; [exact Hlookup|]. split; [exact Hsymbols|]. lia.
Qed.

Lemma shares_at_take_le size n m lengths :
  0 ≤ size ≤ 8 → (n ≤ m)%nat →
  shares_at size (take n lengths) ≤ shares_at size (take m lengths).
Proof.
  intros Hsize Hnm. rewrite <- (take_drop n (take m lengths)), shares_at_app.
  rewrite take_take. replace (n `min` m)%nat with n by lia.
  pose proof (shares_at_nonneg size (drop n (take m lengths)) Hsize). lia.
Qed.

Lemma generateCodeCoding_symbols lengths size count i st :
  len lengths = 19 → 1 ≤ size ≤ 8 → 0 ≤ i → i + Z.of_nat count ≤ 19 →
  coding_state (shares_below size lengths + shares_at size (take (Z.to_nat i) lengths)) size st →
  let taken := shares_below size lengths
               + shares_at size (take (Z.to_nat (i + Z.of_nat count)) lengths) in
  (taken ≤ 256 →
   ∃ st', for_count count i (generateCodeCoding_symbol lengths size) st = OK st' ∧
          coding_state taken size st') ∧
  (256 < taken →
   for_count count i (generateCodeCoding_symbol lengths size) st = Throw Undefined_behaviour).
Proof.
  intros Hlengths Hsize. revert i st.
  induction count as [|count IH]; intros i st Hi Hend Hst; simpl.
  - replace (i + Z.of_nat 0) with i by lia. split; [eauto|].
    destruct Hst as (_ & _ & _ & ? & _). lia.
  - destruct (generateCodeCoding_symbol_turn lengths size i st) as [Hok Hover]; auto; [lia|].
    replace (i + Z.of_nat (S count)) with (i + 1 + Z.of_nat count) by lia.
    pose proof (shares_at_take_le size (Z.to_nat (i + 1)) (Z.to_nat (i + 1 + Z.of_nat count))
                  lengths ltac:(lia) ltac:(lia)) as Hgrows.
    destruct (Z.le_gt_cases
                (shares_below size lengths
                 + shares_at size (take (Z.to_nat (i + 1)) lengths)) 256) as [Hfits|Hpast].
    + destruct (Hok Hfits) as (st1 & -> & Hst1). simpl. apply IH; auto; lia.
    + rewrite (Hover ltac:(lia)). simpl. split; [lia | reflexivity].
Qed.

Lemma generateCodeCoding_size_turn lengths size st :
  len lengths = 19 → 1 ≤ size ≤ 8 →
  coding_state (shares_below size lengths) size st →
  (shares_below (size + 1) lengths ≤ 256 →
   ∃ st', generateCodeCoding_size lengths size st = OK st' ∧
          coding_state (shares_below (size + 1) lengths) (size + 1) st') ∧
  (256 < shares_below (size + 1) lengths →
   generateCodeCoding_size lengths size st = Throw Undefined_behaviour).
Proof.
  intros Hlengths Hsize Hst. destruct st as [[codeCoding lookup] next].
  unfold generateCodeCoding_size, for_range.
  change (Z.to_nat (len codeCodingReorder - 0)) with 19%nat.
  destruct (generateCodeCoding_symbols lengths size 19 0 (codeCoding, lookup, next))
    as [Hok Hover]; auto; try lia.
  { simpl. rewrite Z.add_0_r. exact Hst. }
  change (Z.to_nat (0 + Z.of_nat 19)) with 19%nat in Hok, Hover.
  assert (Hall : take 19 lengths = lengths) by (apply take_ge; unfold len in *; lia).
  rewrite Hall, <- shares_below_succ in Hok, Hover by lia.
  split.
  - intros Hfits. destruct (Hok Hfits) as ([[codeCoding' lookup'] next'] & -> & Hst').
    simpl. eexists. split; [reflexivity|].
    destruct Hst' as (H0 & H1 & H2 & H3 & H4). specialize (H4 ltac:(lia)).
    unfold coding_state. simpl in *. rewrite Z.shiftl_mul_pow2 by lia.
    split; [exact H0|]. split; [exact H1|]. split; [exact H2|]. split; [exact H3|].
    intros Hnext. rewrite <- H4.
    replace (8 - size) with (1 + (8 - (size + 1))) by lia.
    rewrite Z.pow_add_r by lia. change (2 ^ 1) with 2. ring.
  - intros Hpast. rewrite (Hover Hpast). reflexivity.
Qed.

Lemma generateCodeCoding_sizes lengths count size st :
  len lengths = 19 → 1 ≤ size → size + Z.of_nat count = 9 →
  coding_state (shares_below size lengths) size st →
  (shares_below 9 lengths ≤ 256 →
   ∃ st', for_count count size (generateCodeCoding_size lengths) st = OK st' ∧
          len st'.1.2 = 256 ∧ Forall (λ symbol, 0 ≤ symbol < 19) st'.1.2) ∧
  (256 < shares_below 9 lengths →
   for_count count size (generateCodeCoding_size lengths) st = Throw Undefined_behaviour).
Proof.
  intros Hlengths. revert size st.
  induction count as [|count IH]; intros size st Hsize Hend Hst; simpl.
  - replace size with 9 in * by lia. destruct Hst as (_ & H1 & H2 & H3 & _).
    split; [eauto | lia].
  - destruct (generateCodeCoding_size_turn lengths size st) as [Hok Hover]; auto; [lia|].
    assert (Hgrows : shares_below (size + 1) lengths ≤ shares_below 9 lengths).
    { clear - Hsize Hend. induction lengths as [|l lengths IH]; simpl; [lia|].
      destruct ((1 <=? l) && (l <? size + 1)) eqn:E1, ((1 <=? l) && (l <? 9)) eqn:E2;
        lia. }
    destruct (Z.le_gt_cases (shares_below (size + 1) lengths) 256) as [Hfits|Hpast].
    + destruct (Hok Hfits) as (st1 & -> & Hst1). simpl. apply IH; auto; lia.
    + rewrite (Hover Hpast). simpl. split; [lia | reflexivity].
Qed.

(** X11: [generateCodeCoding] takes the lengths of the code-length code as
    they come: when the codes of 1 to 8 bits take no more than the 256 entries
    of [codeCodingLookup] (Kraft's sum at most 1) it returns the lookup, which
    holds symbols under 19; when they take more, it is not refused: the loop
    writes past the end of the array. *)
Theorem X11_generateCodeCoding_is_not_checked (codeCodingLengths : list Z) :
  len codeCodingLengths = 19 →
  (shares_below 9 codeCodingLengths ≤ 256 →
   ∃ codeCodingLookup,
     DeflateReader.generateCodeCoding codeCodingLengths = OK codeCodingLookup ∧
     len codeCodingLookup = 256 ∧
     Forall (λ symbol, 0 ≤ symbol < 19) codeCodingLookup) ∧
  (256 < shares_below 9 codeCodingLengths →
   DeflateReader.generateCodeCoding codeCodingLengths = Throw Undefined_behaviour).
Proof.
  intros Hlengths. rewrite generateCodeCoding_loops. unfold for_range.
  change (Z.to_nat (9 - 1)) with 8%nat.
  destruct (generateCodeCoding_sizes codeCodingLengths 8 1
              (replicate (length codeCodingReorder) 0, replicate 256 0, 0))
    as [Hok Hover]; auto; try lia.
  { rewrite shares_below_1. unfold coding_state. cbn [fst snd].
    split; [reflexivity|]. split; [reflexivity|].
    split; [apply Forall_replicate; lia|]. lia. }
  split.
  - intros Hfits. destruct (Hok Hfits) as ([[codeCoding lookup] next] & -> & Hlen & Hall).
    simpl. eauto.
  - intros Hpast. rewrite (Hover Hpast). reflexivity.
Qed.
End CodeCoding.

Section TableGeneration.
Context {Src : Type} `{!PullSource Src}.

Lemma for_count_reaches {St} (P : St → Prop) count from (body : Z → St → result St) st st' i :
  (∀ i st st', P st → body i st = OK st' → P st') →
  P st → for_count count from body st = OK st' → from ≤ i < from + Z.of_nat count →
  ∃ st1 st2, P st1 ∧ body i st1 = OK st2.
Proof.
  intros Hbody. revert from st. induction count as [|count IH]; intros from st HP H Hi;
    simpl in H; [lia|].
  bind_ok H. destruct (Z.eq_dec i from) as [->|Hne]; [eauto|].
  eapply (IH (from + 1)); [|exact H|lia]. eapply Hbody; eassumption.
Qed.

Lemma for_count_keeps {St} (P : St → Prop) count from (body : Z → St → result St) st st' :
  (∀ i st st', P st → body i st = OK st' → P st') →
  P st → for_count count from body st = OK st' → P st'.
Proof.
  intros Hbody. revert from st. induction count as [|count IH]; intros from st HP H;
    simpl in H; [injection H as <-; exact HP|].
  bind_ok H. eapply IH; [|exact H]. eapply Hbody; eassumption.
Qed.

Lemma generateCode_length size i st st' :
  EncodedTable.generateCode size i st = OK st' →
  len (EncodedTable.g_codes st') = len (EncodedTable.g_codes st).
Proof.
  unfold EncodedTable.generateCode. destruct st as [codes codesIndex unindexed nextCode].
  intros H. bind_ok H. destruct (CodeEntry.length a =? size); [|injection H as <-; reflexivity].
  destruct (nextCode >=? Z.shiftl 1 size); [discriminate|].
  bind_ok H. apply store_inv in E0 as (_ & Hlen & _).
  destruct (size <=? 8).
  - bind_ok H. injection H as <-. exact Hlen.
  - bind_ok H. bind_ok H. bind_ok H. injection H as <-. exact Hlen.
Qed.

(** The loop that generates the codes goes over the symbols [0 .. realSize],
    [realSize] included: on a table of [realSize] entries it returns only
    when no size has a code. *)
Lemma generateCodes_no_quantity realSize quantities st st' size quantity :
  0 ≤ realSize → len (EncodedTable.g_codes st) ≤ realSize →
  EncodedTable.generateCodes realSize quantities st = OK st' →
  1 ≤ size ≤ 16 → index quantities size = OK quantity → quantity ≤ 0.
Proof.
  intros Hsize Hcodes Hrun Hrange Hquantity.
  destruct (Z_le_gt_dec quantity 0) as [|Hpositive]; [assumption|exfalso].
  unfold EncodedTable.generateCodes, for_range in Hrun.
  set (P := λ g : EncodedTable.Generated, len (EncodedTable.g_codes g) ≤ realSize).
  assert (Hinner : ∀ size g g',
    P g → for_count (Z.to_nat (realSize + 1 - 0)) 0 (EncodedTable.generateCode size) g = OK g' →
    P g').
  { intros s g g' HP H. eapply (for_count_keeps P); [|exact HP|exact H].
    intros i g1 g2 HP1 H1. unfold P. rewrite (generateCode_length _ _ _ _ H1). exact HP1. }
  eapply (for_count_reaches P _ _ _ _ _ size) in Hrun as (g1 & g2 & HP1 & Hturn);
    [| |exact Hcodes|simpl; lia].
  - rewrite Hquantity in Hturn. simpl in Hturn.
    destruct (quantity >? 0) eqn:E; [|lia]. bind_ok Hturn. unfold for_range in E0.
    eapply (for_count_reaches P _ _ _ _ _ realSize) in E0 as (g3 & g4 & HP3 & Hlast);
      [| |exact HP1|lia].
    + unfold EncodedTable.generateCode in Hlast. destruct g3. bind_ok Hlast.
      apply index_inv in E0 as [Hin _]. unfold P in HP3. simpl in HP3. lia.
    + intros i g5 g6 HP5 H5. unfold P. rewrite (generateCode_length _ _ _ _ H5). exact HP5.
  - intros s g g' HP H. bind_ok H. bind_ok H. injection H as <-. simpl.
    destruct (a >? 0); [|injection E0 as <-; exact HP].
    unfold for_range in E0. apply (Hinner _ _ _ HP E0).
Qed.

(** X12: the loop that generates the codes goes over the symbols
    [0 .. realSize], [realSize] included.  With a table that has only
    [realSize] entries (the table of 31 distances when the header declares 31
    of them), a size with a code at least makes it read [codes[realSize]],
    past the end of the array: the generation does not return. *)
Theorem X12_generateCodes_reads_past_the_codes realSize quantities st size quantity :
  0 ≤ realSize → len (EncodedTable.g_codes st) ≤ realSize →
  1 ≤ size ≤ 16 → index quantities size = OK quantity → 0 < quantity →
  EncodedTable.generateCodes realSize quantities st = Throw Undefined_behaviour ∨
  EncodedTable.generateCodes realSize quantities st = Throw Run_out_of_Huffman_codes.
Proof.
  intros Hsize Hcodes Hrange Hquantity Hpositive.
  assert (Hthrows : never (λ e, e ≠ Undefined_behaviour ∧ e ≠ Run_out_of_Huffman_codes)
                      (EncodedTable.generateCodes realSize quantities st)).
  { assert (Hundefined : ¬ (Undefined_behaviour ≠ Undefined_behaviour ∧
                           Undefined_behaviour ≠ Run_out_of_Huffman_codes)) by tauto.
    assert (Hcodes_out : ¬ (Run_out_of_Huffman_codes ≠ Undefined_behaviour ∧
                            Run_out_of_Huffman_codes ≠ Run_out_of_Huffman_codes)) by tauto.
    unfold EncodedTable.generateCodes, EncodedTable.generateCode.
    repeat first [ never_step | apply never_for_range; intros ? ?
                 | apply (never_index _ Hundefined) | apply (never_store _ Hundefined) ]. }
  destruct (EncodedTable.generateCodes realSize quantities st) as [st'|e] eqn:Hrun.
  - pose proof (generateCodes_no_quantity _ _ _ _ _ _ Hsize Hcodes Hrun Hrange Hquantity). lia.
  - destruct e; try (exfalso; apply (Hthrows _ eq_refl); split; discriminate); auto.
Qed.

End TableGeneration.

Section CodeLengthsOfTheHeader.
Context {Src : Type} `{!PullSource Src} `{!StreamOf Src}.
Hypothesis Hstream : delivers_stream Src.

Lemma codeCodingReorder_NoDup : NoDup codeCodingReorder.
Proof. apply (bool_decide_unpack _). vm_compute. reflexivity. Qed.

Lemma codeCodingReorder_range n to : codeCodingReorder !! n = Some to → 0 ≤ to < 19.
Proof.
  intros Hto.
  assert (Hall : Forall (λ to, 0 ≤ to < 19) codeCodingReorder) by (repeat constructor; lia).
  exact (Forall_lookup_1 _ _ _ _ Hall Hto).
Qed.

Lemma refillIfNeeded_attached r (bi : ByteInput.t Src) r0 bi0 :
  BitReader.refillIfNeeded r bi = OK (r0, bi0) → 0 ≤ BitReader.bitsLeft r.
Proof.
  unfold BitReader.refillIfNeeded, BitReader.minimumBits.
  destruct (BitReader.bitsLeft r <? 16) eqn:E; [|lia].
  destruct (negb (BitReader.attached r)); [discriminate|].
  intros H. bind_ok H. destruct a as [added bi1].
  destruct (BitReader.bitsLeft r <? 0) eqn:E1; [discriminate | lia].
Qed.

(** X13: [readCodeCodingLengths] reads [codeLengthCount] groups of three
    bits and puts the [j]-th of them at the place [codeCodingReorder[j]] of the
    19 lengths; the lengths of the symbols that are not read are 0, and the
    bits to be read afterwards are the ones that follow the groups. *)
Theorem X13_readCodeCodingLengths_in_order codeLengthCount r (bi : ByteInput.t Src)
    lengths r' bi' :
  Stream.wf bi → BitStream.wf r → Forall is_byte (Stream.unread bi) → 0 ≤ codeLengthCount →
  DeflateReader.readCodeCodingLengths codeLengthCount r bi = OK (lengths, r', bi') →
  0 ≤ BitReader.bitsLeft r' →
  len lengths = 19 ∧
  (∀ j to, 0 ≤ j < 19 → codeCodingReorder !! Z.to_nat j = Some to →
           lengths !! Z.to_nat to
           = Some (if j <? codeLengthCount
                   then (BitStream.unread r bi / 2 ^ (3 * j)) mod 8 else 0)) ∧
  BitStream.unread r' bi' = BitStream.unread r bi / 2 ^ (3 * codeLengthCount).
Proof.
  intros Hwf Hr Hbytes Hcount H Hleft.
  unfold DeflateReader.readCodeCodingLengths, for_range in H.
  set (bits := BitStream.unread r bi).
  apply (for_count_invariant (lengths_read bits)) in H.
  - replace (0 + Z.of_nat (Z.to_nat (codeLengthCount - 0))) with codeLengthCount in H by lia.
    destruct H as (Hlen & Hread). destruct (Hread Hleft) as (_ & _ & _ & Hunread & Hplaces).
    auto.
  - clear H Hleft lengths r' bi'.
    intros i [[lengths1 r1] bi1] [[lengths2 r2] bi2] Hi (Hlen & Hread) Hturn.
    cbn [fst snd] in *.
    bind_ok Hturn. destruct a as [[v r3] bi3]. bind_ok Hturn. bind_ok Hturn.
    injection Hturn as <- <- <-.
    pose proof E1 as Hstore. apply store_inv in Hstore as (Hto & Hlen2 & _).
    pose proof E0 as Hat. apply index_inv in Hat as [_ Hat].
    unfold lengths_read. cbn [fst snd]. split; [lia|]. intros Hleft2.
    pose proof E as Hrefill.
    apply getBitsForwardOrder_inv in Hrefill as (r0 & Hrefill & _).
    apply refillIfNeeded_attached in Hrefill.
    destruct (Hread Hrefill) as (Hwf1 & Hr1 & Hbytes1 & Hunread1 & Hplaces1).
    apply (getBitsForwardOrder_unread Hstream) in E
      as (Hv & Hunread2 & Hr2 & Hwf2 & Hbytes2); auto.
    split; [exact Hwf2|]. split; [exact Hr2|]. split; [exact Hbytes2|].
    assert (Hpow : 2 ^ (3 * (i + 1)) = 2 ^ (3 * i) * 2 ^ 3).
    { rewrite <- Z.pow_add_r by lia. f_equal. lia. }
    split.
    + rewrite Hunread2, Hunread1, Hpow, Z.div_div by (try apply Z.pow_pos_nonneg; lia).
      reflexivity.
    + intros j to Hj Hreorder. unfold store in E1.
      destruct ((0 <=? a) && (a <? len lengths1)) eqn:Ea; [|discriminate].
      injection E1 as <-.
      destruct (Z.eq_dec j i) as [->|Hne].
      * rewrite Hat in Hreorder. injection Hreorder as <-.
        rewrite list_lookup_insert_eq by (unfold len in *; lia).
        destruct (i <? i + 1) eqn:E1; [|lia]. rewrite Hv, Hunread1. reflexivity.
      * rewrite list_lookup_insert_ne.
        -- rewrite (Hplaces1 j to Hj Hreorder).
           destruct (j <? i) eqn:E1, (j <? i + 1) eqn:E2; try lia; reflexivity.
        -- intros Hsame. apply Hne.
           pose proof (codeCodingReorder_range _ _ Hreorder).
           assert (a = to) by lia. subst to.
           pose proof (NoDup_lookup _ _ _ _ codeCodingReorder_NoDup Hat Hreorder). lia.
  - unfold lengths_read. cbn [fst snd]. split; [reflexivity|]. intros _.
    split; [exact Hwf|]. split; [exact Hr|]. split; [exact Hbytes|].
    split; [rewrite Z.mul_0_r, Z.div_1_r; reflexivity|].
    intros j to Hj Hreorder. destruct (j <? 0) eqn:E; [lia|].
    apply lookup_replicate. split; [reflexivity|].
    pose proof (codeCodingReorder_range _ _ Hreorder). simpl. lia.
Qed.

End CodeLengthsOfTheHeader.

Section FullTable.
Context {Src : Type} `{!PullSource Src}.

Lemma addQuantity_in_use quantities length amount quantities' :
  EncodedTable.addQuantity quantities length amount = OK quantities' → 0 < amount →
  Forall (λ quantity, 0 ≤ quantity) quantities →
  Forall (λ quantity, 0 ≤ quantity) quantities' ∧
  0 ≤ length < len quantities ∧ len quantities' = len quantities ∧
  (∀ entry, length_in_use quantities entry → length_in_use quantities' entry) ∧
  (∀ entry, CodeEntry.length entry = length → length_in_use quantities' entry).
Proof.
  unfold EncodedTable.addQuantity. intros H Hamount Hall. bind_ok H.
  apply index_inv in E as [Hlength Hat].
  pose proof (Forall_lookup_1 _ _ _ _ Hall Hat) as Hq. simpl in Hq.
  unfold store in H. destruct ((0 <=? length) && (length <? len quantities)); [|discriminate].
  injection H as <-.
  split; [apply Forall_insert; [assumption | lia]|].
  split; [assumption|]. split; [unfold len; rewrite length_insert; reflexivity|].
  assert (Hlt : (Z.to_nat length < Datatypes.length quantities)%nat) by (unfold len in Hlength; lia).
  split.
  - intros entry [Hzero | (quantity & Hindex & Hpositive)]; [left; assumption|right].
    apply index_inv in Hindex as [Hrange Hlookup].
    destruct (Z.eq_dec (CodeEntry.length entry) length) as [Heq|Hne].
    + exists (a + amount). rewrite Heq. unfold index. destruct (length <? 0) eqn:E; [lia|].
      rewrite list_lookup_insert_eq by exact Hlt. split; [reflexivity | lia].
    + exists quantity. unfold index. destruct (CodeEntry.length entry <? 0) eqn:E; [lia|].
      rewrite list_lookup_insert_ne by lia. rewrite Hlookup. auto.
  - intros entry Heq. right. exists (a + amount). rewrite Heq. unfold index.
    destruct (length <? 0) eqn:E; [lia|].
    rewrite list_lookup_insert_eq by exact Hlt. split; [reflexivity | lia].
Qed.

Lemma setLength_keeps (P : CodeEntry.t → Prop) codes i length codes' :
  EncodedTable.setLength codes i length = OK codes' →
  (∀ code, P (CodeEntry.mk code (length mod 256))) →
  Forall P codes → Forall P codes' ∧ len codes' = len codes.
Proof.
  unfold EncodedTable.setLength. intros H Hnew Hall. bind_ok H.
  unfold store in H. destruct ((0 <=? i) && (i <? len codes)); [|discriminate].
  injection H as <-. split; [apply Forall_insert; auto|].
  unfold len. rewrite length_insert. reflexivity.
Qed.

Lemma fillLengths_keeps (P : CodeEntry.t → Prop) codes from count length codes' :
  EncodedTable.fillLengths codes from count length = OK codes' →
  (∀ code, P (CodeEntry.mk code (length mod 256))) →
  Forall P codes → Forall P codes' ∧ len codes' = len codes.
Proof.
  unfold EncodedTable.fillLengths, for_range. intros H Hnew Hall.
  eapply (for_count_keeps (λ codes', Forall P codes' ∧ len codes' = len codes));
    [|split; [exact Hall | reflexivity]|exact H].
  intros j codes1 codes2 [Hall1 Hlen1] Hset. rewrite <- Hlen1.
  apply (setLength_keeps P _ _ _ _ Hset Hnew Hall1).
Qed.

Lemma readLength_counted size lookup lengths i (st : EncodedTable.Lengths (Src := Src)) i' st' :
  EncodedTable.readLength lookup lengths i st = OK (i', st') →
  lengths_counted size st → lengths_counted size st'.
Proof.
  unfold EncodedTable.readLength, lengths_counted. destruct st as [codes quantities r bi].
  simpl. intros H (Hsize & Hlen & Hnonneg & Hall).
  bind_ok H. destruct a as [[length r1] bi1].
  destruct (length <? 16) eqn:Hshort.
  { bind_ok H. bind_ok H. injection H as _ <-. simpl.
    apply addQuantity_in_use in E1 as (Hnonneg' & Hlength & Hlen' & Hmono & Hnew);
      [|lia|assumption].
    destruct (setLength_keeps (length_in_use a0) _ _ _ _ E0) as [Hall' Hsize'].
    - intros code. apply Hnew. simpl. apply Z.mod_small. lia.
    - eapply Forall_impl; [exact Hall|]. exact Hmono.
    - repeat split; try assumption; lia. }
  destruct (length =? 16).
  { destruct (i =? 0); [discriminate|].
    bind_ok H. destruct a as [[bits r2] bi2]. bind_ok H. bind_ok H. bind_ok H.
    injection H as _ <-. simpl.
    apply getBitsForwardOrder_range in E0 as [_ Hbits].
    apply addQuantity_in_use in E3 as (Hnonneg' & Hlength & Hlen' & Hmono & Hnew);
      [|lia|assumption].
    destruct (fillLengths_keeps (length_in_use a1) _ _ _ _ _ E2) as [Hall' Hsize'].
    - intros code. apply Hnew. simpl. apply Z.mod_small. lia.
    - eapply Forall_impl; [exact Hall|]. exact Hmono.
    - repeat split; try assumption; lia. }
  bind_ok H. destruct a as [[zeroCount r2] bi2]. bind_ok H. injection H as _ <-. simpl.
  destruct (fillLengths_keeps (length_in_use quantities) _ _ _ _ _ E1) as [Hall' Hsize'].
  - intros code. left. reflexivity.
  - exact Hall.
  - repeat split; try assumption; lia.
Qed.

Lemma readLengths_counted size fuel realSize lookup lengths i
    (st : EncodedTable.Lengths (Src := Src)) st' :
  EncodedTable.readLengths fuel realSize lookup lengths i st = OK st' →
  lengths_counted size st → lengths_counted size st'.
Proof.
  revert i st. induction fuel as [|fuel IH]; intros i st H Hst; simpl in H;
    destruct (i <? realSize); try discriminate; try (injection H as <-; exact Hst).
  bind_ok H. destruct a as [i1 st1]. eapply IH; [exact H|].
  eapply readLength_counted; eassumption.
Qed.


End FullTable.

Lemma reading_Parsed {A B} (m : result A) (k : A → parsed B) b :
  reading m k = Parsed b → ∃ a, m = OK a ∧ k a = Parsed b.
Proof. destruct m as [a|e]; simpl; [eauto | discriminate]. Qed.

Ltac reading_ok H :=
  let a := fresh "a" in
  let E := fresh "E" in
  apply reading_Parsed in H; destruct H as (a & E & H); simpl in H.

Lemma asBytes_1 b : is_byte b → IGzFileInfo.asBytes 1 b = [b].
Proof.
  intros Hb. unfold is_byte in Hb. unfold IGzFileInfo.asBytes. simpl.
  rewrite Z.shiftr_0_r, Z.mod_small by lia. reflexivity.
Qed.

Lemma asBytes_2 l :
  len l = 2 → Forall is_byte l → IGzFileInfo.asBytes 2 (le_value l) = l.
Proof.
  intros Hlen Hl. apply len_2_inv in Hlen as (x & y & ->).
  apply Forall_cons in Hl as [Hx Hl]. apply Forall_cons in Hl as [Hy _].
  unfold is_byte in *.
  assert (Hv : le_value [x; y] = x + y * 256) by (unfold le_value; simpl; lia).
  rewrite Hv. unfold IGzFileInfo.asBytes.
  change (map _ (seq 0 2)) with
    [Z.shiftr (x + y * 256) 0 mod 256; Z.shiftr (x + y * 256) 8 mod 256].
  rewrite Z.shiftr_0_r, Z.shiftr_div_pow2 by lia. change (2 ^ 8) with 256.
  rewrite Z.mod_add, Z.div_add, (Z.div_small x), !Z.mod_small by lia. reflexivity.
Qed.

Lemma shiftr_int32 x k :
  0 ≤ k ≤ 24 → Z.shiftr (x - 2 ^ 32) k mod 256 = Z.shiftr x k mod 256.
Proof.
  intros Hk. rewrite !Z.shiftr_div_pow2 by lia.
  assert (Hpow : 0 < 2 ^ k) by (apply Z.pow_pos_nonneg; lia).
  assert (H32 : 2 ^ 32 = 2 ^ (24 - k) * 256 * 2 ^ k).
  { change 256 with (2 ^ 8). rewrite <- !Z.pow_add_r by lia. f_equal. lia. }
  replace (x - 2 ^ 32) with (x + (- (2 ^ (24 - k) * 256)) * 2 ^ k) by lia.
  rewrite Z.div_add by lia.
  replace (x / 2 ^ k + - (2 ^ (24 - k) * 256)) with (x / 2 ^ k + (- 2 ^ (24 - k)) * 256) by lia.
  apply Z.mod_add. lia.
Qed.

Lemma asBytes_4 l :
  len l = 4 → Forall is_byte l →
  IGzFileInfo.asBytes 4 (IGzFileInfo.to_int32 (le_value l)) = l.
Proof.
  intros Hlen Hl. apply len_4_inv in Hlen as (b0 & b1 & b2 & b3 & ->).
  apply Forall_cons in Hl as [H0 Hl]. apply Forall_cons in Hl as [H1 Hl].
  apply Forall_cons in Hl as [H2 Hl]. apply Forall_cons in Hl as [H3 _].
  destruct (le_value_4_bytes b0 b1 b2 b3 H0 H1 H2 H3) as (Hx & E0 & E1 & E2 & E3).
  set (x := le_value [b0; b1; b2; b3]) in *.
  unfold IGzFileInfo.to_int32. rewrite (Z.mod_small x) by lia.
  unfold IGzFileInfo.asBytes.
  change (map _ (seq 0 4)) with
    [Z.shiftr (if x <? 2 ^ 31 then x else x - 2 ^ 32) 0 mod 256;
     Z.shiftr (if x <? 2 ^ 31 then x else x - 2 ^ 32) 8 mod 256;
     Z.shiftr (if x <? 2 ^ 31 then x else x - 2 ^ 32) 16 mod 256;
     Z.shiftr (if x <? 2 ^ 31 then x else x - 2 ^ 32) 24 mod 256].
  rewrite <- (Z.shiftr_0_r x) in E0.
  destruct (x <? 2 ^ 31); [|rewrite !shiftr_int32 by lia]; congruence.
Qed.

Section GzipHeader.
Context {Src : Type} `{!PullSource Src} `{!StreamOf Src} {S : DecompressionSettings}.
Hypothesis Hstream : delivers_stream Src.
Hypothesis Hfold : folds_in_pieces (Checksum S).

Lemma sums_more fed checksum more :
  sums S fed checksum → Forall is_byte more →
  sums S (fed ++ more) (cs_fold (Checksum S) checksum more).
Proof.
  intros (Hfed & Hne & ->) Hmore. split; [apply Forall_app; auto|].
  split; [destruct fed; [contradiction | discriminate]|].
  apply Hfold; assumption.
Qed.

(** One byte of the input. *)
Lemma getInteger_1 (bi : ByteInput.t Src) v bi' :
  Stream.wf bi → Forall is_byte (Stream.unread bi) →
  ByteInput.getInteger 1 bi = OK (v, bi') →
  Stream.unread bi = v :: Stream.unread bi' ∧ is_byte v ∧
  Stream.wf bi' ∧ Forall is_byte (Stream.unread bi').
Proof.
  intros Hwf Hbytes H.
  apply (getInteger_unread Hstream) in H as (read & Hlen & -> & Hunread & Hwf'); [|exact Hwf|lia].
  destruct read as [|b [|c read]]; try (unfold len in Hlen; simpl in Hlen; lia).
  rewrite Hunread in Hbytes. apply Forall_cons in Hbytes as [Hb Hrest].
  simpl. rewrite Z.add_0_r. rewrite Hunread. auto.
Qed.

(** Some bytes of the input. *)
Lemma getInteger_some bytes (bi : ByteInput.t Src) v bi' :
  Stream.wf bi → Forall is_byte (Stream.unread bi) → 0 ≤ bytes →
  ByteInput.getInteger bytes bi = OK (v, bi') →
  ∃ read, len read = bytes ∧ v = le_value read ∧ Forall is_byte read ∧
          Stream.unread bi = read ++ Stream.unread bi' ∧
          Stream.wf bi' ∧ Forall is_byte (Stream.unread bi').
Proof.
  intros Hwf Hbytes Hsize H.
  apply (getInteger_unread Hstream) in H as (read & Hlen & -> & Hunread & Hwf'); auto.
  rewrite Hunread in Hbytes. apply Forall_app in Hbytes as [Hread Hrest].
  exists read. auto 7.
Qed.

Lemma readExtraData_inv turns extraHeaderSize readSoFar extraData (input : ByteInput.t Src)
    checksum fed extraData' input' checksum' :
  Stream.wf input → Forall is_byte (Stream.unread input) → sums S fed checksum →
  readSoFar ≤ extraHeaderSize →
  IGzFileInfo.readExtraData turns extraHeaderSize readSoFar extraData input checksum
  = OK (extraData', input', checksum') →
  ∃ taken, extraData' = extraData ++ taken ∧ readSoFar + len taken = extraHeaderSize ∧
           Stream.unread input = taken ++ Stream.unread input' ∧
           Stream.wf input' ∧ Forall is_byte (Stream.unread input') ∧
           sums S (fed ++ taken) checksum'.
Proof.
  revert readSoFar extraData input checksum fed.
  induction turns as [|turns IH]; intros readSoFar extraData input checksum fed
    Hwf Hbytes Hsums Hsofar H; simpl in H;
    destruct (readSoFar <? extraHeaderSize) eqn:Hmore; try discriminate.
  1,3: injection H as <- <- <-; exists []; rewrite !app_nil_r;
       change (len (@nil Z)) with 0;
       split; [reflexivity|]; split; [lia|]; split; [reflexivity|]; auto.
  bind_ok H. destruct a as [taken input1].
  apply (getRange_unread Hstream) in E as (Hwf1 & Hunread & Hlen); [|exact Hwf|lia].
  rewrite Hunread in Hbytes. apply Forall_app in Hbytes as [Htaken Hrest].
  apply (IH _ _ _ _ (fed ++ taken)) in H as (more & -> & Hsize & Hunread1 & Hwf' & Hbytes' & Hsums');
    auto using sums_more; [|lia].
  exists (taken ++ more). rewrite len_app, Hunread, Hunread1, <- !app_assoc.
  rewrite <- app_assoc in Hsums'.
  split; [reflexivity|]. split; [lia|]. split; [reflexivity|]. auto.
Qed.

Lemma readLetters_inv turns letter name (input : ByteInput.t Src) checksum fed
    name' input' checksum' :
  Stream.wf input → Forall is_byte (Stream.unread input) → sums S fed checksum →
  IGzFileInfo.readLetters turns letter name input checksum = OK (name', input', checksum') →
  ∃ text more, Forall (λ letter, letter ≠ 0) text ∧ letter :: more = text ++ [0] ∧
               name' = name ++ text ∧
               Stream.unread input = more ++ Stream.unread input' ∧
               Stream.wf input' ∧ Forall is_byte (Stream.unread input') ∧
               sums S (fed ++ more) checksum'.
Proof.
  revert letter name input checksum fed.
  induction turns as [|turns IH]; intros letter name input checksum fed Hwf Hbytes Hsums H;
    simpl in H; destruct (letter =? 0) eqn:Hletter; try discriminate.
  1,2: injection H as <- <- <-; exists [], []; rewrite !app_nil_r;
       apply Z.eqb_eq in Hletter as ->;
       split; [constructor|]; split; [reflexivity|]; split; [reflexivity|];
       split; [reflexivity|]; auto.
  bind_ok H. destruct a as [next input1].
  apply getInteger_1 in E as (Hunread & Hnext & Hwf1 & Hbytes1); auto.
  apply (IH _ _ _ _ (fed ++ [next])) in H
    as (text & more & Htext & Hmore & -> & Hunread1 & Hwf' & Hbytes' & Hsums'); auto.
  2:{ unfold IGzFileInfo.check. rewrite asBytes_1 by exact Hnext.
      apply sums_more; [exact Hsums|]. constructor; [exact Hnext | constructor]. }
  exists (letter :: text), (next :: more). rewrite <- app_assoc in Hsums'.
  split; [constructor; [lia | exact Htext]|].
  split; [simpl; rewrite Hmore; reflexivity|].
  split; [rewrite <- app_assoc; reflexivity|].
  split; [rewrite Hunread, Hunread1; reflexivity|]. auto.
Qed.

(** The extra data of the header, when the flag says that it has some. *)
Lemma extraData_inv (present : bool) turns (input : ByteInput.t Src) checksum fed
    extraData input' checksum' :
  Stream.wf input → Forall is_byte (Stream.unread input) → sums S fed checksum →
  (if present then
     do '(extraHeaderSize, input) <- ByteInput.getInteger 2 input in
     let checksum := IGzFileInfo.check 2 extraHeaderSize checksum in
     do '(extraData, input, checksum) <-
       IGzFileInfo.readExtraData turns extraHeaderSize 0 [] input checksum in
     OK (Some extraData, input, checksum)
   else OK (None, input, checksum)) = OK (extraData, input', checksum') →
  ∃ size data, len size = 2 ∧ le_value size = len data ∧
               extraData = (if present then Some data else None) ∧
               Stream.unread input
               = GzHeader.optional present (size ++ data) ++ Stream.unread input' ∧
               Stream.wf input' ∧ Forall is_byte (Stream.unread input') ∧
               sums S (fed ++ GzHeader.optional present (size ++ data)) checksum'.
Proof.
  intros Hwf Hbytes Hsums H. destruct present; simpl.
  2:{ injection H as <- <- <-. exists [0; 0], []. rewrite app_nil_r. auto 8. }
  bind_ok H. destruct a as [extraHeaderSize input1].
  apply getInteger_some in E as (size & Hlen & -> & Hsize & Hunread & Hwf1 & Hbytes1);
    auto; [|lia].
  bind_ok H. destruct a as [[data input2] checksum2]. injection H as <- <- <-.
  apply (readExtraData_inv _ _ _ _ _ _ (fed ++ size)) in E
    as (taken & -> & Hdata & Hunread1 & Hwf' & Hbytes' & Hsums'); auto.
  - exists size, taken. rewrite <- app_assoc in Hsums'.
    split; [exact Hlen|]. split; [lia|]. split; [reflexivity|].
    split; [rewrite Hunread, Hunread1, <- app_assoc; reflexivity|]. auto.
  - unfold IGzFileInfo.check. rewrite asBytes_2 by auto. apply sums_more; auto.
  - apply le_value_below in Hsize. lia.
Qed.

(** A zero-terminated string of the header, when the flag says that it has
    one. *)
Lemma letters_inv (present : bool) turns name (input : ByteInput.t Src) checksum fed
    name' input' checksum' :
  Stream.wf input → Forall is_byte (Stream.unread input) → sums S fed checksum →
  (if present then
     do '(letter, input) <- ByteInput.getInteger 1 input in
     let checksum := IGzFileInfo.check 1 letter checksum in
     IGzFileInfo.readLetters turns letter name input checksum
   else OK (name, input, checksum)) = OK (name', input', checksum') →
  ∃ text, Forall (λ letter, letter ≠ 0) text ∧
          name' = name ++ GzHeader.optional present text ∧
          Stream.unread input
          = GzHeader.optional present (text ++ [0]) ++ Stream.unread input' ∧
          Stream.wf input' ∧ Forall is_byte (Stream.unread input') ∧
          sums S (fed ++ GzHeader.optional present (text ++ [0])) checksum'.
Proof.
  intros Hwf Hbytes Hsums H. destruct present; simpl.
  2:{ injection H as <- <- <-. exists []. rewrite !app_nil_r. auto 8. }
  bind_ok H. destruct a as [letter input1].
  apply getInteger_1 in E as (Hunread & Hletter & Hwf1 & Hbytes1); auto.
  apply (readLetters_inv _ _ _ _ _ (fed ++ [letter])) in H
    as (text & more & Htext & Hmore & -> & Hunread1 & Hwf' & Hbytes' & Hsums'); auto.
  2:{ unfold IGzFileInfo.check. rewrite asBytes_1 by exact Hletter.
      apply sums_more; [exact Hsums|]. constructor; [exact Hletter | constructor]. }
  exists text. rewrite <- app_assoc in Hsums'. simpl in Hsums'. rewrite Hmore in Hsums'.
  split; [exact Htext|]. split; [reflexivity|].
  split; [rewrite Hunread, Hunread1, <- Hmore; reflexivity|]. auto.
Qed.

(** X15: when the parser of the header returns, it has read exactly one
    header from the stream: the three bytes 1f 8b 08, the flags, four bytes of
    time, the extra flags and the operating system, then the fields the
    flags announce (extra data behind its size, name and comment with their
    final zero, the checksum of the header), and the input goes on after them.
    The comment is added to the name, and the checksum of the header is
    compared with the checksum of [GzHeader.checked], its own two bytes
    included. *)
Theorem X15_IGzFileInfo_reads_one_header turns (input : ByteInput.t Src) info input' :
  Stream.wf input → Forall is_byte (Stream.unread input) →
  IGzFileInfo.make S turns input = Parsed (info, input') →
  ∃ h, GzHeader.wf h ∧
       Stream.unread input = GzHeader.bytes h ++ Stream.unread input' ∧
       info = GzHeader.info h ∧ Stream.wf input' ∧
       (GzHeader.has h 0x02 = true →
        le_value (GzHeader.headerCrc h)
        = cs_digest (Checksum S)
            (cs_fold (Checksum S) (cs_init (Checksum S)) (GzHeader.checked h)) mod 2 ^ 16).
Proof.
  intros Hwf Hbytes H. unfold IGzFileInfo.make in H.
  reading_ok H. destruct a as [isGzip input3].
  destruct isGzip; [|discriminate]. simpl in H.
  bind_ok E. destruct a as [magic1 input1].
  apply getInteger_1 in E0 as (U1 & _ & Hwf1 & Hbytes1); auto.
  destruct (magic1 =? 0x1f) eqn:M1; [|discriminate]. apply Z.eqb_eq in M1 as ->.
  simpl in E. bind_ok E. destruct a as [magic2 input2].
  apply getInteger_1 in E0 as (U2 & _ & Hwf2 & Hbytes2); auto.
  destruct (magic2 =? 0x8b) eqn:M2; [|discriminate]. apply Z.eqb_eq in M2 as ->.
  simpl in E. bind_ok E. destruct a as [magic3 input3'].
  apply getInteger_1 in E0 as (U3 & _ & Hwf3 & Hbytes3); auto.
  injection E as M3 <-. apply Z.eqb_eq in M3 as ->.
  assert (Hmagic : sums S [0x1f; 0; 0; 0; 0x8b; 0; 0; 0; 0x08; 0; 0; 0]
            (IGzFileInfo.check 4 0x08
               (IGzFileInfo.check 4 0x8b (IGzFileInfo.check 4 0x1f (cs_init (Checksum S)))))).
  { assert (Hfour : ∀ b, is_byte b → Forall is_byte [b; 0; 0; 0])
      by (intros b Hb; repeat (apply Forall_cons_2; [first [exact Hb | unfold is_byte; lia]|]);
          apply Forall_nil_2).
    assert (H1f : sums S [0x1f; 0; 0; 0] (IGzFileInfo.check 4 0x1f (cs_init (Checksum S)))).
    { split; [apply Hfour; unfold is_byte; lia|]. split; [discriminate | reflexivity]. }
    apply (sums_more _ _ [0x8b; 0; 0; 0]) in H1f; [|apply Hfour; unfold is_byte; lia].
    apply (sums_more _ _ [0x08; 0; 0; 0]) in H1f; [|apply Hfour; unfold is_byte; lia].
    exact H1f. }
  revert Hmagic H.
  generalize (IGzFileInfo.check 4 0x08
               (IGzFileInfo.check 4 0x8b (IGzFileInfo.check 4 0x1f (cs_init (Checksum S))))).
  intros checksum0 Hsums0 H.
  reading_ok H. destruct a as [flags input4].
  apply getInteger_1 in E as (U4 & Hflags & Hwf4 & Hbytes4); auto.
  reading_ok H. destruct a as [time input5].
  apply getInteger_some in E as (mtime & Htime & -> & Hmtime & U5 & Hwf5 & Hbytes5); auto; [|lia].
  reading_ok H. destruct a as [extraFlags input6].
  apply getInteger_1 in E as (U6 & HextraFlags & Hwf6 & Hbytes6); auto.
  reading_ok H. destruct a as [creatingOperatingSystem input7].
  apply getInteger_1 in E as (U7 & Hos & Hwf7 & Hbytes7); auto.
  assert (Hsums7 : sums S ([0x1f; 0; 0; 0; 0x8b; 0; 0; 0; 0x08; 0; 0; 0]
                           ++ [flags] ++ mtime ++ [extraFlags; creatingOperatingSystem])
            (IGzFileInfo.check 1 creatingOperatingSystem
               (IGzFileInfo.check 1 extraFlags
                  (IGzFileInfo.check 4 (IGzFileInfo.to_int32 (le_value mtime))
                     (IGzFileInfo.check 1 flags checksum0))))).
  { unfold IGzFileInfo.check. rewrite !asBytes_1, asBytes_4 by assumption.
    apply (sums_more _ _ [flags]) in Hsums0; [|apply Forall_cons_2; [assumption | apply Forall_nil_2]].
    apply (sums_more _ _ mtime) in Hsums0; [|assumption].
    apply (sums_more _ _ [extraFlags]) in Hsums0; [|apply Forall_cons_2; [assumption | apply Forall_nil_2]].
    apply (sums_more _ _ [creatingOperatingSystem]) in Hsums0; [|apply Forall_cons_2; [assumption | apply Forall_nil_2]].
    rewrite <- !app_assoc in Hsums0. exact Hsums0. }
  revert Hsums7 H.
  generalize (IGzFileInfo.check 1 creatingOperatingSystem
               (IGzFileInfo.check 1 extraFlags
                  (IGzFileInfo.check 4 (IGzFileInfo.to_int32 (le_value mtime))
                     (IGzFileInfo.check 1 flags checksum0)))).
  intros checksum7 Hsums7 H.
  reading_ok H. destruct a as [[extraData input8] checksum8].
  eapply extraData_inv in E
    as (size & data & Hsize & Hdata & -> & U8 & Hwf8 & Hbytes8 & Hsums8); eauto.
  reading_ok H. destruct a as [[name input9] checksum9].
  eapply letters_inv in E as (text & Htext & -> & U9 & Hwf9 & Hbytes9 & Hsums9); eauto.
  reading_ok H. destruct a as [[name' input10] checksum10].
  eapply letters_inv in E as (remark & Hremark & -> & U10 & Hwf10 & Hbytes10 & Hsums10); eauto.
  assert (Hfastest : negb (extraFlags =? 4) && (extraFlags =? 8) = (extraFlags =? 8)).
  { destruct (extraFlags =? 4) eqn:E4; [|reflexivity].
    apply Z.eqb_eq in E4 as ->. reflexivity. }
  assert (Hread : ∀ crc rest,
    Stream.unread input10 = GzHeader.optional (negb (Z.land flags 2 =? 0)) crc ++ rest →
    Stream.unread input
    = GzHeader.bytes (GzHeader.mk flags mtime extraFlags creatingOperatingSystem size data
                        text remark crc) ++ rest).
  { intros crc rest Hrest.
    unfold GzHeader.bytes, GzHeader.has. cbn [GzHeader.flags GzHeader.modificationTime
      GzHeader.extraFlags GzHeader.creatingOperatingSystem GzHeader.extraSize
      GzHeader.extraData GzHeader.name GzHeader.comment GzHeader.headerCrc].
    rewrite U1, U2, U3, U4, U5, U6, U7, U8, U9, U10, Hrest. rewrite <- !app_assoc.
    reflexivity. }
  destruct (negb (Z.land flags 2 =? 0)) eqn:Hcrc.
  - reading_ok H. destruct a as [expectedHeaderCrc input11].
    apply getInteger_some in E as (crc & Hlen & -> & Hcrcbytes & U11 & Hwf11 & Hbytes11);
      auto; [|lia].
    match type of H with (if negb ?b then _ else _) = _ => destruct b eqn:Hsame end;
      [|discriminate].
    simpl in H. injection H as <- <-. apply Z.eqb_eq in Hsame.
    exists (GzHeader.mk flags mtime extraFlags creatingOperatingSystem size data text remark crc).
    split; [repeat split; assumption|].
    split; [apply Hread; exact U11|].
    split; [unfold GzHeader.info, GzHeader.has; simpl; rewrite Hfastest; reflexivity|].
    split; [exact Hwf11|]. intros _.
    rewrite Hsame at 1. f_equal. f_equal.
    unfold IGzFileInfo.check. rewrite asBytes_2 by assumption.
    apply (sums_more _ _ crc) in Hsums10 as (_ & _ & ->); [|exact Hcrcbytes].
    f_equal. unfold GzHeader.checked, GzHeader.bytes, GzHeader.has. simpl. rewrite Hcrc.
    rewrite <- !app_assoc. reflexivity.
  - injection H as <- <-.
    exists (GzHeader.mk flags mtime extraFlags creatingOperatingSystem size data text remark
              [0; 0]).
    split; [repeat split; assumption|].
    split; [apply Hread; reflexivity|].
    split; [unfold GzHeader.info, GzHeader.has; simpl; rewrite Hfastest; reflexivity|].
    split; [exact Hwf10|].
    unfold GzHeader.has. simpl. rewrite Hcrc. discriminate.
Qed.

End GzipHeader.

Section TruncatedHeader.
Context {Src : Type} `{!PullSource Src} `{!StreamOf Src} {S : DecompressionSettings}.
Hypothesis Hstream : delivers_stream Src.
Hypothesis Hfills : fills_batches Src.
Hypothesis Hquiet : never_throws Src.

Lemma ensureSize_loop_buffer fuel bytes (bi : ByteInput.t Src) bi' :
  Stream.wf bi → ByteInput.ensureSize_loop fuel bytes bi = OK bi' →
  len (ByteInput.buffer bi') = len (ByteInput.buffer bi).
Proof.
  revert bi. induction fuel as [|fuel IH]; intros bi Hwf H; simpl in H;
    destruct (ByteInput.position bi + bytes >? ByteInput.filled bi);
    try discriminate; try (injection H as <-; reflexivity).
  bind_ok H. destruct a as [added bi1].
  pose proof (refillSome_cases Hfills bi Hwf) as Hcases. rewrite E in Hcases.
  destruct Hcases as [Hlen _].
  apply (refillSome_unread Hstream) in E as (Hwf1 & _); [|exact Hwf].
  destruct (added =? 0); [discriminate|]. rewrite <- Hlen. apply IH; assumption.
Qed.

(** The next bytes of the stream, when it has them. *)
Lemma getInteger_next bytes (bi : ByteInput.t Src) read rest :
  Stream.wf bi → 2 * bytes ≤ len (ByteInput.buffer bi) →
  Stream.unread bi = read ++ rest → len read = bytes →
  ∃ bi', ByteInput.getInteger bytes bi = OK (le_value read, bi') ∧
         Stream.unread bi' = rest ∧ Stream.wf bi' ∧
         len (ByteInput.buffer bi') = len (ByteInput.buffer bi).
Proof.
  intros Hwf Hhalf Hunread Hlen.
  assert (Hbytes : 0 ≤ bytes) by (rewrite <- Hlen; apply len_nonneg).
  destruct (ensureSize_loop_ok Hstream Hfills
              (Z.to_nat (ByteInput.position bi + bytes - ByteInput.filled bi)) bytes bi)
    as [bi1 Hensure]; auto; try lia.
  { rewrite Hunread, len_app. pose proof (len_nonneg rest). lia. }
  pose proof (ensureSize_loop_unread Hstream _ _ _ _ Hwf Hensure) as ((W0 & W1 & W2) & _ & _).
  pose proof (ensureSize_loop_buffer _ _ _ _ Hwf Hensure) as Hbuffer.
  assert (Hget : ∃ v bi', ByteInput.getInteger bytes bi = OK (v, bi') ∧
                          ByteInput.buffer bi' = ByteInput.buffer bi1).
  { unfold ByteInput.getInteger, ByteInput.ensureSize. rewrite Hensure. simpl.
    destruct ((0 <=? ByteInput.position bi1) && (0 <=? bytes)) eqn:E; [eauto | lia]. }
  destruct Hget as (v & bi' & Hget & Hsame). exists bi'.
  pose proof (getInteger_unread Hstream _ _ _ _ Hwf Hbytes Hget)
    as (read' & Hlen' & -> & Hunread' & Hwf').
  rewrite Hunread in Hunread'. apply app_inj_1 in Hunread' as [<- <-].
  - rewrite Hsame. auto.
  - unfold len in *. lia.
Qed.

Lemma getRange_returns size (bi : ByteInput.t Src) :
  Stream.wf bi → 0 ≤ size → ∃ chunk bi', ByteInput.getRange size bi = OK (chunk, bi').
Proof.
  intros Hwf Hsize. unfold ByteInput.getRange.
  assert (Hrefill : ∃ bi1,
    (if ByteInput.position bi + size >=? ByteInput.filled bi
     then do '(_, bi) <- ByteInput.refillSome bi in OK bi else OK bi) = OK bi1 ∧ Stream.wf bi1).
  { destruct (ByteInput.position bi + size >=? ByteInput.filled bi); [|eauto].
    pose proof (refillSome_cases Hfills bi Hwf) as Hcases.
    destruct (ByteInput.refillSome bi) as [[added bi1]|e] eqn:Hrefill.
    - apply (refillSome_unread Hstream) in Hrefill as (Hwf1 & _); [|exact Hwf]. simpl. eauto.
    - exfalso. destruct Hwf as (H0 & H1 & H2).
      unfold ByteInput.refillSome in Hrefill.
      destruct (ByteInput.position bi >? len (ByteInput.buffer bi) / 2).
      + destruct (memmove_ok (ByteInput.buffer bi) 0 (ByteInput.position bi)
                    (ByteInput.filled bi - ByteInput.position bi)) as [buffer' Hmove]; try lia.
        rewrite Hmove in Hrefill. simpl in Hrefill.
        destruct (Hquiet (ByteInput.source bi)
                    (len buffer' - (ByteInput.filled bi - ByteInput.position bi)))
          as (bytes & next & Hpull).
        rewrite Hpull in Hrefill.
        pose proof (Hfills (ByteInput.source bi)
                      (len buffer' - (ByteInput.filled bi - ByteInput.position bi))) as Hbatch.
        apply memmove_inv in Hmove as (_ & _ & _ & _ & _ & Hlen & _).
        rewrite Hpull in Hbatch. destruct Hbatch as [Hbytes _]; [lia|].
        destruct (blit_ok buffer' (ByteInput.filled bi - ByteInput.position bi) bytes)
          as [buffer'' Hblit]; try lia.
        rewrite Hblit in Hrefill. discriminate.
      + simpl in Hrefill.
        destruct (Hquiet (ByteInput.source bi)
                    (len (ByteInput.buffer bi) - ByteInput.filled bi))
          as (bytes & next & Hpull).
        rewrite Hpull in Hrefill.
        pose proof (Hfills (ByteInput.source bi)
                      (len (ByteInput.buffer bi) - ByteInput.filled bi)) as Hbatch.
        rewrite Hpull in Hbatch. destruct Hbatch as [Hbytes _]; [lia|].
        destruct (blit_ok (ByteInput.buffer bi) (ByteInput.filled bi) bytes)
          as [buffer'' Hblit]; try lia.
        rewrite Hblit in Hrefill. discriminate. }
  destruct Hrefill as (bi1 & -> & (W0 & W1 & W2)). simpl.
  match goal with |- ∃ _ _, (if ?b then _ else _) = _ => destruct b eqn:Hbounds end;
    [eauto | lia].
Qed.

(** The loop over the extra data does not leave while the stream is shorter
    than the size it waits for. *)
Lemma readExtraData_spins turns extraHeaderSize readSoFar extraData (input : ByteInput.t Src)
    (checksum : cs_state (Checksum S)) :
  Stream.wf input → readSoFar + len (Stream.unread input) < extraHeaderSize →
  IGzFileInfo.readExtraData turns extraHeaderSize readSoFar extraData input checksum
  = Throw Does_not_terminate.
Proof.
  revert readSoFar extraData input checksum.
  induction turns as [|turns IH]; intros readSoFar extraData input checksum Hwf Hshort;
    pose proof (len_nonneg (Stream.unread input)); simpl;
    destruct (readSoFar <? extraHeaderSize) eqn:Hmore; try lia; [reflexivity|].
  destruct (getRange_returns (extraHeaderSize - readSoFar) input Hwf ltac:(lia))
    as (taken & input1 & Hrange).
  rewrite Hrange. simpl.
  apply (getRange_unread Hstream) in Hrange as (Hwf1 & Hunread & _); [|exact Hwf|lia].
  apply IH; [exact Hwf1|]. rewrite Hunread, len_app in Hshort. lia.
Qed.

(** X16: a header that announces more extra data than the stream holds
    makes the parser wait for it for ever, when the pull function reports the
    end of the stream by writing nothing: no number of turns of the loop over
    the extra data is enough. *)
Theorem X16_truncated_extra_data_never_returns turns (input : ByteInput.t Src)
    flags time extraFlags creatingOperatingSystem size data :
  Stream.wf input → 8 ≤ len (ByteInput.buffer input) →
  Stream.unread input
  = [0x1f; 0x8b; 0x08; flags] ++ time ++ [extraFlags; creatingOperatingSystem] ++ size ++ data →
  len time = 4 → len size = 2 → Z.land flags 0x04 ≠ 0 → len data < le_value size →
  IGzFileInfo.make S turns input = Rejected (From_input Does_not_terminate).
Proof.
  intros Hwf Hbuffer Hunread Htime Hsize Hflag Hshort. unfold IGzFileInfo.make.
  destruct (getInteger_next 1 input [0x1f] _ Hwf ltac:(lia) Hunread eq_refl)
    as (input1 & -> & U1 & Hwf1 & B1).
  simpl.
  destruct (getInteger_next 1 input1 [0x8b] _ Hwf1 ltac:(lia) U1 eq_refl)
    as (input2 & -> & U2 & Hwf2 & B2).
  simpl.
  destruct (getInteger_next 1 input2 [0x08] _ Hwf2 ltac:(lia) U2 eq_refl)
    as (input3 & -> & U3 & Hwf3 & B3).
  simpl.
  destruct (getInteger_next 1 input3 [flags] _ Hwf3 ltac:(lia) U3 eq_refl)
    as (input4 & -> & U4 & Hwf4 & B4).
  simpl.
  destruct (getInteger_next 4 input4 time _ Hwf4 ltac:(lia) U4 Htime)
    as (input5 & -> & U5 & Hwf5 & B5).
  simpl.
  destruct (getInteger_next 1 input5 [extraFlags] _ Hwf5 ltac:(lia) U5 eq_refl)
    as (input6 & -> & U6 & Hwf6 & B6).
  simpl.
  destruct (getInteger_next 1 input6 [creatingOperatingSystem] _ Hwf6 ltac:(lia) U6 eq_refl)
    as (input7 & -> & U7 & Hwf7 & B7).
  simpl.
  rewrite Z.add_0_r. destruct (Z.land flags 4 =? 0) eqn:E; [lia|]. simpl.
  destruct (getInteger_next 2 input7 size _ Hwf7 ltac:(lia) U7 Hsize)
    as (input8 & -> & U8 & Hwf8 & B8).
  simpl. rewrite readExtraData_spins; [reflexivity | exact Hwf8 | rewrite U8; lia].
Qed.

End TruncatedHeader.

Section StoredBlockAfterCompaction.
Context {Src : Type} `{!PullSource Src} `{!StreamOf Src}.
Hypothesis Hfills : fills_batches Src.

(** A refill past the middle of the buffer moves what is buffered to its
    start. *)
Lemma refillSome_compacts (bi : ByteInput.t Src) :
  Stream.wf bi → len (ByteInput.buffer bi) / 2 < ByteInput.position bi →
  src_pending (ByteInput.source bi) ≠ [] →
  ∃ added bi', ByteInput.refillSome bi = OK (added, bi') ∧ 0 < added ∧
               ByteInput.position bi' = 0 ∧
               ByteInput.filled bi' = ByteInput.filled bi - ByteInput.position bi + added ∧
               ByteInput.filled bi' ≤ len (ByteInput.buffer bi').
Proof.
  intros (H0 & H1 & H2) Hhalf Hpending. unfold ByteInput.refillSome.
  destruct (ByteInput.position bi >? len (ByteInput.buffer bi) / 2) eqn:E; [|lia].
  destruct (memmove_ok (ByteInput.buffer bi) 0 (ByteInput.position bi)
              (ByteInput.filled bi - ByteInput.position bi)) as [buffer' Hmove]; try lia.
  rewrite Hmove. simpl.
  apply memmove_inv in Hmove as (_ & _ & _ & _ & _ & Hlen & _).
  assert (Hdiv : 0 ≤ len (ByteInput.buffer bi) / 2)
    by (apply Z.div_pos; [apply len_nonneg | lia]).
  pose proof (Hfills (ByteInput.source bi)
                (len buffer' - (ByteInput.filled bi - ByteInput.position bi))
                ltac:(lia)) as Hpull.
  destruct (readMore _ _) as [bytes next|c].
  - destruct Hpull as [Hbytes Hsome].
    destruct (blit_ok buffer' (ByteInput.filled bi - ByteInput.position bi) bytes)
      as [buffer'' Hblit]; try lia.
    rewrite Hblit. simpl. apply blit_inv in Hblit as (_ & _ & Hlen' & _).
    eexists _, _. split; [reflexivity|]. simpl.
    assert (Hadded : 0 < len bytes).
    { specialize (Hsome ltac:(lia) Hpending). destruct bytes; [congruence|].
      unfold len. simpl. lia. }
    repeat split; lia.
  - destruct Hpull as [Hroom | Hnone]; [lia | contradiction].
Qed.

(** The range that is taken after it starts at position 0. *)
Lemma getRange_compacts size (bi : ByteInput.t Src) :
  Stream.wf bi → 0 < size → len (ByteInput.buffer bi) / 2 < ByteInput.position bi →
  ByteInput.filled bi ≤ ByteInput.position bi + size →
  src_pending (ByteInput.source bi) ≠ [] →
  ∃ chunk bi', ByteInput.getRange size bi = OK (chunk, bi') ∧
               0 < len chunk ≤ size ∧ ByteInput.position bi' = len chunk ∧
               len chunk ≤ ByteInput.filled bi'.
Proof.
  intros Hwf Hsize Hhalf Hnear Hpending. unfold ByteInput.getRange.
  destruct (ByteInput.position bi + size >=? ByteInput.filled bi) eqn:E; [|lia].
  destruct (refillSome_compacts bi Hwf Hhalf Hpending)
    as (added & bi1 & -> & Hadded & Hposition & Hfilled & Hbuffer).
  simpl. rewrite Hposition.
  destruct Hwf as (H0 & H1 & H2).
  set (available := Z.min size (ByteInput.filled bi1 - 0)).
  assert (Havailable : 0 < available ≤ size ∧ available ≤ ByteInput.filled bi1)
    by (unfold available; lia).
  clearbody available.
  destruct ((0 <=? 0) && (0 <=? available)
            && (0 + available <=? len (ByteInput.buffer bi1))) eqn:Hbounds; [|lia].
  eexists _, _. split; [reflexivity|]. simpl.
  rewrite len_seg by lia. lia.
Qed.

(** X17: a bit reader that holds 11 to 15 bits when it reads the header of
    a stored block, over a byte input that has to move its content to the
    start of the buffer for the refill (position past the middle, at most six
    bytes buffered).  The bytes that the bit reader gives back to the input
    when it is destroyed are one more than the range it has just taken: the
    position of the input becomes -1 and the length of the stored block is
    read from there, before the buffer. *)
Theorem X17_stored_block_after_compaction r (bi : ByteInput.t Src) :
  Stream.wf bi → BitReader.attached r = true → 11 ≤ BitReader.bitsLeft r < 16 →
  Z.testbit (BitReader.data r) 1 = false → Z.testbit (BitReader.data r) 2 = false →
  len (ByteInput.buffer bi) / 2 < ByteInput.position bi →
  ByteInput.filled bi ≤ ByteInput.position bi + 6 →
  src_pending (ByteInput.source bi) ≠ [] →
  DeflateReader.startBlock r bi = Throw Undefined_behaviour.
Proof.
  intros Hwf Hattached Hbits Hbit1 Hbit2 Hhalf Hnear Hpending.
  destruct (getRange_compacts 6 bi Hwf ltac:(lia) Hhalf Hnear Hpending)
    as (chunk & bi1 & Hrange & Hchunk & Hposition & Hfilled).
  set (k := len chunk) in *.
  set (data1 := (BitReader.data r
                 + Z.shiftl (le_value chunk) (BitReader.bitsLeft r) mod 2 ^ 64) mod 2 ^ 64).
  assert (Hrefill : BitReader.refillIfNeeded r bi
                    = OK (BitReader.mk true (BitReader.bitsLeft r + 8 * k) data1, bi1)).
  { unfold BitReader.refillIfNeeded, BitReader.minimumBits.
    destruct (BitReader.bitsLeft r <? 16) eqn:E; [|lia].
    rewrite Hattached. simpl. change (8 - 16 / 8) with 6. rewrite Hrange. simpl.
    destruct (BitReader.bitsLeft r <? 0) eqn:E0; [lia|].
    rewrite Z.shiftl_mul_pow2 by lia. change (2 ^ 3) with 8.
    fold k. replace (k * 8) with (8 * k) by lia. reflexivity. }
  assert (Hlow : ∀ i, 0 ≤ i < 11 → Z.testbit data1 i = Z.testbit (BitReader.data r) i).
  { intros i Hi. unfold data1.
    rewrite Z.mod_pow2_bits_low by lia.
    rewrite <- (Z.mod_pow2_bits_low _ 11) by lia.
    rewrite <- (Z.mod_pow2_bits_low (BitReader.data r) 11) by lia. f_equal.
    rewrite Z.shiftl_mul_pow2 by lia.
    assert (H64 : (2 : Z) ^ 64 = 2 ^ 53 * 2 ^ 11) by reflexivity.
    assert (Hb : 2 ^ BitReader.bitsLeft r = 2 ^ (BitReader.bitsLeft r - 11) * 2 ^ 11).
    { rewrite <- Z.pow_add_r by lia. f_equal. lia. }
    set (v := le_value chunk) in *.
    assert (Hmultiple : ((v * 2 ^ BitReader.bitsLeft r) mod 2 ^ 64) mod 2 ^ 11 = 0).
    { rewrite H64, Hb, Z.mul_assoc.
      rewrite Z.mod_mod_divide by (exists (2 ^ 53); reflexivity).
      apply Z.mod_mul. lia. }
    rewrite Z.add_mod, Hmultiple, Z.add_0_r, Z.mod_mod by lia. reflexivity. }
  unfold DeflateReader.startBlock, BitReader.getBits at 1. rewrite Hrefill. simpl.
  destruct (reversedBytes_total data1) as (reversed1 & -> & _). simpl.
  unfold BitReader.getBits, BitReader.refillIfNeeded, BitReader.minimumBits. simpl.
  destruct (BitReader.bitsLeft r + 8 * k - 1 <? 16) eqn:E; [lia|]. simpl.
  destruct (reversedBytes_total (Z.shiftr data1 1)) as (reversed2 & -> & Hlookup). simpl.
  apply reversedBytes_bits in Hlookup as [Hrange2 Hmirror]; [|apply Z.mod_pos_bound; lia].
  assert (Htype : Z.shiftr reversed2 6 = 0).
  { apply Z.bits_inj'. intros i Hi. rewrite Z.bits_0, Z.shiftr_spec by lia.
    destruct (Z_lt_le_dec i 2) as [Hsmall|Hbig].
    - rewrite Hmirror by lia. change 256 with (2 ^ 8).
      rewrite Z.mod_pow2_bits_low by lia.
      rewrite Z.shiftr_spec by lia.
      replace (7 - (i + 6) + 1) with (2 - i) by lia. rewrite Hlow by lia.
      assert (Hcases : i = 0 ∨ i = 1) by lia.
      destruct Hcases as [-> | ->]; assumption.
    - apply Z.bits_above_log2; [lia|].
      destruct (Z.eq_dec reversed2 0) as [->|Hne]; [simpl; lia|].
      apply Z.log2_lt_pow2; [lia|].
      apply Z.lt_le_trans with (2 ^ 8); [lia|]. apply Z.pow_le_mono_r; lia. }
  change (8 - 2) with 6. rewrite Htype. simpl.
  unfold DeflateReader.emplace_LiteralState, BitReader.destroy. simpl.
  unfold DeflateReader.LiteralState_make, ByteInput.getBytes, ByteInput.getInteger,
    ByteInput.ensureSize, ByteInput.returnBytes. simpl.
  assert (Hback : Z.shiftr (BitReader.bitsLeft r + 8 * k - 1 - 2) 3 = k + 1).
  { rewrite Z.shiftr_div_pow2 by lia. change (2 ^ 3) with 8.
    replace (BitReader.bitsLeft r + 8 * k - 1 - 2)
      with (BitReader.bitsLeft r - 3 + k * 8) by lia.
    rewrite Z.div_add by lia.
    assert (Hone : (BitReader.bitsLeft r - 3) / 8 = 1).
    { symmetry. apply (Z.div_unique _ 8 1 (BitReader.bitsLeft r - 11)); lia. }
    lia. }
  rewrite Hback, Hposition. fold k.
  replace (Z.to_nat (k - (k + 1) + 2 - ByteInput.filled bi1)) with 0%nat by lia.
  simpl.
  destruct (k - (k + 1) + 2 >? ByteInput.filled bi1) eqn:E2; [lia|]. simpl.
  destruct (0 <=? k - (k + 1)) eqn:E3; [lia|]. reflexivity.
Qed.

End StoredBlockAfterCompaction.

Section StoredBlockHeader.
Context {Src : Type} `{!PullSource Src} `{!StreamOf Src}.

(** X18: with the next seven bytes buffered, a new bit reader that finds
    the type of a stored block in the first byte of the stream takes six bytes,
    reads three bits and gives five bytes back: the length of the stored block
    is read from the byte after the header, and the block is the last one when
    the lowest bit of the header is set. *)
Theorem X18_stored_block_starts_at_the_next_byte (bi : ByteInput.t Src) header rest :
  Stream.wf bi → ByteInput.position bi + 6 < ByteInput.filled bi →
  Stream.unread bi = header :: rest → is_byte header →
  Z.testbit header 1 = false → Z.testbit header 2 = false →
  ∃ bi', Stream.wf bi' ∧ Stream.unread bi' = rest ∧
         DeflateReader.startBlock BitReader.make bi
         = do '(bytesLeft, input) <- DeflateReader.LiteralState_make bi' in
           OK (Z.testbit header 0, DeflateReader.LiteralState bytesLeft, input).
Proof.
  intros Hwf Hbuffered Hunread Hheader Hbit1 Hbit2.
  pose proof (getRange_buffered 6 bi Hwf ltac:(lia) Hbuffered) as Hrange.
  destruct Hwf as (H0 & H1 & H2).
  set (p := ByteInput.position bi) in *.
  set (chunk := seg p (p + 6) (ByteInput.buffer bi)) in *.
  assert (Hfirst : seg p (p + 1) (ByteInput.buffer bi) = [header] ∧
                   seg (p + 1) (ByteInput.filled bi) (ByteInput.buffer bi)
                   ++ src_pending (ByteInput.source bi) = rest).
  { unfold Stream.unread in Hunread. fold p in Hunread.
    rewrite (seg_split p (p + 1) (ByteInput.filled bi)) in Hunread by lia.
    pose proof (len_seg p (p + 1) (ByteInput.buffer bi) ltac:(lia) ltac:(lia) ltac:(lia)) as Hone.
    destruct (seg p (p + 1) (ByteInput.buffer bi)) as [|b [|c l]];
      try (unfold len in Hone; simpl in Hone; lia).
    simpl in Hunread. injection Hunread as -> <-. auto. }
  destruct Hfirst as [Hfirst Hrest].
  assert (Hlow : le_value chunk mod 256 = header).
  { unfold chunk. rewrite (seg_split p (p + 1) (p + 6)) by lia. rewrite Hfirst.
    change (le_value ([header] ++ ?l)) with (header + 256 * le_value l).
    rewrite Z.mul_comm, Z.mod_add by lia. unfold is_byte in Hheader.
    apply Z.mod_small. lia. }
  set (data1 := (0 + Z.shiftl (le_value chunk) 0 mod 2 ^ 64) mod 2 ^ 64).
  assert (Hdata : data1 mod 256 = header).
  { unfold data1. rewrite Z.add_0_l, Z.shiftl_0_r, Z.mod_mod by lia.
    rewrite Z.mod_mod_divide by (exists (2 ^ 56); reflexivity). exact Hlow. }
  assert (Hbits : ∀ i, 0 ≤ i < 8 → Z.testbit data1 i = Z.testbit header i).
  { intros i Hi. rewrite <- Hdata. change 256 with (2 ^ 8).
    rewrite Z.mod_pow2_bits_low by lia. reflexivity. }
  exists (ByteInput.mk (ByteInput.buffer bi) (ByteInput.source bi) (p + 1) (ByteInput.filled bi)).
  split; [unfold Stream.wf; simpl; lia|]. split; [exact Hrest|].
  unfold DeflateReader.startBlock, BitReader.getBits at 1.
  unfold BitReader.refillIfNeeded, BitReader.minimumBits, BitReader.make. simpl.
  change (8 - 16 / 8) with 6. rewrite Hrange. simpl.
  replace (len chunk) with 6 by (unfold chunk; rewrite len_seg; lia).
  fold data1.
  destruct (reversedBytes_total data1) as (reversed1 & -> & Hlookup1). simpl.
  unfold BitReader.getBits, BitReader.refillIfNeeded, BitReader.minimumBits. simpl.
  destruct (reversedBytes_total (Z.shiftr data1 1)) as (reversed2 & -> & Hlookup2). simpl.
  apply reversedBytes_bits in Hlookup1 as [Hrange1 Hmirror1]; [|apply Z.mod_pos_bound; lia].
  apply reversedBytes_bits in Hlookup2 as [Hrange2 Hmirror2]; [|apply Z.mod_pos_bound; lia].
  assert (Htop : ∀ x, 0 ≤ x < 256 → ∀ n i, 0 ≤ n ≤ 8 → 8 - n ≤ i → Z.testbit (Z.shiftr x n) i = false).
  { intros x Hx n i Hn Hi. rewrite Z.shiftr_spec by lia.
    destruct (Z.eq_dec x 0) as [->|Hne]; [apply Z.bits_0|].
    apply Z.bits_above_log2; [lia|].
    apply Z.lt_le_trans with 8; [|lia]. apply Z.log2_lt_pow2; lia. }
  assert (Htype : Z.shiftr reversed2 6 = 0).
  { apply Z.bits_inj'. intros i Hi. rewrite Z.bits_0.
    destruct (Z_lt_le_dec i 2) as [Hsmall|Hbig]; [|apply Htop; lia].
    rewrite Z.shiftr_spec by lia.
    rewrite Hmirror2 by lia. change 256 with (2 ^ 8).
    rewrite Z.mod_pow2_bits_low by lia. rewrite Z.shiftr_spec by lia.
    replace (7 - (i + 6) + 1) with (2 - i) by lia. rewrite Hbits by lia.
    assert (Hcases : i = 0 ∨ i = 1) by lia.
    destruct Hcases as [-> | ->]; assumption. }
  assert (Hlast : negb (Z.shiftr reversed1 7 =? 0) = Z.testbit header 0).
  { rewrite <- Hbits by lia.
    rewrite <- (Z.mod_pow2_bits_low data1 8 0) by lia. change (2 ^ 8) with 256.
    pose proof (Hmirror1 7 ltac:(lia)) as Hm. change (7 - 7) with 0 in Hm. rewrite <- Hm.
    destruct (Z.testbit reversed1 7) eqn:Hbit.
    - destruct (Z.shiftr reversed1 7 =? 0) eqn:E; [|reflexivity].
      apply Z.eqb_eq in E.
      assert (Hzero : Z.testbit (Z.shiftr reversed1 7) 0 = false) by (rewrite E; apply Z.bits_0).
      rewrite Z.shiftr_spec in Hzero by lia. change (0 + 7) with 7 in Hzero.
      rewrite Hbit in Hzero. discriminate.
    - replace (Z.shiftr reversed1 7) with 0; [reflexivity|].
      symmetry. apply Z.bits_inj'. intros i Hi. rewrite Z.bits_0.
      destruct (Z.eq_dec i 0) as [->|Hne]; [|apply Htop; lia].
      rewrite Z.shiftr_spec by lia. exact Hbit. }
  change (8 - 2) with 6. change (8 - 1) with 7. rewrite Htype, Hlast. simpl.
  unfold DeflateReader.emplace_LiteralState, BitReader.destroy, ByteInput.returnBytes. simpl.
  change (Z.shiftr (0 + Z.shiftl 6 3 - 1 - 2) 3) with 5.
  replace (p + 6 - 5) with (p + 1) by lia.
  destruct (DeflateReader.LiteralState_make _) as [[bytesLeft input]|e]; reflexivity.
Qed.

End StoredBlockHeader.

Section WindowAndStream.
Context {S : DecompressionSettings}.

Lemma window_extends (bo bo' : ByteOutput.t S) :
  Session.wf bo → Session.extends bo bo' →
  window bo' = window bo ++ Session.written bo bo'.
Proof.
  intros (H0 & H1 & H2) ((W0 & W1 & W2) & Hconsumed & Hused & Hprefix & Hlen & _).
  unfold window, Session.written.
  rewrite (seg_split 0 (ByteOutput.used bo) (ByteOutput.used bo')) by lia.
  f_equal. apply (seg_prefix _ _ (ByteOutput.used bo)); [exact Hprefix|lia|lia].
Qed.

Lemma len_window (bo : ByteOutput.t S) : Session.wf bo → len (window bo) = ByteOutput.used bo.
Proof. intros (H0 & H1 & H2). unfold window. rewrite len_seg by lia. lia. Qed.

Lemma window_follows_producer (session : Session.t S) bo' :
  window_follows session → Session.extends (Session.state session) bo' →
  window_follows
    (Session.mk bo' (Session.emitted session ++ Session.written (Session.state session) bo')
       (Session.returned session)).
Proof.
  intros (Hwf & [older Holder] & Hsize) Hext.
  pose proof (window_extends _ _ Hwf Hext) as Hwindow.
  pose proof (len_window _ Hwf) as Hlen.
  assert (Hwf' : Session.wf bo') by apply Hext.
  pose proof (len_window _ Hwf') as Hlen'.
  unfold window_follows. simpl. split; [exact Hwf'|]. split.
  - exists older. rewrite Hwindow, Holder, app_assoc. reflexivity.
  - rewrite Hwindow, len_app in Hlen'. rewrite len_app.
    destruct Hext as (_ & _ & Hused & _). destruct Hsize as [Hall | Hmin]; [left | right]; lia.
Qed.

Lemma window_follows_step (session session' : Session.t S) op :
  window_follows session → Session.step session op = OK session' → window_follows session'.
Proof.
  intros Hfollows Hstep. pose proof Hfollows as (Hwf & [older Holder] & Hsize).
  destruct op as [byte | bytes | length distance | | bytesToKeep]; simpl in Hstep.
  - bind_ok Hstep. injection Hstep as <-.
    apply addByte_extends in E as [Hext Hwritten]; [|exact Hwf].
    rewrite <- Hwritten. apply window_follows_producer; assumption.
  - bind_ok Hstep. injection Hstep as <-.
    apply addBytes_extends in E as [Hext Hwritten]; [|exact Hwf].
    rewrite <- Hwritten. apply window_follows_producer; assumption.
  - bind_ok Hstep. injection Hstep as <-.
    apply repeatSequence_extends in E; [|exact Hwf].
    apply window_follows_producer; assumption.
  - injection Hstep as <-. exact Hfollows.
  - bind_ok Hstep. destruct a as [slice bo']. injection Hstep as <-.
    pose proof (consume_pending _ _ _ _ Hwf E) as (_ & Hwf' & _).
    unfold window_follows. simpl. split; [exact Hwf'|].
    destruct Hwf as (H0 & H1 & H2).
    unfold ByteOutput.consume in E.
    destruct (negb (ByteOutput.expectsMore (Session.state session))).
    { bind_ok E. injection E as _ <-. unfold window in *. simpl. eauto. }
    set (bo := Session.state session) in *.
    set (kept := Z.min bytesToKeep (ByteOutput.consumed bo)) in *.
    set (minimum := minOutputBufferSize S - ByteOutput.used bo + ByteOutput.consumed bo) in *.
    assert (Hgen : ∀ bytesKept removing,
      removing = ByteOutput.consumed bo - bytesKept → minimum ≤ bytesKept →
      (if removing <? 0 then Throw Consume_cannot_keep_more_bytes else
       do buffer' <- memmove (ByteOutput.buffer bo) 0 removing (ByteOutput.used bo - removing) in
       let used' := ByteOutput.used bo - removing in
       let consumed' := used' in
       let bo' := ByteOutput.mk buffer' used' consumed' (ByteOutput.expectsMore bo)
                    (ByteOutput.checksum bo) in
       do returning <- ByteOutput.span bytesKept (consumed' - bytesKept) bo' in
       OK (returning,
           ByteOutput.mk buffer' used' consumed' (ByteOutput.expectsMore bo)
             (cs_fold (Checksum S) (ByteOutput.checksum bo) returning))) = OK (slice, bo') →
      (∃ older, Session.emitted session = older ++ window bo') ∧
      (ByteOutput.used bo' = len (Session.emitted session) ∨
       minOutputBufferSize S ≤ ByteOutput.used bo')).
    { intros bytesKept removing Hremoving Hminimum H.
      destruct (removing <? 0) eqn:Hneg; [discriminate|].
      bind_ok H. bind_ok H. injection H as _ <-.
      apply memmove_inv in E0 as (Hn & Hsrc & Hsrcend & _ & _ & Hlen & _ & Hseg).
      unfold window. simpl. split; [|right; unfold minimum in Hminimum; lia].
      exists (older ++ seg 0 removing (ByteOutput.buffer bo)).
      rewrite Z.add_0_l in Hseg. rewrite Hseg.
      replace (removing + (ByteOutput.used bo - removing)) with (ByteOutput.used bo) by lia.
      rewrite <- app_assoc, <- seg_split by lia. exact Holder. }
    destruct (kept <? minimum) eqn:Hkept; simpl in E; eapply Hgen in E; eauto; lia.
Qed.

Lemma window_follows_run ops (session session' : Session.t S) :
  window_follows session → Session.run ops session = OK session' → window_follows session'.
Proof.
  revert session. induction ops as [|op ops IH]; intros session Hfollows H; simpl in H.
  - injection H as <-. exact Hfollows.
  - bind_ok H. eapply IH; [|exact H]. eapply window_follows_step; eassumption.
Qed.

(** X19: through a session of the output window, whatever is written and
    consumed, the window holds the end of the stream of the bytes written: all
    of it until the first [consume] that moves the window, and
    [minOutputBufferSize] bytes at least afterwards.  A back-reference
    therefore copies from the stream: every byte it adds is the byte of the
    stream [distance] places before it, also when those bytes were written
    before a [consume]. *)
Theorem X19_back_references_copy_from_the_stream ops (session : Session.t S) :
  Session.run ops Session.start = OK session →
  (∃ older, Session.emitted session = older ++ window (Session.state session)) ∧
  (ByteOutput.used (Session.state session) = len (Session.emitted session) ∨
   minOutputBufferSize S ≤ ByteOutput.used (Session.state session)) ∧
  ∀ length distance session',
    0 < length →
    Session.step session (Session.RepeatSequence length distance) = OK session' →
    1 ≤ distance ≤ len (Session.emitted session) ∧
    ∃ copy, Session.emitted session' = Session.emitted session ++ copy ∧
            len copy = length ∧
            ∀ i, 0 ≤ i < length →
                 copy !! Z.to_nat i
                 = (Session.emitted session ++ copy)
                     !! Z.to_nat (len (Session.emitted session) + i - distance).
Proof.
  intros Hrun.
  assert (Hstart : window_follows (@Session.start S)).
  { unfold window_follows, Session.start, window, ByteOutput.make, Session.wf. simpl.
    pose proof (len_nonneg (replicate (Z.to_nat (maxOutputBufferSize S)) 0)).
    split; [lia|]. split; [exists []; rewrite seg_empty; reflexivity|].
    left. reflexivity. }
  pose proof (window_follows_run _ _ _ Hstart Hrun) as (Hwf & [older Holder] & Hsize).
  split; [eauto|]. split; [exact Hsize|].
  intros length distance session' Hlength Hstep. simpl in Hstep.
  bind_ok Hstep. injection Hstep as <-. simpl.
  set (bo := Session.state session) in *.
  pose proof (repeatSequence_extends _ _ _ _ Hwf E) as Hext.
  pose proof (window_extends _ _ Hwf Hext) as Hwindow.
  pose proof (len_window _ Hwf) as Hlen.
  unfold ByteOutput.repeatSequence in E. bind_ok E.
  assert (Hle : 0 ≤ length) by lia.
  pose proof (repeatSequence_loop_used _ _ _ _ _ _ Hle E) as [Hused Hbuffer].
  apply repeatSequence_loop_copies in E as (Hprefix & Hdistance & Hcopies); [|exact Hwf|lia].
  specialize (Hdistance ltac:(lia)).
  assert (Hstream : len (Session.emitted session) = len older + ByteOutput.used bo)
    by (rewrite Holder, len_app, Hlen; reflexivity).
  pose proof (len_nonneg older) as Holder_len.
  split; [lia|].
  exists (Session.written bo a). split; [reflexivity|].
  destruct Hwf as (H0 & H1 & H2). destruct Hext as ((W0 & W1 & W2) & _).
  assert (Hcopy : len (Session.written bo a) = length)
    by (unfold Session.written; rewrite len_seg by lia; lia).
  split; [exact Hcopy|].
  intros i Hi.
  assert (Hwritten : ∀ j, 0 ≤ j < length →
            Session.written bo a !! Z.to_nat j
            = ByteOutput.buffer a !! Z.to_nat (ByteOutput.used bo + j)).
  { intros j Hj. unfold Session.written. apply lookup_seg; lia. }
  rewrite Hwritten by lia. rewrite Hcopies by lia.
  destruct (Z_lt_le_dec i distance) as [Hback | Hinside].
  - assert (Hidx : Z.to_nat (len (Session.emitted session) + i - distance)
                   = (Datatypes.length older + Z.to_nat (ByteOutput.used bo + i - distance))%nat)
      by (rewrite Hstream; unfold len; lia).
    rewrite lookup_app_l by (rewrite Hidx; unfold len in Hstream; lia).
    rewrite Hidx, Holder, lookup_app_r by lia.
    replace (Datatypes.length older + Z.to_nat (ByteOutput.used bo + i - distance)
             - Datatypes.length older)%nat
      with (Z.to_nat (ByteOutput.used bo + i - distance)) by lia.
    unfold window. fold bo.
    rewrite <- (Z.add_0_l (ByteOutput.used bo + i - distance)).
    rewrite lookup_seg by lia. rewrite Z.add_0_l.
    apply (lookup_prefix _ _ (ByteOutput.used bo)); [exact Hprefix | lia].
  - rewrite lookup_app_r by (unfold len in *; lia).
    replace (Z.to_nat (len (Session.emitted session) + i - distance)
             - Datatypes.length (Session.emitted session))%nat
      with (Z.to_nat (i - distance)) by (unfold len; lia).
    rewrite Hwritten by lia. f_equal. lia.
Qed.

End WindowAndStream.

Section RunsPastTheArray.
Context {Src : Type} `{!PullSource Src}.

(** A run that ends past the array is written until the end of the array is
    reached, and the next entry is outside of it. *)
Lemma fillLengths_overflow codes from count length :
  0 ≤ from ≤ len codes → len codes < from + count →
  EncodedTable.fillLengths codes from count length = Throw Undefined_behaviour.
Proof.
  unfold EncodedTable.fillLengths, for_range. intros Hfrom Hcount.
  replace (from + count - from) with count by lia.
  assert (Hturns : len codes < from + Z.of_nat (Z.to_nat count)) by lia.
  revert Hturns. generalize (Z.to_nat count) as turns. clear Hcount count.
  intros turns. revert from codes Hfrom.
  induction turns as [|turns IH]; intros from codes Hfrom Hturns; [lia|].
  simpl. unfold EncodedTable.setLength at 1. unfold index at 1.
  destruct (from <? 0) eqn:Hneg; [lia|].
  destruct (codes !! Z.to_nat from) as [entry|] eqn:Hentry; [|reflexivity].
  simpl. apply lookup_lt_Some in Hentry.
  unfold store. destruct ((0 <=? from) && (from <? len codes)) eqn:E;
    [|unfold len in E; lia].
  simpl. apply IH; unfold len in *; rewrite length_insert; lia.
Qed.

(** X20: in the code-length sequence of a table, a run (symbol 16, 17 or
    18) that ends past the array of the codes is not refused: its entries are
    written one after the other, the last of them past the end of the array. *)
Theorem X20_run_past_the_array lookup lengths i codes quantities r (bi : ByteInput.t Src)
    symbol r1 bi1 bits r2 bi2 :
  16 ≤ symbol ≤ 18 → 0 < i ≤ len codes →
  BitReader.peekAByteAndConsumeSome (EncodedTable.peekLength lookup lengths) r bi
  = OK (symbol, r1, bi1) →
  BitReader.getBitsForwardOrder (run_bits symbol) r1 bi1 = OK (bits, r2, bi2) →
  len codes < i + run_count symbol bits →
  EncodedTable.readLength lookup lengths i (EncodedTable.mkLengths codes quantities r bi)
  = Throw Undefined_behaviour.
Proof.
  intros Hsymbol Hi Hpeek Hbits Hpast. unfold EncodedTable.readLength.
  rewrite Hpeek. simpl.
  destruct (symbol <? 16) eqn:E; [lia|].
  assert (Hcases : symbol = 16 ∨ symbol = 17 ∨ symbol = 18) by lia.
  destruct Hcases as [-> | [-> | ->]];
    [change (run_bits 16) with 2 in Hbits; change (run_count 16 bits) with (bits + 3) in Hpast
    |change (run_bits 17) with 3 in Hbits; change (run_count 17 bits) with (bits + 3) in Hpast
    |change (run_bits 18) with 7 in Hbits; change (run_count 18 bits) with (bits + 11) in Hpast];
    simpl.
  - destruct (i =? 0) eqn:E0; [lia|]. rewrite Hbits. simpl.
    destruct (index codes (i - 1)) as [previous|e] eqn:Hprevious.
    + simpl. rewrite fillLengths_overflow by lia. reflexivity.
    + unfold index in Hprevious. destruct (i - 1 <? 0) eqn:Hneg; [lia|].
      destruct (codes !! Z.to_nat (i - 1)) eqn:Hentry; [discriminate|].
      apply lookup_ge_None in Hentry. unfold len in Hi. lia.
  - rewrite Hbits. simpl. rewrite fillLengths_overflow by lia. reflexivity.
  - rewrite Hbits. simpl. rewrite fillLengths_overflow by lia. reflexivity.
Qed.

End RunsPastTheArray.


(** ** Concrete runs *)

Lemma VectorData_delivers_stream : delivers_stream VectorData.
Proof.
  intros src capacity bytes next. unfold readMore, VectorData_source.
  intros [= <- <-]. unfold src_pending, VectorData_stream. simpl.
  symmetry. apply take_drop.
Qed.

Lemma ChunkedData_delivers_stream : delivers_stream ChunkedData.
Proof.
  intros src capacity bytes next. unfold readMore, ChunkedData_source.
  intros [= <- <-]. unfold src_pending, ChunkedData_stream. simpl.
  symmetry. apply take_drop.
Qed.

Lemma SpanData_delivers_stream : delivers_stream SpanData.
Proof.
  intros src capacity bytes next. unfold readMore, SpanData_source.
  destruct (Z.min capacity (len (span_data src)) =? 0); [discriminate|].
  intros [= <- <-]. unfold src_pending, SpanData_stream. simpl.
  symmetry. apply take_drop.
Qed.

(** The fixed block whose second symbol is the length symbol 280 is not
    decoded. *)
Lemma fixed_symbol_280_stream_fails :
  readDeflateIntoVector MinDecompressionSettings 2 2 (mkVectorData fixed_symbol_280_stream)
  = Throw Undefined_behaviour.
Proof. vm_compute. reflexivity. Qed.

(** When the window fills up between two separators, the text comes in
    several batches and the line that spans two of them is handed over
    without its start: of the 38 times b only the last 5 are. *)
Lemma readByLines_cuts_a_line_across_batches :
  (do '(text, _) <-
     IDeflateArchive.readAll IDeflateArchive.onFinish 2 8 [] Run.two_lines_archive in
   OK text) = OK Run.two_lines ∧
  (do '(payloads, _) <-
     IDeflateArchive.readByLines IDeflateArchive.onFinish 2 8 0x0a Run.two_lines_archive in
   OK payloads) = OK [replicate 30 0x61; replicate 5 0x62; []].
Proof. vm_compute. split; reflexivity. Qed.

(** When a stored block yields because the source handed out less than was
    asked for, and the window holds less than [minOutputBufferSize] bytes,
    the [consume] of the caller throws. *)
Lemma stored_block_in_small_chunks_aborts :
  (do '(text, _) <-
     IDeflateArchive.readAll IDeflateArchive.onFinish 2 8 [] Run.hello_archive in
   OK text) = Throw Consume_cannot_keep_more_bytes.
Proof. vm_compute. reflexivity. Qed.

Lemma C1_witness :
  BitReader.value Run.prefix_1100000_part.1.1 = 96 ∧
  ∃ e, DeflateReader.Fixed_turn
         (CopyState.mk 0 0, BitReader.make, Run.prefix_1100000, Run.window) = Throw e.
Proof.
  split; [vm_compute; reflexivity|].
  apply (C1_length_symbols_280_287_never_decoded (CopyState.mk 0 0) BitReader.make
           Run.prefix_1100000 Run.window
           Run.prefix_1100000_part.1.1 Run.prefix_1100000_part.1.2 Run.prefix_1100000_part.2).
  - vm_cast_no_check (eq_refl (OK Run.prefix_1100000_part)).
  - vm_compute. split; discriminate.
Defined.

Lemma C2_counterexample :
  let bi := ByteInput.make MinDecompressionSettings (mkVectorData overrun_stream) in
  (do '(_, r, bi) <- BitReader.getBits 1 BitReader.make bi in
   do '(_, r, bi) <- BitReader.getBits 2 r bi in
   do '(extraCodes, distanceCodes, codeLengthCount, r, bi) <- DeflateReader.readCounts r bi in
   do '(lengths, r, bi) <- DeflateReader.readCodeCodingLengths codeLengthCount r bi in
   do lookup <- DeflateReader.generateCodeCoding lengths in
   do '(_, r, bi) <- EncodedTable.make 288 (257 + extraCodes) lookup lengths r bi in
   do '(i, _) <- EncodedTable.readLength lookup lengths 0
                   (EncodedTable.mkLengths (replicate 31 (CodeEntry.mk 0 0))
                      (replicate 17 0) r bi) in
   OK (257 + extraCodes + distanceCodes, distanceCodes, i)) = OK (258, 1, 3) ∧
  readDeflateIntoVector MinDecompressionSettings 2 2 (mkVectorData overrun_stream) = OK [].
Proof. vm_compute. split; reflexivity. Qed.

Lemma C2_witness :
  EncodedTable.make 31 1 Run.lookup_0_16 Run.lengths_0_16 BitReader.make Run.starts_with_16
  = Throw Invalid_lookback_position ∧
  kind_of Undefined_behaviour ≠ Some MalformedHeader.
Proof.
  destruct (C2_code_length_sequence_errors Run.lookup_0_16 Run.lengths_0_16
              (replicate 31 (CodeEntry.mk 0 0)) (replicate 17 0)
              BitReader.make Run.starts_with_16 1) as [Hfirst _].
  destruct (C2_code_length_sequence_errors Run.lookup_0_16 Run.lengths_0_16
              (replicate 288 (CodeEntry.mk 0 0)) (replicate 17 0)
              BitReader.make Run.zeros 288) as [_ Hlater].
  split.
  - apply (Hfirst Run.starts_with_16_peek.1.2 Run.starts_with_16_peek.2 31); [lia|].
    vm_cast_no_check (eq_refl (OK Run.starts_with_16_peek)).
  - apply (Hlater 288%nat 1); [lia|]. vm_compute. reflexivity.
Defined.

Lemma C3_counterexample :
  let a := IDeflateArchive.make (S := MinDecompressionSettings)
             (mkChunkedData 4096 stored_line_stream) in
  (do '(text, _) <- IDeflateArchive.readAll IDeflateArchive.onFinish 2 3 [] a in
   OK text) = OK [0x61; 0x0a] ∧
  occurrences 0x0a [0x61; 0x0a] = 1%nat ∧
  (do '(payloads, _) <-
     IDeflateArchive.readByLines IDeflateArchive.onFinish 2 3 0x0a a in
   OK payloads) = OK [[0x61]; []].
Proof. vm_compute. repeat split. Qed.

Lemma C3_witness :
  ∃ payloads,
    IDeflateArchive.readByLines IDeflateArchive.onFinish 2 3 0x0a Run.line_archive
    = OK (payloads, Run.line_read.2) ∧
    length payloads = 2%nat ∧ join 0x0a payloads = [0x61; 0x0a].
Proof.
  destruct (C3_readByLines_one_batch IDeflateArchive.onFinish 2 3 0x0a
              Run.line_archive Run.line_read.2 [0x61; 0x0a])
    as (payloads & Hrun & _ & Hlines).
  - vm_cast_no_check (eq_refl (OK Run.line_read)).
  - vm_compute. reflexivity.
  - lia.
  - exists payloads. split; [exact Hrun|]. apply Hlines. discriminate.
Defined.

Lemma C4_counterexample :
  (do '(_, r1, bi1) <- BitReader.getBits 1 BitReader.make
                         (ByteInput.make MinDecompressionSettings
                            (mkVectorData [0x4b; 0x04; 0x00])) in
   do '(stored, _, _) <- BitReader.getBits 2 r1 bi1 in
   do '(field, _, _) <- BitReader.getBitsForwardOrder 2 r1 bi1 in
   OK (BitReader.value stored, field)) = OK (2, 1).
Proof. vm_compute. reflexivity. Qed.

Lemma C4_witness :
  DeflateReader.startBlock BitReader.make Run.fixed_a
  = OK (true, DeflateReader.FixedCodeState (CopyState.mk 0 0) Run.fixed_a_type.1.2,
        Run.fixed_a_type.2).
Proof.
  destruct (C4_block_type_dispatch BitReader.make Run.fixed_a
              Run.fixed_a_last.1.1 Run.fixed_a_last.1.2 Run.fixed_a_last.2
              Run.fixed_a_type.1.1 Run.fixed_a_type.1.2 Run.fixed_a_type.2)
    as (_ & _ & Hfixed & _).
  - vm_cast_no_check (eq_refl (OK Run.fixed_a_last)).
  - vm_cast_no_check (eq_refl (OK Run.fixed_a_type)).
  - rewrite Hfixed by (vm_compute; reflexivity). repeat f_equal; vm_compute; reflexivity.
Defined.

Lemma C5_counterexample :
  let bi := ByteInput.make MinDecompressionSettings (mkVectorData [0xe0; 0x03]) in
  (do '(hlit, r, bi) <- BitReader.getBitsForwardOrder 5 BitReader.make bi in
   do '(hdist, r, bi) <- BitReader.getBitsForwardOrder 5 r bi in
   do '(hclen, _, _) <- BitReader.getBitsForwardOrder 4 r bi in
   OK (hlit, hdist, hclen)) = OK (0, 31, 0) ∧
  (do _ <- DeflateReader.readCounts BitReader.make bi in OK tt)
  = Throw Impossible_number_of_distance_codes ∧
  readDeflateIntoVector MinDecompressionSettings 2 2 (mkVectorData [0x05; 0x1f; 0x00])
  = Throw Impossible_number_of_distance_codes.
Proof. vm_compute. repeat split. Qed.

Lemma C5_witness :
  DeflateReader.readCounts BitReader.make Run.counts
  = OK (0, 1, 18, Run.counts_hclen.1.2, Run.counts_hclen.2).
Proof.
  destruct (C5_dynamic_header_ranges BitReader.make Run.counts
              Run.counts_hlit.1.1 Run.counts_hlit.1.2 Run.counts_hlit.2
              Run.counts_hdist.1.1 Run.counts_hdist.1.2 Run.counts_hdist.2
              Run.counts_hclen.1.1 Run.counts_hclen.1.2 Run.counts_hclen.2)
    as (_ & Haccepted & _).
  - vm_cast_no_check (eq_refl (OK Run.counts_hlit)).
  - vm_cast_no_check (eq_refl (OK Run.counts_hdist)).
  - vm_cast_no_check (eq_refl (OK Run.counts_hclen)).
  - rewrite Haccepted by (vm_compute; split; discriminate).
    repeat f_equal; vm_compute; reflexivity.
Defined.



Lemma C8_witness :
  concat (Session.returned Run.session_end) = Session.emitted Run.session_end ∧
  Session.emitted Run.session_end = [0x78; 0x78; 0x78; 0x78].
Proof.
  destruct (C8_consume_returns_the_stream_once Run.session_ops Run.session_end)
    as (_ & Hlast & _).
  - vm_cast_no_check (eq_refl (OK Run.session_end)).
  - split; [|vm_compute; reflexivity].
    apply (Hlast [Session.AddByte 0x78; Session.RepeatSequence 3 1; Session.Done] 0).
    reflexivity.
Defined.



Lemma X1_witness :
  cs_fold FastCrc32 (cs_init FastCrc32) Run.digits
  = cs_fold LightCrc32 (cs_init LightCrc32) Run.digits.
Proof.
  apply (X1_FastCrc32_is_LightCrc32 (cs_init FastCrc32) Run.digits).
  - simpl. lia.
  - repeat constructor; lia.
Defined.

Lemma X2_witness :
  foldl (cs_fold FastCrc32) (cs_init FastCrc32) [Run.digits_1; Run.digits_2]
  = cs_fold FastCrc32 (cs_init FastCrc32) Run.digits.
Proof.
  apply (X2_FastCrc32_slices (cs_init FastCrc32) [Run.digits_1; Run.digits_2]).
  - simpl. lia.
  - repeat constructor; lia.
Defined.

Lemma VectorData_fills_batches : fills_batches VectorData.
Proof.
  intros src capacity Hcapacity. unfold readMore, VectorData_source, src_pending,
    VectorData_stream.
  pose proof (len_nonneg (allData src)) as Hlen.
  split.
  - unfold len in *. rewrite length_take. lia.
  - intros Hroom Hpending Hnone. apply Hpending.
    destruct (allData src) as [|b data]; [reflexivity|].
    replace (Z.to_nat (Z.min (len (b :: data)) capacity))
      with (Datatypes.S (Z.to_nat (Z.min (len (b :: data)) capacity - 1))) in Hnone
      by (unfold len in *; cbn [length] in *; lia).
    discriminate.
Qed.

Lemma SpanData_fills_batches : fills_batches SpanData.
Proof.
  intros src capacity Hcapacity. unfold readMore, SpanData_source, src_pending,
    SpanData_stream.
  pose proof (len_nonneg (span_data src)) as Hlen.
  destruct (Z.min capacity (len (span_data src)) =? 0) eqn:E.
  - apply Z.eqb_eq in E.
    destruct (span_data src); [auto|]. unfold len in *. cbn [length] in *. left. lia.
  - apply Z.eqb_neq in E. split.
    + unfold len in *. rewrite length_take. lia.
    + intros _ _ Hnone. destruct (span_data src) as [|b data]; [unfold len in *; cbn [length] in *; lia|].
      replace (Z.to_nat (Z.min capacity (len (b :: data))))
        with (Datatypes.S (Z.to_nat (Z.min capacity (len (b :: data)) - 1))) in Hnone
        by (unfold len in *; cbn [length] in *; lia).
      discriminate.
Qed.

Lemma X3_witness :
  Stream.unread (ByteInput.returnBytes 6 Run.trailer_range.2) = Stream.unread Run.trailer.
Proof.
  destruct (X3_returnBytes_gives_back VectorData_delivers_stream 6 6 Run.trailer
              Run.trailer_range.1 Run.trailer_range.2) as (_ & _ & _ & _ & Hall).
  - repeat split; vm_compute; discriminate.
  - lia.
  - split; vm_compute; discriminate.
  - vm_cast_no_check (eq_refl (OK Run.trailer_range)).
  - apply Hall. vm_compute. reflexivity.
Defined.

Lemma X4_witness :
  ∃ bi', ByteInput.getInteger 4 Run.trailer
         = OK (le_value (take 4 (Stream.unread Run.trailer)), bi') ∧
         Stream.unread bi' = drop 4 (Stream.unread Run.trailer) ∧ Stream.wf bi'.
Proof.
  destruct (X4_getInteger_needs_the_bytes VectorData_delivers_stream VectorData_fills_batches
              4 Run.trailer) as [Hok _].
  - repeat split; vm_compute; discriminate.
  - lia.
  - vm_compute. discriminate.
  - apply Hok. vm_compute. discriminate.
Defined.

Lemma X5_witness :
  0 ≤ Run.counts_hlit.1.1 < 2 ^ 5 ∧
  Z.testbit Run.counts_hlit.1.1 0 = Z.testbit (BitStream.unread BitReader.make Run.counts) 0.
Proof.
  destruct (X5_getBitsForwardOrder_reads_the_next_bits VectorData_delivers_stream
              5 BitReader.make Run.counts
              Run.counts_hlit.1.1 Run.counts_hlit.1.2 Run.counts_hlit.2) as (Hrange & Hvalue & _).
  - repeat split; vm_compute; discriminate.
  - split; [|split]; vm_compute; (discriminate || reflexivity).
  - assert (E : Stream.unread Run.counts = [0x00; 0x38]) by (vm_compute; reflexivity).
    rewrite E. repeat constructor; unfold is_byte; lia.
  - vm_cast_no_check (eq_refl (OK Run.counts_hlit)).
  - vm_compute. discriminate.
  - split; [exact Hrange | apply Hvalue; lia].
Defined.

Lemma X6_witness :
  ∃ v, BitReader.getBitsForwardOrder 1 BitReader.make Run.fixed_a
       = OK (v, Run.fixed_a_last.1.2, Run.fixed_a_last.2) ∧
       BitReader.getBitCount Run.fixed_a_last.1.1 = 1 ∧
       0 ≤ BitReader.value Run.fixed_a_last.1.1 < 2 ^ 1 ∧
       ∀ i, 0 ≤ i < 1 →
            Z.testbit (BitReader.value Run.fixed_a_last.1.1) i = Z.testbit v (1 - 1 - i).
Proof.
  apply (X6_getBits_mirrors_getBitsForwardOrder 1 BitReader.make Run.fixed_a).
  vm_cast_no_check (eq_refl (OK Run.fixed_a_last)).
Defined.

Lemma X8_witness :
  ByteOutput.used Run.copied = ByteOutput.used Run.one_byte + 3 ∧
  ∀ i, ByteOutput.used Run.one_byte ≤ i < ByteOutput.used Run.one_byte + 3 →
       ByteOutput.buffer Run.copied !! Z.to_nat i
       = ByteOutput.buffer Run.copied !! Z.to_nat (i - 1).
Proof.
  destruct (X8_repeatSequence_copies 3 1 Run.one_byte Run.copied)
    as (_ & Hused & _ & _ & Hcopies).
  - repeat split; vm_compute; discriminate.
  - lia.
  - vm_cast_no_check (eq_refl (OK Run.copied)).
  - split; [exact Hused | exact Hcopies].
Defined.

Lemma X9_witness : ∃ bo', ByteOutput.repeatSequence 3 1 Run.one_byte = OK bo'.
Proof.
  destruct (X9_repeatSequence_outcomes 3 1 Run.one_byte) as (_ & _ & _ & Hcopy).
  - repeat split; vm_compute; discriminate.
  - apply Hcopy; split; vm_compute; (discriminate || reflexivity).
Defined.

Lemma X10_witness :
  ByteOutput.consume 0 Run.window = Throw Consume_cannot_keep_more_bytes.
Proof.
  destruct (X10_consume_moves_the_window 0 Run.window) as [Hfew _].
  - repeat split; vm_compute; discriminate.
  - reflexivity.
  - lia.
  - apply Hfew. vm_compute. reflexivity.
Defined.

Lemma X11_witness :
  ∃ codeCodingLookup,
    DeflateReader.generateCodeCoding Run.lengths_0_16 = OK codeCodingLookup ∧
    len codeCodingLookup = 256 ∧
    Forall (λ symbol, 0 ≤ symbol < 19) codeCodingLookup.
Proof.
  destruct (X11_generateCodeCoding_is_not_checked Run.lengths_0_16) as [Hok _].
  - reflexivity.
  - apply Hok. vm_compute. discriminate.
Defined.

Lemma X12_witness :
  EncodedTable.generateCodes 1 Run.one_code_quantities Run.one_code
  = Throw Undefined_behaviour ∨
  EncodedTable.generateCodes 1 Run.one_code_quantities Run.one_code
  = Throw Run_out_of_Huffman_codes.
Proof.
  apply (X12_generateCodes_reads_past_the_codes 1 Run.one_code_quantities Run.one_code 1 1).
  - lia.
  - vm_compute. discriminate.
  - lia.
  - reflexivity.
  - lia.
Defined.

Lemma X13_witness :
  len Run.four_lengths_read.1.1 = 19 ∧
  Run.four_lengths_read.1.1 !! Z.to_nat 17
  = Some ((BitStream.unread BitReader.make Run.four_lengths / 2 ^ (3 * 1)) mod 8).
Proof.
  destruct (X13_readCodeCodingLengths_in_order VectorData_delivers_stream
              4 BitReader.make Run.four_lengths
              Run.four_lengths_read.1.1 Run.four_lengths_read.1.2 Run.four_lengths_read.2)
    as (Hlen & Hplaces & _).
  - repeat split; vm_compute; discriminate.
  - split; [|split]; vm_compute; (discriminate || reflexivity).
  - assert (E : Stream.unread Run.four_lengths = [0x4b; 0x04; 0x00])
      by (vm_compute; reflexivity).
    rewrite E. repeat constructor; unfold is_byte; lia.
  - lia.
  - vm_cast_no_check (eq_refl (OK Run.four_lengths_read)).
  - vm_compute. discriminate.
  - split; [exact Hlen|]. apply (Hplaces 1 17); [lia | reflexivity].
Defined.


Lemma FastCrc32_folds_in_pieces : folds_in_pieces FastCrc32.
Proof.
  intros a b Ha Hb. simpl.
  assert (Hinit : 0 ≤ 0xffffffff < 2 ^ 32) by lia.
  rewrite (FastCrc32_fold_LightCrc32_fold _ a Hinit Ha).
  rewrite FastCrc32_fold_LightCrc32_fold;
    [|apply LightCrc32_fold_below; assumption|assumption].
  rewrite FastCrc32_fold_LightCrc32_fold; [|assumption|apply Forall_app; auto].
  unfold LightCrc32_fold. rewrite foldl_app. reflexivity.
Qed.

Lemma VectorData_never_throws : never_throws VectorData.
Proof. intros src capacity. unfold readMore, VectorData_source. eauto. Qed.

Lemma X15_witness :
  ∃ h, GzHeader.wf h ∧
       Stream.unread Run.named = GzHeader.bytes h ++ Stream.unread Run.named_parsed.2 ∧
       Run.named_parsed.1 = GzHeader.info h ∧ Stream.wf Run.named_parsed.2 ∧
       (GzHeader.has h 0x02 = true →
        le_value (GzHeader.headerCrc h)
        = cs_digest FastCrc32
            (cs_fold FastCrc32 (cs_init FastCrc32) (GzHeader.checked h)) mod 2 ^ 16).
Proof.
  apply (X15_IGzFileInfo_reads_one_header (S := Run.Settings) VectorData_delivers_stream
           FastCrc32_folds_in_pieces 8 Run.named Run.named_parsed.1 Run.named_parsed.2).
  - repeat split; vm_compute; discriminate.
  - assert (E : Stream.unread Run.named
                = [0x1f; 0x8b; 0x08; 0x1a; 0x01; 0x02; 0x03; 0x80; 0x04; 0x03;
                   0x61; 0x62; 0x00; 0x63; 0x00; 0x1c; 0x26; 0x09; 0x09])
      by (vm_compute; reflexivity).
    rewrite E. repeat (apply Forall_cons_2; [unfold is_byte; lia|]). apply Forall_nil_2.
  - vm_cast_no_check (eq_refl (Parsed Run.named_parsed)).
Defined.

Lemma X16_witness :
  IGzFileInfo.make Run.Settings 1000 Run.short_extra = Rejected (From_input Does_not_terminate).
Proof.
  apply (X16_truncated_extra_data_never_returns (S := Run.Settings) VectorData_delivers_stream
           VectorData_fills_batches VectorData_never_throws 1000 Run.short_extra
           0x04 [0; 0; 0; 0] 0x00 0x03 [0x05; 0x00] [0x01; 0x02]).
  - repeat split; vm_compute; discriminate.
  - vm_compute. discriminate.
  - vm_compute. reflexivity.
  - reflexivity.
  - reflexivity.
  - vm_compute. discriminate.
  - vm_compute. reflexivity.
Defined.

(** The stream of two blocks is decoded or not, as the input buffer is. *)
Lemma two_blocks_and_the_input_buffer :
  readDeflateIntoVector Run.LongerInput 3 3 (mkVectorData Run.two_blocks)
  = OK [0x61; 0x61; 0x61; 0x61; 0x61; 0x61; 0x61; 0x61; 0x61; 0x78; 0x79; 0x7a] ∧
  readDeflateIntoVector Run.Settings 3 3 (mkVectorData Run.two_blocks)
  = Throw Undefined_behaviour.
Proof. split; vm_compute; reflexivity. Qed.

Lemma X17_witness :
  DeflateReader.startBlock Run.two_blocks_between.1 Run.two_blocks_between.2
  = Throw Undefined_behaviour.
Proof.
  apply (X17_stored_block_after_compaction VectorData_fills_batches).
  - repeat split; vm_compute; discriminate.
  - reflexivity.
  - split; vm_compute; (discriminate || reflexivity).
  - reflexivity.
  - reflexivity.
  - vm_compute. reflexivity.
  - vm_compute. discriminate.
  - vm_compute. discriminate.
Defined.

Lemma X18_witness :
  ∃ bi', Stream.wf bi' ∧
         Stream.unread bi' = [0x03; 0x00; 0xfc; 0xff; 0x78; 0x79; 0x7a] ∧
         DeflateReader.startBlock BitReader.make Run.stored_xyz
         = do '(bytesLeft, input) <- DeflateReader.LiteralState_make bi' in
           OK (Z.testbit 0x01 0, DeflateReader.LiteralState bytesLeft, input).
Proof.
  apply (X18_stored_block_starts_at_the_next_byte Run.stored_xyz 0x01).
  - repeat split; vm_compute; discriminate.
  - vm_compute. reflexivity.
  - vm_compute. reflexivity.
  - unfold is_byte. lia.
  - reflexivity.
  - reflexivity.
Defined.

Lemma X19_witness :
  (∃ older, Session.emitted Run.window_session
            = older ++ window (Session.state Run.window_session)) ∧
  (ByteOutput.used (Session.state Run.window_session)
   = len (Session.emitted Run.window_session) ∨
   minOutputBufferSize Run.Settings ≤ ByteOutput.used (Session.state Run.window_session)) ∧
  ByteOutput.used (Session.state Run.window_session) = 36 ∧
  len (Session.emitted Run.window_session) = 64.
Proof.
  destruct (X19_back_references_copy_from_the_stream Run.window_ops Run.window_session)
    as (Holder & Hsize & _).
  - vm_cast_no_check (eq_refl (OK Run.window_session)).
  - split; [exact Holder|]. split; [exact Hsize|]. split; vm_compute; reflexivity.
Defined.

Lemma X20_witness :
  EncodedTable.readLength Run.lookup_0_16 Run.lengths_0_16 1
    (EncodedTable.mkLengths (replicate 2 (CodeEntry.mk 0 0)) (replicate 17 0)
       BitReader.make Run.starts_with_16)
  = Throw Undefined_behaviour.
Proof.
  apply (X20_run_past_the_array Run.lookup_0_16 Run.lengths_0_16 1 _ _ BitReader.make
           Run.starts_with_16 16 Run.starts_with_16_peek.1.2 Run.starts_with_16_peek.2
           Run.starts_with_16_run.1.1 Run.starts_with_16_run.1.2 Run.starts_with_16_run.2).
  - lia.
  - split; vm_compute; (discriminate || reflexivity).
  - vm_cast_no_check (eq_refl (OK Run.starts_with_16_peek)).
  - vm_cast_no_check (eq_refl (OK Run.starts_with_16_run)).
  - vm_compute. reflexivity.
Defined.
